(** * AKMCC (js2akm): the JavaScript-to-AKM module compiler, embedded in Rocq

    A shallow embedding of the compiler pipeline of [src/i386/akmcc/js2akm]:
    the parser front end (class [AKMParser]), the code generator
    ([AKMCodeGen], [src/codegen.js]), the optimizer as the compiler calls it
    ([AKMOptimizer], [src/optimizer.js]), the binary writer
    ([AKMBinaryWriter]), the driver ([AKMCompiler], [src/compiler.js]) and
    the inspector [showModuleInfo] of [bin/akmcc.js].

    Conventions of the embedding.
    - A JavaScript exception is an explicit result, [Throws]; the message of
      an exception raised by the run time itself is abridged.  A third result,
      [Unmodelled], marks the inputs on which the embedding does not follow
      the JavaScript run time (string-to-number coercion, the digits of a
      number beyond [2^53], object identity in a [Map], prototype mutation
      through [__proto__], an ill-formed syntax tree); nothing is stated
      about them.
    - A JavaScript number is an integer or [NaN] (the negative zero is the
      zero); a numeric literal of the source is an integer.
    - A JavaScript string is a [string] whose characters are the UTF-16 code
      units below 256; [utf8] encodes the units above 127 on two bytes.
    - A [Buffer] or an array of bytes is a [list Z] of values below 256.
    - The text of the source is parsed by acorn, which is not part of the
      repository: a source file is represented by what acorn returns. *)

From Stdlib Require Import ZArith List String Ascii Bool Lia DecimalString.
Import ListNotations.
Open Scope Z_scope.

Set Implicit Arguments.
Set Warnings "-register-all".

(** ** Results of JavaScript computations *)

Inductive js_error : Type :=
| TypeError (message : string)
| RangeError (message : string)
| Error (message : string).

Inductive outcome (A : Type) : Type :=
| Ok (a : A)
| Throws (e : js_error)
| Unmodelled.

Arguments Ok {A} a.
Arguments Throws {A} e.
Arguments Unmodelled {A}.

Definition bind {A B : Type} (c : outcome A) (k : A -> outcome B) : outcome B :=
  match c with
  | Ok a => k a
  | Throws e => Throws e
  | Unmodelled => Unmodelled
  end.

Notation "x <- c ;; k" := (bind c (fun x => k))
  (at level 61, c at next level, right associativity).

Fixpoint mapM {A B : Type} (f : A -> outcome B) (l : list A) : outcome (list B) :=
  match l with
  | [] => Ok []
  | x :: l' => y <- f x ;; ys <- mapM f l' ;; Ok (y :: ys)
  end.

Fixpoint foldM {A S : Type} (f : S -> A -> outcome S) (l : list A) (s : S) : outcome S :=
  match l with
  | [] => Ok s
  | x :: l' => s' <- f s x ;; foldM f l' s'
  end.

(** ** Numbers and the 32-bit operators *)

Inductive number : Type :=
| Int (z : Z)
| NaN.

Definition two32 : Z := 4294967296.

(** ECMAScript ToUint32 and ToInt32 on an integer. *)
Definition to_uint32 (z : Z) : Z := z mod two32.
Definition to_int32 (z : Z) : Z := (z + 2147483648) mod two32 - 2147483648.

Definition num_uint32 (n : number) : Z :=
  match n with Int z => to_uint32 z | NaN => 0 end.
Definition num_int32 (n : number) : Z :=
  match n with Int z => to_int32 z | NaN => 0 end.

(** [a << n], [a >>> n], [a >> n], [a | b] and [a & b] of JavaScript. *)
Definition js_shl (a n : Z) : Z := to_int32 (Z.shiftl (to_int32 a) (to_uint32 n mod 32)).
Definition js_ushr (a n : Z) : Z := Z.shiftr (to_uint32 a) (to_uint32 n mod 32).
Definition js_sar (a n : Z) : Z := Z.shiftr (to_int32 a) (to_uint32 n mod 32).
Definition js_or (a b : Z) : Z := Z.lor (to_int32 a) (to_int32 b).
Definition js_and (a b : Z) : Z := Z.land (to_int32 a) (to_int32 b).

(** ** Values *)

(** The values the restricted evaluator and the object parser produce.
    [JRef name] is the object [{ ref: name }]. *)
Inductive jsval : Type :=
| JUndef
| JNull
| JBool (b : bool)
| JNum (n : number)
| JStr (s : string)
| JRef (name : string)
| JArr (elements : list jsval)
| JObj (properties : list (string * jsval)).

Definition truthy (v : jsval) : bool :=
  match v with
  | JUndef | JNull => false
  | JBool b => b
  | JNum (Int z) => negb (z =? 0)
  | JNum NaN => false
  | JStr s => negb (String.eqb s "")
  | JRef _ | JArr _ | JObj _ => true
  end.

(** [a || b] *)
Definition js_lor (a b : jsval) : jsval := if truthy a then a else b.

Definition is_primitive (v : jsval) : bool :=
  match v with
  | JRef _ | JArr _ | JObj _ => false
  | _ => true
  end.

(** ToNumber; a non-empty string or array needs the run time's
    string-to-number conversion. *)
Definition to_number (v : jsval) : outcome number :=
  match v with
  | JUndef => Ok NaN
  | JNull => Ok (Int 0)
  | JBool b => Ok (Int (if b then 1 else 0))
  | JNum n => Ok n
  | JStr s => if String.eqb s "" then Ok (Int 0) else Unmodelled
  | JRef _ | JObj _ => Ok NaN
  | JArr l => match l with [] => Ok (Int 0) | _ => Unmodelled end
  end.

(** SameValueZero on primitive values (the key comparison of [Map] and the
    comparison of [indexOf] restricted to defined values); two objects are
    never reported equal. *)
Definition same_value (a b : jsval) : bool :=
  match a, b with
  | JUndef, JUndef => true
  | JNull, JNull => true
  | JBool x, JBool y => Bool.eqb x y
  | JNum (Int x), JNum (Int y) => x =? y
  | JNum NaN, JNum NaN => true
  | JStr x, JStr y => String.eqb x y
  | _, _ => false
  end.

(** ToString of a primitive value.  An integer up to [2^53 - 1] in absolute
    value prints its decimal digits.  A larger one prints the shortest digits
    that read back as the same double, and in exponent notation from 22
    digits on: this is not modelled. *)
Definition to_js_string (v : jsval) : outcome string :=
  match v with
  | JUndef => Ok "undefined"%string
  | JNull => Ok "null"%string
  | JBool b => Ok (if b then "true" else "false")%string
  | JNum NaN => Ok "NaN"%string
  | JNum (Int z) =>
      if Z.abs z <=? 9007199254740991
      then Ok (NilZero.string_of_int (Z.to_int z))
      else Unmodelled
  | JStr s => Ok s
  | JRef _ | JArr _ | JObj _ => Unmodelled
  end.

(** ** Strings and bytes *)

Definition code_unit (c : ascii) : Z := Z.of_N (N_of_ascii c).

(** UTF-8 encoding of a string of code units below 256. *)
Fixpoint utf8 (s : string) : list Z :=
  match s with
  | EmptyString => []
  | String c s' =>
      let u := code_unit c in
      if u <? 128 then u :: utf8 s'
      else Z.lor 192 (Z.shiftr u 6) :: Z.lor 128 (Z.land u 63) :: utf8 s'
  end.

(** [s.slice(0, n)] *)
Fixpoint slice0 (n : nat) (s : string) : string :=
  match n, s with
  | S n', String c s' => String c (slice0 n' s')
  | _, _ => EmptyString
  end.

(** ** Buffers *)

(** Overwrite [buf] from index [off] with [bs]; what does not fit is dropped
    (the length of a [Buffer] is fixed). *)
Fixpoint write_at (off : nat) (bs buf : list Z) : list Z :=
  match buf with
  | [] => []
  | x :: buf' =>
      match off with
      | S off' => x :: write_at off' bs buf'
      | O =>
          match bs with
          | [] => x :: buf'
          | b :: bs' => b :: write_at O bs' buf'
          end
      end
  end.

Definition byte_at (buf : list Z) (i : nat) : Z := nth i buf 0.

(** Little-endian bytes of an unsigned value. *)
Definition le_bytes (width : nat) (v : Z) : list Z :=
  map (fun k => Z.land (Z.shiftr v (8 * Z.of_nat k)) 255) (seq 0 width).

(** [buf.writeUIntNLE(value, offset)]: a range error outside [0, 2^(8N)),
    [NaN] is stored as zero. *)
Definition writeUInt (width : nat) (value : number) (offset : nat) (buf : list Z)
  : outcome (list Z) :=
  match value with
  | NaN => Ok (write_at offset (le_bytes width 0) buf)
  | Int v =>
      if (v <? 0) || (2 ^ (8 * Z.of_nat width) <=? v)
      then Throws (RangeError "The value of value is out of range")
      else Ok (write_at offset (le_bytes width v) buf)
  end.

Definition writeUInt32LE := writeUInt 4.
Definition writeUInt16LE := writeUInt 2.
Definition writeUInt8 := writeUInt 1.

(** [buf.readUIntNLE(offset)], for an offset at which the buffer has the
    bytes (a missing byte reads as zero here). *)
Definition readUInt32LE (buf : list Z) (offset : nat) : Z :=
  byte_at buf offset + 256 * byte_at buf (offset + 1)
  + 65536 * byte_at buf (offset + 2) + 16777216 * byte_at buf (offset + 3).

Definition readUInt16LE (buf : list Z) (offset : nat) : Z :=
  byte_at buf offset + 256 * byte_at buf (offset + 1).

Definition readUInt8 (buf : list Z) (offset : nat) : Z := byte_at buf offset.

(** [buf.slice(a, b)] *)
Definition buf_slice (buf : list Z) (a b : nat) : list Z := firstn (b - a) (skipn a buf).

(** ** Constants ([src/constants.js]) *)

Module CAPABILITIES.
Definition NONE : Z := 0x00000000.
Definition COMMAND : Z := 0x00000001.
Definition DRIVER : Z := 0x00000002.
Definition FILESYSTEM : Z := 0x00000004.
Definition NETWORK : Z := 0x00000008.
Definition ENVVAR : Z := 0x00000010.
Definition PROCESS : Z := 0x00000020.
Definition MEMORY : Z := 0x00000040.
Definition IRQ : Z := 0x00000080.
Definition IO_PORT : Z := 0x00000100.
Definition PCI : Z := 0x00000200.
Definition TIMER : Z := 0x00000400.
Definition LOG : Z := 0x00000800.
Definition SYSINFO : Z := 0x00001000.
Definition USER : Z := 0x00002000.
Definition SECURITY : Z := 0x00004000.
Definition PANIC : Z := 0x00008000.
Definition DEBUG : Z := 0x00010000.
Definition IPC : Z := 0x00020000.
Definition CRYPTO : Z := 0x00040000.
Definition ACPI : Z := 0x00080000.
Definition ALL : Z := 0xFFFFFFFF.
End CAPABILITIES.

Record api_info : Type := { capability : Z; argCount : Z }.

(** The table [API_FUNCTIONS], in the order of its keys. *)
Definition API_FUNCTIONS : list (string * api_info) :=
  let e (n : string) (c a : Z) := (n, {| capability := c; argCount := a |}) in
  [ e "log" CAPABILITIES.LOG 2; e "info" CAPABILITIES.LOG 1;
    e "warn" CAPABILITIES.LOG 1; e "error" CAPABILITIES.LOG 1;
    e "debug" CAPABILITIES.DEBUG 1; e "hexdump" CAPABILITIES.DEBUG 2;
    e "malloc" CAPABILITIES.MEMORY 1; e "calloc" CAPABILITIES.MEMORY 2;
    e "realloc" CAPABILITIES.MEMORY 2; e "free" CAPABILITIES.MEMORY 1;
    e "allocPage" CAPABILITIES.MEMORY 0; e "freePage" CAPABILITIES.MEMORY 1;
    e "registerCommand" CAPABILITIES.COMMAND 1;
    e "unregisterCommand" CAPABILITIES.COMMAND 1;
    e "getenv" CAPABILITIES.ENVVAR 1; e "setenv" CAPABILITIES.ENVVAR 2;
    e "unsetenv" CAPABILITIES.ENVVAR 1;
    e "registerDriver" CAPABILITIES.DRIVER 1;
    e "unregisterDriver" CAPABILITIES.DRIVER 1;
    e "registerFS" CAPABILITIES.FILESYSTEM 1;
    e "unregisterFS" CAPABILITIES.FILESYSTEM 1;
    e "open" CAPABILITIES.FILESYSTEM 2; e "close" CAPABILITIES.FILESYSTEM 1;
    e "read" CAPABILITIES.FILESYSTEM 3; e "write" CAPABILITIES.FILESYSTEM 3;
    e "seek" CAPABILITIES.FILESYSTEM 3;
    e "registerNetif" CAPABILITIES.NETWORK 2;
    e "unregisterNetif" CAPABILITIES.NETWORK 1;
    e "netifReceive" CAPABILITIES.NETWORK 3;
    e "registerIRQ" CAPABILITIES.IRQ 3; e "unregisterIRQ" CAPABILITIES.IRQ 1;
    e "enableIRQ" CAPABILITIES.IRQ 1; e "disableIRQ" CAPABILITIES.IRQ 1;
    e "outb" CAPABILITIES.IO_PORT 2; e "outw" CAPABILITIES.IO_PORT 2;
    e "outl" CAPABILITIES.IO_PORT 2; e "inb" CAPABILITIES.IO_PORT 1;
    e "inw" CAPABILITIES.IO_PORT 1; e "inl" CAPABILITIES.IO_PORT 1;
    e "ioWait" CAPABILITIES.IO_PORT 0;
    e "pciFindDevice" CAPABILITIES.PCI 2; e "pciFindClass" CAPABILITIES.PCI 2;
    e "pciReadConfig" CAPABILITIES.PCI 2; e "pciWriteConfig" CAPABILITIES.PCI 3;
    e "pciEnableBusmaster" CAPABILITIES.PCI 1;
    e "createTimer" CAPABILITIES.TIMER 3; e "startTimer" CAPABILITIES.TIMER 1;
    e "stopTimer" CAPABILITIES.TIMER 1; e "destroyTimer" CAPABILITIES.TIMER 1;
    e "getTicks" CAPABILITIES.TIMER 0; e "sleep" CAPABILITIES.TIMER 1;
    e "spawn" CAPABILITIES.PROCESS 3; e "kill" CAPABILITIES.PROCESS 2;
    e "getpid" CAPABILITIES.PROCESS 0; e "yield" CAPABILITIES.PROCESS 0;
    e "getSysinfo" CAPABILITIES.SYSINFO 0;
    e "getKernelVersion" CAPABILITIES.SYSINFO 0;
    e "ipcSend" CAPABILITIES.IPC 3; e "ipcReceive" CAPABILITIES.IPC 2;
    e "ipcCreateChannel" CAPABILITIES.IPC 1;
    e "ipcDestroyChannel" CAPABILITIES.IPC 1;
    e "sha256" CAPABILITIES.CRYPTO 2; e "randomBytes" CAPABILITIES.CRYPTO 2;
    e "getCurrentUID" CAPABILITIES.USER 0; e "getUsername" CAPABILITIES.USER 1;
    e "checkPermission" CAPABILITIES.USER 2 ]%string.

Module OPCODES.
Definition NOP : Z := 0x00.
Definition PUSH : Z := 0x01.
Definition PUSH_STR : Z := 0x02.
Definition PUSH_ARG : Z := 0x03.
Definition POP : Z := 0x04.
Definition DUP : Z := 0x05.
Definition SWAP : Z := 0x06.
Definition LOAD_LOCAL : Z := 0x10.
Definition STORE_LOCAL : Z := 0x11.
Definition LOAD_GLOBAL : Z := 0x12.
Definition STORE_GLOBAL : Z := 0x13.
Definition ADD : Z := 0x20.
Definition SUB : Z := 0x21.
Definition MUL : Z := 0x22.
Definition DIV : Z := 0x23.
Definition MOD : Z := 0x24.
Definition NEG : Z := 0x25.
Definition INC : Z := 0x26.
Definition DEC : Z := 0x27.
Definition AND : Z := 0x30.
Definition OR : Z := 0x31.
Definition XOR : Z := 0x32.
Definition NOT : Z := 0x33.
Definition SHL : Z := 0x34.
Definition SHR : Z := 0x35.
Definition EQ : Z := 0x40.
Definition NE : Z := 0x41.
Definition LT : Z := 0x42.
Definition LE : Z := 0x43.
Definition GT : Z := 0x44.
Definition GE : Z := 0x45.
Definition JMP : Z := 0x50.
Definition JZ : Z := 0x51.
Definition JNZ : Z := 0x52.
Definition CALL : Z := 0x53.
Definition CALL_API : Z := 0x54.
Definition RET : Z := 0x55.
Definition LOAD8 : Z := 0x60.
Definition LOAD16 : Z := 0x61.
Definition LOAD32 : Z := 0x62.
Definition STORE8 : Z := 0x63.
Definition STORE16 : Z := 0x64.
Definition STORE32 : Z := 0x65.
Definition SYSCALL : Z := 0x70.
Definition BREAKPOINT : Z := 0x71.
Definition HALT : Z := 0x7F.
End OPCODES.

Module AKM_FORMAT.
Definition MAGIC_V2 : Z := 0x324D4B41.
Definition HEADER_SIZE : Z := 512.
Definition SYM_FUNC : Z := 1.
Definition BIND_GLOBAL : Z := 1.
End AKM_FORMAT.

(** A lookup [table[key]] in an object used as a table, own keys only. *)
Fixpoint assoc {A : Type} (key : string) (table : list (string * A)) : option A :=
  match table with
  | [] => None
  | (k, v) :: table' => if String.eqb k key then Some v else assoc key table'
  end.

(** ** The syntax tree

    The ESTree nodes acorn builds, with the children in the order of the keys
    of acorn's node objects, which is the order [walkAST] visits them in.
    [OtherNode] stands for a node of any other type (a loop, an assignment, a
    logical expression, an export specifier, a class body, ...): no visitor
    inspects it, it has no [name], [value], [id] or [left] the front end would
    read, and only its children matter.  A private name ([#x]) is read through
    its [name] alone, like an identifier, and is an [Identifier] here.  The
    identifier in binding position of a function or of a class and template
    elements are not nodes of the embedding: no visitor reacts to them. *)

Inductive literal : Type :=
| LStr (s : string)
| LNum (n : Z)
| LBool (b : bool)
| LNull.

Inductive node : Type :=
| ProgramNode (body : list node)
| FunctionDeclaration (id : option string) (params : list node) (body : node)
| FunctionExpression (id : option string) (params : list node) (body : node)
| ArrowFunctionExpression (params : list node) (body : node)
| ExportNamedDeclaration (declaration : option node) (specifiers : list node)
| VariableDeclaration (declarations : list node)
| VariableDeclarator (id : node) (init : option node)
| ExpressionStatement (expression : node)
| ReturnStatement (argument : option node)
| BlockStatement (body : list node)
| IfStatement (test consequent : node) (alternate : option node)
| CallExpression (callee : node) (arguments : list node)
| MemberExpression (object property : node)
| Identifier (name : string)
| Literal (value : literal)
| TemplateLiteral (expressions : list node) (quasis : list string)
| UnaryExpression (operator : string) (argument : node)
| BinaryExpression (left : node) (operator : string) (right : node)
| ObjectExpression (properties : list node)
| Property (key value : node)
| ArrayExpression (elements : list (option node))
| AssignmentPattern (left right : node)
| ClassDeclaration (id : option string) (superClass : option node) (body : node)
| ClassExpression (id : option string) (superClass : option node) (body : node)
| OtherNode (kind : string) (children : list node).

(** What acorn returns for a source text. *)
Inductive acornResult : Type :=
| SyntaxError (line column : Z) (message : string)
| Parsed (ast : node).

Definition walk_opt (walk : node -> list node) (o : option node) : list node :=
  match o with
  | Some n => walk n
  | None => []
  end.

(** [walkAST(node, visitor)]: the nodes in the order the visitor is called on
    them (pre-order). *)
Fixpoint walk (n : node) : list node :=
  n ::
  match n with
  | ProgramNode body => flat_map walk body
  | FunctionDeclaration _ params body => flat_map walk params ++ walk body
  | FunctionExpression _ params body => flat_map walk params ++ walk body
  | ArrowFunctionExpression params body => flat_map walk params ++ walk body
  | ExportNamedDeclaration declaration specifiers =>
      walk_opt walk declaration ++ flat_map walk specifiers
  | VariableDeclaration declarations => flat_map walk declarations
  | VariableDeclarator id init => walk id ++ walk_opt walk init
  | ExpressionStatement expression => walk expression
  | ReturnStatement argument => walk_opt walk argument
  | BlockStatement body => flat_map walk body
  | IfStatement test consequent alternate =>
      walk test ++ walk consequent ++ walk_opt walk alternate
  | CallExpression callee arguments => walk callee ++ flat_map walk arguments
  | MemberExpression object property => walk object ++ walk property
  | Identifier _ => []
  | Literal _ => []
  | TemplateLiteral expressions _ => flat_map walk expressions
  | UnaryExpression _ argument => walk argument
  | BinaryExpression lhs _ rhs => walk lhs ++ walk rhs
  | ObjectExpression properties => flat_map walk properties
  | Property key value => walk key ++ walk value
  | ArrayExpression elements => flat_map (walk_opt walk) elements
  | AssignmentPattern lhs rhs => walk lhs ++ walk rhs
  | ClassDeclaration _ superClass body => walk_opt walk superClass ++ walk body
  | ClassExpression _ superClass body => walk_opt walk superClass ++ walk body
  | OtherNode _ children => flat_map walk children
  end.

(** [node.name] *)
Definition node_name (n : node) : option string :=
  match n with
  | Identifier name => Some name
  | _ => None
  end.

Definition name_is (n : node) (s : string) : bool :=
  match node_name n with
  | Some name => String.eqb name s
  | None => false
  end.

Definition opt_val (o : option string) : jsval :=
  match o with
  | Some s => JStr s
  | None => JUndef
  end.

Definition literal_value (l : literal) : jsval :=
  match l with
  | LStr s => JStr s
  | LNum n => JNum (Int n)
  | LBool b => JBool b
  | LNull => JNull
  end.

(** Unary minus. *)
Definition js_neg (v : jsval) : outcome jsval :=
  n <- to_number v ;;
  Ok (JNum (match n with Int z => Int (- z) | NaN => NaN end)).

(** ** The parser front end (class [AKMParser]) *)

Fixpoint evaluateLiteral (n : node) : outcome jsval :=
  match n with
  | Literal value => Ok (literal_value value)
  | TemplateLiteral _ quasis => Ok (JStr (String.concat "" quasis))
  | Identifier name => Ok (JRef name)
  | UnaryExpression operator argument =>
      if String.eqb operator "-"
      then v <- evaluateLiteral argument ;; js_neg v
      else Ok JNull
  | BinaryExpression _ _ _ => Ok JNull
  | _ => Ok JNull
  end.

(** [evaluateLiteral] on a node that may be [null]. *)
Definition evaluateLiteral_opt (o : option node) : outcome jsval :=
  match o with
  | Some n => evaluateLiteral n
  | None => Ok JNull
  end.

(** [obj[key] = v] and [obj[key]] on a plain object. *)
Fixpoint obj_set {A : Type} (key : string) (v : A) (obj : list (string * A))
  : list (string * A) :=
  match obj with
  | [] => [(key, v)]
  | (k, x) :: obj' =>
      if String.eqb k key then (k, v) :: obj' else (k, x) :: obj_set key v obj'
  end.

Definition obj_get (key : string) (obj : list (string * jsval)) : jsval :=
  match assoc key obj with
  | Some v => v
  | None => JUndef
  end.

(** [prop.key.name || prop.key.value], as a property key. *)
Definition property_key (k : node) : outcome string :=
  let value := match k with Literal l => literal_value l | _ => JUndef end in
  key <- to_js_string (js_lor (opt_val (node_name k)) value) ;;
  if String.eqb key "__proto__" then Unmodelled else Ok key.

Fixpoint parseObjectExpression (n : node) : outcome (list (string * jsval)) :=
  match n with
  | ObjectExpression properties =>
      (fix each (props : list node) (obj : list (string * jsval)) {struct props}
         : outcome (list (string * jsval)) :=
         match props with
         | [] => Ok obj
         | Property k v :: props' =>
             key <- property_key k ;;
             value <- evaluateLiteral v ;;
             x <- match v with
                  | ObjectExpression _ =>
                      o <- parseObjectExpression v ;; Ok (JObj o)
                  | ArrayExpression elements =>
                      l <- mapM evaluateLiteral_opt elements ;; Ok (JArr l)
                  | _ => Ok value
                  end ;;
             each props' (obj_set key x obj)
         | _ :: _ =>
             Throws (TypeError "Cannot read properties of undefined (reading 'name')")
         end) properties []
  | _ => Ok []
  end.

(** A call [AKM.<method>(...)]: the method name and the arguments. *)
Definition akm_call (n : node) : option (option string * list node) :=
  match n with
  | CallExpression (MemberExpression object property) arguments =>
      if name_is object "AKM" then Some (node_name property, arguments) else None
  | _ => None
  end.

Definition method_is (m : option string) (s : string) : bool :=
  match m with
  | Some x => String.eqb x s
  | None => false
  end.

Definition visitModuleConfig (config : list (string * jsval)) (n : node)
  : outcome (list (string * jsval)) :=
  match akm_call n with
  | Some (method, arguments) =>
      if method_is method "module" then
        match arguments with
        | (ObjectExpression _ as a) :: _ => parseObjectExpression a
        | _ => Ok config
        end
      else Ok config
  | None => Ok config
  end.

Definition extractModuleConfig (ast : node) : outcome (list (string * jsval)) :=
  foldM visitModuleConfig (walk ast) [].

Record funcinfo : Type := {
  fn_name : option string;
  fn_node : node;
  fn_params : list (option string);
  fn_isExport : bool
}.

(** [functions[key] = f]: assigning an object to the key [__proto__] replaces
    the prototype and adds no entry. *)
Definition functions_set (key : string) (f : funcinfo) (functions : list (string * funcinfo))
  : list (string * funcinfo) :=
  if String.eqb key "__proto__" then functions else obj_set key f functions.

Definition key_of (o : option string) : string :=
  match o with
  | Some s => s
  | None => "undefined"
  end.

(** [p.name || p.left?.name] *)
Definition param_name (p : node) : option string :=
  match p with
  | Identifier name => if String.eqb name "" then None else Some name
  | AssignmentPattern lhs _ => node_name lhs
  | _ => None
  end.

Definition visitDeclarator (functions : list (string * funcinfo)) (decl : node)
  : outcome (list (string * funcinfo)) :=
  match decl with
  | VariableDeclarator id (Some init) =>
      match init with
      | ArrowFunctionExpression params _ | FunctionExpression _ params _ =>
          Ok (functions_set (key_of (node_name id))
                {| fn_name := node_name id; fn_node := init;
                   fn_params := map param_name params; fn_isExport := false |}
                functions)
      | _ => Ok functions
      end
  | VariableDeclarator _ None => Ok functions
  | _ => Unmodelled
  end.

Definition visitFunctions (functions : list (string * funcinfo)) (n : node)
  : outcome (list (string * funcinfo)) :=
  match n with
  | FunctionDeclaration (Some name) params _ =>
      Ok (functions_set name
            {| fn_name := Some name; fn_node := n;
               fn_params := map node_name params; fn_isExport := false |}
            functions)
  | ExportNamedDeclaration (Some (FunctionDeclaration id params _ as func)) _ =>
      match id with
      | Some name =>
          Ok (functions_set name
                {| fn_name := Some name; fn_node := func;
                   fn_params := map node_name params; fn_isExport := true |}
                functions)
      | None => Throws (TypeError "Cannot read properties of null (reading 'name')")
      end
  | VariableDeclaration declarations => foldM visitDeclarator declarations functions
  | _ => Ok functions
  end.

Definition extractFunctions (ast : node) : outcome (list (string * funcinfo)) :=
  foldM visitFunctions (walk ast) [].

Record command : Type := {
  cmd_name : jsval;
  cmd_syntax : jsval;
  cmd_description : jsval;
  cmd_category : jsval;
  cmd_handler : option string
}.

(** [handler.name || handler.id?.name || null]: the [name] of an identifier,
    or the name of the [id] of a function, of a class or of a declarator. *)
Definition handler_name (handler : node) : option string :=
  match handler with
  | Identifier name => if String.eqb name "" then None else Some name
  | FunctionExpression (Some id) _ _ | FunctionDeclaration (Some id) _ _
  | ClassExpression (Some id) _ _ | ClassDeclaration (Some id) _ _ =>
      if String.eqb id "" then None else Some id
  | VariableDeclarator id _ =>
      match node_name id with
      | Some name => if String.eqb name "" then None else Some name
      | None => None
      end
  | _ => None
  end.

Definition visitCommands (commands : list command) (n : node) : outcome (list command) :=
  match akm_call n with
  | Some (method, arguments) =>
      if method_is method "command" then
        match arguments with
        | a0 :: handler :: _ =>
            cmdConfig <- parseObjectExpression a0 ;;
            Ok (commands ++
                [ {| cmd_name := js_lor (obj_get "name" cmdConfig) (JStr "unknown");
                     cmd_syntax := js_lor (obj_get "syntax" cmdConfig) (obj_get "name" cmdConfig);
                     cmd_description := js_lor (obj_get "description" cmdConfig) (JStr "");
                     cmd_category := js_lor (obj_get "category" cmdConfig) (JStr "Module");
                     cmd_handler := handler_name handler |} ])
        | _ => Ok commands
        end
      else Ok commands
  | None => Ok commands
  end.

Definition extractCommands (ast : node) : outcome (list command) :=
  foldM visitCommands (walk ast) [].

Record apiCall : Type := {
  call_method : option string;
  call_args : list node
}.

Definition visitAPICalls (calls : list apiCall) (n : node) : list apiCall :=
  match akm_call n with
  | Some (method, arguments) =>
      if method_is method "module" || method_is method "command" then calls
      else calls ++ [ {| call_method := method; call_args := arguments |} ]
  | None => calls
  end.

Definition extractAPICalls (ast : node) : list apiCall :=
  fold_left visitAPICalls (walk ast) [].

(** [caps |= apiInfo.capability] for a call.  An unknown method only adds a
    warning, and a name found on the prototype of the table (toString, ...)
    has no [capability]: both leave [caps] as it is. *)
Definition call_capability (caps : Z) (call : apiCall) : Z :=
  match call_method call with
  | Some m =>
      match assoc m API_FUNCTIONS with
      | Some apiInfo => js_or caps (capability apiInfo)
      | None => caps
      end
  | None => caps
  end.

Definition computeRequiredCapabilities (apiCalls : list apiCall) (commands : list command)
  : Z :=
  let caps := 0 in
  let caps :=
    if 0 <? Z.of_nat (List.length commands)
    then js_or caps CAPABILITIES.COMMAND
    else caps in
  let caps := fold_left call_capability apiCalls caps in
  js_or caps CAPABILITIES.LOG.

(** ** The intermediate representation *)

Notation "' pat <- c ;; k" := (bind c (fun x => match x with pat => k end))
  (at level 61, pat pattern, c at next level, right associativity).

(** An IR instruction: the opcode and the optional fields ([undefined] is
    [JUndef], [None], or an [argc] of [0], which is emitted as the same
    byte). *)
Record instr : Type := {
  i_op : Z;
  i_value : jsval;
  i_name : option string;
  i_method : option string;
  i_argc : Z;
  i_func : option string;
  i_label : option string;
  i_target : option Z;
  i_arg : option Z;
  i_isEntry : bool
}.

Definition op_only (op : Z) : instr :=
  {| i_op := op; i_value := JUndef; i_name := None; i_method := None; i_argc := 0;
     i_func := None; i_label := None; i_target := None; i_arg := None;
     i_isEntry := false |}.

Definition op_value (op : Z) (v : jsval) : instr :=
  {| i_op := op; i_value := v; i_name := None; i_method := None; i_argc := 0;
     i_func := None; i_label := None; i_target := None; i_arg := None;
     i_isEntry := false |}.

Definition op_load_local (name : option string) : instr :=
  {| i_op := OPCODES.LOAD_LOCAL; i_value := JUndef; i_name := name; i_method := None;
     i_argc := 0; i_func := None; i_label := None; i_target := None; i_arg := None;
     i_isEntry := false |}.

Definition op_store_local (name : option string) (v : jsval) : instr :=
  {| i_op := OPCODES.STORE_LOCAL; i_value := v; i_name := name; i_method := None;
     i_argc := 0; i_func := None; i_label := None; i_target := None; i_arg := None;
     i_isEntry := false |}.

Definition op_call_api (method : option string) (argc : Z) : instr :=
  {| i_op := OPCODES.CALL_API; i_value := JUndef; i_name := None; i_method := method;
     i_argc := argc; i_func := None; i_label := None; i_target := None; i_arg := None;
     i_isEntry := false |}.

Definition op_call (func : option string) (argc : Z) : instr :=
  {| i_op := OPCODES.CALL; i_value := JUndef; i_name := None; i_method := None;
     i_argc := argc; i_func := func; i_label := None; i_target := None; i_arg := None;
     i_isEntry := false |}.

Record irFunc : Type := {
  f_name : string;
  f_nameIdx : Z;
  f_params : list (option string);
  f_instructions : list instr;
  f_locals : list (option string);
  f_isInit : bool;
  f_isExit : bool
}.

Record irCommand : Type := {
  c_nameIdx : Z;
  c_syntaxIdx : Z;
  c_descIdx : Z;
  c_categoryIdx : Z;
  c_handler : option string
}.

Record irApiCall : Type := {
  a_method : option string;
  a_methodIdx : Z;
  a_argCount : Z
}.

(** The IR object; [initFunc] and [exitFunc] repeat two entries of
    [functions] and are read by nobody. *)
Record IR : Type := {
  ir_strings : list jsval;
  ir_functions : list irFunc;
  ir_commands : list irCommand;
  ir_apiCalls : list irApiCall
}.

(** Index of the first element satisfying [p] ([findIndex], [indexOf]). *)
Fixpoint find_index {A : Type} (p : A -> bool) (l : list A) : option nat :=
  match l with
  | [] => None
  | x :: l' =>
      if p x then Some O
      else match find_index p l' with
           | Some i => Some (S i)
           | None => None
           end
  end.

(** [addString(s)]: the index of [s] in the string table, added when new.
    The table is a [Map]; an object key is compared by identity. *)
Definition addString (s : jsval) (strings : list jsval) : outcome (Z * list jsval) :=
  if is_primitive s then
    match find_index (same_value s) strings with
    | Some i => Ok (Z.of_nat i, strings)
    | None => Ok (Z.of_nat (List.length strings), strings ++ [s])
    end
  else Unmodelled.

(** The state of [generateFunctionIR]: the instruction list and the locals
    of the function, and the string table of the IR. *)
Record irState : Type := {
  s_instructions : list instr;
  s_locals : list (option string);
  s_strings : list jsval
}.

Definition push_instr (i : instr) (st : irState) : irState :=
  {| s_instructions := s_instructions st ++ [i];
     s_locals := s_locals st; s_strings := s_strings st |}.

(** One argument of an API call. *)
Definition lowerArgument (st : irState) (arg : node) : outcome irState :=
  value <- evaluateLiteral arg ;;
  match value with
  | JStr _ =>
      ' (_, strings) <- addString value (s_strings st) ;;
      Ok (push_instr (op_value OPCODES.PUSH_STR value)
            {| s_instructions := s_instructions st; s_locals := s_locals st;
               s_strings := strings |})
  | JNum _ => Ok (push_instr (op_value OPCODES.PUSH value) st)
  | _ =>
      match arg with
      | Identifier name => Ok (push_instr (op_load_local (Some name)) st)
      | _ => Ok (push_instr (op_value OPCODES.PUSH (JNum (Int 0))) st)
      end
  end.

Definition lowerDeclarator (st : irState) (decl : node) : outcome irState :=
  match decl with
  | VariableDeclarator id init =>
      let st := {| s_instructions := s_instructions st;
                   s_locals := s_locals st ++ [node_name id];
                   s_strings := s_strings st |} in
      match init with
      | Some e =>
          value <- evaluateLiteral e ;;
          Ok (push_instr (op_store_local (node_name id) value) st)
      | None => Ok st
      end
  | _ => Unmodelled
  end.

(** The visitor of [generateFunctionIR]. *)
Definition visitIR (st : irState) (n : node) : outcome irState :=
  match n with
  | CallExpression callee arguments =>
      match callee with
      | MemberExpression object property =>
          if name_is object "AKM" then
            st <- foldM lowerArgument arguments st ;;
            Ok (push_instr (op_call_api (node_name property)
                              (Z.of_nat (List.length arguments))) st)
          else Ok st
      | Identifier name =>
          Ok (push_instr (op_call (Some name) (Z.of_nat (List.length arguments))) st)
      | _ => Ok st
      end
  | ReturnStatement argument =>
      st <- match argument with
            | Some e =>
                value <- evaluateLiteral e ;;
                Ok (push_instr (op_value OPCODES.PUSH value) st)
            | None => Ok st
            end ;;
      Ok (push_instr (op_only OPCODES.RET) st)
  | VariableDeclaration declarations => foldM lowerDeclarator declarations st
  | _ => Ok st
  end.

(** [node.body] of a function node. *)
Definition node_body (n : node) : option node :=
  match n with
  | FunctionDeclaration _ _ body
  | FunctionExpression _ _ body
  | ArrowFunctionExpression _ body => Some body
  | _ => None
  end.

Definition is_ret (i : instr) : bool := i_op i =? OPCODES.RET.

(** "Ensure function ends with return". *)
Definition ensure_ret (instructions : list instr) : list instr :=
  match last (map Some instructions) None with
  | Some i => if is_ret i then instructions else instructions ++ [op_only OPCODES.RET]
  | None => instructions ++ [op_only OPCODES.RET]
  end.

Definition generateFunctionIR (n : node) (strings : list jsval) : outcome irState :=
  st <- foldM visitIR (walk_opt walk (node_body n))
          {| s_instructions := []; s_locals := []; s_strings := strings |} ;;
  Ok {| s_instructions := ensure_ret (s_instructions st);
        s_locals := s_locals st; s_strings := s_strings st |}.

(** The registration block of one command. *)
Definition regCalls (cmd : command) : list instr :=
  [ op_value OPCODES.PUSH_STR (cmd_name cmd);
    op_value OPCODES.PUSH_STR (cmd_syntax cmd);
    op_value OPCODES.PUSH_STR (cmd_description cmd);
    op_value OPCODES.PUSH_STR (cmd_category cmd);
    op_value OPCODES.PUSH (JNum (Int 0));
    op_call_api (Some "registerCommand"%string) 5;
    op_only OPCODES.POP ].

(** [list.splice(idx, 0, ...items)] *)
Definition splice {A : Type} (l : list A) (idx : nat) (items : list A) : list A :=
  firstn idx l ++ items ++ skipn idx l.

(** The injection of the command registrations into [init]. *)
Definition injectCommands (commands : list command) (instructions : list instr)
  : list instr :=
  let insertIdx :=
    match find_index is_ret instructions with
    | Some returnIdx => returnIdx
    | None => List.length instructions
    end in
  fold_left (fun ins cmd => splice ins insertIdx (regCalls cmd)) commands instructions.

Definition lowerCommand (acc : list jsval * list irCommand) (cmd : command)
  : outcome (list jsval * list irCommand) :=
  let '(strings, cmds) := acc in
  ' (nameIdx, strings) <- addString (cmd_name cmd) strings ;;
  ' (syntaxIdx, strings) <- addString (cmd_syntax cmd) strings ;;
  ' (descIdx, strings) <- addString (cmd_description cmd) strings ;;
  ' (categoryIdx, strings) <- addString (cmd_category cmd) strings ;;
  Ok (strings,
      cmds ++ [ {| c_nameIdx := nameIdx; c_syntaxIdx := syntaxIdx; c_descIdx := descIdx;
                   c_categoryIdx := categoryIdx; c_handler := cmd_handler cmd |} ]).

Definition lowerFunction (commands : list command)
  (acc : list jsval * list irFunc) (entry : string * funcinfo)
  : outcome (list jsval * list irFunc) :=
  let '(strings, funcs) := acc in
  let '(name, func) := entry in
  ' (nameIdx, strings) <- addString (JStr name) strings ;;
  st <- generateFunctionIR (fn_node func) strings ;;
  let instructions :=
    if String.eqb name "init" && (0 <? Z.of_nat (List.length commands))
    then injectCommands commands (s_instructions st)
    else s_instructions st in
  Ok (s_strings st,
      funcs ++ [ {| f_name := name; f_nameIdx := nameIdx; f_params := fn_params func;
                    f_instructions := instructions; f_locals := s_locals st;
                    f_isInit := String.eqb name "init";
                    f_isExit := String.eqb name "exit" |} ]).

Definition lowerApiCall (acc : list jsval * list irApiCall) (call : apiCall)
  : outcome (list jsval * list irApiCall) :=
  let '(strings, calls) := acc in
  ' (methodIdx, strings) <- addString (opt_val (call_method call)) strings ;;
  Ok (strings,
      calls ++ [ {| a_method := call_method call; a_methodIdx := methodIdx;
                    a_argCount := Z.of_nat (List.length (call_args call)) |} ]).

Definition generateIR (functions : list (string * funcinfo)) (commands : list command)
  (apiCalls : list apiCall) : outcome IR :=
  ' (strings, ircommands) <- foldM lowerCommand commands ([], []) ;;
  ' (strings, irfunctions) <- foldM (lowerFunction commands) functions (strings, []) ;;
  ' (strings, ircalls) <- foldM lowerApiCall apiCalls (strings, []) ;;
  Ok {| ir_strings := strings; ir_functions := irfunctions;
        ir_commands := ircommands; ir_apiCalls := ircalls |}.

Record parseError : Type := {
  err_line : Z;
  err_column : Z;
  err_message : string
}.

(** The result of [parse].  After a syntax error the object has only
    [errors] and [warnings]: [moduleConfig] is [undefined] ([None]) and the
    other fields, which nobody reads then, are empty here.  Warnings are not
    modelled. *)
Record parseResult : Type := {
  pr_moduleConfig : option (list (string * jsval));
  pr_functions : list (string * funcinfo);
  pr_commands : list command;
  pr_apiCalls : list apiCall;
  pr_ir : IR;
  pr_errors : list parseError
}.

(** "Merge with declared capabilities". *)
Definition mergeCapabilities (moduleConfig : list (string * jsval)) (requiredCaps : Z)
  : outcome (list (string * jsval)) :=
  let declared := obj_get "capabilities" moduleConfig in
  if truthy declared then
    n <- to_number declared ;;
    Ok (obj_set "capabilities" (JNum (Int (js_or (num_int32 n) requiredCaps))) moduleConfig)
  else Ok (obj_set "capabilities" (JNum (Int requiredCaps)) moduleConfig).

Definition parse (source : acornResult) : outcome parseResult :=
  match source with
  | SyntaxError line column message =>
      Ok {| pr_moduleConfig := None; pr_functions := []; pr_commands := [];
            pr_apiCalls := [];
            pr_ir := {| ir_strings := []; ir_functions := []; ir_commands := [];
                        ir_apiCalls := [] |};
            pr_errors := [ {| err_line := line; err_column := column;
                              err_message := message |} ] |}
  | Parsed ast =>
      moduleConfig <- extractModuleConfig ast ;;
      functions <- extractFunctions ast ;;
      commands <- extractCommands ast ;;
      let apiCalls := extractAPICalls ast in
      let requiredCaps := computeRequiredCapabilities apiCalls commands in
      moduleConfig <- mergeCapabilities moduleConfig requiredCaps ;;
      ir <- generateIR functions commands apiCalls ;;
      Ok {| pr_moduleConfig := Some moduleConfig; pr_functions := functions;
            pr_commands := commands; pr_apiCalls := apiCalls; pr_ir := ir;
            pr_errors := [] |}
  end.

(** ** The code generator ([src/codegen.js]) *)

(** A [Map] with the keys in insertion order: [set] replaces the value of a
    key in place or appends the key. *)
Fixpoint map_set {K V : Type} (eqb : K -> K -> bool) (k : K) (v : V) (m : list (K * V))
  : list (K * V) :=
  match m with
  | [] => [(k, v)]
  | (k', v') :: m' =>
      if eqb k' k then (k', v) :: m' else (k', v') :: map_set eqb k v m'
  end.

Fixpoint map_get {K V : Type} (eqb : K -> K -> bool) (k : K) (m : list (K * V)) : option V :=
  match m with
  | [] => None
  | (k', v') :: m' => if eqb k' k then Some v' else map_get eqb k m'
  end.

(** [map.get(k) || 0] *)
Definition get_or_0 {K : Type} (eqb : K -> K -> bool) (k : K) (m : list (K * Z)) : Z :=
  match map_get eqb k m with
  | Some v => v
  | None => 0
  end.

Definition nul : string := String (ascii_of_nat 0) EmptyString.

(** [Buffer.from(str + '\0', 'utf8')] *)
Definition encode_nul (str : jsval) : outcome (list Z) :=
  s <- to_js_string str ;;
  Ok (utf8 (s ++ nul)).

Record tableEntry : Type := {
  e_string : jsval;
  e_offset : Z;
  e_length : Z
}.

Record stringTable : Type := {
  entries : list tableEntry;
  offsets : list (jsval * Z);
  totalSize : Z
}.

Definition addEntry (acc : stringTable * nat) (str : jsval) : outcome (stringTable * nat) :=
  let '(table, i) := acc in
  let offset := totalSize table in
  encoded <- encode_nul str ;;
  Ok ({| entries := entries table ++
                    [ {| e_string := str; e_offset := offset;
                         e_length := Z.of_nat (List.length encoded) |} ];
         offsets := map_set same_value (JNum (Int (Z.of_nat i))) offset
                      (map_set same_value str offset (offsets table));
         totalSize := offset + Z.of_nat (List.length encoded) |},
      S i).

Definition buildStringTable (strings : list jsval) : outcome stringTable :=
  ' (table, _) <- foldM addEntry strings
                    ({| entries := []; offsets := []; totalSize := 0 |}, O) ;;
  Ok table.

(** The state of the generator. *)
Record codegen : Type := {
  code : list Z;
  labels : list (string * Z);
  fixups : list (Z * option string);
  currentOffset : Z
}.

(** [emit(byte)] *)
Definition emit (byte : Z) (g : codegen) : codegen :=
  {| code := code g ++ [js_and byte 255]; labels := labels g; fixups := fixups g;
     currentOffset := currentOffset g + 1 |}.

(** [emitInt32(value)] *)
Definition emitInt32 (value : number) (g : codegen) : codegen :=
  let v := num_int32 value in
  {| code := code g ++ [ js_and v 255; js_and (js_sar v 8) 255;
                         js_and (js_sar v 16) 255; js_and (js_sar v 24) 255 ];
     labels := labels g; fixups := fixups g;
     currentOffset := currentOffset g + 4 |}.

(** [emitValue(value, stringTable)] *)
Definition emitValue (value : jsval) (table : stringTable) (g : codegen) : codegen :=
  match value with
  | JNum n => emitInt32 n g
  | JStr _ => emitInt32 (Int (get_or_0 same_value value (offsets table))) g
  | _ => emitInt32 (Int 0) g
  end.

Definition addFixup (label : option string) (g : codegen) : codegen :=
  {| code := code g; labels := labels g;
     fixups := fixups g ++ [(currentOffset g, label)];
     currentOffset := currentOffset g |}.

(** [Object.keys(API_FUNCTIONS).indexOf(method)], or [0xFF]. *)
Definition getAPIIndex (method : option string) : Z :=
  match method with
  | Some m =>
      match find_index (fun e => String.eqb (fst e) m) API_FUNCTIONS with
      | Some idx => Z.of_nat idx
      | None => 0xFF
      end
  | None => 0xFF
  end.

Definition option_eqb (a b : option string) : bool :=
  match a, b with
  | Some x, Some y => String.eqb x y
  | None, None => true
  | _, _ => false
  end.

(** [func.locals.indexOf(name)] *)
Definition local_index (locals : list (option string)) (name : option string) : Z :=
  match find_index (option_eqb name) locals with
  | Some idx => Z.of_nat idx
  | None => -1
  end.

Definition opt_z (o : option Z) : Z :=
  match o with
  | Some z => z
  | None => 0
  end.

Definition label_set (l : option string) : bool :=
  match l with
  | Some s => negb (String.eqb s "")
  | None => false
  end.

(** The opcodes emitted as a single byte. *)
Definition plain_opcodes : list Z :=
  [ OPCODES.ADD; OPCODES.SUB; OPCODES.MUL; OPCODES.DIV; OPCODES.MOD; OPCODES.NEG;
    OPCODES.INC; OPCODES.DEC; OPCODES.AND; OPCODES.OR; OPCODES.XOR; OPCODES.NOT;
    OPCODES.SHL; OPCODES.SHR; OPCODES.EQ; OPCODES.NE; OPCODES.LT; OPCODES.LE;
    OPCODES.GT; OPCODES.GE; OPCODES.POP; OPCODES.DUP; OPCODES.SWAP; OPCODES.NOP;
    OPCODES.HALT ].

Definition emitJump (op : Z) (i : instr) (g : codegen) : codegen :=
  let g := emit op g in
  let g := if label_set (i_label i) then addFixup (i_label i) g else g in
  emitInt32 (Int (opt_z (i_target i))) g.

Definition generateInstruction (i : instr) (table : stringTable) (func : irFunc)
  (g : codegen) : codegen :=
  let op := i_op i in
  if op =? OPCODES.PUSH then
    emitValue (i_value i) table (emit OPCODES.PUSH g)
  else if op =? OPCODES.PUSH_ARG then
    emit (opt_z (i_arg i)) (emit OPCODES.PUSH_ARG g)
  else if op =? OPCODES.PUSH_STR then
    emitInt32 (Int (get_or_0 same_value (i_value i) (offsets table)))
      (emit OPCODES.PUSH_STR g)
  else if op =? OPCODES.STORE_LOCAL then
    let localIdx := local_index (f_locals func) (i_name i) in
    emit localIdx
      (emit OPCODES.STORE_LOCAL (emitValue (i_value i) table (emit OPCODES.PUSH g)))
  else if op =? OPCODES.LOAD_LOCAL then
    emit (local_index (f_locals func) (i_name i)) (emit OPCODES.LOAD_LOCAL g)
  else if op =? OPCODES.CALL then
    emit (i_argc i) (emitInt32 (Int 0) (addFixup (i_func i) (emit OPCODES.CALL g)))
  else if op =? OPCODES.CALL_API then
    emit (i_argc i) (emit (getAPIIndex (i_method i)) (emit OPCODES.CALL_API g))
  else if op =? OPCODES.RET then
    emit OPCODES.RET g
  else if op =? OPCODES.JMP then emitJump OPCODES.JMP i g
  else if op =? OPCODES.JZ then emitJump OPCODES.JZ i g
  else if op =? OPCODES.JNZ then emitJump OPCODES.JNZ i g
  else if existsb (Z.eqb op) plain_opcodes then emit op g
  else emit OPCODES.NOP g.

Definition generateFunction (func : irFunc) (table : stringTable) (g : codegen) : codegen :=
  let g := {| code := code g;
              labels := map_set String.eqb (f_name func) (currentOffset g) (labels g);
              fixups := fixups g; currentOffset := currentOffset g |} in
  let g := emit OPCODES.NOP g in
  let g := fold_left (fun g _ => emitInt32 (Int 0) (emit OPCODES.PUSH g)) (f_locals func) g in
  fold_left (fun g i => generateInstruction i table func g) (f_instructions func) g.

(** [array[i] = v] on a JavaScript array: past the end the array grows, and
    the holes read as [0] once the array becomes a [Buffer]. *)
Fixpoint array_set (i : nat) (v : Z) (l : list Z) : list Z :=
  match i, l with
  | O, [] => [v]
  | O, _ :: l' => v :: l'
  | S i', [] => 0 :: array_set i' v []
  | S i', x :: l' => x :: array_set i' v l'
  end.

Definition resolveFixup (g : codegen) (fixup : Z * option string) : codegen :=
  let '(offset, label) := fixup in
  match label with
  | Some l =>
      match map_get String.eqb l (labels g) with
      | Some target =>
          let o := Z.to_nat offset in
          {| code := array_set (o + 3) (js_and (js_sar target 24) 255)
                       (array_set (o + 2) (js_and (js_sar target 16) 255)
                          (array_set (o + 1) (js_and (js_sar target 8) 255)
                             (array_set o (js_and target 255) (code g))));
             labels := labels g; fixups := fixups g; currentOffset := currentOffset g |}
      | None => g
      end
  | None => g
  end.

Definition resolveFixups (g : codegen) : codegen :=
  fold_left resolveFixup (fixups g) g.

Record commandStub : Type := {
  nameOffset : Z;
  syntaxOffset : Z;
  descOffset : Z;
  categoryOffset : Z;
  handlerOffset : Z
}.

Definition handler_offset (handler : option string) (functionOffsets : list (string * Z)) : Z :=
  match handler with
  | Some h => get_or_0 String.eqb h functionOffsets
  | None => 0
  end.

Definition generateCommandStubs (commands : list command) (table : stringTable)
  (functionOffsets : list (string * Z)) : list commandStub :=
  map (fun cmd =>
         {| nameOffset := get_or_0 same_value (cmd_name cmd) (offsets table);
            syntaxOffset := get_or_0 same_value (cmd_syntax cmd) (offsets table);
            descOffset := get_or_0 same_value (cmd_description cmd) (offsets table);
            categoryOffset := get_or_0 same_value (cmd_category cmd) (offsets table);
            handlerOffset := handler_offset (cmd_handler cmd) functionOffsets |})
      commands.

Definition stubBytes (stub : commandStub) : outcome (list Z) :=
  let buf := repeat 0 20 in
  buf <- writeUInt32LE (Int (nameOffset stub)) 0 buf ;;
  buf <- writeUInt32LE (Int (syntaxOffset stub)) 4 buf ;;
  buf <- writeUInt32LE (Int (descOffset stub)) 8 buf ;;
  buf <- writeUInt32LE (Int (categoryOffset stub)) 12 buf ;;
  writeUInt32LE (Int (handlerOffset stub)) 16 buf.

Definition buildDataSection (table : stringTable) (commandStubs : list commandStub)
  : outcome (list Z) :=
  strings <- mapM (fun entry => encode_nul (e_string entry)) (entries table) ;;
  stubs <- mapM stubBytes commandStubs ;;
  Ok (List.concat (strings ++ stubs)).

(** What [generate] returns. *)
Record codegenResult : Type := {
  cg_code : list Z;
  cg_data : list Z;
  cg_strings : list jsval;
  cg_functions : list (string * Z);
  cg_commands : list irCommand;
  cg_initOffset : Z;
  cg_exitOffset : Z;
  cg_codeSize : Z;
  cg_dataSize : Z
}.

Definition generateFunctions (functions : list irFunc) (table : stringTable)
  : codegen * list (string * Z) :=
  fold_left
    (fun acc func =>
       let '(g, functionOffsets) := acc in
       (generateFunction func table g,
        map_set String.eqb (f_name func) (currentOffset g) functionOffsets))
    functions
    ({| code := []; labels := []; fixups := []; currentOffset := 0 |}, []).

Definition generate (parseResult : parseResult) : outcome codegenResult :=
  let ir := pr_ir parseResult in
  table <- buildStringTable (ir_strings ir) ;;
  let '(g, functionOffsets) := generateFunctions (ir_functions ir) table in
  let commandStubs := generateCommandStubs (pr_commands parseResult) table functionOffsets in
  let g := resolveFixups g in
  dataSection <- buildDataSection table commandStubs ;;
  Ok {| cg_code := code g;
        cg_data := dataSection;
        cg_strings := ir_strings ir;
        cg_functions := functionOffsets;
        cg_commands := ir_commands ir;
        cg_initOffset := get_or_0 String.eqb "init"%string functionOffsets;
        cg_exitOffset := get_or_0 String.eqb "exit"%string functionOffsets;
        cg_codeSize := Z.of_nat (List.length (code g));
        cg_dataSize := Z.of_nat (List.length dataSection) |}.

(** ** The optimizer, as the compiler calls it ([src/optimizer.js])

    [compile] hands the optimizer the result of [generate], whose
    [functions] is the [Map] of the function offsets.  Each of the three
    instruction passes iterates over it and reads [func.instructions] of an
    entry [[name, offset]], which is [undefined]: the first entry makes the
    pass throw. *)

Definition instructionPass (ir : codegenResult) : outcome codegenResult :=
  match cg_functions ir with
  | [] => Ok ir
  | _ :: _ => Throws (TypeError "func.instructions is not iterable")
  end.

Definition deadCodeElimination := instructionPass.
Definition constantFolding := instructionPass.
Definition peepholeOptimization := instructionPass.

Fixpoint unique (strings uniqueStrings : list jsval) : list jsval :=
  match strings with
  | [] => uniqueStrings
  | str :: strings' =>
      if existsb (same_value str) uniqueStrings
      then unique strings' uniqueStrings
      else unique strings' (uniqueStrings ++ [str])
  end.

Definition stringDeduplication (ir : codegenResult) : codegenResult :=
  {| cg_code := cg_code ir; cg_data := cg_data ir;
     cg_strings := unique (cg_strings ir) [];
     cg_functions := cg_functions ir; cg_commands := cg_commands ir;
     cg_initOffset := cg_initOffset ir; cg_exitOffset := cg_exitOffset ir;
     cg_codeSize := cg_codeSize ir; cg_dataSize := cg_dataSize ir |}.

Definition optimize (ir : codegenResult) : outcome codegenResult :=
  ir <- deadCodeElimination ir ;;
  ir <- constantFolding ir ;;
  ir <- peepholeOptimization ir ;;
  Ok (stringDeduplication ir).

(** ** The binary writer (class [AKMBinaryWriter]) *)

Record moduleInfo : Type := {
  mi_name : jsval;
  mi_version : jsval;
  mi_author : jsval;
  mi_description : jsval;
  mi_license : jsval;
  mi_capabilities : jsval;
  mi_apiVersion : Z;
  mi_kernelMinVersion : Z;
  mi_kernelMaxVersion : Z;
  mi_dependencies : jsval;
  mi_securityLevel : jsval
}.

(** The options of the compiler.  [opt_capabilities] is what
    [parseCapabilities] made of the [--caps] argument: [null] when there is
    none, a number otherwise. *)
Record options : Type := {
  opt_debug : bool;
  opt_optimize : bool;
  opt_verbose : bool;
  opt_capabilities : jsval
}.

(** [calculateChecksum(data)] *)
Definition calculateChecksum (data : list Z) : Z :=
  fold_left
    (fun checksum b =>
       let checksum := checksum + b in
       to_uint32 (js_or (js_shl checksum 1) (js_ushr checksum 31)))
    data 0.

(** [writeFixedString(buffer, offset, str, maxLen)].  Only a string has a
    [slice] whose result [buffer.write] accepts.  The header is 512 bytes and
    no field starts after byte 312, so the encoded bytes always fit. *)
Definition writeFixedString (buffer : list Z) (offset : nat) (str : jsval) (maxLen : nat)
  : outcome (list Z) :=
  match js_lor str (JStr "") with
  | JStr s => Ok (write_at offset (utf8 (slice0 (maxLen - 1) s)) buffer)
  | JArr _ => Throws (TypeError "The string argument must be of type string")
  | _ => Throws (TypeError "(str || '').slice is not a function")
  end.

Definition symbolEntry (nameOffset offset : Z) : outcome (list Z) :=
  let entry := repeat 0 12 in
  entry <- writeUInt32LE (Int nameOffset) 0 entry ;;
  entry <- writeUInt32LE (Int offset) 4 entry ;;
  entry <- writeUInt16LE (Int 0) 8 entry ;;
  entry <- writeUInt8 (Int AKM_FORMAT.SYM_FUNC) 10 entry ;;
  writeUInt8 (Int AKM_FORMAT.BIND_GLOBAL) 11 entry.

Fixpoint symbolEntries (functions : list (string * Z)) (nameOffset : Z)
  : outcome (list (list Z)) :=
  match functions with
  | [] => Ok []
  | (name, offset) :: functions' =>
      entry <- symbolEntry nameOffset offset ;;
      rest <- symbolEntries functions' (nameOffset + Z.of_nat (String.length name) + 1) ;;
      Ok (entry :: rest)
  end.

Definition buildSymbolTable (codegenResult : codegenResult) : outcome (list Z) :=
  entries <- symbolEntries (cg_functions codegenResult) 0 ;;
  Ok (List.concat entries).

Definition buildStrtab (strings : list jsval) : outcome (list Z) :=
  parts <- mapM encode_nul strings ;;
  Ok (List.concat parts).

(** [x.length] and [x[i]] for the value of [dependencies]. *)
Definition js_length (v : jsval) : jsval :=
  match v with
  | JArr l => JNum (Int (Z.of_nat (List.length l)))
  | JStr s => JNum (Int (Z.of_nat (String.length s)))
  | JObj props => obj_get "length" props
  | _ => JUndef
  end.

Definition js_index (v : jsval) (i : nat) : jsval :=
  match v with
  | JArr l => nth i l JUndef
  | JStr s =>
      match String.get i s with
      | Some c => JStr (String c EmptyString)
      | None => JUndef
      end
  | JObj props => obj_get (NilZero.string_of_uint (Nat.to_uint i)) props
  | _ => JUndef
  end.

(** [Math.min(x, 4)] *)
Definition min4 (x : number) : number :=
  match x with
  | Int z => Int (Z.min z 4)
  | NaN => NaN
  end.

(** [i < depCount] *)
Definition lt_count (i : nat) (depCount : number) : bool :=
  match depCount with
  | Int z => Z.of_nat i <? z
  | NaN => false
  end.

Definition writeDependency (moduleInfo : moduleInfo) (depCount : number)
  (headerBuf : list Z) (offset : nat) (i : nat) : outcome (list Z) :=
  let dep := js_index (mi_dependencies moduleInfo) i in
  if lt_count i depCount && truthy dep
  then writeFixedString headerBuf offset dep 32
  else Ok headerBuf.

(** [write(codegenResult, moduleInfo)]: the artifact. *)
Definition write (options : options) (codegenResult : codegenResult) (moduleInfo : moduleInfo)
  : outcome (list Z) :=
  let code := cg_code codegenResult in
  let data := cg_data codegenResult in
  symtab <- buildSymbolTable codegenResult ;;
  strtab <- buildStrtab (cg_strings codegenResult) ;;
  let headerSize := 512 in
  let codeOffset := headerSize in
  let codeSize := Z.of_nat (List.length code) in
  let dataOffset := codeOffset + codeSize in
  let dataSize := Z.of_nat (List.length data) in
  let symtabOffset := dataOffset + dataSize in
  let symtabSize := Z.of_nat (List.length symtab) in
  let strtabOffset := symtabOffset + symtabSize in
  let strtabSize := Z.of_nat (List.length strtab) in
  let totalSize := strtabOffset + strtabSize in
  let headerBuf := repeat 0 512 in
  let offset := 0%nat in
  (* magic, format_version, flags, header_size, total_size *)
  headerBuf <- writeUInt32LE (Int 0x324D4B41) offset headerBuf ;;
  let offset := (offset + 4)%nat in
  headerBuf <- writeUInt16LE (Int 2) offset headerBuf ;;
  let offset := (offset + 2)%nat in
  let flags := if opt_debug options then js_or 0 0x0001 else 0 in
  headerBuf <- writeUInt16LE (Int flags) offset headerBuf ;;
  let offset := (offset + 2)%nat in
  headerBuf <- writeUInt32LE (Int 512) offset headerBuf ;;
  let offset := (offset + 4)%nat in
  headerBuf <- writeUInt32LE (Int totalSize) offset headerBuf ;;
  let offset := (offset + 4)%nat in
  (* name, version, author, api_version, reserved1 *)
  headerBuf <- writeFixedString headerBuf offset (mi_name moduleInfo) 32 ;;
  let offset := (offset + 32)%nat in
  headerBuf <- writeFixedString headerBuf offset (mi_version moduleInfo) 16 ;;
  let offset := (offset + 16)%nat in
  headerBuf <- writeFixedString headerBuf offset (mi_author moduleInfo) 32 ;;
  let offset := (offset + 32)%nat in
  headerBuf <- writeUInt16LE (Int (js_and (mi_apiVersion moduleInfo) 0xFFFF)) offset headerBuf ;;
  let offset := (offset + 2)%nat in
  let offset := (offset + 2)%nat in
  (* kernel_min_version, kernel_max_version, capabilities, reserved2 *)
  headerBuf <- writeUInt32LE (Int (mi_kernelMinVersion moduleInfo)) offset headerBuf ;;
  let offset := (offset + 4)%nat in
  headerBuf <- writeUInt32LE (Int (mi_kernelMaxVersion moduleInfo)) offset headerBuf ;;
  let offset := (offset + 4)%nat in
  capabilities <- to_number (mi_capabilities moduleInfo) ;;
  headerBuf <- writeUInt32LE capabilities offset headerBuf ;;
  let offset := (offset + 4)%nat in
  let offset := (offset + 4)%nat in
  (* code, data, rodata, bss, reserved3 *)
  headerBuf <- writeUInt32LE (Int codeOffset) offset headerBuf ;;
  let offset := (offset + 4)%nat in
  headerBuf <- writeUInt32LE (Int codeSize) offset headerBuf ;;
  let offset := (offset + 4)%nat in
  headerBuf <- writeUInt32LE (Int dataOffset) offset headerBuf ;;
  let offset := (offset + 4)%nat in
  headerBuf <- writeUInt32LE (Int dataSize) offset headerBuf ;;
  let offset := (offset + 4)%nat in
  headerBuf <- writeUInt32LE (Int 0) offset headerBuf ;;
  let offset := (offset + 4)%nat in
  headerBuf <- writeUInt32LE (Int 0) offset headerBuf ;;
  let offset := (offset + 4)%nat in
  headerBuf <- writeUInt32LE (Int 0) offset headerBuf ;;
  let offset := (offset + 4)%nat in
  let offset := (offset + 20)%nat in
  (* init_offset, cleanup_offset, reserved4 *)
  headerBuf <- writeUInt32LE (Int (cg_initOffset codegenResult)) offset headerBuf ;;
  let offset := (offset + 4)%nat in
  headerBuf <- writeUInt32LE (Int (cg_exitOffset codegenResult)) offset headerBuf ;;
  let offset := (offset + 4)%nat in
  let offset := (offset + 8)%nat in
  (* symtab, strtab, reserved5 *)
  headerBuf <- writeUInt32LE (Int symtabOffset) offset headerBuf ;;
  let offset := (offset + 4)%nat in
  headerBuf <- writeUInt32LE (Int symtabSize) offset headerBuf ;;
  let offset := (offset + 4)%nat in
  headerBuf <- writeUInt32LE (Int strtabOffset) offset headerBuf ;;
  let offset := (offset + 4)%nat in
  headerBuf <- writeUInt32LE (Int strtabSize) offset headerBuf ;;
  let offset := (offset + 4)%nat in
  let offset := (offset + 16)%nat in
  (* dep_count, reserved6, dependencies[4][32] *)
  length <- to_number (js_length (mi_dependencies moduleInfo)) ;;
  let depCount := min4 length in
  headerBuf <- writeUInt8 depCount offset headerBuf ;;
  let offset := (offset + 1)%nat in
  let offset := (offset + 3)%nat in
  headerBuf <- writeDependency moduleInfo depCount headerBuf offset 0 ;;
  let offset := (offset + 32)%nat in
  headerBuf <- writeDependency moduleInfo depCount headerBuf offset 1 ;;
  let offset := (offset + 32)%nat in
  headerBuf <- writeDependency moduleInfo depCount headerBuf offset 2 ;;
  let offset := (offset + 32)%nat in
  headerBuf <- writeDependency moduleInfo depCount headerBuf offset 3 ;;
  let offset := (offset + 32)%nat in
  (* security_level, signature_type, reserved7 *)
  securityLevel <- to_number (js_lor (mi_securityLevel moduleInfo) (JNum (Int 0))) ;;
  headerBuf <- writeUInt8 securityLevel offset headerBuf ;;
  let offset := (offset + 1)%nat in
  headerBuf <- writeUInt8 (Int 0) offset headerBuf ;;
  let offset := (offset + 1)%nat in
  let offset := (offset + 2)%nat in
  (* header_checksum (later), content_checksum *)
  let checksumOffset := offset in
  let offset := (offset + 4)%nat in
  let contentChecksum := calculateChecksum (code ++ data ++ symtab ++ strtab) in
  headerBuf <- writeUInt32LE (Int contentChecksum) offset headerBuf ;;
  let headerForChecksum :=
    buf_slice headerBuf 0 checksumOffset
    ++ buf_slice headerBuf (checksumOffset + 4) (List.length headerBuf) in
  let headerChecksum := calculateChecksum headerForChecksum in
  headerBuf <- writeUInt32LE (Int headerChecksum) checksumOffset headerBuf ;;
  Ok (headerBuf ++ code ++ data ++ symtab ++ strtab).

(** ** The compiler ([src/compiler.js]) *)

(** The constructor's constants: API version 2.0 and the kernel range. *)
Definition apiVersion : Z := 0x0200.
Definition targetKernel_min : Z := 0x00080000.
Definition targetKernel_max : Z := 0.

Definition validateModule (parseResult : parseResult) : outcome unit :=
  match pr_moduleConfig parseResult with
  | None => Throws (Error "Module must declare configuration using AKM.module()")
  | Some moduleConfig =>
      if negb (truthy (obj_get "name" moduleConfig)) then
        Throws (Error "Module must have a name")
      else match assoc "init" (pr_functions parseResult) with
      | None => Throws (Error "Module must have an init() function")
      | Some _ =>
        match assoc "exit" (pr_functions parseResult) with
        | None => Throws (Error "Module must have an exit() function")
        | Some _ => Ok tt
        end
      end
  end.

Definition moduleInfoOf (options : options) (config : list (string * jsval))
  : moduleInfo :=
  {| mi_name := js_lor (obj_get "name" config) (JStr "unnamed");
     mi_version := js_lor (obj_get "version" config) (JStr "1.0.0");
     mi_author := js_lor (obj_get "author" config) (JStr "");
     mi_description := js_lor (obj_get "description" config) (JStr "");
     mi_license := js_lor (obj_get "license" config) (JStr "MIT");
     mi_capabilities :=
       js_lor (js_lor (opt_capabilities options) (obj_get "capabilities" config))
         (JNum (Int 0));
     mi_apiVersion := apiVersion;
     mi_kernelMinVersion := targetKernel_min;
     mi_kernelMaxVersion := targetKernel_max;
     mi_dependencies := js_lor (obj_get "dependencies" config) (JArr []);
     mi_securityLevel := js_lor (obj_get "securityLevel" config) (JNum (Int 0)) |}.

Definition extractModuleInfo (options : options) (parseResult : parseResult)
  : outcome moduleInfo :=
  match pr_moduleConfig parseResult with
  | Some config => Ok (moduleInfoOf options config)
  | None => Throws (TypeError "Cannot read properties of undefined (reading 'name')")
  end.

(** What [compile] returns ([ir] is the debugging copy of the code
    generator's result). *)
Record compiled : Type := {
  binary : list Z;
  info : moduleInfo;
  codeSize : Z;
  dataSize : Z;
  commands : list irCommand;
  ir : option codegenResult
}.

Definition compile (options : options) (parseResult : parseResult) : outcome compiled :=
  _ <- validateModule parseResult ;;
  moduleInfo <- extractModuleInfo options parseResult ;;
  ir <- generate parseResult ;;
  ir <- (if opt_optimize options then optimize ir else Ok ir) ;;
  binary <- write options ir moduleInfo ;;
  Ok {| binary := binary; info := moduleInfo; codeSize := cg_codeSize ir;
        dataSize := cg_dataSize ir; commands := cg_commands ir;
        ir := if opt_debug options then Some ir else None |}.

(** The path of [main] in [bin/akmcc.js] from the parsed source to the bytes
    written to the output file: a syntax error, like any exception, ends the
    process with status 1 before anything is written. *)
Definition akmcc (options : options) (source : acornResult) : outcome compiled :=
  parseResult <- parse source ;;
  match pr_errors parseResult with
  | e :: _ => Throws (Error (err_message e))
  | [] => compile options parseResult
  end.

(** ** The inspector ([showModuleInfo] of [bin/akmcc.js]) *)

Definition hex_digit (d : Z) : ascii :=
  match d with
  | 0 => "0" | 1 => "1" | 2 => "2" | 3 => "3" | 4 => "4" | 5 => "5" | 6 => "6"
  | 7 => "7" | 8 => "8" | 9 => "9" | 10 => "A" | 11 => "B" | 12 => "C"
  | 13 => "D" | 14 => "E" | _ => "F"
  end%char.

Fixpoint hex_digits (fuel : nat) (n : Z) (acc : string) : string :=
  match fuel with
  | O => acc
  | S fuel' =>
      let acc := String (hex_digit (n mod 16)) acc in
      if n / 16 =? 0 then acc else hex_digits fuel' (n / 16) acc
  end.

(** [n.toString(16).toUpperCase()] for an unsigned 32-bit [n]: at most eight
    digits. *)
Definition toString16Upper (n : Z) : string := hex_digits 8 n "".

(** The value of a string of upper-case hexadecimal digits. *)
Definition hex_value_of (c : ascii) : option Z :=
  let u := code_unit c in
  if (48 <=? u) && (u <=? 57) then Some (u - 48)
  else if (65 <=? u) && (u <=? 70) then Some (u - 55)
  else None.

Fixpoint parse_hex (s : string) (acc : Z) : option Z :=
  match s with
  | EmptyString => Some acc
  | String c s' =>
      match hex_value_of c with
      | Some d => parse_hex s' (16 * acc + d)
      | None => None
      end
  end.

(** The header fields the report prints (the text fields, decoded from
    UTF-8, are left out). *)
Record report : Type := {
  r_formatVersion : Z;
  r_flags : Z;
  r_headerSize : Z;
  r_totalSize : Z;
  r_apiVersion : Z;
  r_kernelMin : Z;
  r_kernelMax : Z;
  r_capabilities : Z;
  r_codeOffset : Z;
  r_codeSize : Z;
  r_dataOffset : Z;
  r_dataSize : Z;
  r_rodataOffset : Z;
  r_rodataSize : Z;
  r_bssSize : Z;
  r_initOffset : Z;
  r_cleanupOffset : Z;
  r_symtabOffset : Z;
  r_symtabSize : Z;
  r_strtabOffset : Z;
  r_strtabSize : Z;
  r_depCount : Z;
  r_securityLevel : Z;
  r_signatureType : Z;
  r_headerChecksum : Z;
  r_contentChecksum : Z
}.

(** How [showModuleInfo] ends: [error(message); process.exit(status)], or the
    report is printed and the function returns. *)
Inductive inspection : Type :=
| Exits (status : Z) (message : string)
| Prints (r : report).

(** [showModuleInfo(filepath)]; [file] is the content of the file, [None]
    when it does not exist. *)
Definition showModuleInfo (filepath : string) (file : option (list Z)) : inspection :=
  match file with
  | None => Exits 1 ("File not found: " ++ filepath)%string
  | Some data =>
      if Z.of_nat (List.length data) <? 512 then
        Exits 1 "Invalid AKM file: too small"
      else
        let magic := readUInt32LE data 0 in
        if negb (magic =? 0x324D4B41) then
          Exits 1 ("Invalid magic: expected 0x324D4B41 (AKM2), got 0x"
                   ++ toString16Upper magic)%string
        else
          Prints
            {| r_formatVersion := readUInt16LE data 4;
               r_flags := readUInt16LE data 6;
               r_headerSize := readUInt32LE data 8;
               r_totalSize := readUInt32LE data 12;
               r_apiVersion := readUInt16LE data 96;
               r_kernelMin := readUInt32LE data 100;
               r_kernelMax := readUInt32LE data 104;
               r_capabilities := readUInt32LE data 108;
               r_codeOffset := readUInt32LE data 116;
               r_codeSize := readUInt32LE data 120;
               r_dataOffset := readUInt32LE data 124;
               r_dataSize := readUInt32LE data 128;
               r_rodataOffset := readUInt32LE data 132;
               r_rodataSize := readUInt32LE data 136;
               r_bssSize := readUInt32LE data 140;
               r_initOffset := readUInt32LE data 164;
               r_cleanupOffset := readUInt32LE data 168;
               r_symtabOffset := readUInt32LE data 180;
               r_symtabSize := readUInt32LE data 184;
               r_strtabOffset := readUInt32LE data 188;
               r_strtabSize := readUInt32LE data 192;
               r_depCount := readUInt8 data 212;
               r_securityLevel := readUInt8 data 344;
               r_signatureType := readUInt8 data 345;
               r_headerChecksum := readUInt32LE data 348;
               r_contentChecksum := readUInt32LE data 352 |}
  end.

(** The exit status of [akmcc <file> --info]: [main] exits with 0 once
    [showModuleInfo] has returned. *)
Definition info_exit_status (filepath : string) (file : option (list Z)) : Z :=
  match showModuleInfo filepath file with
  | Exits status _ => status
  | Prints _ => 0
  end.

(** A file is a sequence of bytes. *)
Definition is_byte (b : Z) : Prop := 0 <= b < 256.

(** ** The words of the specification *)

(** "Rolling 32-bit unsigned accumulator: for each input byte b,
    acc = rotate_left_32(acc + b, 1).  Initial acc = 0." *)
Definition rotate_left_32 (x k : Z) : Z :=
  Z.lor (Z.shiftl x k mod two32) (Z.shiftr x (32 - k)).

Definition rolling_hash (data : list Z) : Z :=
  fold_left (fun acc b => rotate_left_32 ((acc + b) mod two32) 1) data 0.

(** A value has the bits of a capability mask. *)
Definition has_capability (caps c : Z) : Prop := Z.land caps c = c.

(** The fields and the sections of an artifact, read as the header says. *)
Definition total_size (a : list Z) : Z := readUInt32LE a 12.
Definition capabilities_of (a : list Z) : Z := readUInt32LE a 108.
Definition code_offset (a : list Z) : Z := readUInt32LE a 116.
Definition code_size (a : list Z) : Z := readUInt32LE a 120.
Definition data_offset (a : list Z) : Z := readUInt32LE a 124.
Definition data_size (a : list Z) : Z := readUInt32LE a 128.
Definition symtab_offset (a : list Z) : Z := readUInt32LE a 180.
Definition symtab_size (a : list Z) : Z := readUInt32LE a 184.
Definition strtab_offset (a : list Z) : Z := readUInt32LE a 188.
Definition strtab_size (a : list Z) : Z := readUInt32LE a 192.
Definition header_checksum (a : list Z) : Z := readUInt32LE a 348.
Definition content_checksum (a : list Z) : Z := readUInt32LE a 352.

Definition section (a : list Z) (offset size : Z) : list Z :=
  firstn (Z.to_nat size) (skipn (Z.to_nat offset) a).

Definition code_section (a : list Z) : list Z := section a (code_offset a) (code_size a).
Definition data_section (a : list Z) : list Z := section a (data_offset a) (data_size a).
Definition symtab_section (a : list Z) : list Z := section a (symtab_offset a) (symtab_size a).
Definition strtab_section (a : list Z) : list Z := section a (strtab_offset a) (strtab_size a).

(** The value field of the [i]-th 12-byte record of the symbol table. *)
Definition symbol_value (a : list Z) (i : nat) : Z :=
  readUInt32LE (symtab_section a) (12 * i + 4).

Definition symbol_count (a : list Z) : Z := symtab_size a / 12.

(** ** Sources used as examples *)

Section Examples.

Local Open Scope string_scope.

Definition member (object property : string) : node :=
  MemberExpression (Identifier object) (Identifier property).

(** The call [AKM.<method>(arguments)], and the statement that consists of
    it. *)
Definition call_akm (method : string) (arguments : list node) : node :=
  CallExpression (member "AKM" method) arguments.

Definition akm (method : string) (arguments : list node) : node :=
  ExpressionStatement (call_akm method arguments).

Definition str (s : string) : node := Literal (LStr s).
Definition num (n : Z) : node := Literal (LNum n).
Definition prop (key : string) (value : node) : node := Property (Identifier key) value.

Definition function_ (name : string) (params : list string) (body : list node) : node :=
  FunctionDeclaration (Some name) (map Identifier params) (BlockStatement body).

Definition return_ (e : node) : node := ReturnStatement (Some e).

(** [export { init, exit };] *)
Definition export_init_exit : node :=
  ExportNamedDeclaration None
    [ OtherNode "ExportSpecifier" [Identifier "init"; Identifier "init"];
      OtherNode "ExportSpecifier" [Identifier "exit"; Identifier "exit"] ].

(** [AKM.CAPS.<NAME>] *)
Definition caps (name : string) : node :=
  MemberExpression (member "AKM" "CAPS") (Identifier name).

(** The minimal module:
<<
    AKM.module({ name: "a" });
    function init() { return 0; }
    function exit() { }
>> *)
Definition minimal_module : node :=
  ProgramNode
    [ akm "module" [ObjectExpression [prop "name" (str "a")]];
      function_ "init" [] [return_ (num 0)];
      function_ "exit" [] [] ].

(** A module that declares its capabilities and calls no API:
<<
    AKM.module({ name: "m", capabilities: AKM.CAPS.MEMORY | AKM.CAPS.PCI });
    function init() { return 0; }
    function exit() { }
>> *)
Definition declared_capabilities : node :=
  BinaryExpression (caps "MEMORY") "|" (caps "PCI").

Definition caps_module : node :=
  ProgramNode
    [ akm "module"
        [ObjectExpression [prop "name" (str "m");
                           prop "capabilities" declared_capabilities]];
      function_ "init" [] [return_ (num 0)];
      function_ "exit" [] [] ].

(** The body [{ return 2 + 3; }] and a module whose [init] has it. *)
Definition return_2_plus_3 : node :=
  BlockStatement [return_ (BinaryExpression (num 2) "+" (num 3))].

Definition fold_module : node :=
  ProgramNode
    [ akm "module" [ObjectExpression [prop "name" (str "m")]];
      FunctionDeclaration (Some "init") [] return_2_plus_3;
      function_ "exit" [] [] ].

(** A module with two commands:
<<
    AKM.module({ name: "shell" });
    function first(args) { AKM.info("one"); }
    function second(args) { AKM.malloc(16); }
    AKM.command({ name: "one", syntax: "one [x]", description: "first",
                  category: "Test" }, first);
    AKM.command({ name: "two" }, second);
    function init(ctx) { AKM.info("loaded"); return 0; }
    function exit(ctx) { }
    export { init, exit };
>> *)
Definition shell_malloc : node := call_akm "malloc" [num 16].

Definition shell_command_one : node :=
  call_akm "command"
    [ ObjectExpression [prop "name" (str "one"); prop "syntax" (str "one [x]");
                        prop "description" (str "first"); prop "category" (str "Test")];
      Identifier "first" ].

Definition shell_module : node :=
  ProgramNode
    [ akm "module" [ObjectExpression [prop "name" (str "shell")]];
      function_ "first" ["args"] [akm "info" [str "one"]];
      function_ "second" ["args"] [ExpressionStatement shell_malloc];
      ExpressionStatement shell_command_one;
      akm "command" [ObjectExpression [prop "name" (str "two")]; Identifier "second"];
      function_ "init" ["ctx"] [akm "info" [str "loaded"]; return_ (num 0)];
      function_ "exit" ["ctx"] [];
      export_init_exit ].

(** The example module of the repository ([examples/hello.akm.js]), and the
    call that registers its command. *)
Definition hello_command : node :=
  call_akm "command"
    [ ObjectExpression
        [prop "name" (str "hello"); prop "syntax" (str "hello [name]");
         prop "description" (str "Say hello from the kernel module");
         prop "category" (str "Module")];
      Identifier "cmdHello" ].

Definition hello_module : node :=
  ProgramNode
    [ akm "module"
        [ObjectExpression
           [prop "name" (str "hello"); prop "version" (str "1.0.0");
            prop "author" (str "Aarav Mehta");
            prop "description" (str "Hello World kernel module example");
            prop "license" (str "MIT");
            prop "capabilities" (BinaryExpression (caps "COMMAND") "|" (caps "LOG"));
            prop "dependencies" (ArrayExpression [])]];
      function_ "cmdHello" ["args"]
        [ IfStatement
            (OtherNode "LogicalExpression"
               [Identifier "args";
                BinaryExpression (member "args" "length") ">" (num 0)])
            (BlockStatement
               [akm "info" [TemplateLiteral [Identifier "args"] ["Hello, "; "!"]];
                akm "print" [TemplateLiteral [Identifier "args"] ["Hello, "; "!"]]])
            (Some (BlockStatement
                     [akm "info" [str "Hello, World!"];
                      akm "print" [str "Hello, World!"]])) ];
      ExpressionStatement hello_command;
      function_ "init" ["ctx"]
        [akm "info" [str "Hello module loaded!"];
         akm "info" [str "Type 'hello' to greet the world."];
         return_ (num 0)];
      function_ "exit" ["ctx"]
        [akm "info" [str "Hello module unloading..."];
         akm "info" [str "Goodbye, World!"]];
      export_init_exit ].

(** The options of a plain run, and of a run with [-O]. *)
Definition default_options : options :=
  {| opt_debug := false; opt_optimize := false; opt_verbose := false;
     opt_capabilities := JNull |}.

Definition optimizing_options : options :=
  {| opt_debug := false; opt_optimize := true; opt_verbose := false;
     opt_capabilities := JNull |}.

Definition empty_IR : IR :=
  {| ir_strings := []; ir_functions := []; ir_commands := []; ir_apiCalls := [] |}.

Definition empty_parseResult : parseResult :=
  {| pr_moduleConfig := None; pr_functions := []; pr_commands := []; pr_apiCalls := [];
     pr_ir := empty_IR; pr_errors := [] |}.

(** The parse result of a source and the result of a plain run on it (the
    empty ones when the run fails). *)
Definition parsed (ast : node) : parseResult :=
  match parse (Parsed ast) with
  | Ok parseResult => parseResult
  | _ => empty_parseResult
  end.

Definition compiled_of (ast : node) : compiled :=
  match akmcc default_options (Parsed ast) with
  | Ok c => c
  | _ => {| binary := []; info := moduleInfoOf default_options []; codeSize := 0;
            dataSize := 0; commands := []; ir := None |}
  end.


(** A source without a call of [AKM.module]:
<<
    function init() { return 0; }
    function exit() { }
>> *)
Definition anonymous_module : node :=
  ProgramNode [ function_ "init" [] [return_ (num 0)]; function_ "exit" [] [] ].

(** A valid artifact whose first byte is flipped. *)
Definition corrupt_artifact : list Z :=
  write_at 0 [0x40] (binary (compiled_of minimal_module)).

(** The [init] function of the IR of [shell_module]. *)
Definition shell_init : irFunc := nth 2 (ir_functions (pr_ir (parsed shell_module)))
  {| f_name := ""; f_nameIdx := 0; f_params := []; f_instructions := []; f_locals := [];
     f_isInit := false; f_isExit := false |}.

End Examples.

(** ** Predicates and invariants of the proofs *)

(** [buf'] differs from [buf] at most on the indices of [[a, b)]. *)
Definition untouched (a b : nat) (buf buf' : list Z) : Prop :=
  List.length buf' = List.length buf /\
  forall i, (i < a \/ b <= i)%nat -> byte_at buf' i = byte_at buf i.

(** The header [hdr] and the tables of an artifact, with the fields of the
    header that locate the sections and the two checksums. *)
Record layout (cg : codegenResult) (mi : moduleInfo) (art hdr symtab strtab : list Z)
  : Prop := {
  lay_art : art = hdr ++ cg_code cg ++ cg_data cg ++ symtab ++ strtab;
  lay_hdr : List.length hdr = 512%nat;
  lay_symtab : buildSymbolTable cg = Ok symtab;
  lay_strtab : buildStrtab (cg_strings cg) = Ok strtab;
  lay_magic : readUInt32LE hdr 0 = 0x324D4B41;
  lay_magic_bytes : firstn 4 hdr = [0x41; 0x4B; 0x4D; 0x32];
  lay_header_size : readUInt32LE hdr 8 = 512;
  lay_total :
    readUInt32LE hdr 12 =
      512 + Z.of_nat (List.length (cg_code cg)) + Z.of_nat (List.length (cg_data cg))
      + Z.of_nat (List.length symtab) + Z.of_nat (List.length strtab);
  lay_caps :
    exists caps, to_number (mi_capabilities mi) = Ok caps /\
                 (caps = NaN \/ caps = Int (readUInt32LE hdr 108)) /\
                 0 <= readUInt32LE hdr 108 < two32;
  lay_code_offset : readUInt32LE hdr 116 = 512;
  lay_code_size : readUInt32LE hdr 120 = Z.of_nat (List.length (cg_code cg));
  lay_data_offset : readUInt32LE hdr 124 = 512 + Z.of_nat (List.length (cg_code cg));
  lay_data_size : readUInt32LE hdr 128 = Z.of_nat (List.length (cg_data cg));
  lay_symtab_offset :
    readUInt32LE hdr 180 =
      512 + Z.of_nat (List.length (cg_code cg)) + Z.of_nat (List.length (cg_data cg));
  lay_symtab_size : readUInt32LE hdr 184 = Z.of_nat (List.length symtab);
  lay_strtab_offset :
    readUInt32LE hdr 188 =
      512 + Z.of_nat (List.length (cg_code cg)) + Z.of_nat (List.length (cg_data cg))
      + Z.of_nat (List.length symtab);
  lay_strtab_size : readUInt32LE hdr 192 = Z.of_nat (List.length strtab);
  lay_content_checksum :
    readUInt32LE hdr 352 = calculateChecksum (cg_code cg ++ cg_data cg ++ symtab ++ strtab);
  lay_header_checksum :
    readUInt32LE hdr 348 = calculateChecksum (firstn 348 hdr ++ skipn 352 hdr)
}.

(** The generator's offset is the length of the code emitted so far. *)
Definition in_step (g : codegen) : Prop :=
  currentOffset g = Z.of_nat (List.length (code g)).

(** [g'] extends the code of [g] by at least [n] bytes and stays in step. *)
Definition grows (n : nat) (g g' : codegen) : Prop :=
  in_step g -> in_step g' /\ (List.length (code g) + n <= List.length (code g'))%nat.

(** Every recorded function offset lies inside the code emitted so far. *)
Definition offsets_inside (acc : codegen * list (string * Z)) : Prop :=
  in_step (fst acc) /\
  forall name offset, In (name, offset) (snd acc) ->
                      0 <= offset < Z.of_nat (List.length (code (fst acc))).

Definition structural_messages : list string :=
  [ "Module must declare configuration using AKM.module()";
    "Module must have a name";
    "Module must have an init() function";
    "Module must have an exit() function" ]%string.

(** The module configuration of a parse result has no name: none at all,
    or an empty one. *)
Definition no_name (pr : parseResult) : Prop :=
  match pr_moduleConfig pr with
  | Some config => truthy (obj_get "name" config) = false
  | None => True
  end.

(** No node of the source is a call [AKM.module(...)]. *)
Definition no_module_call (ast : node) : Prop :=
  forall n arguments, In n (walk ast) -> akm_call n <> Some (Some "module"%string, arguments).

(** ** The optimizer's passes on an intermediate representation

    The passes of [AKMOptimizer] as they are written, for an argument whose
    [functions] is a sequence of objects that have an array [instructions]:
    the IR of the parser.  This is what a caller gets that hands the
    optimizer such an IR; [compile] hands it the result of the code
    generator instead, which is modelled above.  A pass replaces
    [func.instructions] and returns [ir]. *)

Module AKMOptimizer.

Definition with_instructions (func : irFunc) (instructions : list instr) : irFunc :=
  {| f_name := f_name func; f_nameIdx := f_nameIdx func; f_params := f_params func;
     f_instructions := instructions; f_locals := f_locals func;
     f_isInit := f_isInit func; f_isExit := f_isExit func |}.

Definition with_functions (ir : IR) (functions : list irFunc) : IR :=
  {| ir_strings := ir_strings ir; ir_functions := functions;
     ir_commands := ir_commands ir; ir_apiCalls := ir_apiCalls ir |}.

(** "First pass: find all jump targets": what one instruction adds to the
    set [seenLabels], its label and its target when they are truthy. *)
Definition jumpTargets (instr : instr) : list jsval :=
  (if label_set (i_label instr) then [opt_val (i_label instr)] else [])
  ++ match i_target instr with
     | Some target => if target =? 0 then [] else [JNum (Int target)]
     | None => []
     end.

Definition ends_flow (instr : instr) : bool :=
  (i_op instr =? OPCODES.RET) || (i_op instr =? OPCODES.JMP) || (i_op instr =? OPCODES.HALT).

(** "Second pass: eliminate dead code", from the index [i] on. *)
Fixpoint eliminate (seenLabels : list jsval) (i : nat) (reachable : bool)
  (instructions : list instr) : list instr :=
  match instructions with
  | [] => []
  | instr :: rest =>
      let reachable :=
        if existsb (same_value (JNum (Int (Z.of_nat i)))) seenLabels
        then true else reachable in
      if reachable
      then instr :: eliminate seenLabels (S i) (negb (ends_flow instr)) rest
      else eliminate seenLabels (S i) false rest
  end.

Definition reachableInstructions (instructions : list instr) : list instr :=
  eliminate (flat_map jumpTargets instructions) 0 true instructions.

Definition deadCodeElimination (ir : IR) : IR :=
  with_functions ir
    (map (fun func => with_instructions func (reachableInstructions (f_instructions func)))
       (ir_functions ir)).

(** The integers a double holds exactly. *)
Definition is_safe (z : Z) : bool := Z.abs z <=? 9007199254740991.

(** [a + b], [a - b], [a * b], [Math.floor(a / b)] and [a % b] on two
    numbers: exact on safe integers with a safe result, [NaN] when an operand
    is [NaN]; the rounding of larger values is not modelled. *)
Definition arithmetic (f : Z -> Z -> Z) (a b : number) : outcome number :=
  match a, b with
  | Int x, Int y =>
      if is_safe x && is_safe y && is_safe (f x y) then Ok (Int (f x y)) else Unmodelled
  | _, _ => Ok NaN
  end.

(** [a ^ b] *)
Definition js_xor (a b : Z) : Z := Z.lxor (to_int32 a) (to_int32 b).

(** The operators on 32-bit integers: [NaN] is read as zero. *)
Definition bitwise (f : Z -> Z -> Z) (a b : number) : outcome number :=
  Ok (Int (f (num_int32 a) (num_int32 b))).

Definition is_zero (n : number) : bool :=
  match n with
  | Int z => z =? 0
  | NaN => false
  end.

(** The [switch (next2.op)] of the constant folder: [None] when [result]
    stays [null]. *)
Definition foldedValue (op : Z) (a b : number) : option (outcome number) :=
  if op =? OPCODES.ADD then Some (arithmetic Z.add a b)
  else if op =? OPCODES.SUB then Some (arithmetic Z.sub a b)
  else if op =? OPCODES.MUL then Some (arithmetic Z.mul a b)
  else if op =? OPCODES.DIV then
    if is_zero b then None else Some (arithmetic Z.div a b)
  else if op =? OPCODES.MOD then
    if is_zero b then None else Some (arithmetic Z.rem a b)
  else if op =? OPCODES.AND then Some (bitwise js_and a b)
  else if op =? OPCODES.OR then Some (bitwise js_or a b)
  else if op =? OPCODES.XOR then Some (bitwise js_xor a b)
  else if op =? OPCODES.SHL then Some (bitwise js_shl a b)
  else if op =? OPCODES.SHR then Some (bitwise js_ushr a b)
  else None.

(** The loop of [constantFolding] over the instructions of one function:
    "Look for patterns like PUSH const1, PUSH const2, ADD". *)
Fixpoint foldInstructions (instructions : list instr) : outcome (list instr) :=
  match instructions with
  | [] => Ok []
  | instr :: rest =>
      let keep := (folded <- foldInstructions rest ;; Ok (instr :: folded)) in
      match rest with
      | next1 :: next2 :: rest' =>
          if (i_op instr =? OPCODES.PUSH) && (i_op next1 =? OPCODES.PUSH) then
            match i_value instr, i_value next1 with
            | JNum a, JNum b =>
                match foldedValue (i_op next2) a b with
                | Some result =>
                    result <- result ;;
                    folded <- foldInstructions rest' ;;
                    Ok (op_value OPCODES.PUSH (JNum result) :: folded)
                | None => keep
                end
            | _, _ => keep
            end
          else keep
      | _ => keep
      end
  end.

Definition constantFolding (ir : IR) : outcome IR :=
  functions <- mapM (fun func =>
                       instructions <- foldInstructions (f_instructions func) ;;
                       Ok (with_instructions func instructions))
                 (ir_functions ir) ;;
  Ok (with_functions ir functions).

(** [next && next.op === op] *)
Definition next_is (rest : list instr) (op : Z) : bool :=
  match rest with
  | next :: _ => i_op next =? op
  | [] => false
  end.

(** [value === z] *)
Definition is_number (value : jsval) (z : Z) : bool :=
  match value with
  | JNum (Int x) => x =? z
  | _ => false
  end.

(** The loop of [peepholeOptimization] over the instructions of one
    function. *)
Fixpoint peephole (instructions : list instr) : list instr :=
  match instructions with
  | [] => []
  | instr :: rest =>
      let skipBoth := match rest with
                      | _ :: rest' => peephole rest'
                      | [] => []
                      end in
      if (i_op instr =? OPCODES.PUSH) && next_is rest OPCODES.POP then skipBoth
      else if (i_op instr =? OPCODES.NEG) && next_is rest OPCODES.NEG then skipBoth
      else if (i_op instr =? OPCODES.NOT) && next_is rest OPCODES.NOT then skipBoth
      else if (i_op instr =? OPCODES.NOP) && negb (i_isEntry instr) then peephole rest
      else if (i_op instr =? OPCODES.PUSH) && is_number (i_value instr) 0
              && next_is rest OPCODES.ADD then skipBoth
      else if (i_op instr =? OPCODES.PUSH) && is_number (i_value instr) 1
              && next_is rest OPCODES.MUL then skipBoth
      else if (i_op instr =? OPCODES.DUP) && next_is rest OPCODES.POP then skipBoth
      else instr :: peephole rest
  end.

Definition peepholeOptimization (ir : IR) : IR :=
  with_functions ir
    (map (fun func => with_instructions func (peephole (f_instructions func)))
       (ir_functions ir)).

(** [stringDeduplication(ir)]: the strings are the keys of a [Map], which
    compares objects by identity. *)
Definition stringDeduplication (ir : IR) : outcome IR :=
  if forallb is_primitive (ir_strings ir) then
    Ok {| ir_strings := unique (ir_strings ir) []; ir_functions := ir_functions ir;
          ir_commands := ir_commands ir; ir_apiCalls := ir_apiCalls ir |}
  else Unmodelled.

Definition optimize (ir : IR) : outcome IR :=
  let ir := deadCodeElimination ir in
  ir <- constantFolding ir ;;
  let ir := peepholeOptimization ir in
  stringDeduplication ir.

End AKMOptimizer.

(** ** The capabilities argument ([parseCapabilities] of [src/compiler.js]) *)

(** The combinations [src/constants.js] adds to [CAPABILITIES]. *)
Definition CAPABILITIES_BASIC : Z :=
  js_or (js_or CAPABILITIES.LOG CAPABILITIES.MEMORY) CAPABILITIES.SYSINFO.
Definition CAPABILITIES_DEVICE_DRIVER : Z :=
  js_or (js_or (js_or (js_or CAPABILITIES_BASIC CAPABILITIES.DRIVER) CAPABILITIES.IRQ)
           CAPABILITIES.IO_PORT) CAPABILITIES.PCI.
Definition CAPABILITIES_NET_DRIVER : Z :=
  js_or CAPABILITIES_DEVICE_DRIVER CAPABILITIES.NETWORK.
Definition CAPABILITIES_FS_MODULE : Z :=
  js_or CAPABILITIES_BASIC CAPABILITIES.FILESYSTEM.
Definition CAPABILITIES_SHELL_MODULE : Z :=
  js_or (js_or CAPABILITIES_BASIC CAPABILITIES.COMMAND) CAPABILITIES.ENVVAR.

(** The own properties of the object [CAPABILITIES].  The properties it
    inherits have a lower-case letter in their names, which no upper-cased
    name has. *)
Definition CAPABILITIES_entries : list (string * Z) :=
  [ ("NONE", CAPABILITIES.NONE); ("COMMAND", CAPABILITIES.COMMAND);
    ("DRIVER", CAPABILITIES.DRIVER); ("FILESYSTEM", CAPABILITIES.FILESYSTEM);
    ("NETWORK", CAPABILITIES.NETWORK); ("ENVVAR", CAPABILITIES.ENVVAR);
    ("PROCESS", CAPABILITIES.PROCESS); ("MEMORY", CAPABILITIES.MEMORY);
    ("IRQ", CAPABILITIES.IRQ); ("IO_PORT", CAPABILITIES.IO_PORT);
    ("PCI", CAPABILITIES.PCI); ("TIMER", CAPABILITIES.TIMER);
    ("LOG", CAPABILITIES.LOG); ("SYSINFO", CAPABILITIES.SYSINFO);
    ("USER", CAPABILITIES.USER); ("SECURITY", CAPABILITIES.SECURITY);
    ("PANIC", CAPABILITIES.PANIC); ("DEBUG", CAPABILITIES.DEBUG);
    ("IPC", CAPABILITIES.IPC); ("CRYPTO", CAPABILITIES.CRYPTO);
    ("ACPI", CAPABILITIES.ACPI); ("ALL", CAPABILITIES.ALL);
    ("BASIC", CAPABILITIES_BASIC); ("DEVICE_DRIVER", CAPABILITIES_DEVICE_DRIVER);
    ("NET_DRIVER", CAPABILITIES_NET_DRIVER); ("FS_MODULE", CAPABILITIES_FS_MODULE);
    ("SHELL_MODULE", CAPABILITIES_SHELL_MODULE) ]%string.

(** The white space and the line terminators among the code units below
    256. *)
Definition is_space (c : ascii) : bool :=
  let u := code_unit c in
  ((9 <=? u) && (u <=? 13)) || (u =? 32) || (u =? 160).

Fixpoint trimStart (s : string) : string :=
  match s with
  | EmptyString => EmptyString
  | String c s' => if is_space c then trimStart s' else s
  end.

Fixpoint trimEnd (s : string) : string :=
  match s with
  | EmptyString => EmptyString
  | String c s' =>
      match trimEnd s' with
      | EmptyString => if is_space c then EmptyString else String c EmptyString
      | t => String c t
      end
  end.

(** [s.trim()] *)
Definition trim (s : string) : string := trimEnd (trimStart s).

Definition upper (c : ascii) : ascii :=
  let u := code_unit c in
  if (97 <=? u) && (u <=? 122) then ascii_of_N (N_of_ascii c - 32) else c.

(** [s.toUpperCase()] for a string of ASCII characters; the case mapping of
    the other characters is not modelled. *)
Definition toUpperCase (s : string) : outcome string :=
  if forallb (fun c => code_unit c <? 128) (list_ascii_of_string s)
  then Ok (string_of_list_ascii (map upper (list_ascii_of_string s)))
  else Unmodelled.

(** [s.split(sep)] for a separator of one character. *)
Fixpoint js_split (sep : ascii) (s : string) : list string :=
  match s with
  | EmptyString => [EmptyString]
  | String c s' =>
      if Ascii.eqb c sep then EmptyString :: js_split sep s'
      else match js_split sep s' with
           | part :: parts => String c part :: parts
           | [] => [String c EmptyString]
           end
  end.

Definition hex_digit_value (c : ascii) : option Z :=
  let u := code_unit c in
  if (48 <=? u) && (u <=? 57) then Some (u - 48)
  else if (65 <=? u) && (u <=? 70) then Some (u - 55)
  else if (97 <=? u) && (u <=? 102) then Some (u - 87)
  else None.

(** The value of the longest prefix of hexadecimal digits; [acc] is [None]
    as long as there is no digit. *)
Fixpoint hex_prefix (s : string) (acc : option Z) : option Z :=
  match s with
  | EmptyString => acc
  | String c s' =>
      match hex_digit_value c with
      | Some d =>
          hex_prefix s' (Some (16 * match acc with Some a => a | None => 0 end + d))
      | None => acc
      end
  end.

(** [parseInt(s, 16)] for a string that starts with [0x]: the prefix is
    skipped, no digit gives [NaN]; the rounding of a value above 2^53 is not
    modelled. *)
Definition parseInt16 (s : string) : outcome number :=
  match s with
  | String _ (String _ digits) =>
      match hex_prefix digits None with
      | None => Ok NaN
      | Some v => if v <=? 9007199254740992 then Ok (Int v) else Unmodelled
      end
  | _ => Ok NaN
  end.

(** [parseCapabilities(caps)]: the value the constructor stores as
    [options.capabilities]. *)
Definition parseCapabilities (caps : jsval) : outcome jsval :=
  if negb (truthy caps) then Ok JNull
  else match caps with
  | JNum n => Ok (JNum n)
  | JStr s =>
      if String.prefix "0x" s then
        n <- parseInt16 s ;; Ok (JNum n)
      else
        names <- mapM (fun s => toUpperCase (trim s)) (js_split "," s) ;;
        Ok (JNum (Int (fold_left
                         (fun result name =>
                            match assoc name CAPABILITIES_entries with
                            | Some capability => js_or result capability
                            | None => result
                            end)
                         names 0)))
  | _ => Throws (TypeError "caps.startsWith is not a function")
  end.

(** ** The names the inspector prints ([showModuleInfo] of [bin/akmcc.js]) *)

(** [Object.entries(capDefs)]: the keys are integers, so they come in
    ascending order, which is the order of the literal. *)
Definition capDefs : list (Z * string) :=
  [ (0x00000001, "COMMAND"); (0x00000002, "DRIVER"); (0x00000004, "FILESYSTEM");
    (0x00000008, "NETWORK"); (0x00000010, "ENVVAR"); (0x00000020, "PROCESS");
    (0x00000040, "MEMORY"); (0x00000080, "IRQ"); (0x00000100, "IO_PORT");
    (0x00000200, "PCI"); (0x00000400, "TIMER"); (0x00000800, "LOG");
    (0x00001000, "SYSINFO"); (0x00002000, "USER"); (0x00004000, "SECURITY");
    (0x00008000, "PANIC"); (0x00010000, "DEBUG"); (0x00020000, "IPC");
    (0x00040000, "CRYPTO"); (0x00080000, "ACPI") ]%string.

(** [capNames]: the names of the bits of [capabilities]. *)
Definition capNames (capabilities : Z) : list string :=
  map snd (filter (fun entry => negb (js_and capabilities (fst entry) =? 0)) capDefs).

(** [capNames.join(', ')] *)
Definition capNamesText (capabilities : Z) : string :=
  String.concat ", " (capNames capabilities).

(** ** The capabilities in the verbose output ([main] of [bin/akmcc.js]) *)

(** [s.padStart(n, '0')] *)
Definition padStart0 (n : nat) (s : string) : string :=
  string_of_list_ascii (repeat "0"%char (n - String.length s)) ++ s.

(** The text after [Capabilities:] in the verbose output, for a mask of 32
    bits: [0x] and
    [capabilities.toString(16).toUpperCase().padStart(8, '0')]. *)
Definition capabilitiesText (capabilities : Z) : string :=
  "0x" ++ padStart0 8 (toString16Upper capabilities).

(** A character of a capability name: an upper-case letter or an
    underscore. *)
Definition name_char (c : ascii) : bool :=
  let u := code_unit c in
  ((65 <=? u) && (u <=? 90)) || (u =? 95).

(** A non-empty string of such characters. *)
Definition plain_name (s : string) : bool :=
  negb (String.eqb s "") && forallb name_char (list_ascii_of_string s).

(** A bit below the sign bit, as the table [CAPABILITIES] names it. *)
Definition named_bit (entry : Z * string) : Prop :=
  assoc (snd entry) CAPABILITIES_entries = Some (fst entry) /\
  exists k, 0 <= k < 31 /\ fst entry = 2 ^ k.

(** What [buildSymbolTable] has added to [nameOffset] after the functions of
    a list: the length of each name and one. *)
Definition nameOffsetAfter (functions : list (string * Z)) : Z :=
  fold_left (fun nameOffset f => nameOffset + Z.of_nat (String.length (fst f)) + 1)
    functions 0.

(** ** Further predicates and invariants of the proofs *)

(** An instruction as the lowering of a function body writes it: one of
    seven opcodes, without label, target or entry mark. *)
Definition lowered (i : instr) : bool :=
  existsb (Z.eqb (i_op i))
    [ OPCODES.PUSH; OPCODES.PUSH_STR; OPCODES.LOAD_LOCAL; OPCODES.STORE_LOCAL;
      OPCODES.CALL_API; OPCODES.CALL; OPCODES.RET ]
  && match i_label i, i_target i with
     | None, None => negb (i_isEntry i)
     | _, _ => false
     end.

(** The same, or the [POP] of a registration block. *)
Definition generated (i : instr) : bool :=
  lowered i
  || (i_op i =? OPCODES.POP)
     && match i_label i, i_target i with
        | None, None => negb (i_isEntry i)
        | _, _ => false
        end.

(** No [PUSH] of the list stands immediately before a [POP]. *)
Fixpoint no_push_pop (l : list instr) : bool :=
  match l with
  | [] => true
  | i :: rest =>
      negb ((i_op i =? OPCODES.PUSH) && AKMOptimizer.next_is rest OPCODES.POP)
      && no_push_pop rest
  end.

(** No two values of the list are the same key of a [Map]. *)
Fixpoint distinct (l : list jsval) : bool :=
  match l with
  | [] => true
  | x :: l' => negb (existsb (same_value x) l') && distinct l'
  end.

(** The tables [addString] builds: primitive values, no two of them the
    same key. *)
Definition table_ok (strings : list jsval) : Prop :=
  distinct strings = true /\ forallb is_primitive strings = true.

(** Every string operand of the instructions is in the table. *)
Definition registered (instructions : list instr) (strings : list jsval) : Prop :=
  forall i, In i instructions -> i_op i = OPCODES.PUSH_STR -> In (i_value i) strings.

(** A step of the lowering of a function body: it appends instructions of
    the seven kinds, whose string operands it registers, and it only adds to
    the table. *)
Definition lowers (st st' : irState) : Prop :=
  (exists added,
      s_instructions st' = s_instructions st ++ added /\
      forallb lowered added = true /\
      registered added (s_strings st')) /\
  (exists added, s_strings st' = s_strings st ++ added) /\
  (table_ok (s_strings st) -> table_ok (s_strings st')).

(** A function of the IR as [generateIR] leaves it. *)
Definition function_ok (f : irFunc) (strings : list jsval) : Prop :=
  forallb generated (f_instructions f) = true /\
  no_push_pop (f_instructions f) = true /\
  (exists body r, f_instructions f = body ++ [r] /\ is_ret r = true) /\
  registered (f_instructions f) strings.

(** The four strings of a command are in the table. *)
Definition command_registered (strings : list jsval) (cmd : command) : Prop :=
  In (cmd_name cmd) strings /\ In (cmd_syntax cmd) strings /\
  In (cmd_description cmd) strings /\ In (cmd_category cmd) strings.

(** A function without what follows its first [RET]. *)
Definition until_first_ret (f : irFunc) : irFunc :=
  AKMOptimizer.with_instructions f
    match find_index is_ret (f_instructions f) with
    | Some k => firstn (S k) (f_instructions f)
    | None => f_instructions f
    end.

(** The table of the code generator after the strings [done]: the entries
    are the strings, the size is the length of their encodings, and the
    offset of a string is where an encoding of it starts. *)
Definition table_of (done : list jsval) (table : stringTable) : Prop :=
  exists encodings,
    mapM encode_nul done = Ok encodings /\
    map e_string (entries table) = done /\
    totalSize table = Z.of_nat (List.length (List.concat encodings)) /\
    forall s, In (JStr s) done ->
      exists before after,
        map_get same_value (JStr s) (offsets table)
          = Some (Z.of_nat (List.length before)) /\
        List.concat encodings = before ++ utf8 (s ++ nul) ++ after.

(** The number of bytes the code generator emits for an instruction, and for
    a function: the prologue [NOP], a [PUSH 0] for each local, and the
    instructions. *)
Definition instructionSize (i : instr) : nat :=
  let op := i_op i in
  if op =? OPCODES.PUSH then 5
  else if op =? OPCODES.PUSH_ARG then 2
  else if op =? OPCODES.PUSH_STR then 5
  else if op =? OPCODES.STORE_LOCAL then 7
  else if op =? OPCODES.LOAD_LOCAL then 2
  else if op =? OPCODES.CALL then 6
  else if op =? OPCODES.CALL_API then 3
  else if op =? OPCODES.RET then 1
  else if (op =? OPCODES.JMP) || (op =? OPCODES.JZ) || (op =? OPCODES.JNZ) then 5
  else 1.

Definition functionSize (f : irFunc) : nat :=
  1 + 5 * List.length (f_locals f) + list_sum (map instructionSize (f_instructions f)).

(** The offsets of the functions laid out one after the other from
    [offset]. *)
Fixpoint functionOffsetsFrom (offset : Z) (functions : list irFunc) : list (string * Z) :=
  match functions with
  | [] => []
  | f :: functions' =>
      (f_name f, offset)
        :: functionOffsetsFrom (offset + Z.of_nat (functionSize f)) functions'
  end.

(** The fixups of a list address words of four bytes that lie between [lo]
    and [hi], one after the other. *)
Fixpoint spaced (lo : Z) (fx : list (Z * option string)) (hi : Z) : Prop :=
  match fx with
  | [] => lo <= hi
  | (offset, _) :: fx' => lo <= offset /\ spaced (offset + 4) fx' hi
  end.

(** A step of the code generator: it appends code, and fixups that address
    words of the code it appends, and it keeps the labels. *)
Definition extends (g g' : codegen) : Prop :=
  in_step g ->
  in_step g' /\ labels g' = labels g /\
  exists bytes fx,
    code g' = code g ++ bytes /\ fixups g' = fixups g ++ fx /\
    spaced (Z.of_nat (List.length (code g))) fx (Z.of_nat (List.length (code g'))).

(** The state of [generate] between two functions: the labels are the
    function offsets, the fixups address words of the code, and every
    function offset is the place of a prologue [NOP] that no fixup
    addresses. *)
Definition between_functions (acc : codegen * list (string * Z)) : Prop :=
  in_step (fst acc) /\
  labels (fst acc) = snd acc /\
  spaced 0 (fixups (fst acc)) (Z.of_nat (List.length (code (fst acc)))) /\
  forall name offset, In (name, offset) (snd acc) ->
    0 <= offset < Z.of_nat (List.length (code (fst acc))) /\
    byte_at (code (fst acc)) (Z.to_nat offset) = OPCODES.NOP /\
    forall o l, In (o, l) (fixups (fst acc)) -> offset < o \/ o + 4 <= offset.

(** A call site in the code of a generator: the opcode [CALL] at the index
    [p], the word of the callee, for which there is a fixup, and the argument
    count; the other fixups address words before and after the site. *)
Definition call_site (g : codegen) (p : nat) (callee : option string) (argc : Z) : Prop :=
  exists before after fa fb,
    code g = before ++ [OPCODES.CALL; 0; 0; 0; 0; js_and argc 255] ++ after /\
    List.length before = p /\
    fixups g = fa ++ (Z.of_nat p + 1, callee) :: fb /\
    spaced 0 fa (Z.of_nat p) /\
    spaced (Z.of_nat p + 6) fb (Z.of_nat (List.length (code g))).

(** [g'] has the code and the fixups of [g], and more code with fixups
    that address it. *)
Definition appends (g g' : codegen) : Prop :=
  exists bytes fx,
    code g' = code g ++ bytes /\ fixups g' = fixups g ++ fx /\
    spaced (Z.of_nat (List.length (code g))) fx (Z.of_nat (List.length (code g'))).

(** Where the code of an instruction starts: after the functions before its
    function, the prologue [NOP], the initialisers of the locals and the
    instructions that precede it. *)
Definition instructionOffset (before : list irFunc) (func : irFunc)
  (preceding : list instr) : nat :=
  list_sum (map functionSize before) + 1 + 5 * List.length (f_locals func)
  + list_sum (map instructionSize preceding).

(** The instructions for which the code generator records a fixup: a call,
    and a jump that has a label. *)
Definition fixes (i : instr) : bool :=
  (i_op i =? OPCODES.CALL)
  || ((i_op i =? OPCODES.JMP) || (i_op i =? OPCODES.JZ) || (i_op i =? OPCODES.JNZ))
     && label_set (i_label i).

(** The bytes [generateInstruction] emits for an instruction. *)
Definition emitted (i : instr) (table : stringTable) (func : irFunc) : list Z :=
  code (generateInstruction i table func
          {| code := []; labels := []; fixups := []; currentOffset := 0 |}).

(** The bytes stand at [p] in the code, and no fixup addresses them. *)
Definition placed (g : codegen) (p : nat) (bytes : list Z) : Prop :=
  exists before after fa fb,
    code g = before ++ bytes ++ after /\
    List.length before = p /\
    fixups g = fa ++ fb /\
    spaced 0 fa (Z.of_nat p) /\
    spaced (Z.of_nat p + Z.of_nat (List.length bytes)) fb (Z.of_nat (List.length (code g))).

(** ** More examples *)

Section MoreExamples.

Local Open Scope string_scope.

(** A module whose [init] calls a function of the module and one that no
    module has, and goes on after its [return]:
<<
    AKM.module({ name: "calls" });
    function init() {
      helper(2); missing(3); AKM.info("up");
      return 0;
      AKM.info("never");
    }
    function helper(x) { return 1; }
    function exit() { }
>> *)
Definition calls_module : node :=
  ProgramNode
    [ akm "module" [ObjectExpression [prop "name" (str "calls")]];
      function_ "init" []
        [ ExpressionStatement (CallExpression (Identifier "helper") [num 2]);
          ExpressionStatement (CallExpression (Identifier "missing") [num 3]);
          akm "info" [str "up"];
          return_ (num 0);
          akm "info" [str "never"] ];
      function_ "helper" ["x"] [return_ (num 1)];
      function_ "exit" [] [] ].

(** A module with five dependencies:
<<
    AKM.module({ name: "deps", dependencies: ["a", "b", "c", "d", "e"] });
    function init() { return 0; }
    function exit() { }
>> *)
Definition five_dependencies : list jsval :=
  [JStr "a"; JStr "b"; JStr "c"; JStr "d"; JStr "e"].

Definition deps_module : node :=
  ProgramNode
    [ akm "module"
        [ObjectExpression
           [prop "name" (str "deps");
            prop "dependencies"
              (ArrayExpression (map Some [str "a"; str "b"; str "c"; str "d"; str "e"]))]];
      function_ "init" [] [return_ (num 0)];
      function_ "exit" [] [] ].

(** The [k]-th function of the IR of a source, and the [k]-th instruction of
    a function. *)
Definition function_at (ast : node) (k : nat) : irFunc :=
  nth k (ir_functions (pr_ir (parsed ast)))
    {| f_name := ""; f_nameIdx := 0; f_params := []; f_instructions := []; f_locals := [];
       f_isInit := false; f_isExit := false |}.

Definition instruction_at (f : irFunc) (k : nat) : instr :=
  nth k (f_instructions f) (op_only OPCODES.NOP).

(** The second command of [shell_module]. *)
Definition shell_command_two : command :=
  nth 1 (pr_commands (parsed shell_module))
    {| cmd_name := JUndef; cmd_syntax := JUndef; cmd_description := JUndef;
       cmd_category := JUndef; cmd_handler := None |}.

(** The string table and the result of the code generator on the parse
    result of a source, and what the optimizer makes of its IR (empty ones
    when they fail). *)
Definition string_table_of (ast : node) : stringTable :=
  match buildStringTable (ir_strings (pr_ir (parsed ast))) with
  | Ok table => table
  | _ => {| entries := []; offsets := []; totalSize := 0 |}
  end.

Definition generated_of (ast : node) : codegenResult :=
  match generate (parsed ast) with
  | Ok cg => cg
  | _ => {| cg_code := []; cg_data := []; cg_strings := []; cg_functions := [];
            cg_commands := []; cg_initOffset := 0; cg_exitOffset := 0;
            cg_codeSize := 0; cg_dataSize := 0 |}
  end.

Definition optimized_of (ast : node) : IR :=
  match AKMOptimizer.optimize (pr_ir (parsed ast)) with
  | Ok ir => ir
  | _ => empty_IR
  end.

(** A run with [--caps], after [parseCapabilities]. *)
Definition override_options (capabilities : Z) : options :=
  {| opt_debug := false; opt_optimize := false; opt_verbose := false;
     opt_capabilities := JNum (Int capabilities) |}.

Definition compiled_with (o : options) (ast : node) : compiled :=
  match akmcc o (Parsed ast) with
  | Ok c => c
  | _ => {| binary := []; info := moduleInfoOf o []; codeSize := 0;
            dataSize := 0; commands := []; ir := None |}
  end.

(** Instructions after a [RET], and a jump over two instructions. *)
Definition jump_to (target : Z) : instr :=
  {| i_op := OPCODES.JMP; i_value := JUndef; i_name := None; i_method := None;
     i_argc := 0; i_func := None; i_label := None; i_target := Some target;
     i_arg := None; i_isEntry := false |}.

Definition code_after_ret : list instr :=
  [ op_value OPCODES.PUSH (JNum (Int 1)); op_only OPCODES.RET;
    op_only OPCODES.ADD; op_only OPCODES.RET ].

Definition code_with_jump : list instr :=
  [ jump_to 3; op_only OPCODES.ADD; op_only OPCODES.RET;
    op_value OPCODES.PUSH (JNum (Int 7)); op_only OPCODES.RET ].

Definition code_with_pairs : list instr :=
  [ op_only OPCODES.NOP; op_value OPCODES.PUSH (JNum (Int 1)); op_only OPCODES.POP;
    op_only OPCODES.RET ].

(** A command whose handler is a class expression:
<<
    AKM.module({ name: "m" });
    function init() { return 0; }
    function exit() { }
    function Handler() { }
    AKM.command({ name: "c" }, class Handler {});
>> *)
Definition class_handler_module : node :=
  ProgramNode
    [ akm "module" [ObjectExpression [prop "name" (str "m")]];
      function_ "init" [] [return_ (num 0)];
      function_ "exit" [] [];
      function_ "Handler" [] [];
      akm "command" [ ObjectExpression [prop "name" (str "c")];
                      ClassExpression (Some "Handler") None (OtherNode "ClassBody" []) ] ].

End MoreExamples.

(** * Properties *)

(** ** Results *)

Lemma bind_Ok {A B : Type} (c : outcome A) (k : A -> outcome B) (b : B) :
  bind c k = Ok b -> exists a, c = Ok a /\ k a = Ok b.
Proof.
  destruct c as [a | e | ]; simpl; intros H; try discriminate.
  exists a; auto.
Qed.

Ltac inv_bind H :=
  let x := fresh "x" in
  let Hx := fresh "H" x in
  apply bind_Ok in H; destruct H as (x & Hx & H).

Tactic Notation "bind_inv" hyp(H) "as" ident(x) ident(Hx) :=
  apply bind_Ok in H; destruct H as (x & Hx & H).

(** ** Buffers *)

Lemma write_at_length (off : nat) (bs buf : list Z) :
  List.length (write_at off bs buf) = List.length buf.
Proof.
  revert off bs; induction buf as [| x buf IH]; intros off bs; simpl; auto.
  destruct off; [destruct bs |]; simpl; auto.
Qed.

Lemma write_at_outside (off : nat) (bs buf : list Z) (i : nat) :
  (i < off \/ off + List.length bs <= i)%nat ->
  byte_at (write_at off bs buf) i = byte_at buf i.
Proof.
  unfold byte_at.
  revert off bs i; induction buf as [| x buf IH]; intros off bs i H; simpl; auto.
  destruct off as [| off].
  - destruct bs as [| b bs]; auto.
    destruct i as [| i]; simpl in H; [lia |].
    simpl. apply (IH O bs i). simpl. lia.
  - destruct i as [| i]; simpl; auto.
    apply IH. simpl in H. lia.
Qed.

Lemma write_at_inside (off : nat) (bs buf : list Z) (i : nat) :
  (off <= i < off + List.length bs)%nat -> (i < List.length buf)%nat ->
  byte_at (write_at off bs buf) i = nth (i - off) bs 0.
Proof.
  unfold byte_at.
  revert off bs i; induction buf as [| x buf IH]; intros off bs i H Hi; simpl in *; [lia |].
  destruct off as [| off].
  - destruct bs as [| b bs]; simpl in H; [lia |].
    destruct i as [| i]; simpl; auto.
    rewrite (IH O bs i) by (simpl; lia).
    now rewrite Nat.sub_0_r.
  - destruct i as [| i]; [lia |].
    simpl. apply IH; lia.
Qed.

Lemma firstn_write_at (off : nat) (bs buf : list Z) :
  firstn off (write_at off bs buf) = firstn off buf.
Proof.
  revert off; induction buf as [| x buf IH]; intros off; simpl; auto.
  destruct off; simpl; auto. now rewrite IH.
Qed.

Lemma skipn_write_at (off : nat) (bs buf : list Z) :
  skipn (off + List.length bs) (write_at off bs buf) = skipn (off + List.length bs) buf.
Proof.
  revert off bs; induction buf as [| x buf IH]; intros off bs; simpl.
  - now rewrite !skipn_nil.
  - destruct off as [| off].
    + destruct bs as [| b bs]; simpl; auto.
      apply (IH O bs).
    + simpl. apply IH.
Qed.


Lemma untouched_write_at (off w : nat) (bs buf : list Z) :
  (List.length bs <= w)%nat -> untouched off (off + w) buf (write_at off bs buf).
Proof.
  intros Hw; split; [apply write_at_length |].
  intros i Hi. apply write_at_outside. lia.
Qed.

Lemma le_bytes_length (w : nat) (v : Z) : List.length (le_bytes w v) = w.
Proof. unfold le_bytes. now rewrite length_map, length_seq. Qed.

Lemma writeUInt_Ok (w : nat) (value : number) (off : nat) (buf buf' : list Z) :
  writeUInt w value off buf = Ok buf' ->
  exists v, buf' = write_at off (le_bytes w v) buf /\ 0 <= v < 2 ^ (8 * Z.of_nat w) /\
            num_uint32 value = to_uint32 v /\ (value = NaN \/ value = Int v).
Proof.
  unfold writeUInt. destruct value as [v |].
  - destruct ((v <? 0) || (2 ^ (8 * Z.of_nat w) <=? v)) eqn:E; intros H; [discriminate |].
    injection H as <-. exists v.
    apply orb_false_iff in E. destruct E as [E1 E2].
    apply Z.ltb_ge in E1. apply Z.leb_gt in E2. simpl. auto.
  - intros H. injection H as <-. exists 0. simpl.
    assert (0 < 2 ^ (8 * Z.of_nat w)) by (apply Z.pow_pos_nonneg; lia).
    repeat split; auto; lia.
Qed.

Lemma writeUInt_untouched (w : nat) (value : number) (off : nat) (buf buf' : list Z) :
  writeUInt w value off buf = Ok buf' -> untouched off (off + w) buf buf'.
Proof.
  intros H. apply writeUInt_Ok in H. destruct H as (v & -> & _).
  apply untouched_write_at. now rewrite le_bytes_length.
Qed.

Lemma utf8_length (s : string) : (List.length (utf8 s) <= 2 * String.length s)%nat.
Proof.
  induction s as [| c s IH]; simpl; auto.
  destruct (code_unit c <? 128); simpl; lia.
Qed.

Lemma slice0_length (n : nat) (s : string) : (String.length (slice0 n s) <= n)%nat.
Proof.
  revert s; induction n as [| n IH]; intros s; simpl; auto.
  destruct s; simpl; [lia |]. specialize (IH s). lia.
Qed.

Lemma writeFixedString_untouched (buf buf' : list Z) (off : nat) (str : jsval) (maxLen : nat) :
  writeFixedString buf off str maxLen = Ok buf' ->
  untouched off (off + 2 * (maxLen - 1)) buf buf'.
Proof.
  unfold writeFixedString.
  destruct (js_lor str (JStr "")); try discriminate.
  intros H. injection H as <-.
  apply untouched_write_at.
  pose proof (utf8_length (slice0 (maxLen - 1) s)).
  pose proof (slice0_length (maxLen - 1) s). lia.
Qed.

Lemma writeDependency_untouched (mi : moduleInfo) (depCount : number)
  (buf buf' : list Z) (off i : nat) :
  writeDependency mi depCount buf off i = Ok buf' -> untouched off (off + 62) buf buf'.
Proof.
  unfold writeDependency.
  destruct (lt_count i depCount && truthy (js_index (mi_dependencies mi) i)).
  - intros H. apply writeFixedString_untouched in H. exact H.
  - intros H. injection H as <-. split; auto.
Qed.

Lemma untouched_read32 (a b : nat) (buf buf' : list Z) (off : nat) :
  untouched a b buf buf' -> (off + 4 <= a \/ b <= off)%nat ->
  readUInt32LE buf' off = readUInt32LE buf off.
Proof.
  intros [_ H] Hoff. unfold readUInt32LE.
  rewrite !H by lia. reflexivity.
Qed.

Lemma le_bytes4_value (v : Z) :
  0 <= v < two32 ->
  nth 0 (le_bytes 4 v) 0 + 256 * nth 1 (le_bytes 4 v) 0
  + 65536 * nth 2 (le_bytes 4 v) 0 + 16777216 * nth 3 (le_bytes 4 v) 0 = v.
Proof.
  intros Hv. unfold two32 in Hv.
  change (le_bytes 4 v)
    with [Z.land (Z.shiftr v 0) 255; Z.land (Z.shiftr v 8) 255;
          Z.land (Z.shiftr v 16) 255; Z.land (Z.shiftr v 24) 255].
  cbn [nth].
  change 255 with (Z.ones 8).
  rewrite !Z.land_ones by lia.
  rewrite !Z.shiftr_div_pow2 by lia.
  change (2 ^ 0) with 1. change (2 ^ 8) with 256.
  change (2 ^ 16) with 65536. change (2 ^ 24) with 16777216.
  Z.to_euclidean_division_equations. lia.
Qed.

Lemma read32_write_at (off : nat) (v : Z) (buf : list Z) :
  0 <= v < two32 -> (off + 4 <= List.length buf)%nat ->
  readUInt32LE (write_at off (le_bytes 4 v) buf) off = v.
Proof.
  intros Hv Hlen. unfold readUInt32LE.
  rewrite !write_at_inside by (rewrite ?le_bytes_length; lia).
  replace (off - off)%nat with 0%nat by lia.
  replace (off + 1 - off)%nat with 1%nat by lia.
  replace (off + 2 - off)%nat with 2%nat by lia.
  replace (off + 3 - off)%nat with 3%nat by lia.
  now apply le_bytes4_value.
Qed.

Lemma writeUInt32LE_read (v : Z) (off : nat) (buf buf' : list Z) :
  writeUInt32LE (Int v) off buf = Ok buf' -> (off + 4 <= List.length buf)%nat ->
  readUInt32LE buf' off = v /\ 0 <= v < two32.
Proof.
  intros H Hlen. apply writeUInt_Ok in H.
  destruct H as (v' & -> & Hv & _ & [Hn | Hn]); [discriminate |].
  injection Hn as <-.
  change (2 ^ (8 * Z.of_nat 4)) with two32 in Hv.
  split; auto. now apply read32_write_at.
Qed.

(** ** The checksum *)

Lemma to_uint32_lor (a b : Z) :
  to_uint32 (Z.lor a b) = Z.lor (to_uint32 a) (to_uint32 b).
Proof.
  unfold to_uint32, two32. change 4294967296 with (2 ^ 32).
  rewrite <- !Z.land_ones by lia.
  apply Z.land_lor_distr_l.
Qed.

Lemma to_uint32_to_int32 (a : Z) : to_uint32 (to_int32 a) = to_uint32 a.
Proof.
  unfold to_uint32, to_int32, two32.
  Z.to_euclidean_division_equations. lia.
Qed.

Lemma checksum_step (c : Z) :
  to_uint32 (js_or (js_shl c 1) (js_ushr c 31)) = rotate_left_32 (c mod two32) 1.
Proof.
  unfold js_or, js_shl, js_ushr, rotate_left_32.
  change (to_uint32 1 mod 32) with 1. change (to_uint32 31 mod 32) with 31.
  change (32 - 1) with 31.
  rewrite to_uint32_lor, !to_uint32_to_int32.
  f_equal.
  - unfold to_uint32, to_int32, two32.
    rewrite !Z.shiftl_mul_pow2 by lia. change (2 ^ 1) with 2.
    Z.to_euclidean_division_equations. lia.
  - unfold to_uint32, two32.
    rewrite !Z.shiftr_div_pow2 by lia. change (2 ^ 31) with 2147483648.
    Z.to_euclidean_division_equations. lia.
Qed.

Lemma calculateChecksum_rolling_hash (data : list Z) :
  calculateChecksum data = rolling_hash data.
Proof.
  unfold calculateChecksum, rolling_hash.
  generalize 0 as acc.
  induction data as [| b data IH]; intros acc; simpl; auto.
  rewrite checksum_step. apply IH.
Qed.

(** ** The layout of what [write] returns *)



Lemma untouched_length (a b : nat) (buf buf' : list Z) :
  untouched a b buf buf' -> List.length buf' = List.length buf.
Proof. now intros [H _]. Qed.

Lemma read32_app (hdr rest : list Z) (off : nat) :
  (off + 4 <= List.length hdr)%nat ->
  readUInt32LE (hdr ++ rest) off = readUInt32LE hdr off.
Proof.
  intros H. unfold readUInt32LE, byte_at.
  rewrite !app_nth1 by lia. reflexivity.
Qed.

Lemma untouched_firstn (a b n : nat) (buf buf' : list Z) :
  untouched a b buf buf' -> (n <= a)%nat -> firstn n buf' = firstn n buf.
Proof.
  intros [Hl H] Hn.
  apply nth_ext with (d := 0) (d' := 0).
  - now rewrite !length_firstn, Hl.
  - intros i Hi. rewrite length_firstn in Hi.
    rewrite !nth_firstn.
    destruct (i <? n)%nat eqn:E; auto.
    apply Nat.ltb_lt in E. apply (H i). lia.
Qed.

Ltac frame32 :=
  repeat match goal with
    | U : untouched _ _ ?b ?b' |- context [readUInt32LE ?b' ?off] =>
        rewrite (@untouched_read32 _ _ b b' off U) by (clear; lia)
    end.


Lemma write_layout (o : options) (cg : codegenResult) (mi : moduleInfo) (art : list Z) :
  write o cg mi = Ok art -> exists hdr symtab strtab, layout cg mi art hdr symtab strtab.
Proof.
  intros H. unfold write in H. cbv beta zeta in H.
  repeat inv_bind H.
  cbn [Nat.add] in *.
  injection H as <-.
  exists x37, x, x0.
  pose proof (writeUInt_untouched _ _ _ _ Hx1) as U1.
  pose proof (writeUInt_untouched _ _ _ _ Hx2) as U2.
  pose proof (writeUInt_untouched _ _ _ _ Hx3) as U3.
  pose proof (writeUInt_untouched _ _ _ _ Hx4) as U4.
  pose proof (writeUInt_untouched _ _ _ _ Hx5) as U5.
  pose proof (writeFixedString_untouched _ _ _ _ Hx6) as U6.
  pose proof (writeFixedString_untouched _ _ _ _ Hx7) as U7.
  pose proof (writeFixedString_untouched _ _ _ _ Hx8) as U8.
  pose proof (writeUInt_untouched _ _ _ _ Hx9) as U9.
  pose proof (writeUInt_untouched _ _ _ _ Hx10) as U10.
  pose proof (writeUInt_untouched _ _ _ _ Hx11) as U11.
  pose proof (writeUInt_untouched _ _ _ _ Hx13) as U13.
  pose proof (writeUInt_untouched _ _ _ _ Hx14) as U14.
  pose proof (writeUInt_untouched _ _ _ _ Hx15) as U15.
  pose proof (writeUInt_untouched _ _ _ _ Hx16) as U16.
  pose proof (writeUInt_untouched _ _ _ _ Hx17) as U17.
  pose proof (writeUInt_untouched _ _ _ _ Hx18) as U18.
  pose proof (writeUInt_untouched _ _ _ _ Hx19) as U19.
  pose proof (writeUInt_untouched _ _ _ _ Hx20) as U20.
  pose proof (writeUInt_untouched _ _ _ _ Hx21) as U21.
  pose proof (writeUInt_untouched _ _ _ _ Hx22) as U22.
  pose proof (writeUInt_untouched _ _ _ _ Hx23) as U23.
  pose proof (writeUInt_untouched _ _ _ _ Hx24) as U24.
  pose proof (writeUInt_untouched _ _ _ _ Hx25) as U25.
  pose proof (writeUInt_untouched _ _ _ _ Hx26) as U26.
  pose proof (writeUInt_untouched _ _ _ _ Hx28) as U28.
  pose proof (writeDependency_untouched _ _ _ _ _ Hx29) as U29.
  pose proof (writeDependency_untouched _ _ _ _ _ Hx30) as U30.
  pose proof (writeDependency_untouched _ _ _ _ _ Hx31) as U31.
  pose proof (writeDependency_untouched _ _ _ _ _ Hx32) as U32.
  pose proof (writeUInt_untouched _ _ _ _ Hx34) as U34.
  pose proof (writeUInt_untouched _ _ _ _ Hx35) as U35.
  pose proof (writeUInt_untouched _ _ _ _ Hx36) as U36.
  pose proof (writeUInt_untouched _ _ _ _ Hx37) as U37.
  assert (L0 : List.length (repeat 0 512) = 512%nat) by apply repeat_length.
  assert (L1 : List.length x1 = 512%nat) by (rewrite (untouched_length U1); exact L0).
  assert (L2 : List.length x2 = 512%nat) by (rewrite (untouched_length U2); exact L1).
  assert (L3 : List.length x3 = 512%nat) by (rewrite (untouched_length U3); exact L2).
  assert (L4 : List.length x4 = 512%nat) by (rewrite (untouched_length U4); exact L3).
  assert (L5 : List.length x5 = 512%nat) by (rewrite (untouched_length U5); exact L4).
  assert (L6 : List.length x6 = 512%nat) by (rewrite (untouched_length U6); exact L5).
  assert (L7 : List.length x7 = 512%nat) by (rewrite (untouched_length U7); exact L6).
  assert (L8 : List.length x8 = 512%nat) by (rewrite (untouched_length U8); exact L7).
  assert (L9 : List.length x9 = 512%nat) by (rewrite (untouched_length U9); exact L8).
  assert (L10 : List.length x10 = 512%nat) by (rewrite (untouched_length U10); exact L9).
  assert (L11 : List.length x11 = 512%nat) by (rewrite (untouched_length U11); exact L10).
  assert (L13 : List.length x13 = 512%nat) by (rewrite (untouched_length U13); exact L11).
  assert (L14 : List.length x14 = 512%nat) by (rewrite (untouched_length U14); exact L13).
  assert (L15 : List.length x15 = 512%nat) by (rewrite (untouched_length U15); exact L14).
  assert (L16 : List.length x16 = 512%nat) by (rewrite (untouched_length U16); exact L15).
  assert (L17 : List.length x17 = 512%nat) by (rewrite (untouched_length U17); exact L16).
  assert (L18 : List.length x18 = 512%nat) by (rewrite (untouched_length U18); exact L17).
  assert (L19 : List.length x19 = 512%nat) by (rewrite (untouched_length U19); exact L18).
  assert (L20 : List.length x20 = 512%nat) by (rewrite (untouched_length U20); exact L19).
  assert (L21 : List.length x21 = 512%nat) by (rewrite (untouched_length U21); exact L20).
  assert (L22 : List.length x22 = 512%nat) by (rewrite (untouched_length U22); exact L21).
  assert (L23 : List.length x23 = 512%nat) by (rewrite (untouched_length U23); exact L22).
  assert (L24 : List.length x24 = 512%nat) by (rewrite (untouched_length U24); exact L23).
  assert (L25 : List.length x25 = 512%nat) by (rewrite (untouched_length U25); exact L24).
  assert (L26 : List.length x26 = 512%nat) by (rewrite (untouched_length U26); exact L25).
  assert (L28 : List.length x28 = 512%nat) by (rewrite (untouched_length U28); exact L26).
  assert (L29 : List.length x29 = 512%nat) by (rewrite (untouched_length U29); exact L28).
  assert (L30 : List.length x30 = 512%nat) by (rewrite (untouched_length U30); exact L29).
  assert (L31 : List.length x31 = 512%nat) by (rewrite (untouched_length U31); exact L30).
  assert (L32 : List.length x32 = 512%nat) by (rewrite (untouched_length U32); exact L31).
  assert (L34 : List.length x34 = 512%nat) by (rewrite (untouched_length U34); exact L32).
  assert (L35 : List.length x35 = 512%nat) by (rewrite (untouched_length U35); exact L34).
  assert (L36 : List.length x36 = 512%nat) by (rewrite (untouched_length U36); exact L35).
  assert (L37 : List.length x37 = 512%nat) by (rewrite (untouched_length U37); exact L36).
  constructor.
  - reflexivity.
  - exact L37.
  - exact Hx.
  - exact Hx0.
  - frame32. apply (writeUInt32LE_read _ _ _ Hx1). rewrite L0. clear. lia.
  - rewrite (untouched_firstn U37), (untouched_firstn U36), (untouched_firstn U35),
      (untouched_firstn U34), (untouched_firstn U32), (untouched_firstn U31),
      (untouched_firstn U30), (untouched_firstn U29), (untouched_firstn U28),
      (untouched_firstn U26), (untouched_firstn U25), (untouched_firstn U24),
      (untouched_firstn U23), (untouched_firstn U22), (untouched_firstn U21),
      (untouched_firstn U20), (untouched_firstn U19), (untouched_firstn U18),
      (untouched_firstn U17), (untouched_firstn U16), (untouched_firstn U15),
      (untouched_firstn U14), (untouched_firstn U13), (untouched_firstn U11),
      (untouched_firstn U10), (untouched_firstn U9), (untouched_firstn U8),
      (untouched_firstn U7), (untouched_firstn U6), (untouched_firstn U5),
      (untouched_firstn U4), (untouched_firstn U3), (untouched_firstn U2)
      by (clear; lia).
    clear - Hx1. vm_compute in Hx1. injection Hx1 as <-. reflexivity.
  - frame32. apply (writeUInt32LE_read _ _ _ Hx4). rewrite L3. clear. lia.
  - frame32. apply (writeUInt32LE_read _ _ _ Hx5). rewrite L4. clear. lia.
  - exists x12. split; auto.
    frame32.
    apply writeUInt_Ok in Hx13. destruct Hx13 as (v & -> & Hv & _ & Hn).
    change (2 ^ (8 * Z.of_nat 4)) with two32 in Hv.
    rewrite read32_write_at by (auto; rewrite L11; clear; lia).
    split; auto.
  - frame32. apply (writeUInt32LE_read _ _ _ Hx14). rewrite L13. clear. lia.
  - frame32. apply (writeUInt32LE_read _ _ _ Hx15). rewrite L14. clear. lia.
  - frame32. apply (writeUInt32LE_read _ _ _ Hx16). rewrite L15. clear. lia.
  - frame32. apply (writeUInt32LE_read _ _ _ Hx17). rewrite L16. clear. lia.
  - frame32. apply (writeUInt32LE_read _ _ _ Hx23). rewrite L22. clear. lia.
  - frame32. apply (writeUInt32LE_read _ _ _ Hx24). rewrite L23. clear. lia.
  - frame32. apply (writeUInt32LE_read _ _ _ Hx25). rewrite L24. clear. lia.
  - frame32. apply (writeUInt32LE_read _ _ _ Hx26). rewrite L25. clear. lia.
  - frame32. apply (writeUInt32LE_read _ _ _ Hx36). rewrite L35. clear. lia.
  - destruct (writeUInt32LE_read _ _ _ Hx37) as [R _]; [rewrite L36; clear; lia |].
    rewrite R. f_equal.
    apply writeUInt_Ok in Hx37. destruct Hx37 as (v & -> & _).
    unfold buf_slice. rewrite L36.
    change (348 - 0)%nat with 348%nat. change (skipn 0 x36) with x36.
    rewrite firstn_write_at.
    f_equal.
    pose proof (skipn_write_at 348 (le_bytes 4 v) x36) as S.
    rewrite le_bytes_length in S. change (348 + 4)%nat with 352%nat in S.
    rewrite S. apply firstn_all2. rewrite length_skipn, L36. clear. lia.
Qed.

Lemma section_app (pre s post : list Z) :
  section (pre ++ s ++ post) (Z.of_nat (List.length pre)) (Z.of_nat (List.length s)) = s.
Proof.
  unfold section. rewrite !Nat2Z.id.
  rewrite skipn_app, skipn_all, Nat.sub_diag. simpl.
  rewrite firstn_app, firstn_all, Nat.sub_diag. simpl.
  apply app_nil_r.
Qed.

(** The sections of an artifact are the code, the data and the two tables
    it was assembled from. *)
Lemma layout_sections (cg : codegenResult) (mi : moduleInfo)
  (art hdr symtab strtab : list Z) :
  layout cg mi art hdr symtab strtab ->
  Z.of_nat (List.length art) = total_size art /\
  code_offset art = 512 /\
  code_size art = Z.of_nat (List.length (cg_code cg)) /\
  data_size art = Z.of_nat (List.length (cg_data cg)) /\
  symtab_size art = Z.of_nat (List.length symtab) /\
  strtab_size art = Z.of_nat (List.length strtab) /\
  code_section art = cg_code cg /\
  data_section art = cg_data cg /\
  symtab_section art = symtab /\
  strtab_section art = strtab.
Proof.
  intros L.
  pose proof (lay_art L) as lay_art0. pose proof (lay_hdr L) as lay_hdr0.
  pose proof (lay_total L) as lay_total0.
  pose proof (lay_code_offset L) as lay_code_offset0.
  pose proof (lay_code_size L) as lay_code_size0.
  pose proof (lay_data_offset L) as lay_data_offset0.
  pose proof (lay_data_size L) as lay_data_size0.
  pose proof (lay_symtab_offset L) as lay_symtab_offset0.
  pose proof (lay_symtab_size L) as lay_symtab_size0.
  pose proof (lay_strtab_offset L) as lay_strtab_offset0.
  pose proof (lay_strtab_size L) as lay_strtab_size0.
  assert (R : forall off, (off + 4 <= 512)%nat -> readUInt32LE art off = readUInt32LE hdr off).
  { intros off Hoff. rewrite lay_art0. apply read32_app. rewrite lay_hdr0. exact Hoff. }
  assert (H512 : 512 = Z.of_nat (List.length hdr)) by (rewrite lay_hdr0; reflexivity).
  unfold code_section, data_section, symtab_section, strtab_section.
  unfold total_size, code_offset, code_size, data_size, symtab_size, strtab_size,
    data_offset, symtab_offset, strtab_offset.
  rewrite !R by (clear; lia).
  rewrite lay_total0, lay_code_offset0, lay_code_size0, lay_data_offset0, lay_data_size0,
    lay_symtab_offset0, lay_symtab_size0, lay_strtab_offset0, lay_strtab_size0.
  repeat split; auto.
  - rewrite lay_art0, !length_app, lay_hdr0. lia.
  - rewrite lay_art0. rewrite H512 at 1. apply section_app.
  - rewrite H512, <- !Nat2Z.inj_add, <- length_app.
    rewrite lay_art0.
    replace (hdr ++ cg_code cg ++ cg_data cg ++ symtab ++ strtab)
      with ((hdr ++ cg_code cg) ++ cg_data cg ++ symtab ++ strtab)
      by (rewrite <- !app_assoc; reflexivity).
    apply section_app.
  - rewrite H512, <- !Nat2Z.inj_add, <- !length_app.
    rewrite lay_art0.
    replace (hdr ++ cg_code cg ++ cg_data cg ++ symtab ++ strtab)
      with (((hdr ++ cg_code cg) ++ cg_data cg) ++ symtab ++ strtab)
      by (rewrite <- !app_assoc; reflexivity).
    apply section_app.
  - rewrite H512, <- !Nat2Z.inj_add, <- !length_app.
    rewrite lay_art0.
    replace (hdr ++ cg_code cg ++ cg_data cg ++ symtab ++ strtab)
      with ((((hdr ++ cg_code cg) ++ cg_data cg) ++ symtab) ++ strtab ++ [])
      by (rewrite <- !app_assoc, app_nil_r; reflexivity).
    apply section_app.
Qed.

(** A successful compilation is a successful [write] of what the code
    generator returned, possibly after the optimizer. *)
Lemma compile_Ok (o : options) (pr : parseResult) (c : compiled) :
  compile o pr = Ok c ->
  exists cg0 cg mi,
    validateModule pr = Ok tt /\
    extractModuleInfo o pr = Ok mi /\
    generate pr = Ok cg0 /\
    (if opt_optimize o then optimize cg0 = Ok cg else cg = cg0) /\
    write o cg mi = Ok (binary c).
Proof.
  unfold compile. intros H.
  inv_bind H. inv_bind H. inv_bind H. inv_bind H. inv_bind H.
  injection H as <-. simpl.
  destruct x. exists x1, x2, x0. repeat split; auto.
  destruct (opt_optimize o); auto. now injection Hx2.
Qed.

Lemma compile_layout (o : options) (pr : parseResult) (c : compiled) :
  compile o pr = Ok c ->
  exists cg mi hdr symtab strtab, layout cg mi (binary c) hdr symtab strtab.
Proof.
  intros H. apply compile_Ok in H.
  destruct H as (cg0 & cg & mi & _ & _ & _ & _ & W).
  apply write_layout in W. destruct W as (hdr & symtab & strtab & L).
  now exists cg, mi, hdr, symtab, strtab.
Qed.

(** Claim C1.  For every compilation that succeeds, the length of the
    artifact is the [total_size] written at offset 12 of the header,
    [total_size] is 512 + [code_size] + [data_size] + [symtab_size] +
    [strtab_size] as the header gives them, and the first four bytes are the
    magic [0x324D4B41] in little-endian order. *)
Theorem artifact_size_and_magic (o : options) (pr : parseResult) (c : compiled) :
  compile o pr = Ok c ->
  Z.of_nat (List.length (binary c)) = total_size (binary c) /\
  total_size (binary c) =
    512 + code_size (binary c) + data_size (binary c)
    + symtab_size (binary c) + strtab_size (binary c) /\
  firstn 4 (binary c) = [0x41; 0x4B; 0x4D; 0x32] /\
  readUInt32LE (binary c) 0 = AKM_FORMAT.MAGIC_V2.
Proof.
  intros H. apply compile_layout in H.
  destruct H as (cg & mi & hdr & symtab & strtab & L).
  pose proof (layout_sections L) as (S1 & S2 & S3 & S4 & S5 & S6 & _).
  pose proof (lay_art L) as A. pose proof (lay_hdr L) as Hh.
  split; [exact S1 |]. split; [| split].
  - rewrite S3, S4, S5, S6. unfold total_size.
    rewrite A, read32_app by (rewrite Hh; clear; lia). exact (lay_total L).
  - rewrite A, firstn_app, Hh. change (4 - 512)%nat with 0%nat.
    simpl firstn at 2. rewrite app_nil_r. exact (lay_magic_bytes L).
  - rewrite A, read32_app by (rewrite Hh; clear; lia). exact (lay_magic L).
Qed.

(** Claim C2.  For every compilation that succeeds, the artifact is a header
    of 512 bytes followed by code ++ data ++ symtab ++ strtab, where code and
    data are those of the code generator's result (after the optimizer when
    it is on) and the two tables are the ones the writer builds from it, and
    these are the four sections the header locates.  The [content_checksum]
    at offset 352 is the rolling hash of the specification ([acc] from 0,
    [acc = rotate_left_32(acc + b, 1)] for each byte) of code ++ data ++
    symtab ++ strtab, and the [header_checksum] at offset 348 is the same hash
    of the 512 bytes of the final header without the bytes [348, 352). *)
Theorem checksums_are_rolling_hashes (o : options) (pr : parseResult) (c : compiled) :
  compile o pr = Ok c ->
  exists cg0 cg hdr symtab strtab,
    generate pr = Ok cg0 /\
    (if opt_optimize o then optimize cg0 = Ok cg else cg = cg0) /\
    buildSymbolTable cg = Ok symtab /\
    buildStrtab (cg_strings cg) = Ok strtab /\
    List.length hdr = 512%nat /\
    binary c = hdr ++ cg_code cg ++ cg_data cg ++ symtab ++ strtab /\
    code_section (binary c) = cg_code cg /\
    data_section (binary c) = cg_data cg /\
    symtab_section (binary c) = symtab /\
    strtab_section (binary c) = strtab /\
    content_checksum (binary c) =
      rolling_hash (cg_code cg ++ cg_data cg ++ symtab ++ strtab) /\
    header_checksum (binary c) = rolling_hash (firstn 348 hdr ++ skipn 352 hdr).
Proof.
  intros H.
  destruct (@compile_Ok _ _ _ H) as (cg0 & cg & mi & _ & _ & G & O & W).
  destruct (@write_layout _ _ _ _ W) as (hdr & symtab & strtab & L).
  pose proof (layout_sections L) as (_ & _ & _ & _ & _ & _ & C1 & C2 & C3 & C4).
  pose proof (lay_art L) as A. pose proof (lay_hdr L) as Hh.
  exists cg0, cg, hdr, symtab, strtab.
  split; [exact G |]. split; [exact O |].
  split; [exact (lay_symtab L) |]. split; [exact (lay_strtab L) |].
  split; [exact Hh |]. split; [exact A |].
  split; [exact C1 |]. split; [exact C2 |]. split; [exact C3 |]. split; [exact C4 |].
  unfold content_checksum, header_checksum.
  rewrite <- !calculateChecksum_rolling_hash.
  rewrite A, !read32_app by (rewrite Hh; clear; lia).
  split; [exact (lay_content_checksum L) | exact (lay_header_checksum L)].
Qed.

(** ** The code generator: offsets of the functions *)


Lemma grows_trans (n m : nat) (g1 g2 g3 : codegen) :
  grows n g1 g2 -> grows m g2 g3 -> grows (n + m) g1 g3.
Proof.
  unfold grows. intros H1 H2 Hs.
  destruct (H1 Hs) as [Hs2 L2]. destruct (H2 Hs2) as [Hs3 L3].
  split; auto. lia.
Qed.

Lemma grows_weaken (n m : nat) (g g' : codegen) :
  grows n g g' -> (m <= n)%nat -> grows m g g'.
Proof.
  unfold grows. intros H Hm Hs. destruct (H Hs). split; auto. lia.
Qed.

Lemma grows_emit (b : Z) (g : codegen) : grows 1 g (emit b g).
Proof.
  unfold grows, in_step, emit. simpl. intros ->.
  rewrite length_app. simpl. split; lia.
Qed.

Lemma grows_emitInt32 (v : number) (g : codegen) : grows 4 g (emitInt32 v g).
Proof.
  unfold grows, in_step, emitInt32. simpl. intros ->.
  rewrite length_app. simpl. split; lia.
Qed.

Lemma grows_addFixup (l : option string) (g : codegen) : grows 0 g (addFixup l g).
Proof.
  unfold grows, in_step, addFixup. simpl. intros ->. split; lia.
Qed.

Lemma grows_refl (g : codegen) : grows 0 g g.
Proof. unfold grows. intros H. split; auto. lia. Qed.

Lemma grows_emitValue (v : jsval) (table : stringTable) (g : codegen) :
  grows 4 g (emitValue v table g).
Proof. unfold emitValue. destruct v; apply grows_emitInt32. Qed.

Lemma grows_emitJump (op : Z) (i : instr) (g : codegen) : grows 1 g (emitJump op i g).
Proof.
  unfold emitJump.
  apply grows_weaken with (n := (1 + (0 + 4))%nat); [| lia].
  eapply grows_trans; [apply grows_emit |].
  eapply grows_trans; [| apply grows_emitInt32].
  destruct (label_set (i_label i)); [apply grows_addFixup | apply grows_refl].
Qed.


Lemma grows_generateInstruction (i : instr) (table : stringTable) (func : irFunc)
  (g : codegen) : grows 1 g (generateInstruction i table func g).
Proof.
  unfold generateInstruction.
  repeat match goal with
         | |- grows _ _ (if ?c then _ else _) => destruct c
         end;
    try apply grows_emitJump; try apply grows_emit.
  - apply grows_weaken with (n := (1 + 4)%nat); [| lia].
    eapply grows_trans; [apply grows_emit | apply grows_emitValue].
  - apply grows_weaken with (n := (1 + 1)%nat); [| lia].
    eapply grows_trans; apply grows_emit.
  - apply grows_weaken with (n := (1 + 4)%nat); [| lia].
    eapply grows_trans; [apply grows_emit | apply grows_emitInt32].
  - apply grows_weaken with (n := (1 + 4 + 1 + 1)%nat); [| lia].
    eapply grows_trans; [| apply grows_emit].
    eapply grows_trans; [| apply grows_emit].
    eapply grows_trans; [apply grows_emit | apply grows_emitValue].
  - apply grows_weaken with (n := (1 + 1)%nat); [| lia].
    eapply grows_trans; apply grows_emit.
  - apply grows_weaken with (n := (1 + 0 + 4 + 1)%nat); [| lia].
    eapply grows_trans; [| apply grows_emit].
    eapply grows_trans; [| apply grows_emitInt32].
    eapply grows_trans; [apply grows_emit | apply grows_addFixup].
  - apply grows_weaken with (n := (1 + 1 + 1)%nat); [| lia].
    eapply grows_trans; [| apply grows_emit].
    eapply grows_trans; apply grows_emit.
Qed.

Lemma grows_fold {A : Type} (f : codegen -> A -> codegen) (l : list A) :
  (forall g a, grows 0 g (f g a)) -> forall g, grows 0 g (fold_left f l g).
Proof.
  intros Hf. induction l as [| a l IH]; intros g; simpl.
  - apply grows_refl.
  - apply (@grows_trans 0 0 g (f g a)); auto.
Qed.

Lemma grows_generateFunction (func : irFunc) (table : stringTable) (g : codegen) :
  grows 1 g (generateFunction func table g).
Proof.
  unfold generateFunction.
  apply grows_weaken with (n := (0 + 1 + 0 + 0)%nat); [| lia].
  eapply grows_trans; [| apply grows_fold].
  - eapply grows_trans; [| apply grows_fold].
    + eapply grows_trans; [| apply grows_emit].
      unfold grows, in_step. simpl. intros H. split; auto. lia.
    + intros g0 _. apply grows_weaken with (n := (1 + 4)%nat); [| lia].
      eapply grows_trans; [apply grows_emit | apply grows_emitInt32].
  - intros g0 i. eapply grows_weaken; [apply grows_generateInstruction | lia].
Qed.

Lemma In_map_set {K V : Type} (eqb : K -> K -> bool) (k : K) (v : V) (m : list (K * V))
  (k' : K) (v' : V) :
  In (k', v') (map_set eqb k v m) -> In (k', v') m \/ v' = v.
Proof.
  induction m as [| [k0 v0] m IH]; simpl.
  - intros [H | []]. injection H as _ <-. now right.
  - destruct (eqb k0 k); simpl.
    + intros [H | H]; [injection H as _ <-; now right | left; now right].
    + intros [H | H]; [left; now left |].
      destruct (IH H); [left; now right | now right].
Qed.


Lemma generateFunctions_inside (functions : list irFunc) (table : stringTable) :
  offsets_inside (generateFunctions functions table).
Proof.
  unfold generateFunctions.
  set (step := fun (acc : codegen * list (string * Z)) (func : irFunc) =>
                 let '(g, functionOffsets) := acc in
                 (generateFunction func table g,
                  map_set String.eqb (f_name func) (currentOffset g) functionOffsets)).
  assert (Hstep : forall acc func, offsets_inside acc -> offsets_inside (step acc func)).
  { intros [g fo] func [Hs Hin]. cbn [fst snd] in *.
    destruct (grows_generateFunction func table Hs) as [Hs' Hl].
    unfold step. split; cbn [fst snd]; auto.
    intros name offset H. apply In_map_set in H. destruct H as [H | ->].
    - specialize (Hin _ _ H). lia.
    - rewrite Hs. lia. }
  assert (Hfold : forall l acc, offsets_inside acc -> offsets_inside (fold_left step l acc)).
  { induction l as [| func l IH]; intros acc Hacc; simpl; auto. }
  apply Hfold. split; simpl; [reflexivity | intros ? ? []].
Qed.

Lemma array_set_length (i : nat) (v : Z) (l : list Z) :
  (List.length l <= List.length (array_set i v l))%nat.
Proof.
  revert l; induction i as [| i IH]; intros [| x l]; simpl; try lia.
  specialize (IH l). lia.
Qed.

Lemma resolveFixups_length (g : codegen) :
  (List.length (code g) <= List.length (code (resolveFixups g)))%nat.
Proof.
  unfold resolveFixups.
  generalize (fixups g) as l. intros l. revert g.
  induction l as [| [offset label] l IH]; intros g; simpl; [lia |].
  etransitivity; [| apply IH].
  unfold resolveFixup.
  destruct label as [lbl |]; [| lia].
  destruct (map_get String.eqb lbl (labels g)); [| lia].
  cbn [code].
  repeat (etransitivity; [| apply array_set_length]). lia.
Qed.

Lemma generate_offsets (pr : parseResult) (cg : codegenResult) :
  generate pr = Ok cg ->
  forall name offset, In (name, offset) (cg_functions cg) ->
                      0 <= offset < Z.of_nat (List.length (cg_code cg)).
Proof.
  unfold generate. intros H. inv_bind H.
  pose proof (generateFunctions_inside (ir_functions (pr_ir pr)) x) as [Hs Hin].
  destruct (generateFunctions (ir_functions (pr_ir pr)) x) as [g fo].
  inv_bind H. injection H as <-. simpl in *.
  intros name offset Hno. specialize (Hin _ _ Hno).
  pose proof (resolveFixups_length g). lia.
Qed.

(** ** The symbol table *)

Lemma symbolEntry_value (nameOffset offset : Z) (entry : list Z) :
  symbolEntry nameOffset offset = Ok entry ->
  List.length entry = 12%nat /\ readUInt32LE entry 4 = offset.
Proof.
  unfold symbolEntry. intros H. cbv beta zeta in H.
  inv_bind H. inv_bind H. inv_bind H. inv_bind H.
  pose proof (writeUInt_untouched _ _ _ _ Hx) as U0.
  pose proof (writeUInt_untouched _ _ _ _ Hx0) as U1.
  pose proof (writeUInt_untouched _ _ _ _ Hx1) as U2.
  pose proof (writeUInt_untouched _ _ _ _ Hx2) as U3.
  pose proof (writeUInt_untouched _ _ _ _ H) as U4.
  assert (L0 : List.length x = 12%nat) by (rewrite (untouched_length U0); apply repeat_length).
  assert (L1 : List.length x0 = 12%nat) by (rewrite (untouched_length U1); exact L0).
  assert (L2 : List.length x1 = 12%nat) by (rewrite (untouched_length U2); exact L1).
  assert (L3 : List.length x2 = 12%nat) by (rewrite (untouched_length U3); exact L2).
  split.
  - rewrite (untouched_length U4). exact L3.
  - frame32. apply (writeUInt32LE_read _ _ _ Hx0). rewrite L0. clear. lia.
Qed.

Lemma symbolEntries_values (functions : list (string * Z)) (nameOffset : Z)
  (entries : list (list Z)) :
  symbolEntries functions nameOffset = Ok entries ->
  Forall2 (fun f e => List.length e = 12%nat /\ readUInt32LE e 4 = snd f)
          functions entries.
Proof.
  revert nameOffset entries.
  induction functions as [| [name offset] functions IH]; intros nameOffset entries H;
    simpl in H.
  - injection H as <-. constructor.
  - inv_bind H. inv_bind H. injection H as <-.
    constructor; [| eapply IH; eauto].
    simpl. now apply symbolEntry_value with (nameOffset := nameOffset).
Qed.

Lemma concat12_length (entries : list (list Z)) :
  Forall (fun e => List.length e = 12%nat) entries ->
  List.length (List.concat entries) = (12 * List.length entries)%nat.
Proof.
  induction 1 as [| e entries He _ IH]; simpl; auto.
  rewrite length_app, He, IH. lia.
Qed.

Lemma byte_at_app2 (a b : list Z) (i : nat) :
  byte_at (a ++ b) (List.length a + i) = byte_at b i.
Proof.
  unfold byte_at. rewrite app_nth2 by lia. f_equal. lia.
Qed.

Lemma read32_concat12 (entries : list (list Z)) (i : nat) :
  Forall (fun e => List.length e = 12%nat) entries ->
  (i < List.length entries)%nat ->
  readUInt32LE (List.concat entries) (12 * i + 4) = readUInt32LE (nth i entries []) 4.
Proof.
  intros HF. revert i.
  induction HF as [| e entries He _ IH]; intros i Hi; simpl in Hi; [lia |].
  cbn [List.concat nth].
  destruct i as [| i].
  - apply read32_app. rewrite He. clear. lia.
  - rewrite <- (IH i) by lia.
    unfold readUInt32LE.
    replace (12 * S i + 4)%nat with (List.length e + (12 * i + 4))%nat by lia.
    replace (List.length e + (12 * i + 4) + 1)%nat
      with (List.length e + (12 * i + 4 + 1))%nat by lia.
    replace (List.length e + (12 * i + 4) + 2)%nat
      with (List.length e + (12 * i + 4 + 2))%nat by lia.
    replace (List.length e + (12 * i + 4) + 3)%nat
      with (List.length e + (12 * i + 4 + 3))%nat by lia.
    now rewrite !byte_at_app2.
Qed.

Lemma optimize_no_functions (cg0 cg : codegenResult) :
  optimize cg0 = Ok cg -> cg_functions cg = [].
Proof.
  unfold optimize, deadCodeElimination, constantFolding, peepholeOptimization,
    instructionPass.
  destruct (cg_functions cg0) eqn:E; simpl; [| discriminate].
  rewrite E. simpl. rewrite E. simpl. intros H. injection H as <-. exact E.
Qed.

(** Claim C7, amended.  For every compilation that succeeds, the value field
    of every record of the symbol table is an offset relative to the start of
    the code section: it lies in [[0, code_size)], not in
    [[code_offset, code_offset + code_size)]. *)
Theorem symbol_values_inside_code (o : options) (pr : parseResult) (c : compiled) :
  compile o pr = Ok c ->
  forall i : nat,
    Z.of_nat i < symbol_count (binary c) ->
    0 <= symbol_value (binary c) i < code_size (binary c).
Proof.
  intros H i Hi.
  apply compile_Ok in H.
  destruct H as (cg0 & cg & mi & _ & _ & G & O & W).
  apply write_layout in W. destruct W as (hdr & symtab & strtab & L).
  pose proof (layout_sections L) as (_ & _ & S3 & _ & S5 & _ & _ & _ & C3 & _).
  pose proof (lay_symtab L) as B.
  unfold buildSymbolTable in B. inv_bind B. injection B as <-.
  apply symbolEntries_values in Hx.
  assert (F12 : Forall (fun e => List.length e = 12%nat) x).
  { clear - Hx. induction Hx; constructor; auto. tauto. }
  unfold symbol_count, symbol_value in *.
  rewrite C3, S3. rewrite S5, (concat12_length F12) in Hi.
  rewrite Nat2Z.inj_mul, Z.mul_comm, Z.div_mul in Hi by lia.
  assert (Hi' : (i < List.length x)%nat) by lia.
  rewrite (read32_concat12 F12 Hi').
  assert (Hlen : List.length (cg_functions cg) = List.length x)
    by (eapply Forall2_length; eauto).
  assert (Hnth : readUInt32LE (nth i x []) 4 = snd (nth i (cg_functions cg) (""%string, 0))).
  { clear - Hx Hi'. revert i Hi'.
    induction Hx as [| f e fs es [_ He] _ IH]; intros i Hi; simpl in Hi; [lia |].
    destruct i as [| i]; simpl; auto. apply IH. lia. }
  rewrite Hnth.
  assert (Hin : In (nth i (cg_functions cg) (""%string, 0)) (cg_functions cg))
    by (apply nth_In; lia).
  destruct (nth i (cg_functions cg) (""%string, 0)) as [name offset].
  simpl.
  destruct (opt_optimize o).
  - apply optimize_no_functions in O. rewrite O in Hin. destruct Hin.
  - subst cg. eapply generate_offsets; eauto.
Qed.

(** ** Capabilities *)

Lemma to_int32_testbit (r n : Z) :
  0 <= n < 32 -> Z.testbit (to_int32 r) n = Z.testbit r n.
Proof.
  intros Hn.
  rewrite <- (Z.mod_pow2_bits_low (to_int32 r) 32 n) by lia.
  rewrite <- (Z.mod_pow2_bits_low r 32 n) by lia.
  change (2 ^ 32) with two32.
  change (to_int32 r mod two32) with (to_uint32 (to_int32 r)).
  now rewrite to_uint32_to_int32.
Qed.

Lemma small_testbit (c n : Z) : 0 <= c < two32 -> 32 <= n -> Z.testbit c n = false.
Proof.
  intros Hc Hn.
  destruct (Z.eq_dec c 0) as [-> | Hc0]; [apply Z.bits_0 |].
  apply Z.bits_above_log2; [lia |].
  apply Z.lt_le_trans with 32; [| exact Hn].
  apply Z.log2_lt_pow2; unfold two32 in Hc; lia.
Qed.

Lemma land_to_int32 (r c : Z) : 0 <= c < two32 -> Z.land (to_int32 r) c = Z.land r c.
Proof.
  intros Hc. apply Z.bits_inj'. intros n Hn.
  rewrite !Z.land_spec.
  destruct (Z_lt_le_dec n 32).
  - now rewrite to_int32_testbit by lia.
  - now rewrite (small_testbit Hc) by lia; rewrite !andb_false_r.
Qed.

Lemma has_capability_js_or (a b c : Z) :
  0 <= c < two32 ->
  has_capability a c \/ has_capability b c -> has_capability (js_or a b) c.
Proof.
  unfold has_capability, js_or. intros Hc H.
  rewrite Z.land_lor_distr_l, !(land_to_int32 _ Hc).
  apply Z.bits_inj'. intros n Hn.
  destruct H as [H | H]; rewrite H, Z.lor_spec, ?Z.land_spec;
    destruct (Z.testbit c n), (Z.testbit a n), (Z.testbit b n); reflexivity.
Qed.

Lemma has_capability_self (b c : Z) : 0 <= c < two32 -> has_capability (js_or b c) c.
Proof.
  intros Hc. apply has_capability_js_or; auto. right.
  unfold has_capability. apply Z.land_diag.
Qed.

Lemma assoc_In {A : Type} (key : string) (table : list (string * A)) (v : A) :
  assoc key table = Some v -> In (key, v) table.
Proof.
  induction table as [| [k x] table IH]; simpl; [discriminate |].
  destruct (String.eqb_spec k key) as [-> | _].
  - intros H. injection H as ->. now left.
  - intros H. right. auto.
Qed.

Lemma API_capability_range (method : string) (apiInfo : api_info) :
  assoc method API_FUNCTIONS = Some apiInfo -> 0 <= capability apiInfo < two32.
Proof.
  intros H. apply assoc_In in H.
  assert (F : forallb (fun e => (0 <=? capability (snd e)) && (capability (snd e) <? two32))
                API_FUNCTIONS = true) by (vm_compute; reflexivity).
  rewrite forallb_forall in F. specialize (F _ H). simpl in F.
  apply andb_true_iff in F. destruct F as [F1 F2].
  apply Z.leb_le in F1. apply Z.ltb_lt in F2. lia.
Qed.

Lemma call_capability_keeps (caps c : Z) (call : apiCall) :
  0 <= c < two32 -> has_capability caps c -> has_capability (call_capability caps call) c.
Proof.
  intros Hc H. unfold call_capability.
  destruct (call_method call) as [m |]; auto.
  destruct (assoc m API_FUNCTIONS); auto.
  apply has_capability_js_or; auto.
Qed.

Lemma fold_call_capability_keeps (calls : list apiCall) (caps c : Z) :
  0 <= c < two32 -> has_capability caps c ->
  has_capability (fold_left call_capability calls caps) c.
Proof.
  intros Hc. revert caps.
  induction calls as [| call calls IH]; intros caps H; simpl; auto.
  apply IH. now apply call_capability_keeps.
Qed.

Lemma fold_call_capability_adds (calls : list apiCall) (caps : Z) (call : apiCall)
  (method : string) (apiInfo : api_info) :
  In call calls -> call_method call = Some method ->
  assoc method API_FUNCTIONS = Some apiInfo ->
  has_capability (fold_left call_capability calls caps) (capability apiInfo).
Proof.
  intros Hin Hm Ha. pose proof (API_capability_range _ Ha) as Hc.
  revert caps. induction calls as [| call' calls IH]; intros caps; simpl; [destruct Hin |].
  destruct Hin as [-> | Hin]; [| now apply IH].
  apply fold_call_capability_keeps; auto.
  unfold call_capability. rewrite Hm, Ha.
  now apply has_capability_self.
Qed.

Lemma requiredCaps_LOG (apiCalls : list apiCall) (commands : list command) :
  has_capability (computeRequiredCapabilities apiCalls commands) CAPABILITIES.LOG.
Proof.
  unfold computeRequiredCapabilities. cbv zeta.
  apply has_capability_self. vm_compute. split; [discriminate | reflexivity].
Qed.

Lemma requiredCaps_COMMAND (apiCalls : list apiCall) (commands : list command) :
  commands <> [] ->
  has_capability (computeRequiredCapabilities apiCalls commands) CAPABILITIES.COMMAND.
Proof.
  intros Hc. unfold computeRequiredCapabilities. cbv zeta.
  assert (R : 0 <= CAPABILITIES.COMMAND < two32)
    by (vm_compute; split; [discriminate | reflexivity]).
  apply has_capability_js_or; auto. left.
  apply fold_call_capability_keeps; auto.
  destruct commands as [| cmd commands]; [contradiction |].
  change (0 <? Z.of_nat (List.length (cmd :: commands))) with true.
  now apply has_capability_self.
Qed.

Lemma requiredCaps_call (apiCalls : list apiCall) (commands : list command)
  (call : apiCall) (method : string) (apiInfo : api_info) :
  In call apiCalls -> call_method call = Some method ->
  assoc method API_FUNCTIONS = Some apiInfo ->
  has_capability (computeRequiredCapabilities apiCalls commands) (capability apiInfo).
Proof.
  intros Hin Hm Ha. unfold computeRequiredCapabilities. cbv zeta.
  apply has_capability_js_or; [eapply API_capability_range; eauto |].
  left. eapply fold_call_capability_adds; eauto.
Qed.

(** ** From the source to the header *)

Lemma extractAPICalls_In (nodes : list node) (calls : list apiCall) (n : node)
  (method : string) (arguments : list node) :
  In n nodes -> akm_call n = Some (Some method, arguments) ->
  method <> "module"%string -> method <> "command"%string ->
  exists call, In call (fold_left visitAPICalls nodes calls) /\
               call_method call = Some method.
Proof.
  intros Hin Hc Hm1 Hm2.
  assert (Keep : forall l acc call, In call acc -> In call (fold_left visitAPICalls l acc)).
  { induction l as [| x l IH]; intros acc call H; simpl; auto.
    apply IH. unfold visitAPICalls.
    destruct (akm_call x) as [[m a] |]; auto.
    destruct (method_is m "module" || method_is m "command"); auto.
    apply in_or_app. now left. }
  revert calls. induction nodes as [| x nodes IH]; intros calls; [destruct Hin |].
  destruct Hin as [-> | Hin]; simpl; [| now apply IH].
  exists {| call_method := Some method; call_args := arguments |}.
  split; auto. apply Keep.
  unfold visitAPICalls. rewrite Hc. simpl.
  destruct (String.eqb_spec method "module"); [contradiction |].
  destruct (String.eqb_spec method "command"); [contradiction |].
  simpl. apply in_or_app. right. now left.
Qed.

Lemma visitCommands_length (commands commands' : list command) (n : node) :
  visitCommands commands n = Ok commands' ->
  (List.length commands <= List.length commands')%nat.
Proof.
  unfold visitCommands.
  destruct (akm_call n) as [[m a] |]; [| intros H; injection H as <-; lia].
  destruct (method_is m "command"); [| intros H; injection H as <-; lia].
  destruct a as [| a0 [| h rest]]; try (intros H; injection H as <-; lia).
  intros H. bind_inv H as cfg Hcfg. injection H as <-. rewrite length_app. simpl. lia.
Qed.

Lemma extractCommands_nonempty (nodes : list node) (commands commands' : list command)
  (n config handler : node) (rest : list node) :
  foldM visitCommands nodes commands = Ok commands' ->
  In n nodes ->
  akm_call n = Some (Some "command"%string, config :: handler :: rest) ->
  commands' <> [].
Proof.
  intros H Hin Hc.
  assert (Mono : forall l acc r, foldM visitCommands l acc = Ok r ->
                                 (List.length acc <= List.length r)%nat).
  { induction l as [| x l IH]; intros acc r Hf; simpl in Hf.
    - injection Hf as <-. lia.
    - bind_inv Hf as s1 Hs1. apply visitCommands_length in Hs1. apply IH in Hf. lia. }
  revert commands H. induction nodes as [| x nodes IH]; intros commands H; [destruct Hin |].
  simpl in H. bind_inv H as s1 Hs1.
  destruct Hin as [-> | Hin]; [| eapply IH; eauto].
  apply Mono in H.
  unfold visitCommands in Hs1. rewrite Hc in Hs1. simpl in Hs1.
  bind_inv Hs1 as cfg Hcfg. injection Hs1 as <-.
  rewrite length_app in H. simpl in H.
  intros ->. simpl in H. lia.
Qed.

Lemma obj_get_set (key : string) (v : jsval) (obj : list (string * jsval)) :
  obj_get key (obj_set key v obj) = v.
Proof.
  unfold obj_get.
  induction obj as [| [k x] obj IH]; simpl.
  - now rewrite String.eqb_refl.
  - destruct (String.eqb k key) eqn:E; simpl; rewrite E; auto.
Qed.

(** What [parse] leaves in [moduleConfig.capabilities]: the required
    capabilities, or-ed with the declared ones when there are any. *)
Lemma mergeCapabilities_value (moduleConfig config : list (string * jsval))
  (requiredCaps : Z) :
  mergeCapabilities moduleConfig requiredCaps = Ok config ->
  exists v, obj_get "capabilities" config = JNum (Int v) /\
            (v = requiredCaps \/ exists declared, v = js_or declared requiredCaps).
Proof.
  unfold mergeCapabilities.
  destruct (truthy (obj_get "capabilities" moduleConfig)).
  - intros H. bind_inv H as d Hd. injection H as <-.
    rewrite obj_get_set. eexists. split; [reflexivity |]. right. now exists (num_int32 d).
  - intros H. injection H as <-. rewrite obj_get_set.
    eexists. split; [reflexivity |]. now left.
Qed.

(** A successful run of the pipeline on a parsed source. *)
Lemma akmcc_Ok (o : options) (ast : node) (c : compiled) :
  akmcc o (Parsed ast) = Ok c ->
  exists moduleConfig functions commands config ir,
    extractModuleConfig ast = Ok moduleConfig /\
    extractFunctions ast = Ok functions /\
    extractCommands ast = Ok commands /\
    mergeCapabilities moduleConfig
      (computeRequiredCapabilities (extractAPICalls ast) commands) = Ok config /\
    generateIR functions commands (extractAPICalls ast) = Ok ir /\
    compile o {| pr_moduleConfig := Some config; pr_functions := functions;
                 pr_commands := commands; pr_apiCalls := extractAPICalls ast;
                 pr_ir := ir; pr_errors := [] |} = Ok c.
Proof.
  unfold akmcc, parse. intros H.
  bind_inv H as pr Hpr.
  bind_inv Hpr as moduleConfig Hm. bind_inv Hpr as functions Hf.
  bind_inv Hpr as commands Hc. cbv zeta in Hpr.
  bind_inv Hpr as config Hg. bind_inv Hpr as ir Hi.
  injection Hpr as <-. simpl in H.
  exists moduleConfig, functions, commands, config, ir. auto 10.
Qed.

(** The capability mask of the header, without an override: the value
    [parse] computed. *)
Lemma header_capabilities (o : options) (ast : node) (c : compiled) :
  opt_capabilities o = JNull ->
  akmcc o (Parsed ast) = Ok c ->
  exists commands,
    extractCommands ast = Ok commands /\
    let requiredCaps := computeRequiredCapabilities (extractAPICalls ast) commands in
    capabilities_of (binary c) = requiredCaps \/
    exists declared, capabilities_of (binary c) = js_or declared requiredCaps.
Proof.
  intros Ho H. apply akmcc_Ok in H.
  destruct H as (moduleConfig & functions & commands & config & ir & _ & _ & Hc & Hg & _ & H).
  exists commands. split; auto. cbv zeta.
  apply mergeCapabilities_value in Hg. destruct Hg as (v & Hv & Hreq).
  apply compile_Ok in H.
  destruct H as (cg0 & cg & mi & _ & Hmi & _ & _ & W).
  simpl in Hmi. injection Hmi as <-.
  apply write_layout in W. destruct W as (hdr & symtab & strtab & L).
  destruct (lay_caps L) as (caps & Hcaps & Hread & _).
  assert (E : capabilities_of (binary c) = readUInt32LE hdr 108).
  { unfold capabilities_of. rewrite (lay_art L).
    apply read32_app. rewrite (lay_hdr L). clear. lia. }
  rewrite E.
  assert (Hmc : mi_capabilities (moduleInfoOf o config) = JNum (Int v)).
  { unfold moduleInfoOf. cbn [mi_capabilities]. rewrite Ho, Hv.
    unfold js_lor. cbn [truthy].
    destruct (v =? 0) eqn:Ev; cbn [negb truthy]; auto.
    apply Z.eqb_eq in Ev. now subst v. }
  rewrite Hmc in Hcaps. simpl in Hcaps. injection Hcaps as <-.
  destruct Hread as [Hread | Hread]; [discriminate |].
  injection Hread as <-. exact Hreq.
Qed.

(** Claim C4.  For every source compiled without an override of the
    capabilities: the mask written to the header has the capability bit of
    every method of the API table that the source calls as [AKM.M(...)], it
    has [LOG], and it has [COMMAND] when the source registers a command, that
    is, contains a call [AKM.command(config, handler, ...)]. *)
Theorem capabilities_inferred (o : options) (ast : node) (c : compiled) :
  opt_capabilities o = JNull ->
  akmcc o (Parsed ast) = Ok c ->
  (forall n method arguments apiInfo,
      In n (walk ast) ->
      akm_call n = Some (Some method, arguments) ->
      assoc method API_FUNCTIONS = Some apiInfo ->
      has_capability (capabilities_of (binary c)) (capability apiInfo)) /\
  has_capability (capabilities_of (binary c)) CAPABILITIES.LOG /\
  ((exists n config handler rest,
       In n (walk ast) /\
       akm_call n = Some (Some "command"%string, config :: handler :: rest)) ->
   has_capability (capabilities_of (binary c)) CAPABILITIES.COMMAND).
Proof.
  intros Ho H.
  destruct (header_capabilities _ _ Ho H) as (commands & Hc & Hcaps). cbv zeta in Hcaps.
  assert (Lift : forall cap, 0 <= cap < two32 ->
             has_capability (computeRequiredCapabilities (extractAPICalls ast) commands) cap ->
             has_capability (capabilities_of (binary c)) cap).
  { intros cap Hr Hreq. destruct Hcaps as [-> | [declared ->]]; auto.
    apply has_capability_js_or; auto. }
  split; [| split].
  - intros n method arguments apiInfo Hin Hcall Ha.
    apply Lift; [eapply API_capability_range; eauto |].
    destruct (@extractAPICalls_In (walk ast) [] n method arguments Hin Hcall)
      as (call & Hcin & Hcm).
    + intros ->. vm_compute in Ha. discriminate.
    + intros ->. vm_compute in Ha. discriminate.
    + eapply requiredCaps_call; eauto.
  - apply Lift; [vm_compute; split; [discriminate | reflexivity] |].
    apply requiredCaps_LOG.
  - intros (n & config & handler & rest & Hin & Hcall).
    apply Lift; [vm_compute; split; [discriminate | reflexivity] |].
    apply requiredCaps_COMMAND.
    eapply extractCommands_nonempty; eauto.
Qed.

(** ** Structural errors *)


Lemma extractModuleConfig_none (ast : node) :
  no_module_call ast -> extractModuleConfig ast = Ok [].
Proof.
  unfold no_module_call, extractModuleConfig.
  generalize (walk ast) as nodes.
  induction nodes as [| n nodes IH]; intros H; simpl; auto.
  assert (E : visitModuleConfig [] n = Ok []).
  { unfold visitModuleConfig.
    destruct (akm_call n) as [[m a] |] eqn:Ec; auto.
    destruct m as [m |]; simpl; auto.
    destruct (String.eqb_spec m "module"); auto.
    subst m. exfalso. apply (H n a); [now left | exact Ec]. }
  rewrite E. simpl. apply IH. intros n' a Hin. apply H. now right.
Qed.

(** A source without a call of [AKM.module] parses to a configuration
    that has only the inferred capabilities. *)
Lemma no_module_call_no_name (ast : node) (pr : parseResult) :
  no_module_call ast -> parse (Parsed ast) = Ok pr -> no_name pr.
Proof.
  intros Hno Hp. unfold parse in Hp.
  rewrite (extractModuleConfig_none Hno) in Hp. simpl in Hp.
  bind_inv Hp as functions Hf. bind_inv Hp as commands Hc.
  unfold mergeCapabilities in Hp. cbn [obj_get assoc truthy bind obj_set] in Hp.
  bind_inv Hp as ir Hi. injection Hp as <-.
  reflexivity.
Qed.

(** Claim C8.  Compilation throws a structural error, and returns no binary,
    whenever the module configuration has no name, or the source had no
    [AKM.module] call at all, or no function [init] or no function [exit] was
    extracted. *)
Theorem missing_structure_is_fatal (o : options) (pr : parseResult) :
  no_name pr
  \/ (exists ast, no_module_call ast /\ parse (Parsed ast) = Ok pr)
  \/ assoc "init" (pr_functions pr) = None
  \/ assoc "exit" (pr_functions pr) = None ->
  exists message,
    compile o pr = Throws (Error message) /\ In message structural_messages.
Proof.
  intros H.
  assert (H' : no_name pr \/ assoc "init" (pr_functions pr) = None
               \/ assoc "exit" (pr_functions pr) = None).
  { destruct H as [H | [(ast & Hno & Hp) | H]]; auto.
    left. eapply no_module_call_no_name; eauto. }
  clear H. unfold compile, validateModule, no_name in *.
  destruct (pr_moduleConfig pr) as [config |].
  - destruct (truthy (obj_get "name" config)) eqn:Et; simpl.
    + destruct H' as [H | H]; [discriminate |].
      destruct (assoc "init" (pr_functions pr)); simpl.
      * destruct H as [H | H]; [discriminate |]. rewrite H. simpl.
        eexists. split; [reflexivity |]. simpl. auto.
      * eexists. split; [reflexivity |]. simpl. auto.
    + eexists. split; [reflexivity |]. simpl. auto.
  - simpl. eexists. split; [reflexivity |]. simpl. auto.
Qed.

(** ** The inspector *)

Lemma hex_value_of_digit (d : Z) : 0 <= d < 16 -> hex_value_of (hex_digit d) = Some d.
Proof.
  intros H.
  assert (E : d = 0 \/ d = 1 \/ d = 2 \/ d = 3 \/ d = 4 \/ d = 5 \/ d = 6 \/ d = 7 \/
              d = 8 \/ d = 9 \/ d = 10 \/ d = 11 \/ d = 12 \/ d = 13 \/ d = 14 \/ d = 15)
    by lia.
  repeat (destruct E as [-> | E]; [reflexivity |]). subst d. reflexivity.
Qed.

Lemma parse_hex_digits (fuel : nat) (n : Z) (acc : string) :
  (0 < fuel)%nat -> 0 <= n < 16 ^ Z.of_nat fuel ->
  parse_hex (hex_digits fuel n acc) 0 = parse_hex acc n.
Proof.
  revert n acc. induction fuel as [| fuel IH]; intros n acc Hf Hn; [lia |].
  cbn [hex_digits].
  assert (Hd : 0 <= n mod 16 < 16) by (apply Z.mod_pos_bound; lia).
  assert (Hstep : parse_hex (String (hex_digit (n mod 16)) acc) (n / 16) = parse_hex acc n).
  { cbn [parse_hex]. rewrite (hex_value_of_digit Hd). f_equal.
    rewrite (Z.div_mod n 16) at 3 by lia. reflexivity. }
  destruct (n / 16 =? 0) eqn:E.
  - apply Z.eqb_eq in E. rewrite E in Hstep.
    rewrite <- Hstep. reflexivity.
  - apply Z.eqb_neq in E.
    rewrite Nat2Z.inj_succ, Z.pow_succ_r in Hn by lia.
    assert (Hq : 0 <= n / 16 < 16 ^ Z.of_nat fuel).
    { split; [apply Z.div_pos; lia | apply Z.div_lt_upper_bound; lia]. }
    destruct fuel as [| fuel'].
    + simpl in Hq. lia.
    + rewrite IH by (auto; lia). exact Hstep.
Qed.

Lemma toString16Upper_hex (n : Z) :
  0 <= n < two32 -> parse_hex (toString16Upper n) 0 = Some n.
Proof.
  intros H. unfold toString16Upper.
  rewrite parse_hex_digits; [reflexivity | lia |].
  change (16 ^ Z.of_nat 8) with two32. exact H.
Qed.

Lemma read32_range (data : list Z) :
  Forall is_byte data -> 0 <= readUInt32LE data 0 < two32.
Proof.
  intros H. unfold readUInt32LE, byte_at, two32.
  assert (B : forall i, 0 <= nth i data 0 < 256).
  { intros i. destruct (Nat.lt_ge_cases i (List.length data)) as [Hi | Hi].
    - rewrite Forall_forall in H. apply H. now apply nth_In.
    - rewrite nth_overflow by lia. lia. }
  pose proof (B 0%nat). pose proof (B 1%nat). pose proof (B 2%nat). pose proof (B 3%nat).
  cbn [Nat.add]. lia.
Qed.

Lemma magic_bytes (data : list Z) :
  Forall is_byte data -> (4 <= List.length data)%nat ->
  readUInt32LE data 0 = 0x324D4B41 -> firstn 4 data = [0x41; 0x4B; 0x4D; 0x32].
Proof.
  intros H Hl.
  destruct data as [| b0 [| b1 [| b2 [| b3 data]]]]; simpl in Hl; try lia.
  unfold readUInt32LE, byte_at. cbn [nth Nat.add firstn].
  inversion H as [| ? ? H0 H']; subst. inversion H' as [| ? ? H1 H'']; subst.
  inversion H'' as [| ? ? H2 H''']; subst. inversion H''' as [| ? ? H3 _]; subst.
  unfold is_byte in *. intros E.
  assert (b0 = 65 /\ b1 = 75 /\ b2 = 77 /\ b3 = 50) as (-> & -> & -> & ->) by lia.
  reflexivity.
Qed.

(** Claim C9.  The inspector exits with status 1 on every file shorter than
    512 bytes and on every file that does not start with the little-endian
    magic; in the second case the message ends with the magic that was read,
    in upper-case hexadecimal digits (which [parse_hex] reads back). *)
Theorem inspector_rejects (filepath : string) (data : list Z) :
  Forall is_byte data ->
  Z.of_nat (List.length data) < 512 \/ firstn 4 data <> [0x41; 0x4B; 0x4D; 0x32] ->
  info_exit_status filepath (Some data) = 1 /\
  (512 <= Z.of_nat (List.length data) ->
   showModuleInfo filepath (Some data) =
     Exits 1 ("Invalid magic: expected 0x324D4B41 (AKM2), got 0x"
              ++ toString16Upper (readUInt32LE data 0)) /\
   parse_hex (toString16Upper (readUInt32LE data 0)) 0 = Some (readUInt32LE data 0)).
Proof.
  intros Hb H. unfold info_exit_status, showModuleInfo.
  destruct (Z.of_nat (List.length data) <? 512) eqn:El.
  - split; [reflexivity |]. apply Z.ltb_lt in El. lia.
  - apply Z.ltb_ge in El.
    destruct H as [H | H]; [lia |].
    destruct (readUInt32LE data 0 =? 843926337) eqn:Em.
    + apply Z.eqb_eq in Em. exfalso. apply H.
      apply magic_bytes; auto. lia.
    + simpl. split; [reflexivity |]. intros _. split; [reflexivity |].
      apply toString16Upper_hex. now apply read32_range.
Qed.

(** ** The injection of the command registrations *)

Lemma find_index_Some {A : Type} (p : A -> bool) (l : list A) (i : nat) :
  find_index p l = Some i ->
  Forall (fun x => p x = false) (firstn i l) /\
  exists x rest, skipn i l = x :: rest /\ p x = true.
Proof.
  revert i. induction l as [| a l IH]; intros i; simpl; [discriminate |].
  destruct (p a) eqn:Ea.
  - intros H. injection H as <-. simpl. split; [constructor |]. now exists a, l.
  - destruct (find_index p l) as [j |]; [| discriminate].
    intros H. injection H as <-. destruct (IH j eq_refl) as [F E].
    simpl. split; [constructor; auto | exact E].
Qed.

Lemma find_index_None {A : Type} (p : A -> bool) (l : list A) :
  find_index p l = None -> forall x, In x l -> p x = false.
Proof.
  induction l as [| a l IH]; simpl; [intros _ x [] |].
  destruct (p a) eqn:Ea; [discriminate |].
  destruct (find_index p l); [discriminate |].
  intros _ x [<- | Hx]; auto.
Qed.

Lemma splice_middle {A : Type} (pre mid post items : list A) :
  splice (pre ++ mid ++ post) (List.length pre) items = pre ++ (items ++ mid) ++ post.
Proof.
  unfold splice.
  rewrite firstn_app, firstn_all, Nat.sub_diag. simpl firstn.
  rewrite skipn_app, skipn_all, Nat.sub_diag. simpl skipn.
  now rewrite app_nil_r, <- !app_assoc.
Qed.

(** Every block is spliced in at the same index, so the blocks end up in the
    reverse of the order of the commands. *)
Lemma injectCommands_reverse (commands : list command) (instructions : list instr) :
  let insertIdx :=
    match find_index is_ret instructions with
    | Some returnIdx => returnIdx
    | None => List.length instructions
    end in
  injectCommands commands instructions =
    firstn insertIdx instructions
    ++ flat_map regCalls (rev commands)
    ++ skipn insertIdx instructions.
Proof.
  intros insertIdx. unfold injectCommands. fold insertIdx.
  assert (Hidx : (insertIdx <= List.length instructions)%nat).
  { unfold insertIdx. destruct (find_index is_ret instructions) as [i |] eqn:E; [| lia].
    apply find_index_Some in E. destruct E as (_ & x & rest & E & _).
    destruct (Nat.le_gt_cases i (List.length instructions)) as [H | H]; auto.
    rewrite skipn_all2 in E by lia. discriminate. }
  set (pre := firstn insertIdx instructions).
  set (post := skipn insertIdx instructions).
  assert (Hpre : List.length pre = insertIdx)
    by (unfold pre; rewrite length_firstn; lia).
  assert (Hs : forall mid items,
             splice (pre ++ mid ++ post) insertIdx items = pre ++ (items ++ mid) ++ post)
    by (intros; rewrite <- Hpre; apply splice_middle).
  assert (G : forall cmds mid,
             fold_left (fun ins cmd => splice ins insertIdx (regCalls cmd)) cmds
               (pre ++ mid ++ post)
             = pre ++ (flat_map regCalls (rev cmds) ++ mid) ++ post).
  { induction cmds as [| cmd cmds IH]; intros mid; simpl; auto.
    rewrite Hs, IH.
    rewrite flat_map_app. simpl. rewrite ?app_nil_r, <- ?app_assoc. reflexivity. }
  specialize (G commands []).
  rewrite app_nil_r in G. simpl in G.
  unfold pre, post in G. rewrite firstn_skipn in G. exact G.
Qed.

Lemma ensure_ret_has_ret (instructions : list instr) :
  exists i, In i (ensure_ret instructions) /\ is_ret i = true.
Proof.
  unfold ensure_ret.
  assert (L : forall i, last (map Some instructions) None = Some i -> In i instructions).
  { induction instructions as [| a l IH]; intros i; [discriminate |].
    destruct l as [| b l].
    - simpl. intros H. injection H as <-. now left.
    - intros H. right. apply IH. exact H. }
  destruct (last (map Some instructions) None) as [i |] eqn:E.
  - destruct (is_ret i) eqn:Er.
    + exists i. split; auto.
    + exists (op_only OPCODES.RET). split; [apply in_or_app; right; now left | reflexivity].
  - exists (op_only OPCODES.RET). split; [apply in_or_app; right; now left | reflexivity].
Qed.

(** A function of the IR comes from one entry of [functions]. *)
Lemma lowerFunction_In (commands : list command) (functions : list (string * funcinfo))
  (acc r : list jsval * list irFunc) (f : irFunc) :
  foldM (lowerFunction commands) functions acc = Ok r ->
  In f (snd r) ->
  In f (snd acc) \/
  exists func strings st,
    generateFunctionIR (fn_node func) strings = Ok st /\
    f_instructions f =
      (if String.eqb (f_name f) "init" && (0 <? Z.of_nat (List.length commands))
       then injectCommands commands (s_instructions st)
       else s_instructions st).
Proof.
  revert acc. induction functions as [| [name func] functions IH]; intros acc H Hin;
    simpl in H.
  - injection H as <-. now left.
  - bind_inv H as acc' Hacc.
    destruct (IH _ H Hin) as [Hold | Hnew]; [| now right].
    destruct acc as [strings funcs]. unfold lowerFunction in Hacc.
    bind_inv Hacc as p Hp. destruct p as [nameIdx strings'].
    bind_inv Hacc as st Hst. injection Hacc as <-.
    simpl in Hold. apply in_app_or in Hold. destruct Hold as [Hold | [<- | []]].
    + now left.
    + right. exists func, strings', st. split; auto.
Qed.

(** Claim C10.  In the IR of [init] the registration blocks of the commands
    stand immediately before the first [RET] of the lowered body, in the
    reverse of the order in which the commands were extracted: every block
    is spliced in at the same index.  The block of a command is the seven
    instructions PUSH_STR name, PUSH_STR syntax, PUSH_STR description,
    PUSH_STR category, PUSH 0, CALL_API registerCommand with argc 5, POP. *)
Theorem command_blocks_reversed (ast : node) (pr : parseResult) (f : irFunc) :
  parse (Parsed ast) = Ok pr ->
  In f (ir_functions (pr_ir pr)) ->
  f_name f = "init"%string ->
  exists before ret after,
    f_instructions f =
      before
      ++ flat_map (fun cmd =>
                     [ op_value OPCODES.PUSH_STR (cmd_name cmd);
                       op_value OPCODES.PUSH_STR (cmd_syntax cmd);
                       op_value OPCODES.PUSH_STR (cmd_description cmd);
                       op_value OPCODES.PUSH_STR (cmd_category cmd);
                       op_value OPCODES.PUSH (JNum (Int 0));
                       op_call_api (Some "registerCommand"%string) 5;
                       op_only OPCODES.POP ])
           (rev (pr_commands pr))
      ++ ret :: after /\
    Forall (fun i => is_ret i = false) before /\
    is_ret ret = true.
Proof.
  intros Hp Hin Hname.
  change (exists before ret after,
            f_instructions f =
              before ++ flat_map regCalls (rev (pr_commands pr)) ++ ret :: after /\
            Forall (fun i => is_ret i = false) before /\
            is_ret ret = true).
  unfold parse in Hp.
  bind_inv Hp as moduleConfig Hm. bind_inv Hp as functions Hf.
  bind_inv Hp as commands Hc. cbv zeta in Hp.
  bind_inv Hp as config Hg. bind_inv Hp as ir Hi. injection Hp as <-.
  cbn [pr_ir pr_commands] in *.
  unfold generateIR in Hi.
  bind_inv Hi as p1 H1. destruct p1 as [strings1 ircommands].
  bind_inv Hi as p2 H2. destruct p2 as [strings2 irfunctions].
  bind_inv Hi as p3 H3. destruct p3 as [strings3 ircalls].
  injection Hi as <-. cbn [ir_functions] in Hin.
  destruct (@lowerFunction_In _ _ _ _ f H2 Hin) as [[] | (func & strings & st & Hst & Hins)].
  rewrite Hname in Hins. cbn [String.eqb Ascii.eqb Bool.eqb andb] in Hins.
  unfold generateFunctionIR in Hst. bind_inv Hst as st0 Hst0. injection Hst as <-.
  cbn [s_instructions] in Hins.
  set (body := ensure_ret (s_instructions st0)) in *.
  destruct (find_index is_ret body) as [idx |] eqn:Ei.
  - destruct (find_index_Some _ _ Ei) as (Hbefore & ret & after & Hafter & Hret).
    exists (firstn idx body), ret, after.
    split; [| split; auto].
    destruct (0 <? Z.of_nat (List.length commands)) eqn:Ec.
    + rewrite Hins, injectCommands_reverse, Ei, Hafter. reflexivity.
    + assert (commands = []) as ->.
      { destruct commands; [reflexivity | discriminate]. }
      simpl. rewrite Hins, <- Hafter. symmetry. apply firstn_skipn.
  - exfalso. destruct (ensure_ret_has_ret (s_instructions st0)) as (i & Hi1 & Hi2).
    rewrite (find_index_None _ _ Ei i Hi1) in Hi2. discriminate.
Qed.

(** ** The examples *)


(** Claim C3, amended.  The minimal module compiles to a 512-byte header, the
    code (NOP, PUSH 0, RET) (NOP, RET), a data section that holds the string
    table "init\0exit\0" (10 bytes, not empty), a symbol table of 2 records of
    12 bytes, and the trailing string table "init\0exit\0" (the module name
    is in the header only); the magic is [0x324D4B41] and the capabilities
    are [LOG]. *)
Theorem minimal_module_artifact :
  exists c,
    akmcc default_options (Parsed minimal_module) = Ok c /\
    List.length (binary c) = (512 + 9 + 10 + 24 + 10)%nat /\
    binary c = firstn 512 (binary c) ++ code_section (binary c) ++ data_section (binary c)
               ++ symtab_section (binary c) ++ strtab_section (binary c) /\
    code_section (binary c) =
      [OPCODES.NOP; OPCODES.PUSH; 0; 0; 0; 0; OPCODES.RET] ++ [OPCODES.NOP; OPCODES.RET] /\
    data_section (binary c) = utf8 ("init" ++ nul ++ "exit" ++ nul) /\
    symtab_size (binary c) = 2 * 12 /\
    strtab_section (binary c) = utf8 ("init" ++ nul ++ "exit" ++ nul) /\
    readUInt32LE (binary c) 0 = AKM_FORMAT.MAGIC_V2 /\
    capabilities_of (binary c) = CAPABILITIES.LOG.
Proof.
  eexists. split; [vm_compute; reflexivity |].
  repeat split; vm_compute; reflexivity.
Qed.

(** Claim C3 fails on the minimal module: its data section is not empty and
    its string table has no "a". *)
Lemma minimal_module_counterexample :
  exists c,
    akmcc default_options (Parsed minimal_module) = Ok c /\
    data_section (binary c) <> [] /\
    strtab_section (binary c) = utf8 ("init" ++ nul ++ "exit" ++ nul) /\
    ~ In (code_unit "a") (strtab_section (binary c)).
Proof.
  eexists. split; [vm_compute; reflexivity |].
  split; [vm_compute; discriminate |].
  split; [vm_compute; reflexivity |].
  intros H. vm_compute in H.
  repeat (destruct H as [H | H]; [discriminate H |]). exact H.
Qed.

(** Claim C5, on the code.  The restricted evaluator has no case for a binary
    expression: [AKM.CAPS.MEMORY | AKM.CAPS.PCI] evaluates to [null], and the
    module that declares it is compiled with the inferred capabilities only
    ([LOG]), without [MEMORY] and [PCI]. *)
Theorem declared_capabilities_dropped :
  (forall lhs operator rhs, evaluateLiteral (BinaryExpression lhs operator rhs) = Ok JNull) /\
  evaluateLiteral declared_capabilities = Ok JNull /\
  exists c,
    akmcc default_options (Parsed caps_module) = Ok c /\
    capabilities_of (binary c) = CAPABILITIES.LOG /\
    ~ has_capability (capabilities_of (binary c))
        (Z.lor CAPABILITIES.MEMORY CAPABILITIES.PCI).
Proof.
  split; [reflexivity |]. split; [reflexivity |].
  eexists. split; [vm_compute; reflexivity |].
  split; [vm_compute; reflexivity |].
  vm_compute. discriminate.
Qed.

(** Claim C6 fails on the module whose [init] is [return 2 + 3;]: with
    optimization the compiler throws, without it the code of the function is
    NOP, PUSH 0, RET, with no ADD. *)
Lemma constant_fold_counterexample :
  akmcc optimizing_options (Parsed fold_module)
    = Throws (TypeError "func.instructions is not iterable") /\
  exists c,
    akmcc default_options (Parsed fold_module) = Ok c /\
    code_section (binary c) =
      [OPCODES.NOP; OPCODES.PUSH; 0; 0; 0; 0; OPCODES.RET] ++ [OPCODES.NOP; OPCODES.RET] /\
    ~ In OPCODES.ADD (code_section (binary c)).
Proof.
  split; [vm_compute; reflexivity |].
  eexists. split; [vm_compute; reflexivity |].
  split; [vm_compute; reflexivity |].
  intros H. vm_compute in H.
  repeat (destruct H as [H | H]; [discriminate H |]). exact H.
Qed.

(** Claim C6, amended.  A function whose body is [return 2 + 3;], compiled
    without optimization, lowers to the IR (PUSH null, RET), and its code is
    NOP, PUSH 0, RET: one PUSH and no ADD. *)
Theorem return_2_plus_3_unoptimized :
  (forall id params strings,
      generateFunctionIR (FunctionDeclaration id params return_2_plus_3) strings =
        Ok {| s_instructions := [op_value OPCODES.PUSH JNull; op_only OPCODES.RET];
              s_locals := []; s_strings := strings |}) /\
  (forall name nameIdx params isInit isExit table g,
      code (generateFunction
              {| f_name := name; f_nameIdx := nameIdx; f_params := params;
                 f_instructions := [op_value OPCODES.PUSH JNull; op_only OPCODES.RET];
                 f_locals := []; f_isInit := isInit; f_isExit := isExit |}
              table g)
      = code g ++ [OPCODES.NOP; OPCODES.PUSH; 0; 0; 0; 0; OPCODES.RET]).
Proof.
  split.
  - intros id params strings. reflexivity.
  - intros name nameIdx params isInit isExit table g.
    unfold generateFunction. cbn [f_locals f_instructions fold_left].
    unfold generateInstruction. cbn [i_op op_value op_only i_value].
    change (OPCODES.PUSH =? OPCODES.PUSH) with true.
    change (OPCODES.RET =? OPCODES.PUSH) with false.
    change (OPCODES.RET =? OPCODES.PUSH_ARG) with false.
    change (OPCODES.RET =? OPCODES.PUSH_STR) with false.
    change (OPCODES.RET =? OPCODES.STORE_LOCAL) with false.
    change (OPCODES.RET =? OPCODES.LOAD_LOCAL) with false.
    change (OPCODES.RET =? OPCODES.CALL) with false.
    change (OPCODES.RET =? OPCODES.CALL_API) with false.
    change (OPCODES.RET =? OPCODES.RET) with true.
    cbv iota. unfold emitValue, emitInt32, emit. cbn [code].
    rewrite <- !app_assoc. reflexivity.
Qed.

(** ** The theorems at the examples *)

Lemma artifact_size_and_magic_witness :
  compile default_options (parsed minimal_module) = Ok (compiled_of minimal_module) /\
  Z.of_nat (List.length (binary (compiled_of minimal_module))) = total_size (binary (compiled_of minimal_module)) /\
  total_size (binary (compiled_of minimal_module)) =
    512 + code_size (binary (compiled_of minimal_module)) + data_size (binary (compiled_of minimal_module))
    + symtab_size (binary (compiled_of minimal_module)) + strtab_size (binary (compiled_of minimal_module)) /\
  firstn 4 (binary (compiled_of minimal_module)) = [0x41; 0x4B; 0x4D; 0x32] /\
  readUInt32LE (binary (compiled_of minimal_module)) 0 = AKM_FORMAT.MAGIC_V2.
Proof.
  assert (H : compile default_options (parsed minimal_module)
              = Ok (compiled_of minimal_module)) by (vm_compute; reflexivity).
  split; [exact H |].
  exact (artifact_size_and_magic default_options (parsed minimal_module) H).
Defined.

Lemma checksums_are_rolling_hashes_witness :
  compile default_options (parsed hello_module) = Ok (compiled_of hello_module) /\
  exists cg0 cg hdr symtab strtab,
    generate (parsed hello_module) = Ok cg0 /\
    (if opt_optimize default_options then optimize cg0 = Ok cg else cg = cg0) /\
    buildSymbolTable cg = Ok symtab /\
    buildStrtab (cg_strings cg) = Ok strtab /\
    List.length hdr = 512%nat /\
    binary (compiled_of hello_module) = hdr ++ cg_code cg ++ cg_data cg ++ symtab ++ strtab /\
    code_section (binary (compiled_of hello_module)) = cg_code cg /\
    data_section (binary (compiled_of hello_module)) = cg_data cg /\
    symtab_section (binary (compiled_of hello_module)) = symtab /\
    strtab_section (binary (compiled_of hello_module)) = strtab /\
    content_checksum (binary (compiled_of hello_module)) =
      rolling_hash (cg_code cg ++ cg_data cg ++ symtab ++ strtab) /\
    header_checksum (binary (compiled_of hello_module)) =
      rolling_hash (firstn 348 hdr ++ skipn 352 hdr).
Proof.
  assert (H : compile default_options (parsed hello_module)
              = Ok (compiled_of hello_module)) by (vm_compute; reflexivity).
  split; [exact H |].
  exact (checksums_are_rolling_hashes default_options (parsed hello_module) H).
Defined.

Ltac in_walk := vm_compute; repeat (first [left; reflexivity | right]).

Lemma capabilities_inferred_witness :
  opt_capabilities default_options = JNull /\
  akmcc default_options (Parsed shell_module) = Ok (compiled_of shell_module) /\
  In shell_malloc (walk shell_module) /\
  In shell_command_one (walk shell_module) /\
  has_capability (capabilities_of (binary (compiled_of shell_module))) CAPABILITIES.MEMORY /\
  has_capability (capabilities_of (binary (compiled_of shell_module))) CAPABILITIES.LOG /\
  has_capability (capabilities_of (binary (compiled_of shell_module))) CAPABILITIES.COMMAND.
Proof.
  assert (H : akmcc default_options (Parsed shell_module)
              = Ok (compiled_of shell_module)) by (vm_compute; reflexivity).
  assert (Hm : In shell_malloc (walk shell_module)) by in_walk.
  assert (Hc : In shell_command_one (walk shell_module)) by in_walk.
  destruct (@capabilities_inferred default_options shell_module (compiled_of shell_module)
              eq_refl H) as (Hcall & Hlog & Hcommand).
  split; [reflexivity |]. split; [exact H |]. split; [exact Hm |]. split; [exact Hc |].
  split; [| split; [exact Hlog |]].
  - apply (Hcall shell_malloc "malloc"%string [num 16]
             {| capability := CAPABILITIES.MEMORY; argCount := 1 |} Hm);
      reflexivity.
  - apply Hcommand. exists shell_command_one. eexists _, _, _.
    split; [exact Hc | reflexivity].
Defined.

Lemma symbol_values_inside_code_witness :
  compile default_options (parsed minimal_module) = Ok (compiled_of minimal_module) /\
  Z.of_nat 1 < symbol_count (binary (compiled_of minimal_module)) /\
  0 <= symbol_value (binary (compiled_of minimal_module)) 1 < code_size (binary (compiled_of minimal_module)).
Proof.
  assert (H : compile default_options (parsed minimal_module)
              = Ok (compiled_of minimal_module)) by (vm_compute; reflexivity).
  assert (H1 : Z.of_nat 1 < symbol_count (binary (compiled_of minimal_module)))
    by (vm_compute; reflexivity).
  split; [exact H |]. split; [exact H1 |].
  exact (symbol_values_inside_code default_options (parsed minimal_module) H 1 H1).
Defined.

(** Claim C7 fails on the minimal module: the first symbol has the value 0,
    below [code_offset] = 512. *)
Lemma symbol_offsets_counterexample :
  compile default_options (parsed minimal_module) = Ok (compiled_of minimal_module) /\
  symbol_count (binary (compiled_of minimal_module)) = 2 /\
  symbol_value (binary (compiled_of minimal_module)) 0 = 0 /\
  code_offset (binary (compiled_of minimal_module)) = 512 /\
  code_size (binary (compiled_of minimal_module)) = 9 /\
  ~ (code_offset (binary (compiled_of minimal_module)) <= symbol_value (binary (compiled_of minimal_module)) 0
     < code_offset (binary (compiled_of minimal_module)) + code_size (binary (compiled_of minimal_module))).
Proof.
  split; [vm_compute; reflexivity |].
  split; [vm_compute; reflexivity |].
  split; [vm_compute; reflexivity |].
  split; [vm_compute; reflexivity |].
  split; [vm_compute; reflexivity |].
  vm_compute. intros [H _]. apply H. reflexivity.
Qed.

Lemma no_module_call_anonymous : no_module_call anonymous_module.
Proof.
  intros n arguments Hin. vm_compute in Hin.
  repeat (destruct Hin as [<- | Hin]; [discriminate |]). destruct Hin.
Qed.

Lemma missing_structure_is_fatal_witness :
  no_module_call anonymous_module /\
  parse (Parsed anonymous_module) = Ok (parsed anonymous_module) /\
  exists message,
    compile default_options (parsed anonymous_module) = Throws (Error message) /\
    In message structural_messages.
Proof.
  assert (H : parse (Parsed anonymous_module) = Ok (parsed anonymous_module))
    by (vm_compute; reflexivity).
  split; [exact no_module_call_anonymous |]. split; [exact H |].
  apply (@missing_structure_is_fatal default_options (parsed anonymous_module)).
  right. left. exists anonymous_module. split; [exact no_module_call_anonymous | exact H].
Defined.

Lemma forallb_is_byte (data : list Z) :
  forallb (fun b => (0 <=? b) && (b <? 256)) data = true -> Forall is_byte data.
Proof.
  intros H. rewrite forallb_forall in H. apply Forall_forall.
  intros b Hb. specialize (H b Hb). apply andb_true_iff in H.
  destruct H as [H1 H2]. apply Z.leb_le in H1. apply Z.ltb_lt in H2.
  unfold is_byte. lia.
Qed.

Lemma inspector_rejects_witness :
  Forall is_byte corrupt_artifact /\
  firstn 4 corrupt_artifact <> [0x41; 0x4B; 0x4D; 0x32] /\
  info_exit_status "hello.akm" (Some corrupt_artifact) = 1 /\
  showModuleInfo "hello.akm" (Some corrupt_artifact) =
    Exits 1 "Invalid magic: expected 0x324D4B41 (AKM2), got 0x324D4B40".
Proof.
  assert (Hb : Forall is_byte corrupt_artifact)
    by (apply forallb_is_byte; vm_compute; reflexivity).
  assert (Hm : firstn 4 corrupt_artifact <> [0x41; 0x4B; 0x4D; 0x32])
    by (vm_compute; discriminate).
  destruct (@inspector_rejects "hello.akm" corrupt_artifact Hb (or_intror Hm)) as [He Hmsg].
  split; [exact Hb |]. split; [exact Hm |]. split; [exact He |].
  destruct Hmsg as [Hmsg _]; [vm_compute; discriminate |].
  rewrite Hmsg. vm_compute. reflexivity.
Defined.


Lemma command_blocks_reversed_witness :
  parse (Parsed shell_module) = Ok (parsed shell_module) /\
  map cmd_name (pr_commands (parsed shell_module)) = [JStr "one"; JStr "two"]%string /\
  exists before ret after,
    f_instructions shell_init =
      before
      ++ [ op_value OPCODES.PUSH_STR (JStr "two");
           op_value OPCODES.PUSH_STR (JStr "two");
           op_value OPCODES.PUSH_STR (JStr "");
           op_value OPCODES.PUSH_STR (JStr "Module");
           op_value OPCODES.PUSH (JNum (Int 0));
           op_call_api (Some "registerCommand") 5;
           op_only OPCODES.POP;
           op_value OPCODES.PUSH_STR (JStr "one");
           op_value OPCODES.PUSH_STR (JStr "one [x]");
           op_value OPCODES.PUSH_STR (JStr "first");
           op_value OPCODES.PUSH_STR (JStr "Test");
           op_value OPCODES.PUSH (JNum (Int 0));
           op_call_api (Some "registerCommand") 5;
           op_only OPCODES.POP ]%string
      ++ ret :: after /\
    Forall (fun i => is_ret i = false) before /\
    is_ret ret = true.
Proof.
  assert (H : parse (Parsed shell_module) = Ok (parsed shell_module))
    by (vm_compute; reflexivity).
  assert (Hin : In shell_init (ir_functions (pr_ir (parsed shell_module))))
    by (vm_compute; do 2 right; left; reflexivity).
  assert (Hname : f_name shell_init = "init"%string) by (vm_compute; reflexivity).
  destruct (@command_blocks_reversed shell_module (parsed shell_module) shell_init
              H Hin Hname) as (before & ret & after & Hins & Hbefore & Hret).
  split; [exact H |].
  split; [vm_compute; reflexivity |].
  exists before, ret, after.
  split; [| split; [exact Hbefore | exact Hret]].
  rewrite Hins. vm_compute. reflexivity.
Defined.

(** * Further properties of the code *)

(** ** The optimizer's passes *)

(** Without a numeric jump target the set of seen labels holds no index. *)
Lemma no_target_not_seen (instructions : list instr) (i : nat) :
  (forall instr, In instr instructions -> i_target instr = None \/ i_target instr = Some 0) ->
  existsb (same_value (JNum (Int (Z.of_nat i))))
    (flat_map AKMOptimizer.jumpTargets instructions) = false.
Proof.
  intros H. induction instructions as [| a l IH]; simpl; auto.
  rewrite existsb_app, IH by (intros; apply H; now right).
  rewrite orb_false_r.
  unfold AKMOptimizer.jumpTargets.
  rewrite existsb_app.
  assert (E1 : existsb (same_value (JNum (Int (Z.of_nat i))))
                 (if label_set (i_label a) then [opt_val (i_label a)] else []) = false).
  { destruct (i_label a) as [s |]; simpl; auto.
    destruct (negb (String.eqb s "")); reflexivity. }
  rewrite E1. simpl.
  destruct (H a (or_introl eq_refl)) as [-> | ->]; reflexivity.
Qed.

Lemma eliminate_unreachable (seen : list jsval) (l : list instr) (i : nat) :
  (forall j, existsb (same_value (JNum (Int (Z.of_nat j)))) seen = false) ->
  AKMOptimizer.eliminate seen i false l = [].
Proof.
  intros H. revert i. induction l as [| a l IH]; intros i; simpl; auto.
  rewrite H. apply IH.
Qed.

Lemma eliminate_prefix (seen : list jsval) (l : list instr) (i : nat) :
  (forall j, existsb (same_value (JNum (Int (Z.of_nat j)))) seen = false) ->
  AKMOptimizer.eliminate seen i true l =
    match find_index AKMOptimizer.ends_flow l with
    | Some k => firstn (S k) l
    | None => l
    end.
Proof.
  intros H. revert i. induction l as [| a l IH]; intros i; simpl; auto.
  rewrite H.
  destruct (AKMOptimizer.ends_flow a) eqn:E; simpl.
  - now rewrite eliminate_unreachable.
  - rewrite IH. destruct (find_index AKMOptimizer.ends_flow l); reflexivity.
Qed.

(** Extra X1.  When no instruction of a function has a jump target other than
    0, dead code elimination keeps the instructions up to and including the
    first RET, JMP or HALT and drops every instruction after it; without such
    an instruction it keeps them all. *)
Theorem dead_code_is_what_follows_the_first_exit (instructions : list instr) :
  (forall instr, In instr instructions -> i_target instr = None \/ i_target instr = Some 0) ->
  AKMOptimizer.reachableInstructions instructions =
    match find_index AKMOptimizer.ends_flow instructions with
    | Some k => firstn (S k) instructions
    | None => instructions
    end.
Proof.
  intros H. unfold AKMOptimizer.reachableInstructions.
  apply eliminate_prefix. intros j. now apply no_target_not_seen.
Qed.

(** ** The string table of the IR *)

Lemma same_value_eq (a b : jsval) : same_value a b = true -> a = b.
Proof.
  destruct a as [| | x | [x |] | x | | |], b as [| | y | [y |] | y | | |];
    simpl; try discriminate; auto.
  - intros H. apply Bool.eqb_prop in H. now subst.
  - intros H. apply Z.eqb_eq in H. now subst.
  - intros H. apply String.eqb_eq in H. now subst.
Qed.

Lemma same_value_refl (a : jsval) : is_primitive a = true -> same_value a a = true.
Proof.
  destruct a as [| | x | [x |] | x | | |]; simpl; try discriminate; auto.
  - intros _. destruct x; reflexivity.
  - intros _. apply Z.eqb_refl.
  - intros _. apply String.eqb_refl.
Qed.

Lemma same_value_sym (a b : jsval) : same_value a b = same_value b a.
Proof.
  destruct a as [| | x | [x |] | x | | |], b as [| | y | [y |] | y | | |];
    simpl; auto.
  - destruct x, y; reflexivity.
  - apply Z.eqb_sym.
  - apply String.eqb_sym.
Qed.

Lemma find_index_app {A : Type} (p : A -> bool) (l l' : list A) :
  find_index p (l ++ l') =
    match find_index p l with
    | Some i => Some i
    | None => match find_index p l' with
              | Some j => Some (List.length l + j)%nat
              | None => None
              end
    end.
Proof.
  induction l as [| a l IH]; simpl.
  - destruct (find_index p l'); reflexivity.
  - destruct (p a); auto. rewrite IH.
    destruct (find_index p l); auto. destruct (find_index p l'); auto.
Qed.

Lemma find_index_nth {A : Type} (p : A -> bool) (l : list A) (i : nat) :
  find_index p l = Some i -> exists x, nth_error l i = Some x /\ p x = true.
Proof.
  revert i. induction l as [| a l IH]; intros i; simpl; [discriminate |].
  destruct (p a) eqn:E.
  - intros H. injection H as <-. now exists a.
  - destruct (find_index p l) as [j |]; [| discriminate].
    intros H. injection H as <-. simpl. now apply IH.
Qed.

Lemma find_index_existsb {A : Type} (p : A -> bool) (l : list A) :
  find_index p l = None <-> existsb p l = false.
Proof.
  induction l as [| a l IH]; simpl; [tauto |].
  destruct (p a); simpl; [split; discriminate |].
  destruct (find_index p l); [| tauto].
  split; [discriminate |]. intros H. apply IH in H. discriminate.
Qed.

(** What [addString] returns. *)
Lemma addString_Ok (s : jsval) (strings strings' : list jsval) (idx : Z) :
  addString s strings = Ok (idx, strings') ->
  is_primitive s = true /\
  ((exists i, find_index (same_value s) strings = Some i /\ idx = Z.of_nat i
              /\ strings' = strings) \/
   (find_index (same_value s) strings = None /\ idx = Z.of_nat (List.length strings)
    /\ strings' = strings ++ [s])).
Proof.
  unfold addString. destruct (is_primitive s); [| discriminate].
  destruct (find_index (same_value s) strings) as [i |] eqn:E; intros H;
    injection H as <- <-; split; auto.
  left. now exists i.
Qed.

Lemma distinct_snoc (l : list jsval) (s : jsval) :
  distinct l = true -> existsb (same_value s) l = false -> distinct (l ++ [s]) = true.
Proof.
  induction l as [| x l IH]; simpl; auto.
  intros H Hs. apply andb_true_iff in H. destruct H as [H1 H2].
  apply orb_false_iff in Hs. destruct Hs as [Hs1 Hs2].
  rewrite existsb_app, IH by auto. simpl.
  rewrite (same_value_sym x s), Hs1.
  apply negb_true_iff in H1. rewrite H1. reflexivity.
Qed.

Lemma addString_table (s : jsval) (strings strings' : list jsval) (idx : Z) :
  addString s strings = Ok (idx, strings') ->
  (table_ok strings -> table_ok strings') /\
  (exists added, strings' = strings ++ added) /\
  In s strings'.
Proof.
  intros H. apply addString_Ok in H.
  destruct H as [Hp [(i & Hi & _ & ->) | (Hn & _ & ->)]].
  - split; [auto |]. split; [exists []; now rewrite app_nil_r |].
    apply find_index_nth in Hi. destruct Hi as (x & Hx & Hs).
    apply same_value_eq in Hs. subst x. eapply nth_error_In; eauto.
  - split; [| split; [now exists [s] | apply in_or_app; right; now left]].
    intros [Hd Hf]. split.
    + apply distinct_snoc; auto. now apply find_index_existsb.
    + rewrite forallb_app, Hf. simpl. now rewrite Hp.
Qed.

(** ** The lowering of the function bodies *)

Lemma lowers_refl (st : irState) : lowers st st.
Proof.
  split; [| split; [exists []; now rewrite app_nil_r | auto]].
  exists []. rewrite app_nil_r. split; auto. split; auto. intros i [].
Qed.

Lemma lowers_trans (a b c : irState) : lowers a b -> lowers b c -> lowers a c.
Proof.
  intros ((l1 & E1 & F1 & R1) & (s1 & S1) & T1) ((l2 & E2 & F2 & R2) & (s2 & S2) & T2).
  split; [| split; [exists (s1 ++ s2); now rewrite S2, S1, app_assoc | auto]].
  exists (l1 ++ l2). rewrite E2, E1, app_assoc. split; auto.
  split; [now rewrite forallb_app, F1, F2 |].
  intros i Hi Hop. apply in_app_or in Hi. destruct Hi as [Hi | Hi]; auto.
  rewrite S2. apply in_or_app. left. auto.
Qed.

Lemma lowers_push (st : irState) (i : instr) :
  lowered i = true -> i_op i <> OPCODES.PUSH_STR -> lowers st (push_instr i st).
Proof.
  intros Hl Hop.
  split; [| split; [exists []; simpl; now rewrite app_nil_r | auto]].
  exists [i]. simpl. rewrite Hl. split; auto. split; auto.
  intros j [<- | []] H. contradiction.
Qed.

Lemma lowers_foldM {A : Type} (f : irState -> A -> outcome irState) (l : list A) :
  (forall st a st', f st a = Ok st' -> lowers st st') ->
  forall st st', foldM f l st = Ok st' -> lowers st st'.
Proof.
  intros Hf. induction l as [| a l IH]; intros st st' H; simpl in H.
  - injection H as <-. apply lowers_refl.
  - bind_inv H as st1 H1. eapply lowers_trans; eauto.
Qed.

Lemma lowerArgument_lowers (st st' : irState) (arg : node) :
  lowerArgument st arg = Ok st' -> lowers st st'.
Proof.
  unfold lowerArgument. intros H. bind_inv H as value Hv.
  assert (D : forall st1, (match arg with
                           | Identifier name => Ok (push_instr (op_load_local (Some name)) st)
                           | _ => Ok (push_instr (op_value OPCODES.PUSH (JNum (Int 0))) st)
                           end) = Ok st1 -> lowers st st1).
  { intros st1 H1.
    destruct arg; injection H1 as <-; apply lowers_push; first [reflexivity | discriminate]. }
  destruct value; try (now apply D).
  - injection H as <-. apply lowers_push; [reflexivity | discriminate].
  - bind_inv H as p Hp. destruct p as [idx strings]. injection H as <-.
    destruct (addString_table _ _ Hp) as (T & X & I).
    split; [| split; auto].
    exists [op_value OPCODES.PUSH_STR (JStr s)]. simpl. split; auto. split; auto.
    intros j [<- | []] _. exact I.
Qed.

Lemma lowerDeclarator_lowers (st st' : irState) (decl : node) :
  lowerDeclarator st decl = Ok st' -> lowers st st'.
Proof.
  unfold lowerDeclarator. destruct decl; try discriminate.
  destruct init as [e |].
  - intros H. bind_inv H as value Hv. injection H as <-.
    split; [| split; [exists []; simpl; now rewrite app_nil_r | auto]].
    eexists [_]. simpl. split; [reflexivity |]. split; [reflexivity |].
    intros j [<- | []] Hj. discriminate.
  - intros H. injection H as <-.
    split; [| split; [exists []; simpl; now rewrite app_nil_r | auto]].
    exists []. simpl. rewrite app_nil_r. split; auto. split; auto. intros j [].
Qed.

Lemma visitIR_lowers (st st' : irState) (n : node) :
  visitIR st n = Ok st' -> lowers st st'.
Proof.
  unfold visitIR.
  destruct n as [| | | | | declarations | | | argument | | | callee arguments
                 | | | | | | | | | | | | |];
    try (intros H; injection H as <-; apply lowers_refl).
  - (* VariableDeclaration *)
    apply lowers_foldM. intros. eapply lowerDeclarator_lowers; eauto.
  - (* ReturnStatement *)
    intros H. bind_inv H as st1 H1. injection H as <-.
    apply lowers_trans with st1; [| apply lowers_push; [reflexivity | discriminate]].
    destruct argument as [e |].
    + bind_inv H1 as value Hv. injection H1 as <-.
      apply lowers_push; [reflexivity | discriminate].
    + injection H1 as <-. apply lowers_refl.
  - (* CallExpression *)
    destruct callee as [| | | | | | | | | | | | object property | name
                        | | | | | | | | | | |];
      try (intros H; injection H as <-; apply lowers_refl).
    + destruct (name_is object "AKM").
      * intros H. bind_inv H as st1 H1. injection H as <-.
        apply lowers_trans with st1; [| apply lowers_push; [reflexivity | discriminate]].
        revert H1. apply lowers_foldM. intros. eapply lowerArgument_lowers; eauto.
      * intros H. injection H as <-. apply lowers_refl.
    + intros H. injection H as <-. apply lowers_push; [reflexivity | discriminate].
Qed.

Lemma last_app_one {A : Type} (l : list A) (x d : A) : last (l ++ [x]) d = x.
Proof.
  induction l as [| a l IH]; simpl; auto.
  destruct (l ++ [x]) eqn:E; [destruct l; discriminate | exact IH].
Qed.

(** [ensure_ret] leaves a list that ends with [RET], and adds at most that
    [RET]. *)
Lemma ensure_ret_ends (instructions : list instr) :
  exists body r,
    ensure_ret instructions = body ++ [r] /\ is_ret r = true /\
    (ensure_ret instructions = instructions \/
     ensure_ret instructions = instructions ++ [op_only OPCODES.RET]).
Proof.
  unfold ensure_ret.
  destruct instructions as [| a l] using rev_ind.
  - exists [], (op_only OPCODES.RET). simpl. auto.
  - rewrite map_app. simpl map. rewrite last_app_one.
    destruct (is_ret a) eqn:E.
    + exists l, a. auto.
    + exists (l ++ [a]), (op_only OPCODES.RET). auto.
Qed.

(** What [generateFunctionIR] returns. *)
Lemma generateFunctionIR_lowers (n : node) (strings : list jsval) (st : irState) :
  generateFunctionIR n strings = Ok st ->
  forallb lowered (s_instructions st) = true /\
  registered (s_instructions st) (s_strings st) /\
  (exists body r, s_instructions st = body ++ [r] /\ is_ret r = true) /\
  (exists added, s_strings st = strings ++ added) /\
  (table_ok strings -> table_ok (s_strings st)).
Proof.
  unfold generateFunctionIR. intros H. bind_inv H as st0 H0. injection H as <-.
  cbn [s_instructions s_strings].
  assert (L : lowers {| s_instructions := []; s_locals := []; s_strings := strings |} st0).
  { revert H0. apply lowers_foldM. intros. eapply visitIR_lowers; eauto. }
  destruct L as ((l & E & F & R) & S & T). cbn [s_instructions s_strings] in *.
  simpl in E. subst l.
  destruct (ensure_ret_ends (s_instructions st0)) as (body & r & Hb & Hr & Hor).
  split; [| split; [| split; [now exists body, r | split; auto]]].
  - destruct Hor as [-> | ->]; auto. rewrite forallb_app, F. reflexivity.
  - intros i Hi Hop. destruct Hor as [Hor | Hor]; rewrite Hor in Hi; auto.
    apply in_app_or in Hi. destruct Hi as [Hi | [<- | []]]; auto. discriminate.
Qed.

(** ** The IR of a module *)

Lemma registered_more (l : list instr) (strings added : list jsval) :
  registered l strings -> registered l (strings ++ added).
Proof. intros H i Hi Hop. apply in_or_app. left. auto. Qed.

Lemma command_registered_more (strings added : list jsval) (cmd : command) :
  command_registered strings cmd -> command_registered (strings ++ added) cmd.
Proof.
  intros (H1 & H2 & H3 & H4). repeat split; apply in_or_app; left; auto.
Qed.

Lemma lowerCommand_Ok (strings strings' : list jsval) (cmds cmds' : list irCommand)
  (cmd : command) :
  lowerCommand (strings, cmds) cmd = Ok (strings', cmds') ->
  (exists added, strings' = strings ++ added) /\
  (table_ok strings -> table_ok strings') /\
  command_registered strings' cmd /\
  List.length cmds' = S (List.length cmds).
Proof.
  unfold lowerCommand. intros H.
  bind_inv H as p1 H1. destruct p1 as [i1 s1].
  bind_inv H as p2 H2. destruct p2 as [i2 s2].
  bind_inv H as p3 H3. destruct p3 as [i3 s3].
  bind_inv H as p4 H4. destruct p4 as [i4 s4].
  injection H as <- <-.
  destruct (addString_table _ _ H1) as (T1 & (a1 & ->) & I1).
  destruct (addString_table _ _ H2) as (T2 & (a2 & ->) & I2).
  destruct (addString_table _ _ H3) as (T3 & (a3 & ->) & I3).
  destruct (addString_table _ _ H4) as (T4 & (a4 & ->) & I4).
  split; [exists (a1 ++ a2 ++ a3 ++ a4); now rewrite <- !app_assoc |].
  split; [auto |]. split.
  - split; [do 3 (apply in_or_app; left); exact I1 |].
    split; [do 2 (apply in_or_app; left); exact I2 |].
    split; [apply in_or_app; left; exact I3 | exact I4].
  - rewrite length_app. simpl. lia.
Qed.

Lemma lowerCommands_Ok (commands : list command) (strings strings' : list jsval)
  (cmds cmds' : list irCommand) :
  foldM lowerCommand commands (strings, cmds) = Ok (strings', cmds') ->
  (exists added, strings' = strings ++ added) /\
  (table_ok strings -> table_ok strings') /\
  Forall (command_registered strings') commands /\
  List.length cmds' = (List.length cmds + List.length commands)%nat.
Proof.
  revert strings cmds. induction commands as [| cmd commands IH]; intros strings cmds H;
    simpl in H.
  - injection H as <- <-. split; [exists []; now rewrite app_nil_r |].
    split; [auto |]. split; [constructor | simpl; lia].
  - bind_inv H as p Hp. destruct p as [s1 c1].
    destruct (lowerCommand_Ok _ _ _ Hp) as ((a1 & ->) & T1 & R1 & L1).
    destruct (IH _ _ H) as ((a2 & ->) & T2 & R2 & L2).
    split; [exists (a1 ++ a2); now rewrite app_assoc |].
    split; [auto |]. split.
    + constructor; auto. now apply command_registered_more.
    + rewrite L2, L1. simpl. lia.
Qed.

Lemma generated_blocks (commands : list command) :
  forallb generated (flat_map regCalls commands) = true.
Proof. induction commands as [| cmd commands IH]; simpl; auto. Qed.

Lemma lowered_generated (l : list instr) :
  forallb lowered l = true -> forallb generated l = true.
Proof.
  induction l as [| i l IH]; simpl; auto.
  intros H. apply andb_true_iff in H. destruct H as [H1 H2].
  unfold generated at 1. rewrite H1. simpl. auto.
Qed.

Lemma lowered_not_pop (i : instr) : lowered i = true -> (i_op i =? OPCODES.POP) = false.
Proof.
  unfold lowered. intros H. apply andb_true_iff in H. destruct H as [H _].
  simpl in H.
  repeat (apply orb_true_iff in H; destruct H as [H | H];
          [apply Z.eqb_eq in H; rewrite H; reflexivity |]).
  discriminate.
Qed.

Lemma lowered_no_push_pop (l : list instr) :
  forallb lowered l = true -> no_push_pop l = true.
Proof.
  induction l as [| i l IH]; simpl; auto.
  intros H. apply andb_true_iff in H. destruct H as [H1 H2].
  rewrite IH by auto. rewrite andb_true_r.
  destruct l as [| j l]; simpl; [now rewrite andb_false_r |].
  simpl in H2. apply andb_true_iff in H2. destruct H2 as [H2 _].
  rewrite (lowered_not_pop _ H2). now rewrite andb_false_r.
Qed.

Lemma no_push_pop_app (l1 l2 : list instr) :
  no_push_pop l1 = true -> no_push_pop l2 = true ->
  AKMOptimizer.next_is l2 OPCODES.POP = false ->
  no_push_pop (l1 ++ l2) = true.
Proof.
  intros H1 H2 Hn. induction l1 as [| i l1 IH]; simpl; auto.
  simpl in H1. apply andb_true_iff in H1. destruct H1 as [H1 H1'].
  rewrite IH by auto. rewrite andb_true_r.
  destruct l1 as [| j l1]; simpl in *; auto.
  rewrite Hn. now rewrite andb_false_r.
Qed.

Lemma no_push_pop_blocks (commands : list command) (rest : list instr) :
  no_push_pop rest = true -> AKMOptimizer.next_is rest OPCODES.POP = false ->
  no_push_pop (flat_map regCalls commands ++ rest) = true /\
  AKMOptimizer.next_is (flat_map regCalls commands ++ rest) OPCODES.POP = false.
Proof.
  intros H Hn. induction commands as [| cmd commands IH]; simpl; auto.
  destruct IH as [IH _]. rewrite IH. auto.
Qed.

Lemma forallb_firstn {A : Type} (p : A -> bool) (n : nat) (l : list A) :
  forallb p l = true -> forallb p (firstn n l) = true.
Proof.
  revert n. induction l as [| a l IH]; intros [| n]; simpl; auto.
  intros H. apply andb_true_iff in H. destruct H as [-> H]. simpl. auto.
Qed.

Lemma forallb_skipn {A : Type} (p : A -> bool) (n : nat) (l : list A) :
  forallb p l = true -> forallb p (skipn n l) = true.
Proof.
  revert n. induction l as [| a l IH]; intros [| n]; simpl; auto.
  intros H. apply andb_true_iff in H. destruct H as [_ H]. auto.
Qed.

Lemma find_index_lt {A : Type} (p : A -> bool) (l : list A) (i : nat) :
  find_index p l = Some i -> (i < List.length l)%nat.
Proof.
  intros H. apply find_index_nth in H. destruct H as (x & Hx & _).
  apply nth_error_Some. congruence.
Qed.

(** The body of [init] with the registration blocks: the instructions the
    lowering wrote, and the blocks before the first [RET]. *)
Lemma injectCommands_ok (commands : list command) (instructions : list instr)
  (strings : list jsval) :
  forallb lowered instructions = true ->
  (exists body r, instructions = body ++ [r] /\ is_ret r = true) ->
  registered instructions strings ->
  Forall (command_registered strings) commands ->
  forallb generated (injectCommands commands instructions) = true /\
  no_push_pop (injectCommands commands instructions) = true /\
  (exists body r, injectCommands commands instructions = body ++ [r] /\ is_ret r = true) /\
  registered (injectCommands commands instructions) strings.
Proof.
  intros Hl (body & r & Hb & Hr) Hreg Hcmd.
  pose proof (injectCommands_reverse commands instructions) as E. cbv zeta in E.
  rewrite E. clear E.
  assert (Hk : exists k, find_index is_ret instructions = Some k /\ (k <= List.length body)%nat).
  { rewrite Hb, find_index_app.
    destruct (find_index is_ret body) as [i |] eqn:Ei.
    - exists i. split; auto. apply find_index_lt in Ei. lia.
    - simpl. rewrite Hr. exists (List.length body + 0)%nat. split; auto. lia. }
  destruct Hk as (k & -> & Hk).
  assert (Hskip : skipn k instructions = skipn k body ++ [r]).
  { rewrite Hb, skipn_app. replace (k - List.length body)%nat with 0%nat by lia.
    reflexivity. }
  assert (Hnext : AKMOptimizer.next_is (skipn k instructions) OPCODES.POP = false).
  { pose proof (forallb_skipn lowered k instructions Hl) as F.
    destruct (skipn k instructions) as [| j rest]; simpl; auto.
    simpl in F. apply andb_true_iff in F. destruct F as [F _].
    now apply lowered_not_pop. }
  split; [| split; [| split]].
  - rewrite !forallb_app, generated_blocks.
    rewrite (lowered_generated _ (forallb_firstn lowered k instructions Hl)).
    rewrite (lowered_generated _ (forallb_skipn lowered k instructions Hl)).
    reflexivity.
  - destruct (@no_push_pop_blocks (rev commands) (skipn k instructions)) as [N1 N2]; auto.
    { apply lowered_no_push_pop. now apply forallb_skipn. }
    apply no_push_pop_app; auto.
    apply lowered_no_push_pop. now apply forallb_firstn.
  - exists (firstn k instructions ++ flat_map regCalls (rev commands) ++ skipn k body), r.
    rewrite Hskip, <- !app_assoc. auto.
  - intros i Hi Hop.
    apply in_app_or in Hi. destruct Hi as [Hi | Hi].
    { apply Hreg; auto. rewrite <- (firstn_skipn k instructions).
      apply in_or_app. now left. }
    apply in_app_or in Hi. destruct Hi as [Hi | Hi].
    2:{ apply Hreg; auto. rewrite <- (firstn_skipn k instructions).
        apply in_or_app. now right. }
    apply in_flat_map in Hi. destruct Hi as (cmd & Hc & Hi).
    apply in_rev in Hc.
    rewrite Forall_forall in Hcmd. destruct (Hcmd _ Hc) as (C1 & C2 & C3 & C4).
    simpl in Hi.
    repeat (destruct Hi as [<- | Hi]; [try discriminate; assumption |]).
    destruct Hi.
Qed.

Lemma function_ok_more (f : irFunc) (strings added : list jsval) :
  function_ok f strings -> function_ok f (strings ++ added).
Proof.
  intros (H1 & H2 & H3 & H4). repeat split; auto. now apply registered_more.
Qed.

Lemma lowerFunction_Ok (commands : list command) (strings strings' : list jsval)
  (funcs funcs' : list irFunc) (name : string) (func : funcinfo) :
  lowerFunction commands (strings, funcs) (name, func) = Ok (strings', funcs') ->
  Forall (command_registered strings) commands ->
  exists f,
    funcs' = funcs ++ [f] /\ f_name f = name /\ function_ok f strings' /\
    (exists added, strings' = strings ++ added) /\
    (table_ok strings -> table_ok strings').
Proof.
  unfold lowerFunction. intros H Hcmd.
  bind_inv H as p Hp. destruct p as [nameIdx strings1].
  bind_inv H as st Hst. injection H as <- <-.
  destruct (addString_table _ _ Hp) as (T1 & (a1 & ->) & _).
  destruct (generateFunctionIR_lowers _ _ Hst) as (F & R & E & (a2 & S) & T2).
  eexists. split; [reflexivity |]. cbn [f_name]. split; [reflexivity |].
  split; [| split; [exists (a1 ++ a2); now rewrite S, app_assoc | auto]].
  unfold function_ok. cbn [f_instructions].
  destruct (String.eqb name "init" && (0 <? Z.of_nat (List.length commands))).
  - apply injectCommands_ok; auto.
    rewrite S. clear - Hcmd. induction Hcmd; constructor; auto.
    rewrite <- app_assoc. now apply command_registered_more.
  - split; [now apply lowered_generated |].
    split; [now apply lowered_no_push_pop | auto].
Qed.

Lemma lowerFunctions_Ok (commands : list command)
  (functions : list (string * funcinfo)) (strings strings' : list jsval)
  (funcs funcs' : list irFunc) :
  foldM (lowerFunction commands) functions (strings, funcs) = Ok (strings', funcs') ->
  Forall (command_registered strings) commands ->
  exists new,
    funcs' = funcs ++ new /\ map f_name new = map fst functions /\
    Forall (fun f => function_ok f strings') new /\
    (exists added, strings' = strings ++ added) /\
    (table_ok strings -> table_ok strings').
Proof.
  revert strings funcs.
  induction functions as [| [name func] functions IH]; intros strings funcs H Hcmd;
    simpl in H.
  - injection H as <- <-. exists []. rewrite app_nil_r.
    split; auto. split; auto. split; [constructor |].
    split; [exists []; now rewrite app_nil_r | auto].
  - bind_inv H as p Hp. destruct p as [s1 f1].
    destruct (@lowerFunction_Ok commands strings s1 funcs f1 name func Hp Hcmd)
      as (f & -> & Hn & Hok & (a1 & ->) & T1).
    destruct (IH _ _ H) as (new & -> & Hm & Hall & (a2 & ->) & T2).
    { clear - Hcmd. induction Hcmd; constructor; auto.
      now apply command_registered_more. }
    exists (f :: new). rewrite <- app_assoc. split; [reflexivity |].
    split; [simpl; now rewrite Hn, Hm |].
    split; [constructor; auto; now apply function_ok_more |].
    split; [exists (a1 ++ a2); now rewrite app_assoc | auto].
Qed.

Lemma lowerApiCalls_Ok (apiCalls : list apiCall) (strings strings' : list jsval)
  (calls calls' : list irApiCall) :
  foldM lowerApiCall apiCalls (strings, calls) = Ok (strings', calls') ->
  (exists added, strings' = strings ++ added) /\
  (table_ok strings -> table_ok strings').
Proof.
  revert strings calls. induction apiCalls as [| call apiCalls IH]; intros strings calls H;
    simpl in H.
  - injection H as <- <-. split; [exists []; now rewrite app_nil_r | auto].
  - bind_inv H as p Hp. destruct p as [s1 c1].
    unfold lowerApiCall in Hp. bind_inv Hp as q Hq. destruct q as [idx s2].
    injection Hp as <- <-.
    destruct (addString_table _ _ Hq) as (T1 & (a1 & ->) & _).
    destruct (IH _ _ H) as ((a2 & ->) & T2).
    split; [exists (a1 ++ a2); now rewrite app_assoc | auto].
Qed.

(** The IR [generateIR] returns: one function for each extracted function,
    in the same order, each as [function_ok] says, over a table without
    duplicates. *)
Lemma generateIR_Ok (functions : list (string * funcinfo)) (commands : list command)
  (apiCalls : list apiCall) (ir : IR) :
  generateIR functions commands apiCalls = Ok ir ->
  table_ok (ir_strings ir) /\
  map f_name (ir_functions ir) = map fst functions /\
  Forall (fun f => function_ok f (ir_strings ir)) (ir_functions ir) /\
  List.length (ir_commands ir) = List.length commands /\
  Forall (command_registered (ir_strings ir)) commands.
Proof.
  unfold generateIR. intros H.
  bind_inv H as p1 H1. destruct p1 as [s1 ircommands].
  bind_inv H as p2 H2. destruct p2 as [s2 irfunctions].
  bind_inv H as p3 H3. destruct p3 as [s3 ircalls].
  injection H as <-. cbn [ir_strings ir_functions ir_commands].
  destruct (@lowerCommands_Ok commands [] s1 [] ircommands H1) as (_ & T1 & R1 & L1).
  destruct (@lowerFunctions_Ok commands functions s1 s2 [] irfunctions H2 R1)
    as (new & E & Hm & Hall & (a2 & ->) & T2).
  destruct (@lowerApiCalls_Ok apiCalls (s1 ++ a2) s3 [] ircalls H3) as ((a3 & ->) & T3).
  simpl in E. subst new.
  split; [apply T3, T2, T1; split; reflexivity |].
  split; [exact Hm |]. split; [| split; [exact L1 |]].
  - clear - Hall. induction Hall; constructor; auto. now apply function_ok_more.
  - clear - R1. induction R1; constructor; auto.
    now do 2 apply command_registered_more.
Qed.

Lemma parse_Ok (ast : node) (pr : parseResult) :
  parse (Parsed ast) = Ok pr ->
  extractFunctions ast = Ok (pr_functions pr) /\
  extractCommands ast = Ok (pr_commands pr) /\
  pr_apiCalls pr = extractAPICalls ast /\
  generateIR (pr_functions pr) (pr_commands pr) (pr_apiCalls pr) = Ok (pr_ir pr) /\
  pr_errors pr = [] /\
  exists moduleConfig config,
    extractModuleConfig ast = Ok moduleConfig /\
    mergeCapabilities moduleConfig
      (computeRequiredCapabilities (pr_apiCalls pr) (pr_commands pr)) = Ok config /\
    pr_moduleConfig pr = Some config.
Proof.
  unfold parse. intros H.
  bind_inv H as moduleConfig Hm. bind_inv H as functions Hf.
  bind_inv H as commands Hc. cbv zeta in H.
  bind_inv H as config Hg. bind_inv H as ir Hi.
  injection H as <-. simpl.
  repeat split; auto. now exists moduleConfig, config.
Qed.

(** ** The optimizer on the IR of the parser *)

(** The opcode of a generated instruction. *)
Lemma generated_op (i : instr) :
  generated i = true ->
  In (i_op i) [ OPCODES.PUSH; OPCODES.PUSH_STR; OPCODES.LOAD_LOCAL; OPCODES.STORE_LOCAL;
                OPCODES.CALL_API; OPCODES.CALL; OPCODES.RET; OPCODES.POP ] /\
  i_label i = None /\ i_target i = None /\ i_isEntry i = false.
Proof.
  unfold generated, lowered. intros H.
  assert (F : match i_label i, i_target i with
              | None, None => negb (i_isEntry i)
              | _, _ => false
              end = true).
  { apply orb_true_iff in H. destruct H as [H | H]; apply andb_true_iff in H; tauto. }
  assert (O : existsb (Z.eqb (i_op i))
                [ OPCODES.PUSH; OPCODES.PUSH_STR; OPCODES.LOAD_LOCAL; OPCODES.STORE_LOCAL;
                  OPCODES.CALL_API; OPCODES.CALL; OPCODES.RET; OPCODES.POP ] = true).
  { apply orb_true_iff in H. destruct H as [H | H]; apply andb_true_iff in H;
      destruct H as [H _]; simpl in *.
    - repeat (apply orb_true_iff in H; destruct H as [H | H]; [rewrite H, ?orb_true_r; auto |]).
      discriminate.
    - rewrite H, !orb_true_r. reflexivity. }
  split.
  - apply existsb_exists in O. destruct O as (x & Hx & E).
    apply Z.eqb_eq in E. now rewrite E.
  - destruct (i_label i), (i_target i); try discriminate.
    destruct (i_isEntry i); [discriminate | auto].
Qed.

Ltac each_op H :=
  simpl in H;
  repeat (destruct H as [H | H]; [rewrite <- H; try reflexivity |]);
  try (destruct H).

Lemma generated_not_folded (i : instr) (a b : number) :
  generated i = true -> AKMOptimizer.foldedValue (i_op i) a b = None.
Proof.
  intros H. apply generated_op in H. destruct H as [H _].
  unfold AKMOptimizer.foldedValue. each_op H.
Qed.

Lemma foldInstructions_generated (l : list instr) :
  forallb generated l = true -> AKMOptimizer.foldInstructions l = Ok l.
Proof.
  induction l as [| i rest IH]; simpl; auto.
  intros H. apply andb_true_iff in H. destruct H as [Hi Hrest].
  specialize (IH Hrest).
  assert (K : (folded <- AKMOptimizer.foldInstructions rest ;; Ok (i :: folded)) = Ok (i :: rest))
    by (rewrite IH; reflexivity).
  destruct rest as [| next1 [| next2 rest']]; try exact K.
  destruct ((i_op i =? OPCODES.PUSH) && (i_op next1 =? OPCODES.PUSH)); try exact K.
  destruct (i_value i); try exact K. destruct (i_value next1); try exact K.
  rewrite generated_not_folded; [exact K |].
  simpl in Hrest. apply andb_true_iff in Hrest. destruct Hrest as [_ Hrest].
  apply andb_true_iff in Hrest. tauto.
Qed.

Lemma peephole_generated (l : list instr) :
  forallb generated l = true -> no_push_pop l = true -> AKMOptimizer.peephole l = l.
Proof.
  induction l as [| i rest IH]; simpl; auto.
  intros H N. apply andb_true_iff in H. destruct H as [Hi Hrest].
  apply andb_true_iff in N. destruct N as [Ni Nrest].
  rewrite (IH Hrest Nrest).
  apply negb_true_iff in Ni. rewrite Ni.
  assert (Hnext : AKMOptimizer.next_is rest OPCODES.ADD = false /\
                  AKMOptimizer.next_is rest OPCODES.MUL = false).
  { destruct rest as [| j rest]; simpl; auto.
    simpl in Hrest. apply andb_true_iff in Hrest. destruct Hrest as [Hj _].
    apply generated_op in Hj. destruct Hj as [Hj _]. split; each_op Hj. }
  destruct Hnext as [-> ->]. rewrite !andb_false_r.
  apply generated_op in Hi. destruct Hi as [Hi _]. each_op Hi.
Qed.

Lemma ends_flow_generated (l : list instr) :
  forallb generated l = true ->
  find_index AKMOptimizer.ends_flow l = find_index is_ret l.
Proof.
  induction l as [| i l IH]; simpl; auto.
  intros H. apply andb_true_iff in H. destruct H as [Hi Hl].
  rewrite (IH Hl).
  assert (E : AKMOptimizer.ends_flow i = is_ret i).
  { apply generated_op in Hi. destruct Hi as [Hi _].
    unfold AKMOptimizer.ends_flow, is_ret. each_op Hi. }
  now rewrite E.
Qed.

Lemma no_push_pop_firstn (n : nat) (l : list instr) :
  no_push_pop l = true -> no_push_pop (firstn n l) = true.
Proof.
  revert n. induction l as [| i l IH]; intros [| n]; simpl; auto.
  intros H. apply andb_true_iff in H. destruct H as [H1 H2].
  rewrite (IH n H2), andb_true_r.
  apply negb_true_iff in H1. apply negb_true_iff.
  destruct (i_op i =? OPCODES.PUSH); auto. simpl in *.
  destruct l as [| j l]; destruct n; simpl in *; auto.
Qed.

Lemma distinct_middle (acc l : list jsval) (s : jsval) :
  distinct (acc ++ s :: l) = true -> existsb (same_value s) acc = false.
Proof.
  induction acc as [| x acc IH]; intros H; [reflexivity |].
  change (negb (existsb (same_value x) (acc ++ s :: l)) && distinct (acc ++ s :: l) = true)
    in H.
  apply andb_true_iff in H. destruct H as [H1 H2].
  apply negb_true_iff in H1. rewrite existsb_app in H1.
  apply orb_false_iff in H1. destruct H1 as [_ H1].
  cbn [existsb] in H1. apply orb_false_iff in H1. destruct H1 as [H1 _].
  cbn [existsb]. rewrite (IH H2), orb_false_r.
  now rewrite same_value_sym.
Qed.

Lemma unique_distinct (l acc : list jsval) :
  distinct (acc ++ l) = true -> unique l acc = acc ++ l.
Proof.
  revert acc. induction l as [| s l IH]; intros acc H; cbn [unique].
  - now rewrite app_nil_r.
  - rewrite (distinct_middle _ _ _ H).
    rewrite IH; rewrite <- app_assoc; auto.
Qed.

(** What the passes do to a function the parser generated. *)
Lemma passes_on_generated (f : irFunc) (strings : list jsval) :
  function_ok f strings ->
  let cut := AKMOptimizer.reachableInstructions (f_instructions f) in
  AKMOptimizer.with_instructions f cut = until_first_ret f /\
  AKMOptimizer.foldInstructions cut = Ok cut /\
  AKMOptimizer.peephole cut = cut.
Proof.
  intros (G & N & _ & _) cut.
  assert (C : cut = match find_index is_ret (f_instructions f) with
                    | Some k => firstn (S k) (f_instructions f)
                    | None => f_instructions f
                    end).
  { unfold cut, AKMOptimizer.reachableInstructions.
    rewrite eliminate_prefix; [now rewrite ends_flow_generated |].
    intros j. apply no_target_not_seen. intros i Hi. left.
    rewrite forallb_forall in G. apply G in Hi. apply generated_op in Hi. tauto. }
  assert (Gc : forallb generated cut = true).
  { rewrite C. destruct (find_index is_ret (f_instructions f)); auto.
    now apply forallb_firstn. }
  assert (Nc : no_push_pop cut = true).
  { rewrite C. destruct (find_index is_ret (f_instructions f)); auto.
    now apply no_push_pop_firstn. }
  split; [unfold until_first_ret; now rewrite C |].
  split; [now apply foldInstructions_generated | now apply peephole_generated].
Qed.

Lemma with_instructions_twice (f : irFunc) (a b : list instr) :
  AKMOptimizer.with_instructions (AKMOptimizer.with_instructions f a) b =
    AKMOptimizer.with_instructions f b.
Proof. reflexivity. Qed.

Lemma passes_on_functions (functions : list irFunc) (strings : list jsval) :
  Forall (fun f => function_ok f strings) functions ->
  mapM (fun func =>
          instructions <- AKMOptimizer.foldInstructions (f_instructions func) ;;
          Ok (AKMOptimizer.with_instructions func instructions))
    (map (fun func =>
            AKMOptimizer.with_instructions func
              (AKMOptimizer.reachableInstructions (f_instructions func)))
       functions) = Ok (map until_first_ret functions) /\
  map (fun func =>
         AKMOptimizer.with_instructions func (AKMOptimizer.peephole (f_instructions func)))
    (map until_first_ret functions) = map until_first_ret functions.
Proof.
  induction 1 as [| f functions Hf _ [IH1 IH2]]; [split; reflexivity |].
  destruct (passes_on_generated Hf) as (C & F & P). cbv zeta in *.
  split.
  - cbn [map mapM]. cbn [AKMOptimizer.with_instructions f_instructions].
    rewrite F. cbn [bind]. rewrite IH1. cbn [bind].
    rewrite with_instructions_twice, C. reflexivity.
  - cbn [map]. rewrite IH2. f_equal.
    rewrite <- C. cbn [AKMOptimizer.with_instructions f_instructions].
    now rewrite P.
Qed.

(** Extra X3.  Applied to the IR that the parser produces, optimize succeeds
    and only cuts every function after its first RET: constant folding, the
    peephole pass and string deduplication change nothing there, and strings,
    commands and API calls are returned as they were. *)
Theorem optimizer_cuts_after_first_ret (ast : node) (pr : parseResult) :
  parse (Parsed ast) = Ok pr ->
  AKMOptimizer.optimize (pr_ir pr) =
    Ok (AKMOptimizer.with_functions (pr_ir pr)
          (map until_first_ret (ir_functions (pr_ir pr)))).
Proof.
  intros H. apply parse_Ok in H. destruct H as (_ & _ & _ & G & _).
  apply generateIR_Ok in G. destruct G as ([Td Tp] & _ & F & _ & _).
  destruct (passes_on_functions F) as [P1 P2].
  unfold AKMOptimizer.optimize, AKMOptimizer.constantFolding,
    AKMOptimizer.deadCodeElimination, AKMOptimizer.peepholeOptimization,
    AKMOptimizer.stringDeduplication, AKMOptimizer.with_functions.
  cbn [ir_functions ir_strings ir_commands ir_apiCalls].
  rewrite P1. cbn [bind ir_functions ir_strings ir_commands ir_apiCalls].
  rewrite P2, Tp.
  rewrite (unique_distinct (ir_strings (pr_ir pr)) []) by exact Td.
  reflexivity.
Qed.

(** ** The passes one by one *)

Lemma eliminate_sub (seen : list jsval) (l : list instr) (i : nat) (r : bool) :
  (List.length (AKMOptimizer.eliminate seen i r l) <= List.length l)%nat /\
  forall x, In x (AKMOptimizer.eliminate seen i r l) -> In x l.
Proof.
  revert i r. induction l as [| a l IH]; intros i r; simpl; [split; [lia | tauto] |].
  destruct (if existsb (same_value (JNum (Int (Z.of_nat i)))) seen then true else r).
  - destruct (IH (S i) (negb (AKMOptimizer.ends_flow a))) as [L I].
    split; [simpl; lia |]. intros x [<- | Hx]; auto.
  - destruct (IH (S i) false) as [L I]. split; [lia | auto].
Qed.

Lemma jumpTargets_seen (instructions : list instr) (jump : instr) (t : Z) :
  In jump instructions -> i_target jump = Some t -> t <> 0 ->
  existsb (same_value (JNum (Int t))) (flat_map AKMOptimizer.jumpTargets instructions) = true.
Proof.
  intros Hin Ht H0. apply existsb_exists. exists (JNum (Int t)).
  split; [| simpl; apply Z.eqb_refl].
  apply in_flat_map. exists jump. split; auto.
  unfold AKMOptimizer.jumpTargets. rewrite Ht.
  apply in_or_app. right.
  destruct (Z.eqb_spec t 0); [contradiction | now left].
Qed.

(** Extra X2.  Dead code elimination never drops the instruction at an index t
    other than 0 that some instruction of the function names as its jump
    target: it is kept even when it follows a RET, JMP or HALT. *)
Theorem jump_targets_are_kept (instructions : list instr) (jump x : instr) (t : nat) :
  In jump instructions -> i_target jump = Some (Z.of_nat t) -> t <> 0%nat ->
  nth_error instructions t = Some x ->
  In x (AKMOptimizer.reachableInstructions instructions).
Proof.
  intros Hin Ht H0 Hx.
  assert (S : existsb (same_value (JNum (Int (Z.of_nat t))))
                (flat_map AKMOptimizer.jumpTargets instructions) = true)
    by (eapply jumpTargets_seen; eauto; lia).
  unfold AKMOptimizer.reachableInstructions.
  set (seen := flat_map AKMOptimizer.jumpTargets instructions) in *.
  clearbody seen. clear Hin Ht H0 jump.
  assert (G : forall l i r j, nth_error l j = Some x -> (i + j)%nat = t ->
                              In x (AKMOptimizer.eliminate seen i r l)).
  { induction l as [| a l IH]; intros i r j Hj E; [destruct j; discriminate |].
    cbn [AKMOptimizer.eliminate].
    destruct j as [| j].
    - injection Hj as ->. rewrite Nat.add_0_r in E. subst i. rewrite S. now left.
    - simpl in Hj.
      destruct (if existsb (same_value (JNum (Int (Z.of_nat i)))) seen then true else r);
        [right |]; apply (IH (Datatypes.S i) _ j); auto; lia. }
  apply (G instructions 0%nat true t); auto.
Qed.

(** ** What the passes keep *)

Lemma foldInstructions_length (instructions folded : list instr) :
  AKMOptimizer.foldInstructions instructions = Ok folded ->
  (List.length folded <= List.length instructions)%nat.
Proof.
  assert (Hle : (List.length instructions <= List.length instructions)%nat) by lia.
  revert Hle. generalize (List.length instructions) at 2. intros n.
  revert instructions folded.
  induction n as [| n IH]; intros [| a rest] folded Hle H; simpl in Hle; try lia.
  - injection H as <-. simpl. lia.
  - injection H as <-. simpl. lia.
  - cbn [AKMOptimizer.foldInstructions] in H.
    assert (K : (rest' <- AKMOptimizer.foldInstructions rest ;; Ok (a :: rest')) = Ok folded ->
                (List.length folded <= S (List.length rest))%nat).
    { intros K. bind_inv K as r Hr. injection K as <-.
      apply IH in Hr; [simpl; lia | lia]. }
    destruct rest as [| next1 [| next2 rest']]; [now apply K | now apply K |].
    destruct ((i_op a =? OPCODES.PUSH) && (i_op next1 =? OPCODES.PUSH)); [| now apply K].
    destruct (i_value a); try (now apply K).
    destruct (i_value next1); try (now apply K).
    destruct (AKMOptimizer.foldedValue (i_op next2) n0 n1) as [result |]; [| now apply K].
    bind_inv H as v Hv. bind_inv H as r Hr. injection H as <-.
    apply IH in Hr; simpl in *; lia.
Qed.

Lemma peephole_sub (instructions : list instr) :
  (List.length (AKMOptimizer.peephole instructions) <= List.length instructions)%nat /\
  forall i, In i (AKMOptimizer.peephole instructions) ->
            In i instructions /\ (i_op i = OPCODES.NOP -> i_isEntry i = true).
Proof.
  assert (Hle : (List.length instructions <= List.length instructions)%nat) by lia.
  revert Hle. generalize (List.length instructions) at 2. intros n.
  revert instructions.
  induction n as [| n IH]; intros [| a rest] Hle; simpl in Hle; try lia;
    try (split; [simpl; lia | intros i []]).
  assert (R : (List.length (AKMOptimizer.peephole rest) <= List.length rest)%nat /\
              forall i, In i (AKMOptimizer.peephole rest) ->
                        In i rest /\ (i_op i = OPCODES.NOP -> i_isEntry i = true))
    by (apply IH; lia).
  assert (B : (List.length match rest with
                           | _ :: rest' => AKMOptimizer.peephole rest'
                           | [] => []
                           end <= List.length rest)%nat /\
              forall i, In i match rest with
                             | _ :: rest' => AKMOptimizer.peephole rest'
                             | [] => []
                             end ->
                        In i rest /\ (i_op i = OPCODES.NOP -> i_isEntry i = true)).
  { destruct rest as [| b rest']; [split; [simpl; lia | intros i []] |].
    destruct (IH rest') as [L I]; [simpl in Hle; lia |].
    split; [simpl; lia |]. intros i Hi. destruct (I i Hi). split; [now right | auto]. }
  assert (Skip : forall l,
             ((List.length l <= List.length rest)%nat /\
              forall i, In i l -> In i rest /\ (i_op i = OPCODES.NOP -> i_isEntry i = true)) ->
             (List.length l <= List.length (a :: rest))%nat /\
             forall i, In i l ->
                       In i (a :: rest) /\ (i_op i = OPCODES.NOP -> i_isEntry i = true)).
  { intros l [L I]. split; [simpl; lia |].
    intros i Hi. destruct (I i Hi). split; [now right | auto]. }
  cbn [AKMOptimizer.peephole].
  destruct ((i_op a =? OPCODES.PUSH) && AKMOptimizer.next_is rest OPCODES.POP);
    [now apply Skip |].
  destruct ((i_op a =? OPCODES.NEG) && AKMOptimizer.next_is rest OPCODES.NEG);
    [now apply Skip |].
  destruct ((i_op a =? OPCODES.NOT) && AKMOptimizer.next_is rest OPCODES.NOT);
    [now apply Skip |].
  destruct ((i_op a =? OPCODES.NOP) && negb (i_isEntry a)) eqn:N; [now apply Skip |].
  destruct ((i_op a =? OPCODES.PUSH) && AKMOptimizer.is_number (i_value a) 0
            && AKMOptimizer.next_is rest OPCODES.ADD); [now apply Skip |].
  destruct ((i_op a =? OPCODES.PUSH) && AKMOptimizer.is_number (i_value a) 1
            && AKMOptimizer.next_is rest OPCODES.MUL); [now apply Skip |].
  destruct ((i_op a =? OPCODES.DUP) && AKMOptimizer.next_is rest OPCODES.POP);
    [now apply Skip |].
  destruct R as [L I]. split; [simpl; lia |].
  intros i [<- | Hi].
  - split; [now left |]. intros Hop. rewrite Hop in N. simpl in N.
    now destruct (i_isEntry a).
  - destruct (I i Hi). split; [now right | auto].
Qed.

(** Extra X4.  Every instruction the peephole pass returns is an instruction
    of its input, and none of them is a NOP without the isEntry mark. *)
Theorem peephole_only_removes (instructions : list instr) (i : instr) :
  In i (AKMOptimizer.peephole instructions) ->
  In i instructions /\ (i_op i = OPCODES.NOP -> i_isEntry i = true).
Proof.
  intros H. destruct (peephole_sub instructions) as [_ I]. now apply I.
Qed.

(** Extra X5.  When optimize succeeds on an IR it returns the same functions,
    in the same order and under the same names, and no function has more
    instructions than before. *)
Theorem optimize_never_lengthens (ir ir' : IR) :
  AKMOptimizer.optimize ir = Ok ir' ->
  Forall2 (fun f f' => f_name f' = f_name f /\
                       (List.length (f_instructions f') <= List.length (f_instructions f))%nat)
    (ir_functions ir) (ir_functions ir').
Proof.
  unfold AKMOptimizer.optimize, AKMOptimizer.constantFolding,
    AKMOptimizer.deadCodeElimination, AKMOptimizer.peepholeOptimization,
    AKMOptimizer.stringDeduplication, AKMOptimizer.with_functions.
  cbn [ir_functions ir_strings ir_commands ir_apiCalls].
  intros H. bind_inv H as ir1 Hf. bind_inv Hf as folded Hm. injection Hf as <-.
  cbn [ir_functions ir_strings] in H.
  destruct (forallb is_primitive (ir_strings ir)); [| discriminate].
  injection H as <-. cbn [ir_functions].
  revert folded Hm. induction (ir_functions ir) as [| f l IH]; intros folded Hf.
  - injection Hf as <-. constructor.
  - cbn [map mapM] in Hf. bind_inv Hf as f1 H1. bind_inv Hf as l1 Hl. injection Hf as <-.
    bind_inv H1 as instrs Hi. injection H1 as <-.
    cbn [map]. constructor; [| now apply IH].
    unfold AKMOptimizer.with_instructions in *. cbn [f_name f_instructions] in *.
    split; [reflexivity |].
    apply foldInstructions_length in Hi.
    destruct (peephole_sub instrs) as [Lp _].
    destruct (@eliminate_sub (flat_map AKMOptimizer.jumpTargets (f_instructions f))
                (f_instructions f) 0 true) as [Le _].
    unfold AKMOptimizer.reachableInstructions in Hi. lia.
Qed.

(** ** The string table of the code generator *)

Lemma to_js_string_primitive (v : jsval) (s : string) :
  to_js_string v = Ok s -> is_primitive v = true.
Proof. destruct v; simpl; auto; discriminate. Qed.

Lemma map_get_set_same (k k' : jsval) (v : Z) (m : list (jsval * Z)) :
  same_value k k' = true ->
  map_get same_value k' (map_set same_value k v m) = Some v.
Proof.
  intros E. pose proof (same_value_eq _ _ E) as <-.
  induction m as [| [k0 v0] m IH]; simpl.
  - now rewrite E.
  - destruct (same_value k0 k) eqn:E0; simpl; rewrite E0; auto.
Qed.

Lemma map_get_set_other (k k' : jsval) (v : Z) (m : list (jsval * Z)) :
  same_value k k' = false ->
  map_get same_value k' (map_set same_value k v m) = map_get same_value k' m.
Proof.
  intros E.
  induction m as [| [k0 v0] m IH]; simpl.
  - now rewrite E.
  - destruct (same_value k0 k) eqn:E0; simpl.
    + apply same_value_eq in E0. subst k0. now rewrite E.
    + now rewrite IH.
Qed.

Lemma mapM_app {A B : Type} (f : A -> outcome B) (l : list A) (x : A) (ys : list B) (y : B) :
  mapM f l = Ok ys -> f x = Ok y -> mapM f (l ++ [x]) = Ok (ys ++ [y]).
Proof.
  revert ys. induction l as [| a l IH]; intros ys H Hx; simpl in *.
  - injection H as <-. now rewrite Hx.
  - bind_inv H as b Hb. bind_inv H as bs Hbs. injection H as <-.
    rewrite Hb. simpl. rewrite (IH bs) by auto. reflexivity.
Qed.

Lemma mapM_map {A B C : Type} (f : B -> outcome C) (g : A -> B) (l : list A) :
  mapM f (map g l) = mapM (fun a => f (g a)) l.
Proof.
  induction l as [| a l IH]; simpl; auto. now rewrite IH.
Qed.

Lemma mapM_length {A B : Type} (f : A -> outcome B) (l : list A) (ys : list B) :
  mapM f l = Ok ys -> List.length ys = List.length l.
Proof.
  revert ys. induction l as [| a l IH]; intros ys H; simpl in H.
  - now injection H as <-.
  - bind_inv H as b Hb. bind_inv H as bs Hbs. injection H as <-.
    simpl. f_equal. auto.
Qed.

Lemma addEntry_table_of (done : list jsval) (table table' : stringTable) (i j : nat)
  (str : jsval) :
  table_of done table -> addEntry (table, i) str = Ok (table', j) ->
  table_of (done ++ [str]) table'.
Proof.
  intros (encodings & M & E & T & L) H.
  unfold addEntry in H. bind_inv H as encoded He. injection H as <- _.
  pose proof He as He'. unfold encode_nul in He'. bind_inv He' as s0 Hs0.
  injection He' as He'.
  pose proof (to_js_string_primitive _ Hs0) as Hprim.
  exists (encodings ++ [encoded]).
  split; [now apply mapM_app |].
  split; [cbn [entries]; now rewrite map_app, E |].
  split; [cbn [totalSize]; rewrite T, concat_app, length_app; simpl;
          rewrite app_nil_r; lia |].
  intros s Hin. cbn [offsets].
  rewrite map_get_set_other by reflexivity.
  destruct (same_value str (JStr s)) eqn:Es.
  - rewrite map_get_set_same by auto.
    apply same_value_eq in Es. subst str. simpl in Hs0. injection Hs0 as <-.
    exists (List.concat encodings), []. rewrite T. split; auto.
    rewrite concat_app. simpl. now rewrite He', !app_nil_r.
  - rewrite map_get_set_other by auto.
    apply in_app_or in Hin. destruct Hin as [Hin | [-> | []]].
    + destruct (L s Hin) as (before & after & G & C).
      exists before, (after ++ encoded). split; auto.
      rewrite concat_app, C. simpl. now rewrite app_nil_r, <- !app_assoc.
    + simpl in Es. now rewrite String.eqb_refl in Es.
Qed.

Lemma buildStringTable_table_of (strings : list jsval) (table : stringTable) :
  buildStringTable strings = Ok table -> table_of strings table.
Proof.
  unfold buildStringTable. intros H. bind_inv H as p Hp. destruct p as [t n].
  injection H as ->.
  assert (G : forall l done t0 i t1 j,
             table_of done t0 -> foldM addEntry l (t0, i) = Ok (t1, j) ->
             table_of (done ++ l) t1).
  { induction l as [| str l IH]; intros done t0 i t1 j T0 F; simpl in F.
    - injection F as <- _. now rewrite app_nil_r.
    - bind_inv F as q Hq. destruct q as [t2 k].
      replace (done ++ str :: l) with ((done ++ [str]) ++ l)
        by (rewrite <- app_assoc; reflexivity).
      eapply IH; eauto. eapply addEntry_table_of; eauto. }
  apply (G strings [] _ _ _ _) in Hp; auto.
  exists []. simpl. repeat split; auto. intros s [].
Qed.

Lemma buildStrtab_Ok (strings : list jsval) (strtab : list Z) :
  buildStrtab strings = Ok strtab <->
  exists encodings, mapM encode_nul strings = Ok encodings /\ strtab = List.concat encodings.
Proof.
  unfold buildStrtab. split.
  - intros H. bind_inv H as e He. injection H as <-. now exists e.
  - intros (e & -> & ->). reflexivity.
Qed.

(** The data section: the string table, then the command stubs. *)
Lemma buildDataSection_Ok (strings : list jsval) (table : stringTable)
  (commandStubs : list commandStub) (data : list Z) :
  buildStringTable strings = Ok table ->
  buildDataSection table commandStubs = Ok data ->
  exists strtab stubs,
    buildStrtab strings = Ok strtab /\ mapM stubBytes commandStubs = Ok stubs /\
    data = strtab ++ List.concat stubs.
Proof.
  intros T H. apply buildStringTable_table_of in T.
  destruct T as (encodings & M & E & _).
  unfold buildDataSection in H. bind_inv H as s Hs. bind_inv H as stubs Hst.
  injection H as <-.
  rewrite <- (mapM_map encode_nul e_string), E, M in Hs. injection Hs as <-.
  exists (List.concat encodings), stubs.
  split; [apply buildStrtab_Ok; now exists encodings |].
  split; auto. apply concat_app.
Qed.

Lemma string_offsets_locate (strings : list jsval) (table : stringTable)
  (commandStubs : list commandStub) (data : list Z) (s : string) :
  buildStringTable strings = Ok table ->
  buildDataSection table commandStubs = Ok data ->
  In (JStr s) strings ->
  section data (get_or_0 same_value (JStr s) (offsets table))
    (Z.of_nat (List.length (utf8 (s ++ nul)))) = utf8 (s ++ nul).
Proof.
  intros T D Hin.
  destruct (@buildDataSection_Ok _ _ _ _ T D) as (strtab & stubs & B & _ & ->).
  apply buildStringTable_table_of in T.
  destruct T as (encodings & M & _ & _ & L).
  destruct (L s Hin) as (before & after & G & C).
  apply buildStrtab_Ok in B. destruct B as (e & M' & ->).
  rewrite M in M'. injection M' as <-.
  unfold get_or_0. rewrite G, C, <- !app_assoc.
  apply section_app.
Qed.

(** ** The command stubs *)

Lemma stubBytes_fields (stub : commandStub) (bytes : list Z) :
  stubBytes stub = Ok bytes ->
  List.length bytes = 20%nat /\
  readUInt32LE bytes 0 = nameOffset stub /\
  readUInt32LE bytes 4 = syntaxOffset stub /\
  readUInt32LE bytes 8 = descOffset stub /\
  readUInt32LE bytes 12 = categoryOffset stub /\
  readUInt32LE bytes 16 = handlerOffset stub.
Proof.
  unfold stubBytes. intros H. cbv beta zeta in H.
  inv_bind H. inv_bind H. inv_bind H. inv_bind H.
  pose proof (writeUInt_untouched _ _ _ _ Hx) as U0.
  pose proof (writeUInt_untouched _ _ _ _ Hx0) as U1.
  pose proof (writeUInt_untouched _ _ _ _ Hx1) as U2.
  pose proof (writeUInt_untouched _ _ _ _ Hx2) as U3.
  pose proof (writeUInt_untouched _ _ _ _ H) as U4.
  assert (L0 : List.length x = 20%nat) by (rewrite (untouched_length U0); apply repeat_length).
  assert (L1 : List.length x0 = 20%nat) by (rewrite (untouched_length U1); exact L0).
  assert (L2 : List.length x1 = 20%nat) by (rewrite (untouched_length U2); exact L1).
  assert (L3 : List.length x2 = 20%nat) by (rewrite (untouched_length U3); exact L2).
  split; [rewrite (untouched_length U4); exact L3 |].
  split; [frame32; apply (writeUInt32LE_read _ _ _ Hx); rewrite repeat_length; clear; lia |].
  split; [frame32; apply (writeUInt32LE_read _ _ _ Hx0); rewrite L0; clear; lia |].
  split; [frame32; apply (writeUInt32LE_read _ _ _ Hx1); rewrite L1; clear; lia |].
  split; [frame32; apply (writeUInt32LE_read _ _ _ Hx2); rewrite L2; clear; lia |].
  apply (writeUInt32LE_read _ _ _ H). rewrite L3. clear. lia.
Qed.

Lemma mapM_nth {A B : Type} (f : A -> outcome B) (l : list A) (ys : list B) (i : nat)
  (a : A) :
  mapM f l = Ok ys -> nth_error l i = Some a ->
  exists b, nth_error ys i = Some b /\ f a = Ok b.
Proof.
  revert ys i. induction l as [| x l IH]; intros ys i H Hi; [destruct i; discriminate |].
  simpl in H. bind_inv H as y Hy. bind_inv H as ys' Hys. injection H as <-.
  destruct i as [| i]; simpl in *.
  - injection Hi as ->. now exists y.
  - eapply IH; eauto.
Qed.

Lemma mapM_Forall {A B : Type} (f : A -> outcome B) (P : B -> Prop) (l : list A)
  (ys : list B) :
  (forall a b, f a = Ok b -> P b) -> mapM f l = Ok ys -> Forall P ys.
Proof.
  intros Hf. revert ys. induction l as [| x l IH]; intros ys H; simpl in H.
  - injection H as <-. constructor.
  - bind_inv H as y Hy. bind_inv H as ys' Hys. injection H as <-.
    constructor; eauto.
Qed.

(** The [i]-th of the chunks of a concatenation of chunks of one size. *)
Lemma section_concat (n : nat) (chunks : list (list Z)) (i : nat) (e : list Z) :
  Forall (fun c => List.length c = n) chunks -> nth_error chunks i = Some e ->
  firstn n (skipn (n * i) (List.concat chunks)) = e.
Proof.
  intros F. revert i. induction F as [| c chunks Hc _ IH]; intros i Hi;
    [destruct i; discriminate |].
  destruct i as [| i]; simpl in Hi.
  - injection Hi as ->. rewrite Nat.mul_0_r. simpl.
    rewrite firstn_app, <- Hc, firstn_all, Nat.sub_diag. simpl. apply app_nil_r.
  - cbn [List.concat].
    replace (n * S i)%nat with (List.length c + n * i)%nat by lia.
    rewrite skipn_app, skipn_all2 by lia.
    replace (List.length c + n * i - List.length c)%nat with (n * i)%nat by lia.
    simpl. auto.
Qed.

(** What [generate] returns, part by part. *)
Lemma generate_Ok (pr : parseResult) (cg : codegenResult) :
  generate pr = Ok cg ->
  exists table g strtab stubs,
    buildStringTable (ir_strings (pr_ir pr)) = Ok table /\
    buildStrtab (ir_strings (pr_ir pr)) = Ok strtab /\
    generateFunctions (ir_functions (pr_ir pr)) table = (g, cg_functions cg) /\
    cg_code cg = code (resolveFixups g) /\
    mapM stubBytes (generateCommandStubs (pr_commands pr) table (cg_functions cg))
      = Ok stubs /\
    cg_data cg = strtab ++ List.concat stubs /\
    cg_strings cg = ir_strings (pr_ir pr).
Proof.
  unfold generate. intros H. bind_inv H as table Ht.
  destruct (generateFunctions (ir_functions (pr_ir pr)) table) as [g fo] eqn:G.
  bind_inv H as data Hd. injection H as <-. cbn [cg_functions cg_code cg_data cg_strings].
  destruct (@buildDataSection_Ok _ _ _ _ Ht Hd) as (strtab & stubs & B & M & ->).
  exists table, g, strtab, stubs. auto 10.
Qed.

Lemma generateCommandStubs_nth (commands : list command) (table : stringTable)
  (functionOffsets : list (string * Z)) (i : nat) (cmd : command) :
  nth_error commands i = Some cmd ->
  nth_error (generateCommandStubs commands table functionOffsets) i =
    Some {| nameOffset := get_or_0 same_value (cmd_name cmd) (offsets table);
            syntaxOffset := get_or_0 same_value (cmd_syntax cmd) (offsets table);
            descOffset := get_or_0 same_value (cmd_description cmd) (offsets table);
            categoryOffset := get_or_0 same_value (cmd_category cmd) (offsets table);
            handlerOffset := handler_offset (cmd_handler cmd) functionOffsets |}.
Proof.
  intros H. unfold generateCommandStubs. rewrite nth_error_map, H. reflexivity.
Qed.

(** Extra X16.  For a parsed source, the stub of the i-th command is the 20
    bytes of the data section at (length of the string bytes + 20*i); its
    words at 0, 4, 8 and 12 are data offsets of the NUL-terminated name,
    syntax, description and category (where these are strings), and its word
    at 16 is the offset recorded for the handler function, 0 if there is none. *)
Theorem command_stubs_locate_the_command (ast : node) (pr : parseResult)
  (cg : codegenResult) (i : nat) (cmd : command) :
  parse (Parsed ast) = Ok pr -> generate pr = Ok cg ->
  nth_error (pr_commands pr) i = Some cmd ->
  exists strtab stub,
    buildStrtab (ir_strings (pr_ir pr)) = Ok strtab /\
    section (cg_data cg) (Z.of_nat (List.length strtab + 20 * i)) 20 = stub /\
    List.length stub = 20%nat /\
    (forall s offset,
        (cmd_name cmd = JStr s /\ offset = 0%nat) \/
        (cmd_syntax cmd = JStr s /\ offset = 4%nat) \/
        (cmd_description cmd = JStr s /\ offset = 8%nat) \/
        (cmd_category cmd = JStr s /\ offset = 12%nat) ->
        section (cg_data cg) (readUInt32LE stub offset)
          (Z.of_nat (List.length (utf8 (s ++ nul)))) = utf8 (s ++ nul)) /\
    readUInt32LE stub 16 = handler_offset (cmd_handler cmd) (cg_functions cg).
Proof.
  intros Hp Hg Hi.
  apply parse_Ok in Hp. destruct Hp as (_ & _ & _ & G & _).
  apply generateIR_Ok in G. destruct G as (_ & _ & _ & _ & R).
  rewrite Forall_forall in R.
  destruct (R cmd (nth_error_In _ _ Hi)) as (R1 & R2 & R3 & R4).
  destruct (@generate_Ok _ _ Hg) as (table & g & strtab & stubs & T & B & _ & _ & M & D & _).
  pose proof (@generateCommandStubs_nth _ table (cg_functions cg) _ _ Hi) as Hs.
  destruct (@mapM_nth _ _ _ _ _ _ _ M Hs) as (stub & Hn & Hb).
  destruct (@stubBytes_fields _ _ Hb) as (L & F0 & F4 & F8 & F12 & F16).
  cbn [nameOffset syntaxOffset descOffset categoryOffset handlerOffset] in *.
  assert (F20 : Forall (fun c => List.length c = 20%nat) stubs).
  { eapply mapM_Forall; [| exact M]. intros a b Hab. apply (@stubBytes_fields _ _ Hab). }
  exists strtab, stub. split; [exact B |].
  assert (S : section (cg_data cg) (Z.of_nat (List.length strtab + 20 * i)) 20 = stub).
  { unfold section. rewrite D, Nat2Z.id.
    rewrite skipn_app, skipn_all2 by lia.
    replace (List.length strtab + 20 * i - List.length strtab)%nat with (20 * i)%nat by lia.
    rewrite app_nil_l. change (Z.to_nat 20) with 20%nat.
    now apply section_concat. }
  split; [exact S |]. split; [exact L |]. split; [| exact F16].
  assert (P : forall s, In (JStr s) (ir_strings (pr_ir pr)) ->
                section (cg_data cg) (get_or_0 same_value (JStr s) (offsets table))
                  (Z.of_nat (List.length (utf8 (s ++ nul)))) = utf8 (s ++ nul)).
  { intros s Hin.
    assert (Dd : buildDataSection table
                   (generateCommandStubs (pr_commands pr) table (cg_functions cg))
                 = Ok (cg_data cg)).
    { unfold buildDataSection.
      apply buildStringTable_table_of in T. destruct T as (encodings & Me & E & _).
      rewrite <- (mapM_map encode_nul e_string), E, Me. cbn [bind]. rewrite M. cbn [bind].
      apply buildStrtab_Ok in B. destruct B as (e & Me' & ->).
      rewrite Me in Me'. injection Me' as <-.
      now rewrite D, concat_app. }
    eapply string_offsets_locate; eauto. }
  intros s offset [[E ->] | [[E ->] | [[E ->] | [E ->]]]].
  - rewrite F0, E. apply P. now rewrite <- E.
  - rewrite F4, E. apply P. now rewrite <- E.
  - rewrite F8, E. apply P. now rewrite <- E.
  - rewrite F12, E. apply P. now rewrite <- E.
Qed.

(** The handler of a command may be any node with a [name] or an [id]: a
    class expression names the function of the same name, and the stub of the
    command of [class_handler_module] holds the offset of [Handler]. *)
Lemma class_handler_is_located :
  map cmd_handler (pr_commands (parsed class_handler_module)) = [Some "Handler"%string] /\
  exists cg,
    generate (parsed class_handler_module) = Ok cg /\
    In ("Handler"%string, 38) (cg_functions cg) /\
    readUInt32LE (cg_data cg) (28 + 16) = 38.
Proof.
  split; [vm_compute; reflexivity |].
  eexists. split; [vm_compute; reflexivity |].
  split; [do 2 right; left; reflexivity |].
  vm_compute. reflexivity.
Qed.

Lemma generate_data (pr : parseResult) (cg : codegenResult) :
  generate pr = Ok cg ->
  exists table,
    buildStringTable (ir_strings (pr_ir pr)) = Ok table /\
    buildDataSection table
      (generateCommandStubs (pr_commands pr) table (cg_functions cg)) = Ok (cg_data cg).
Proof.
  unfold generate. intros H. bind_inv H as table Ht.
  destruct (generateFunctions (ir_functions (pr_ir pr)) table) as [g fo] eqn:G.
  bind_inv H as data Hd. injection H as <-. cbn [cg_functions cg_data].
  now exists table.
Qed.

(** ** The code of the functions *)

Lemma spaced_le (lo hi : Z) (fx : list (Z * option string)) : spaced lo fx hi -> lo <= hi.
Proof.
  revert lo. induction fx as [| [o l] fx IH]; intros lo; simpl; auto.
  intros [H1 H2]. apply IH in H2. lia.
Qed.

Lemma spaced_weaken (lo lo' hi hi' : Z) (fx : list (Z * option string)) :
  spaced lo fx hi -> lo' <= lo -> hi <= hi' -> spaced lo' fx hi'.
Proof.
  revert lo lo'. induction fx as [| [o l] fx IH]; intros lo lo'; simpl.
  - lia.
  - intros [H1 H2] Hlo Hhi. split; [lia |]. eapply IH; eauto. lia.
Qed.

Lemma spaced_app (lo mid hi : Z) (fx fx' : list (Z * option string)) :
  spaced lo fx mid -> spaced mid fx' hi -> spaced lo (fx ++ fx') hi.
Proof.
  revert lo. induction fx as [| [o l] fx IH]; intros lo; simpl.
  - intros H1 H2. eapply spaced_weaken; eauto. lia.
  - intros [H1 H2] H3. split; auto.
Qed.

Lemma spaced_In (lo hi : Z) (fx : list (Z * option string)) (o : Z) (l : option string) :
  spaced lo fx hi -> In (o, l) fx -> lo <= o /\ o + 4 <= hi.
Proof.
  revert lo. induction fx as [| [o' l'] fx IH]; intros lo; simpl; [tauto |].
  intros [H1 H2] [E | Hin].
  - injection E as -> ->. apply spaced_le in H2. lia.
  - destruct (IH _ H2 Hin). lia.
Qed.

Lemma extends_refl (g : codegen) : extends g g.
Proof.
  intros H. split; auto. split; auto. exists [], [].
  rewrite !app_nil_r. simpl. repeat split; auto. lia.
Qed.

Lemma extends_trans (g1 g2 g3 : codegen) : extends g1 g2 -> extends g2 g3 -> extends g1 g3.
Proof.
  intros H1 H2 Hs.
  destruct (H1 Hs) as (Hs2 & L2 & b2 & f2 & C2 & F2 & S2).
  destruct (H2 Hs2) as (Hs3 & L3 & b3 & f3 & C3 & F3 & S3).
  split; auto. split; [congruence |].
  exists (b2 ++ b3), (f2 ++ f3).
  split; [now rewrite C3, C2, app_assoc |].
  split; [now rewrite F3, F2, app_assoc |].
  eapply spaced_app; eauto.
Qed.

Lemma extends_emit (b : Z) (g : codegen) : extends g (emit b g).
Proof.
  intros Hs. destruct (grows_emit b Hs) as [Hs' _]. split; auto. split; auto.
  exists [js_and b 255], []. rewrite app_nil_r.
  split; [reflexivity |]. split; [reflexivity |].
  cbn [spaced emit code]. rewrite length_app. lia.
Qed.

Lemma extends_emitInt32 (v : number) (g : codegen) : extends g (emitInt32 v g).
Proof.
  intros Hs. destruct (grows_emitInt32 v Hs) as [Hs' _]. split; auto. split; auto.
  unfold emitInt32. cbn [code fixups].
  eexists _, []. split; [reflexivity |]. split; [symmetry; apply app_nil_r |].
  cbn [spaced]. rewrite length_app. lia.
Qed.

Lemma extends_emitValue (v : jsval) (table : stringTable) (g : codegen) :
  extends g (emitValue v table g).
Proof. unfold emitValue. destruct v; apply extends_emitInt32. Qed.

(** An opcode, a fixup for the word that follows it, and the word. *)
Lemma extends_fixup (op : Z) (l : option string) (v : number) (g : codegen) :
  extends g (emitInt32 v (addFixup l (emit op g))).
Proof.
  intros Hs. unfold in_step in *.
  cbn [emitInt32 addFixup emit code fixups labels currentOffset].
  split; [rewrite !length_app; cbn [List.length]; lia |]. split; auto.
  eexists (_ :: _), [_]. rewrite <- app_assoc.
  split; [reflexivity |]. split; [reflexivity |].
  cbn [spaced]. rewrite !length_app. cbn [List.length app]. lia.
Qed.

Lemma extends_emitJump (op : Z) (i : instr) (g : codegen) : extends g (emitJump op i g).
Proof.
  unfold emitJump. destruct (label_set (i_label i)).
  - apply extends_fixup.
  - eapply extends_trans; [apply extends_emit | apply extends_emitInt32].
Qed.

Ltac extends_step :=
  first
    [ apply extends_emitJump
    | apply extends_fixup
    | apply extends_emit
    | apply extends_emitInt32
    | apply extends_emitValue
    | (eapply extends_trans;
       [| first [apply extends_emit | apply extends_emitInt32 | apply extends_emitValue]];
       extends_step) ].

Lemma extends_generateInstruction (i : instr) (table : stringTable) (func : irFunc)
  (g : codegen) : extends g (generateInstruction i table func g).
Proof.
  unfold generateInstruction.
  repeat match goal with
         | |- extends _ (if ?c then _ else _) => destruct c
         end;
    extends_step.
Qed.

Lemma extends_fold {A : Type} (f : codegen -> A -> codegen) (l : list A) :
  (forall g a, extends g (f g a)) -> forall g, extends g (fold_left f l g).
Proof.
  intros Hf. induction l as [| a l IH]; intros g; simpl.
  - apply extends_refl.
  - eapply extends_trans; [apply Hf | apply IH].
Qed.

Lemma generateInstruction_size (i : instr) (table : stringTable) (func : irFunc)
  (g : codegen) :
  List.length (code (generateInstruction i table func g))
    = (List.length (code g) + instructionSize i)%nat.
Proof.
  unfold generateInstruction, instructionSize. cbv zeta.
  repeat (match goal with
          | |- context [i_op i =? ?b] => destruct (i_op i =? b)
          end; cbv iota; cbn [orb]);
    unfold emitJump, emitValue;
    repeat match goal with
           | |- context [if ?c then _ else _] => destruct c
           | |- context [match ?v with _ => _ end] => destruct v
           end;
    unfold emitInt32, emit, addFixup; cbn [code orb];
    rewrite ?length_app; cbn [List.length]; lia.
Qed.

Lemma fold_instructions_size (instructions : list instr) (table : stringTable)
  (func : irFunc) (g : codegen) :
  List.length (code (fold_left (fun g i => generateInstruction i table func g)
                       instructions g))
    = (List.length (code g) + list_sum (map instructionSize instructions))%nat.
Proof.
  revert g. induction instructions as [| i l IH]; intros g; simpl; [lia |].
  rewrite IH, generateInstruction_size. lia.
Qed.

Lemma fold_locals_size {A : Type} (locals : list A) (g : codegen) :
  List.length (code (fold_left (fun g _ => emitInt32 (Int 0) (emit OPCODES.PUSH g))
                       locals g))
    = (List.length (code g) + 5 * List.length locals)%nat.
Proof.
  revert g. induction locals as [| a l IH]; intros g; simpl; [lia |].
  rewrite IH. cbn [emitInt32 emit code]. rewrite !length_app. simpl. lia.
Qed.

(** What [generateFunction] appends: the label of the function at the
    current offset, the prologue [NOP] and the rest of the code, whose fixups
    lie after the [NOP]. *)
Lemma generateFunction_spec (func : irFunc) (table : stringTable) (g : codegen) :
  in_step g ->
  let g' := generateFunction func table g in
  in_step g' /\
  labels g' = map_set String.eqb (f_name func) (currentOffset g) (labels g) /\
  List.length (code g') = (List.length (code g) + functionSize func)%nat /\
  exists rest fx,
    code g' = code g ++ OPCODES.NOP :: rest /\ fixups g' = fixups g ++ fx /\
    spaced (Z.of_nat (List.length (code g)) + 1) fx (Z.of_nat (List.length (code g'))).
Proof.
  intros Hs g'. unfold generateFunction in g'.
  set (g0 := {| code := code g;
                labels := map_set String.eqb (f_name func) (currentOffset g) (labels g);
                fixups := fixups g; currentOffset := currentOffset g |}) in *.
  set (g1 := emit OPCODES.NOP g0) in *.
  assert (Hs1 : in_step g1).
  { unfold g1, g0, in_step, emit in *. cbn [code currentOffset].
    rewrite length_app. simpl. lia. }
  assert (E : extends g1 g').
  { unfold g'.
    eapply extends_trans;
      [ apply (@extends_fold _ (fun g (_ : option string) =>
                                  emitInt32 (Int 0) (emit OPCODES.PUSH g)))
      | apply (@extends_fold _ (fun g i => generateInstruction i table func g)) ].
    - intros g2 _. eapply extends_trans; [apply extends_emit | apply extends_emitInt32].
    - intros g2 i. apply extends_generateInstruction. }
  destruct (E Hs1) as (Hs' & L & bytes & fx & C & F & S).
  assert (C1 : code g1 = code g ++ [OPCODES.NOP]) by reflexivity.
  split; [exact Hs' |]. split; [exact L |]. split.
  - unfold g'. rewrite fold_instructions_size, fold_locals_size. unfold functionSize.
    rewrite C1, length_app. simpl. lia.
  - exists bytes, fx. split; [rewrite C, C1, <- app_assoc; reflexivity |].
    split; [exact F |].
    assert (L1 : Z.of_nat (List.length (code g1)) = Z.of_nat (List.length (code g)) + 1)
      by (rewrite C1, length_app; simpl; lia).
    rewrite L1 in S. exact S.
Qed.

Lemma between_functions_step (func : irFunc) (table : stringTable)
  (g : codegen) (offs : list (string * Z)) :
  between_functions (g, offs) ->
  between_functions (generateFunction func table g,
                     map_set String.eqb (f_name func) (currentOffset g) offs).
Proof.
  intros (Hs & L & S & O). unfold between_functions. cbn [fst snd] in *.
  destruct (generateFunction_spec func table Hs) as (Hs' & L' & _ & rest & fx & C & F & S').
  set (g' := generateFunction func table g) in *.
  assert (Hlen : (List.length (code g) < List.length (code g'))%nat)
    by (rewrite C, length_app; simpl; lia).
  split; [exact Hs' |]. split; [now rewrite L', L |]. split.
  - rewrite F. eapply spaced_app; [exact S |].
    eapply spaced_weaken; [exact S' | lia | lia].
  - intros name offset Hin. apply In_map_set in Hin. destruct Hin as [Hin | ->].
    + destruct (O _ _ Hin) as (R & N & X). split; [lia |]. split.
      * unfold byte_at in *. rewrite C, app_nth1 by lia. exact N.
      * intros o l Hol. rewrite F in Hol. apply in_app_or in Hol.
        destruct Hol as [Hol | Hol]; [eauto |].
        destruct (@spaced_In _ _ _ _ _ S' Hol). lia.
    + rewrite Hs. split; [lia |]. split.
      * unfold byte_at. rewrite Nat2Z.id, C, app_nth2 by lia.
        now rewrite Nat.sub_diag.
      * intros o l Hol. rewrite F in Hol. apply in_app_or in Hol.
        destruct Hol as [Hol | Hol].
        -- destruct (@spaced_In _ _ _ _ _ S Hol). lia.
        -- destruct (@spaced_In _ _ _ _ _ S' Hol). lia.
Qed.

Lemma generateFunctions_between (functions : list irFunc) (table : stringTable) :
  between_functions (generateFunctions functions table).
Proof.
  unfold generateFunctions.
  set (step := fun (acc : codegen * list (string * Z)) (func : irFunc) =>
                 let '(g, functionOffsets) := acc in
                 (generateFunction func table g,
                  map_set String.eqb (f_name func) (currentOffset g) functionOffsets)).
  assert (Hfold : forall l acc, between_functions acc ->
                                between_functions (fold_left step l acc)).
  { induction l as [| func l IH]; intros [g offs] Hacc; simpl; auto.
    apply IH. now apply between_functions_step. }
  apply Hfold. split; [reflexivity |]. split; [reflexivity |].
  split; [simpl; lia |]. intros ? ? [].
Qed.

Lemma map_set_fresh {V : Type} (k : string) (v : V) (m : list (string * V)) :
  ~ In k (map fst m) -> map_set String.eqb k v m = m ++ [(k, v)].
Proof.
  induction m as [| [k0 v0] m IH]; simpl; auto.
  intros H. destruct (String.eqb_spec k0 k) as [-> | _]; [tauto |].
  rewrite IH by tauto. reflexivity.
Qed.

(** The code is as long as the functions are, and the offsets of functions
    of different names are the running sums of the sizes. *)
Lemma generateFunctions_sizes (functions : list irFunc) (table : stringTable) :
  List.length (code (fst (generateFunctions functions table)))
    = list_sum (map functionSize functions) /\
  (NoDup (map f_name functions) ->
   snd (generateFunctions functions table) = functionOffsetsFrom 0 functions).
Proof.
  unfold generateFunctions.
  set (step := fun (acc : codegen * list (string * Z)) (func : irFunc) =>
                 let '(g, functionOffsets) := acc in
                 (generateFunction func table g,
                  map_set String.eqb (f_name func) (currentOffset g) functionOffsets)).
  assert (G : forall l g offs,
             in_step g ->
             List.length (code (fst (fold_left step l (g, offs))))
               = (List.length (code g) + list_sum (map functionSize l))%nat /\
             (NoDup (map fst offs ++ map f_name l) ->
              snd (fold_left step l (g, offs))
                = offs ++ functionOffsetsFrom (Z.of_nat (List.length (code g))) l)).
  { induction l as [| func l IH]; intros g offs Hs; cbn [fold_left map].
    - split; [simpl; lia | intros _; simpl; now rewrite app_nil_r].
    - destruct (generateFunction_spec func table Hs) as (Hs' & _ & Hl & _).
      cbn [step]. destruct (IH _ (map_set String.eqb (f_name func) (currentOffset g) offs) Hs')
        as [IH1 IH2].
      split.
      { rewrite IH1, Hl.
        change (list_sum (functionSize func :: map functionSize l))
          with (functionSize func + list_sum (map functionSize l))%nat.
        lia. }
      intros Hnd.
      assert (Hfresh : ~ In (f_name func) (map fst offs)).
      { apply NoDup_remove_2 in Hnd. intros Hin. apply Hnd. apply in_or_app. now left. }
      rewrite (map_set_fresh _ _ _ Hfresh) in *.
      rewrite IH2.
      + rewrite <- app_assoc. cbn [app functionOffsetsFrom]. rewrite Hs, Hl.
        do 3 f_equal. lia.
      + rewrite map_app. cbn [map fst]. rewrite <- app_assoc. exact Hnd. }
  destruct (G functions {| code := []; labels := []; fixups := []; currentOffset := 0 |} [])
    as [G1 G2]; [reflexivity |].
  split; [exact G1 | exact G2].
Qed.

(** ** The resolution of the fixups *)

Lemma array_set_inside (i : nat) (v : Z) (l : list Z) :
  (i < List.length l)%nat ->
  List.length (array_set i v l) = List.length l /\
  forall j, nth j (array_set i v l) 0 = if (j =? i)%nat then v else nth j l 0.
Proof.
  revert l. induction i as [| i IH]; intros [| x l] H; simpl in H; try lia.
  - split; [reflexivity |]. intros [| j]; reflexivity.
  - destruct (IH l) as [L N]; [lia |]. simpl. split; [now rewrite L |].
    intros [| j]; simpl; auto.
Qed.

Lemma to_int32_small (x : Z) : -2147483648 <= x < 2147483648 -> to_int32 x = x.
Proof.
  intros H. unfold to_int32, two32.
  rewrite Z.mod_small by lia. lia.
Qed.

Lemma to_int32_range (x : Z) : -2147483648 <= to_int32 x < 2147483648.
Proof.
  unfold to_int32, two32.
  pose proof (Z.mod_pos_bound (x + 2147483648) 4294967296). lia.
Qed.

Lemma js_and_255 (x : Z) : js_and x 255 = to_int32 x mod 256.
Proof.
  unfold js_and. change (to_int32 255) with (Z.ones 8).
  rewrite Z.land_ones by lia. reflexivity.
Qed.

Lemma js_sar_div (x k : Z) :
  0 <= k < 32 -> js_sar x k = to_int32 x / 2 ^ k /\
                 -2147483648 <= js_sar x k < 2147483648.
Proof.
  intros Hk. unfold js_sar.
  assert (E : to_uint32 k mod 32 = k).
  { unfold to_uint32, two32. rewrite (Z.mod_small k) by lia. apply Z.mod_small. lia. }
  rewrite E, Z.shiftr_div_pow2 by lia.
  split; [reflexivity |].
  pose proof (to_int32_range x).
  assert (0 < 2 ^ k) by (apply Z.pow_pos_nonneg; lia).
  split.
  - apply Z.div_le_lower_bound; [lia |]. nia.
  - apply Z.div_lt_upper_bound; [lia |]. nia.
Qed.

(** The four bytes written for a 32-bit value are its little-endian
    bytes. *)
Lemma int32_bytes_value (t : Z) :
  js_and t 255 + 256 * js_and (js_sar t 8) 255 + 65536 * js_and (js_sar t 16) 255
  + 16777216 * js_and (js_sar t 24) 255 = to_uint32 t.
Proof.
  rewrite !js_and_255.
  destruct (@js_sar_div t 8) as [E8 R8]; [lia |].
  destruct (@js_sar_div t 16) as [E16 R16]; [lia |].
  destruct (@js_sar_div t 24) as [E24 R24]; [lia |].
  rewrite (to_int32_small R8), (to_int32_small R16), (to_int32_small R24).
  rewrite E8, E16, E24.
  rewrite <- (to_uint32_to_int32 t).
  pose proof (to_int32_range t) as R.
  set (T := to_int32 t) in *. clearbody T. clear - R.
  unfold to_uint32, two32.
  change (2 ^ 8) with 256. change (2 ^ 16) with 65536. change (2 ^ 24) with 16777216.
  Z.to_euclidean_division_equations. lia.
Qed.

Lemma resolveFixup_spec (g : codegen) (o : Z) (l : option string) :
  0 <= o -> o + 4 <= Z.of_nat (List.length (code g)) ->
  labels (resolveFixup g (o, l)) = labels g /\
  List.length (code (resolveFixup g (o, l))) = List.length (code g) /\
  (forall j, Z.of_nat j < o \/ o + 4 <= Z.of_nat j ->
             nth j (code (resolveFixup g (o, l))) 0 = nth j (code g) 0) /\
  (forall lbl t, l = Some lbl -> map_get String.eqb lbl (labels g) = Some t ->
                 readUInt32LE (code (resolveFixup g (o, l))) (Z.to_nat o) = to_uint32 t).
Proof.
  intros H0 H4. unfold resolveFixup.
  destruct l as [lbl |]; [| repeat split; auto; discriminate].
  destruct (map_get String.eqb lbl (labels g)) as [target |] eqn:Em;
    [| repeat split; auto; intros ? ? E1 E2; injection E1 as <-; congruence].
  cbn [code labels].
  set (n := Z.to_nat o).
  set (c1 := array_set n (js_and target 255) (code g)).
  set (c2 := array_set (n + 1) (js_and (js_sar target 8) 255) c1).
  set (c3 := array_set (n + 2) (js_and (js_sar target 16) 255) c2).
  destruct (@array_set_inside n (js_and target 255) (code g)) as [L1 N1]; [lia |].
  fold c1 in L1, N1.
  destruct (@array_set_inside (n + 1) (js_and (js_sar target 8) 255) c1) as [L2 N2]; [lia |].
  fold c2 in L2, N2.
  destruct (@array_set_inside (n + 2) (js_and (js_sar target 16) 255) c2) as [L3 N3]; [lia |].
  fold c3 in L3, N3.
  destruct (@array_set_inside (n + 3) (js_and (js_sar target 24) 255) c3) as [L4 N4]; [lia |].
  assert (Ne : forall a b : nat, a <> b -> (a =? b)%nat = false)
    by (intros; now apply Nat.eqb_neq).
  split; [reflexivity |]. split; [lia |]. split.
  - intros j Hj. rewrite N4, N3, N2, N1. rewrite !Ne by lia. reflexivity.
  - intros lbl' t E1 E2. injection E1 as <-. rewrite Em in E2. injection E2 as <-.
    unfold readUInt32LE, byte_at. rewrite !N4, !N3, !N2, !N1.
    rewrite !Nat.eqb_refl. rewrite !Ne by lia.
    apply int32_bytes_value.
Qed.

Lemma resolveFixups_frame (fx : list (Z * option string)) (g : codegen) (lo : Z) :
  0 <= lo -> spaced lo fx (Z.of_nat (List.length (code g))) ->
  labels (fold_left resolveFixup fx g) = labels g /\
  List.length (code (fold_left resolveFixup fx g)) = List.length (code g) /\
  forall j, (forall o l, In (o, l) fx -> Z.of_nat j < o \/ o + 4 <= Z.of_nat j) ->
            nth j (code (fold_left resolveFixup fx g)) 0 = nth j (code g) 0.
Proof.
  revert g lo. induction fx as [| [o l] fx IH]; intros g lo Hlo S; cbn [fold_left].
  - auto.
  - destruct S as [S1 S2]. pose proof (@spaced_le _ _ _ S2) as S3.
    destruct (@resolveFixup_spec g o l) as (L & Len & N & _); [lia | lia |].
    rewrite <- Len in S2.
    destruct (IH (resolveFixup g (o, l)) (o + 4)) as (L' & Len' & N'); [lia | exact S2 |].
    split; [congruence |]. split; [congruence |].
    intros j Hj. rewrite N' by (intros o' l' Hin; apply (Hj o' l'); now right).
    apply N. apply (Hj o l). now left.
Qed.

Lemma spaced_split (lo hi o : Z) (l : option string) (fa fb : list (Z * option string)) :
  spaced lo (fa ++ (o, l) :: fb) hi -> spaced lo fa o /\ spaced (o + 4) fb hi.
Proof.
  revert lo. induction fa as [| [o' l'] fa IH]; intros lo; simpl.
  - tauto.
  - intros [H1 H2]. destruct (IH _ H2). tauto.
Qed.

(** The word of a fixup whose label is known holds the offset of the
    label once the fixups are resolved. *)
Lemma resolveFixups_value (fa fb : list (Z * option string)) (o t : Z) (lbl : string)
  (g : codegen) :
  spaced 0 (fa ++ (o, Some lbl) :: fb) (Z.of_nat (List.length (code g))) ->
  map_get String.eqb lbl (labels g) = Some t ->
  readUInt32LE (code (fold_left resolveFixup (fa ++ (o, Some lbl) :: fb) g)) (Z.to_nat o)
    = to_uint32 t.
Proof.
  intros S Ht. pose proof (@spaced_split _ _ _ _ _ _ S) as [Sa Sb].
  pose proof (@spaced_le _ _ _ Sa) as Ha. pose proof (@spaced_le _ _ _ Sb) as Hb.
  rewrite fold_left_app. cbn [fold_left].
  set (ga := fold_left resolveFixup fa g).
  destruct (@resolveFixups_frame fa g 0) as (La & Lena & _); [lia | |].
  { eapply spaced_weaken; [exact Sa | lia | lia]. }
  fold ga in La, Lena.
  destruct (@resolveFixup_spec ga o (Some lbl)) as (Lb & Lenb & _ & V); [lia | lia |].
  set (gb := resolveFixup ga (o, Some lbl)) in *.
  destruct (@resolveFixups_frame fb gb (o + 4)) as (_ & _ & N); [lia | |].
  { rewrite Lenb, Lena. exact Sb. }
  rewrite <- (V lbl t eq_refl) by (now rewrite La).
  unfold readUInt32LE, byte_at.
  assert (Out : forall k, (k < 4)%nat ->
            forall o' l', In (o', l') fb ->
              Z.of_nat (Z.to_nat o + k) < o' \/ o' + 4 <= Z.of_nat (Z.to_nat o + k)).
  { intros k Hk o' l' Hin.
    destruct (@spaced_In _ _ _ _ _ Sb Hin). lia. }
  rewrite <- (Nat.add_0_r (Z.to_nat o)) at 1 5.
  rewrite !N by (apply Out; lia). reflexivity.
Qed.

Lemma resolveFixup_labels (g : codegen) (fixup : Z * option string) :
  labels (resolveFixup g fixup) = labels g.
Proof.
  destruct fixup as [o [l |]]; simpl; auto.
  destruct (map_get String.eqb l (labels g)); reflexivity.
Qed.

Lemma resolveFixups_labels (fx : list (Z * option string)) (g : codegen) :
  labels (fold_left resolveFixup fx g) = labels g.
Proof.
  revert g. induction fx as [| x fx IH]; intros g; cbn [fold_left]; auto.
  now rewrite IH, resolveFixup_labels.
Qed.

(** A fixup whose label is unknown changes nothing. *)
Lemma resolveFixups_unknown (fa fb : list (Z * option string)) (o : Z) (lbl : string)
  (g : codegen) :
  map_get String.eqb lbl (labels g) = None ->
  fold_left resolveFixup (fa ++ (o, Some lbl) :: fb) g = fold_left resolveFixup (fa ++ fb) g.
Proof.
  intros H. rewrite !fold_left_app. cbn [fold_left]. f_equal.
  unfold resolveFixup at 1. now rewrite resolveFixups_labels, H.
Qed.

(** ** The call sites *)

Lemma extends_appends (g g' : codegen) : in_step g -> extends g g' -> appends g g'.
Proof. intros Hs E. destruct (E Hs) as (_ & _ & bytes & fx & H). now exists bytes, fx. Qed.

Lemma generateFunction_appends (func : irFunc) (table : stringTable) (g : codegen) :
  in_step g -> appends g (generateFunction func table g).
Proof.
  intros Hs.
  destruct (generateFunction_spec func table Hs) as (_ & _ & _ & rest & fx & C & F & S).
  exists (OPCODES.NOP :: rest), fx. split; auto. split; auto.
  eapply spaced_weaken; [exact S | lia | lia].
Qed.

Lemma appends_spaced (g g' : codegen) :
  appends g g' -> spaced 0 (fixups g) (Z.of_nat (List.length (code g))) ->
  spaced 0 (fixups g') (Z.of_nat (List.length (code g'))).
Proof.
  intros (bytes & fx & C & F & S) H. rewrite F. eapply spaced_app; eauto.
Qed.

Lemma call_site_appends (g g' : codegen) (p : nat) (callee : option string) (argc : Z) :
  call_site g p callee argc -> appends g g' -> call_site g' p callee argc.
Proof.
  intros (before & after & fa & fb & C & L & F & Sa & Sb) (bytes & fx & C' & F' & S').
  exists before, (after ++ bytes), fa, (fb ++ fx).
  split; [rewrite C', C, <- !app_assoc; reflexivity |]. split; [exact L |].
  split; [rewrite F', F, <- app_assoc; reflexivity |]. split; [exact Sa |].
  eapply spaced_app; eauto.
Qed.

Lemma call_site_new (call : instr) (table : stringTable) (func : irFunc) (g : codegen) :
  in_step g -> spaced 0 (fixups g) (Z.of_nat (List.length (code g))) ->
  i_op call = OPCODES.CALL ->
  call_site (generateInstruction call table func g) (List.length (code g))
    (i_func call) (i_argc call).
Proof.
  intros Hs S Hop.
  assert (E : generateInstruction call table func g =
              emit (i_argc call)
                (emitInt32 (Int 0) (addFixup (i_func call) (emit OPCODES.CALL g))))
    by (unfold generateInstruction; rewrite Hop; reflexivity).
  rewrite E. unfold call_site.
  cbn [emit emitInt32 addFixup code fixups currentOffset].
  exists (code g), [], (fixups g), [].
  split; [rewrite <- !app_assoc; reflexivity |]. split; [reflexivity |].
  split; [now rewrite Hs |]. split; [exact S |].
  cbn [spaced]. rewrite !length_app. cbn [List.length]. lia.
Qed.

Lemma extends_fold_instructions (instructions : list instr) (table : stringTable)
  (func : irFunc) (g : codegen) :
  extends g (fold_left (fun g i => generateInstruction i table func g) instructions g).
Proof.
  apply (@extends_fold _ (fun g i => generateInstruction i table func g)).
  intros. apply extends_generateInstruction.
Qed.

(** What holds at the position of an instruction once it is generated, and
    is kept when code is appended, holds at the offset of the instruction in
    the code of all the functions. *)
Lemma generateFunction_at (Q : codegen -> nat -> Prop) (func : irFunc) (table : stringTable)
  (g : codegen) (i : instr) (preceding following : list instr) :
  (forall g g' p, Q g p -> appends g g' -> Q g' p) ->
  (forall g, in_step g -> spaced 0 (fixups g) (Z.of_nat (List.length (code g))) ->
             Q (generateInstruction i table func g) (List.length (code g))) ->
  in_step g -> spaced 0 (fixups g) (Z.of_nat (List.length (code g))) ->
  f_instructions func = preceding ++ i :: following ->
  Q (generateFunction func table g)
    (List.length (code g) + 1 + 5 * List.length (f_locals func)
     + list_sum (map instructionSize preceding))%nat.
Proof.
  intros Keep New Hs S Hl.
  unfold generateFunction. rewrite Hl, fold_left_app. cbn [fold_left].
  set (g0 := {| code := code g;
                labels := map_set String.eqb (f_name func) (currentOffset g) (labels g);
                fixups := fixups g; currentOffset := currentOffset g |}).
  set (g1 := fold_left (fun g _ => emitInt32 (Int 0) (emit OPCODES.PUSH g)) (f_locals func)
               (emit OPCODES.NOP g0)).
  set (g2 := fold_left (fun g i => generateInstruction i table func g) preceding g1).
  assert (E02 : extends g0 g2).
  { unfold g2, g1.
    eapply extends_trans; [| apply extends_fold_instructions].
    eapply extends_trans; [apply extends_emit |].
    apply (@extends_fold _ (fun g (_ : option string) =>
                              emitInt32 (Int 0) (emit OPCODES.PUSH g))).
    intros g3 _. eapply extends_trans; [apply extends_emit | apply extends_emitInt32]. }
  assert (Hs0 : in_step g0) by exact Hs.
  destruct (E02 Hs0) as (Hs2 & _).
  pose proof (appends_spaced (extends_appends Hs0 E02) S) as S2.
  assert (Len : List.length (code g2)
                = (List.length (code g) + 1 + 5 * List.length (f_locals func)
                   + list_sum (map instructionSize preceding))%nat).
  { unfold g2, g1. rewrite fold_instructions_size, fold_locals_size.
    cbn [emit code g0]. rewrite length_app. cbn [List.length]. lia. }
  rewrite <- Len.
  eapply Keep; [apply New; auto |].
  apply extends_appends; [| apply extends_fold_instructions].
  destruct (extends_generateInstruction i table func Hs2) as (H & _). exact H.
Qed.

Lemma generateFunctions_at (Q : codegen -> nat -> Prop) (table : stringTable)
  (func : irFunc) (i : instr) (before after : list irFunc)
  (preceding following : list instr) :
  (forall g g' p, Q g p -> appends g g' -> Q g' p) ->
  (forall g, in_step g -> spaced 0 (fixups g) (Z.of_nat (List.length (code g))) ->
             Q (generateInstruction i table func g) (List.length (code g))) ->
  f_instructions func = preceding ++ i :: following ->
  Q (fst (generateFunctions (before ++ func :: after) table))
    (instructionOffset before func preceding).
Proof.
  intros Keep New Hin.
  pose proof (generateFunctions_between before table) as B1.
  destruct (generateFunctions_sizes before table) as [Len _].
  revert B1 Len. unfold generateFunctions.
  set (step := fun (acc : codegen * list (string * Z)) (func : irFunc) =>
                 let '(g, functionOffsets) := acc in
                 (generateFunction func table g,
                  map_set String.eqb (f_name func) (currentOffset g) functionOffsets)).
  intros B1 Len.
  assert (Kept : forall l acc p,
             between_functions acc -> Q (fst acc) p -> Q (fst (fold_left step l acc)) p).
  { induction l as [| f l IH]; intros [g offs] p B C; cbn [fold_left]; auto.
    apply IH; [now apply between_functions_step |].
    cbn [step fst]. eapply Keep; [exact C |].
    apply generateFunction_appends. apply B. }
  rewrite fold_left_app. cbn [fold_left].
  set (acc0 := ({| code := []; labels := []; fixups := []; currentOffset := 0 |},
                @nil (string * Z))) in *.
  destruct (fold_left step before acc0) as [g offs] eqn:E1.
  destruct B1 as (Hs & L & S & O). cbn [fst snd] in *.
  pose proof (@generateFunction_at Q func table g i _ _ Keep New Hs S Hin) as C.
  rewrite Len in C.
  apply Kept; [| exact C].
  apply (@between_functions_step func table g offs).
  split; [exact Hs |]. split; [exact L |]. split; [exact S |]. exact O.
Qed.

Lemma generateFunctions_call_site (table : stringTable) (func : irFunc) (call : instr)
  (before after : list irFunc) (preceding following : list instr) :
  f_instructions func = preceding ++ call :: following -> i_op call = OPCODES.CALL ->
  call_site (fst (generateFunctions (before ++ func :: after) table))
    (instructionOffset before func preceding) (i_func call) (i_argc call).
Proof.
  intros Hin Hop.
  apply (@generateFunctions_at
           (fun g p => call_site g p (i_func call) (i_argc call))
           table func call before after preceding following); [| | exact Hin].
  - intros g g' p. apply call_site_appends.
  - intros g Hs S. now apply call_site_new.
Qed.

(** ** The instructions without a fixup *)

Lemma emitted_code (i : instr) (table : stringTable) (func : irFunc) (g : codegen) :
  code (generateInstruction i table func g) = code g ++ emitted i table func.
Proof.
  unfold emitted, generateInstruction. cbv zeta.
  repeat (match goal with
          | |- context [i_op i =? ?b] => destruct (i_op i =? b)
          end; cbv iota; cbn [orb]);
    unfold emitJump, emitValue;
    repeat match goal with
           | |- context [if ?c then _ else _] => destruct c
           | |- context [match ?v with _ => _ end] => destruct v
           end;
    unfold emitInt32, emit, addFixup; cbn [code app];
    rewrite <- ?app_assoc; reflexivity.
Qed.

Lemma emitted_length (i : instr) (table : stringTable) (func : irFunc) :
  List.length (emitted i table func) = instructionSize i.
Proof.
  unfold emitted. now rewrite generateInstruction_size.
Qed.

Lemma unfixed_fixups (i : instr) (table : stringTable) (func : irFunc) (g : codegen) :
  fixes i = false -> fixups (generateInstruction i table func g) = fixups g.
Proof.
  unfold fixes, generateInstruction. cbv zeta. intros H.
  repeat (match goal with
          | |- context [i_op i =? ?b] => destruct (i_op i =? b)
          end; cbv iota; cbn [orb andb] in *);
    try discriminate;
    unfold emitJump, emitValue; try rewrite H;
    repeat match goal with
           | |- context [if ?c then _ else _] => destruct c
           | |- context [match ?v with _ => _ end] => destruct v
           end;
    reflexivity.
Qed.

Lemma placed_appends (g g' : codegen) (p : nat) (bytes : list Z) :
  placed g p bytes -> appends g g' -> placed g' p bytes.
Proof.
  intros (before & after & fa & fb & C & L & F & Sa & Sb) (more & fx & C' & F' & S').
  exists before, (after ++ more), fa, (fb ++ fx).
  split; [rewrite C', C, <- !app_assoc; reflexivity |]. split; [exact L |].
  split; [rewrite F', F, <- app_assoc; reflexivity |]. split; [exact Sa |].
  eapply spaced_app; eauto.
Qed.

Lemma placed_new (i : instr) (table : stringTable) (func : irFunc) (g : codegen) :
  fixes i = false ->
  in_step g -> spaced 0 (fixups g) (Z.of_nat (List.length (code g))) ->
  placed (generateInstruction i table func g) (List.length (code g)) (emitted i table func).
Proof.
  intros Hf Hs S.
  exists (code g), [], (fixups g), [].
  split; [now rewrite emitted_code, app_nil_r |]. split; [reflexivity |].
  split; [now rewrite unfixed_fixups, app_nil_r |]. split; [exact S |].
  cbn [spaced]. rewrite emitted_code, length_app. lia.
Qed.

Lemma generateFunctions_placed (table : stringTable) (func : irFunc) (i : instr)
  (before after : list irFunc) (preceding following : list instr) :
  f_instructions func = preceding ++ i :: following -> fixes i = false ->
  placed (fst (generateFunctions (before ++ func :: after) table))
    (instructionOffset before func preceding) (emitted i table func).
Proof.
  intros Hin Hf.
  apply (@generateFunctions_at
           (fun g p => placed g p (emitted i table func))
           table func i before after preceding following); [| | exact Hin].
  - intros g g' p. apply placed_appends.
  - intros g Hs S. now apply placed_new.
Qed.

(** No fixup changes the bytes of an instruction that has none. *)
Lemma placed_resolved (g : codegen) (p : nat) (bytes : list Z) :
  placed g p bytes ->
  forall k, (k < List.length bytes)%nat ->
            byte_at (code (resolveFixups g)) (p + k) = nth k bytes 0.
Proof.
  intros (before & after & fa & fb & C & L & F & Sa & Sb) k Hk.
  assert (Len : List.length (code g) = (p + List.length bytes + List.length after)%nat)
    by (rewrite C, !length_app; lia).
  assert (S : spaced 0 (fa ++ fb) (Z.of_nat (List.length (code g)))).
  { eapply spaced_app; [exact Sa |]. eapply spaced_weaken; [exact Sb | lia | lia]. }
  unfold resolveFixups. rewrite F.
  destruct (@resolveFixups_frame _ g 0 (Z.le_refl 0) S) as (_ & _ & N).
  unfold byte_at. rewrite N.
  - rewrite C, app_nth2 by lia. replace (p + k - List.length before)%nat with k by lia.
    now rewrite app_nth1 by lia.
  - intros o l Hin. apply in_app_or in Hin. destruct Hin as [Hin | Hin].
    + destruct (@spaced_In _ _ _ _ _ Sa Hin). lia.
    + destruct (@spaced_In _ _ _ _ _ Sb Hin). lia.
Qed.

(** The bytes of a call site once the fixups are resolved: the word of the
    call holds the offset of the callee, or zero when no function has its
    name. *)
Lemma call_site_resolved (g : codegen) (p : nat) (callee : string) (argc : Z) :
  call_site g p (Some callee) argc ->
  byte_at (code (resolveFixups g)) p = OPCODES.CALL /\
  readUInt32LE (code (resolveFixups g)) (p + 1)
    = to_uint32 (get_or_0 String.eqb callee (labels g)) /\
  byte_at (code (resolveFixups g)) (p + 5) = js_and argc 255.
Proof.
  intros (before & after & fa & fb & C & L & F & Sa & Sb).
  assert (Len : List.length (code g) = (p + 6 + List.length after)%nat)
    by (rewrite C, !length_app; cbn [List.length]; lia).
  assert (Sb' : spaced (Z.of_nat p + 1 + 4) fb (Z.of_nat (List.length (code g))))
    by (eapply spaced_weaken; [exact Sb | lia | lia]).
  assert (S : spaced 0 (fa ++ (Z.of_nat p + 1, Some callee) :: fb)
                (Z.of_nat (List.length (code g)))).
  { eapply spaced_app; [exact Sa |]. cbn [spaced]. split; [lia | exact Sb']. }
  assert (Out : forall j, (j = p \/ j = p + 5)%nat ->
            forall o l, In (o, l) (fa ++ (Z.of_nat p + 1, Some callee) :: fb) ->
              Z.of_nat j < o \/ o + 4 <= Z.of_nat j).
  { intros j Hj o l Hin. apply in_app_or in Hin. destruct Hin as [Hin | [Hin | Hin]].
    - destruct (@spaced_In _ _ _ _ _ Sa Hin). lia.
    - injection Hin as <- _. lia.
    - destruct (@spaced_In _ _ _ _ _ Sb Hin). lia. }
  assert (Orig : forall k, (k < 6)%nat ->
            nth (p + k) (code g) 0
              = nth k [OPCODES.CALL; 0; 0; 0; 0; js_and argc 255] 0).
  { intros k Hk. rewrite C, app_nth2 by lia.
    replace (p + k - List.length before)%nat with k by lia.
    rewrite app_nth1 by (cbn [List.length]; lia). reflexivity. }
  unfold resolveFixups. rewrite F.
  destruct (@resolveFixups_frame _ g 0 (Z.le_refl 0) S) as (_ & _ & N).
  split; [| split].
  - unfold byte_at. rewrite N by (apply Out; lia).
    rewrite <- (Nat.add_0_r p). now rewrite (Orig 0%nat) by lia.
  - unfold get_or_0. destruct (map_get String.eqb callee (labels g)) as [t |] eqn:Em.
    + rewrite <- (@resolveFixups_value fa fb (Z.of_nat p + 1) t callee g S Em).
      f_equal. lia.
    + rewrite resolveFixups_unknown by exact Em.
      assert (S0 : spaced 0 (fa ++ fb) (Z.of_nat (List.length (code g)))).
      { eapply spaced_app; [exact Sa |]. eapply spaced_weaken; [exact Sb | lia | lia]. }
      destruct (@resolveFixups_frame _ g 0 (Z.le_refl 0) S0) as (_ & _ & N0).
      assert (Out0 : forall k, (1 <= k <= 4)%nat ->
                forall o l, In (o, l) (fa ++ fb) ->
                  Z.of_nat (p + k) < o \/ o + 4 <= Z.of_nat (p + k)).
      { intros k Hk o l Hin. apply in_app_or in Hin. destruct Hin as [Hin | Hin].
        - destruct (@spaced_In _ _ _ _ _ Sa Hin). lia.
        - destruct (@spaced_In _ _ _ _ _ Sb Hin). lia. }
      unfold readUInt32LE, byte_at.
      replace (p + 1 + 1)%nat with (p + 2)%nat by lia.
      replace (p + 1 + 2)%nat with (p + 3)%nat by lia.
      replace (p + 1 + 3)%nat with (p + 4)%nat by lia.
      rewrite !N0 by (apply Out0; lia).
      rewrite (Orig 1%nat), (Orig 2%nat), (Orig 3%nat), (Orig 4%nat) by lia.
      reflexivity.
  - unfold byte_at. rewrite N by (apply Out; lia).
    now rewrite (Orig 5%nat) by lia.
Qed.

(** ** What the code generator lays out *)

(** Extra X12.  A CALL instruction naming a callee is emitted at its offset as
    the CALL opcode, a 32-bit little-endian word and the low byte of the
    argument count; after the fixups the word is the code offset recorded for
    the callee, or 0 when no function has that name. *)
Theorem calls_are_linked (pr : parseResult) (cg : codegenResult)
  (before after : list irFunc) (func : irFunc)
  (preceding following : list instr) (call : instr) (callee : string) :
  generate pr = Ok cg ->
  ir_functions (pr_ir pr) = before ++ func :: after ->
  f_instructions func = preceding ++ call :: following ->
  i_op call = OPCODES.CALL -> i_func call = Some callee ->
  let p := instructionOffset before func preceding in
  byte_at (cg_code cg) p = OPCODES.CALL /\
  readUInt32LE (cg_code cg) (p + 1)
    = to_uint32 (get_or_0 String.eqb callee (cg_functions cg)) /\
  byte_at (cg_code cg) (p + 5) = js_and (i_argc call) 255.
Proof.
  intros G Hf Hi Hop Hc p.
  destruct (generate_Ok _ G) as (table & g & _ & _ & _ & _ & Gf & Cc & _).
  pose proof (@generateFunctions_call_site table func call before after _ _ Hi Hop) as C.
  pose proof (generateFunctions_between (ir_functions (pr_ir pr)) table) as B.
  rewrite <- Hf, Gf in C. rewrite Gf in B. cbn [fst] in C.
  destruct B as (_ & L & _). cbn [fst snd] in L.
  rewrite Hc in C. rewrite Cc, <- L. now apply call_site_resolved.
Qed.

(** ** The functions the parser extracts *)

Lemma foldM_invariant {A S : Type} (P : S -> Prop) (f : S -> A -> outcome S) (l : list A) :
  (forall s x s', P s -> f s x = Ok s' -> P s') ->
  forall s s', P s -> foldM f l s = Ok s' -> P s'.
Proof.
  intros Hf. induction l as [| x l IH]; intros s s' Hs H; simpl in H.
  - now injection H as <-.
  - bind_inv H as s1 H1. eauto.
Qed.

Lemma obj_set_keys {A : Type} (key : string) (v : A) (obj : list (string * A)) (k : string) :
  In k (map fst (obj_set key v obj)) -> k = key \/ In k (map fst obj).
Proof.
  induction obj as [| [k0 x] obj IH]; simpl.
  - intros [H | []]; auto.
  - destruct (String.eqb k0 key); simpl; intros [H | H]; auto.
    destruct (IH H); auto.
Qed.

Lemma obj_set_NoDup {A : Type} (key : string) (v : A) (obj : list (string * A)) :
  NoDup (map fst obj) -> NoDup (map fst (obj_set key v obj)).
Proof.
  induction obj as [| [k0 x] obj IH]; simpl; intros H.
  - constructor; [intros [] | constructor].
  - inversion H as [| ? ? Hn Hd]; subst.
    destruct (String.eqb k0 key) eqn:E; simpl.
    + now constructor.
    + constructor; [| now apply IH].
      intros Hin. apply obj_set_keys in Hin. destruct Hin as [-> | Hin]; [| contradiction].
      now rewrite String.eqb_refl in E.
Qed.

Lemma functions_set_NoDup (key : string) (f : funcinfo) (functions : list (string * funcinfo)) :
  NoDup (map fst functions) -> NoDup (map fst (functions_set key f functions)).
Proof.
  unfold functions_set. destruct (String.eqb key "__proto__"); auto using obj_set_NoDup.
Qed.

Lemma extractFunctions_NoDup (ast : node) (functions : list (string * funcinfo)) :
  extractFunctions ast = Ok functions -> NoDup (map fst functions).
Proof.
  unfold extractFunctions.
  apply (@foldM_invariant _ _ (fun fs : list (string * funcinfo) => NoDup (map fst fs)));
    [| constructor].
  assert (D : forall s d s', NoDup (map fst s) -> visitDeclarator s d = Ok s' ->
                             NoDup (map fst s')).
  { intros s d s' Hs H. unfold visitDeclarator in H.
    repeat match type of H with
           | match ?x with _ => _ end = _ => destruct x
           end;
      try discriminate; injection H as <-; auto using functions_set_NoDup. }
  intros s n s' Hs H. destruct n; simpl in H; try (now injection H as <-);
    try (exact (@foldM_invariant _ _
                  (fun fs : list (string * funcinfo) => NoDup (map fst fs))
                  _ _ D _ _ Hs H));
    repeat match type of H with
           | match ?x with _ => _ end = _ => destruct x
           end;
    try discriminate; injection H as <-; auto using functions_set_NoDup.
Qed.

Lemma map_set_keys {V : Type} (k : string) (v : V) (m : list (string * V)) (k' : string) :
  In k' (map fst (map_set String.eqb k v m)) -> k' = k \/ In k' (map fst m).
Proof.
  induction m as [| [k0 x] m IH]; simpl.
  - intros [H | []]; auto.
  - destruct (String.eqb k0 k); simpl; intros [H | H]; auto.
    destruct (IH H); auto.
Qed.

Lemma map_get_None {V : Type} (k : string) (m : list (string * V)) :
  ~ In k (map fst m) -> map_get String.eqb k m = None.
Proof.
  induction m as [| [k0 x] m IH]; simpl; intros H; auto.
  destruct (String.eqb k0 k) eqn:E.
  - apply String.eqb_eq in E. tauto.
  - apply IH. tauto.
Qed.

Lemma generateFunctions_keys (functions : list irFunc) (table : stringTable) (name : string) :
  In name (map fst (snd (generateFunctions functions table))) ->
  In name (map f_name functions).
Proof.
  unfold generateFunctions.
  set (step := fun (acc : codegen * list (string * Z)) (func : irFunc) =>
                 let '(g, functionOffsets) := acc in
                 (generateFunction func table g,
                  map_set String.eqb (f_name func) (currentOffset g) functionOffsets)).
  assert (G : forall l acc,
             In name (map fst (snd (fold_left step l acc))) ->
             In name (map fst (snd acc)) \/ In name (map f_name l)).
  { induction l as [| f l IH]; intros [g offs] H; cbn [fold_left] in *; auto.
    destruct (IH _ H) as [H1 | H1]; [| right; now right].
    cbn [step snd] in H1. apply map_set_keys in H1.
    destruct H1 as [-> | H1]; [right; now left | now left]. }
  intros H. destruct (G _ _ H) as [[] | H1]. exact H1.
Qed.

(** ** The layout of the code section *)

(** Extra X9.  For a parsed source the generated code is as long as the sizes
    of the IR functions add up (one prologue byte, five bytes per local, and
    the bytes of each instruction), and the offset recorded for each function
    is the sum of the sizes of the functions before it. *)
Theorem code_is_the_functions_in_order (ast : node) (pr : parseResult) (cg : codegenResult) :
  parse (Parsed ast) = Ok pr -> generate pr = Ok cg ->
  List.length (cg_code cg) = list_sum (map functionSize (ir_functions (pr_ir pr))) /\
  cg_functions cg = functionOffsetsFrom 0 (ir_functions (pr_ir pr)).
Proof.
  intros P G.
  destruct (@parse_Ok _ _ P) as (Hf & _ & _ & Hir & _).
  destruct (@generateIR_Ok _ _ _ _ Hir) as (_ & Names & _).
  pose proof (@extractFunctions_NoDup _ _ Hf) as ND. rewrite <- Names in ND.
  destruct (@generate_Ok _ _ G) as (table & g & _ & _ & _ & _ & Gf & Cc & _).
  pose proof (generateFunctions_between (ir_functions (pr_ir pr)) table) as B.
  destruct (generateFunctions_sizes (ir_functions (pr_ir pr)) table) as [Len Offs].
  rewrite Gf in *. destruct B as (_ & _ & S & _). cbn [fst snd] in *.
  destruct (@resolveFixups_frame _ g 0 (Z.le_refl 0) S) as (_ & Len' & _).
  split; [| exact (Offs ND)].
  rewrite Cc. unfold resolveFixups. now rewrite Len'.
Qed.

(** Extra X13.  When code generation succeeds, the 32-bit target word of a
    CALL whose callee is not the name of any function of the IR is 0: the call
    is emitted without an error. *)
Theorem unknown_callee_calls_offset_zero (pr : parseResult) (cg : codegenResult)
  (before after : list irFunc) (func : irFunc)
  (preceding following : list instr) (call : instr) (callee : string) :
  generate pr = Ok cg ->
  ir_functions (pr_ir pr) = before ++ func :: after ->
  f_instructions func = preceding ++ call :: following ->
  i_op call = OPCODES.CALL -> i_func call = Some callee ->
  ~ In callee (map f_name (ir_functions (pr_ir pr))) ->
  readUInt32LE (cg_code cg) (instructionOffset before func preceding + 1) = 0.
Proof.
  intros G Hf Hi Hop Hc Hn.
  destruct (@generate_Ok _ _ G) as (table & g & _ & _ & _ & _ & Gf & Cc & _).
  pose proof (@generateFunctions_call_site table func call before after _ _ Hi Hop) as C.
  pose proof (generateFunctions_between (ir_functions (pr_ir pr)) table) as B.
  pose proof (@generateFunctions_keys (ir_functions (pr_ir pr)) table callee) as K.
  rewrite <- Hf, Gf in C. rewrite Gf in B, K. cbn [fst snd] in C, K.
  destruct B as (_ & L & _). cbn [fst snd] in L.
  rewrite Hc in C. apply call_site_resolved in C. destruct C as (_ & R & _).
  rewrite Cc, R, L. unfold get_or_0. rewrite map_get_None by tauto. reflexivity.
Qed.

(** ** What the parser lowers *)

(** Extra X6.  Every function of the IR of a parsed source consists of PUSH,
    PUSH_STR, LOAD_LOCAL, STORE_LOCAL, CALL_API, CALL, RET and POP
    instructions without label, jump target or entry mark, and its last
    instruction is a RET. *)
Theorem lowered_functions_are_straight_line (ast : node) (pr : parseResult) (f : irFunc) :
  parse (Parsed ast) = Ok pr -> In f (ir_functions (pr_ir pr)) ->
  forallb generated (f_instructions f) = true /\
  exists body r, f_instructions f = body ++ [r] /\ i_op r = OPCODES.RET.
Proof.
  intros P Hin.
  destruct (@parse_Ok _ _ P) as (_ & _ & _ & Hir & _).
  destruct (@generateIR_Ok _ _ _ _ Hir) as (_ & _ & F & _).
  rewrite Forall_forall in F. destruct (F f Hin) as (G & _ & (body & r & E & R) & _).
  split; [exact G |]. exists body, r. split; [exact E |].
  now apply Z.eqb_eq.
Qed.

(** Extra X7.  The string list of the IR of a parsed source holds no value
    twice, and it holds the operand of every PUSH_STR instruction and the
    name, syntax, description and category of every extracted command. *)
Theorem string_table_is_duplicate_free (ast : node) (pr : parseResult) :
  parse (Parsed ast) = Ok pr ->
  distinct (ir_strings (pr_ir pr)) = true /\
  (forall f i, In f (ir_functions (pr_ir pr)) -> In i (f_instructions f) ->
               i_op i = OPCODES.PUSH_STR -> In (i_value i) (ir_strings (pr_ir pr))) /\
  (forall cmd, In cmd (pr_commands pr) ->
               In (cmd_name cmd) (ir_strings (pr_ir pr)) /\
               In (cmd_syntax cmd) (ir_strings (pr_ir pr)) /\
               In (cmd_description cmd) (ir_strings (pr_ir pr)) /\
               In (cmd_category cmd) (ir_strings (pr_ir pr))).
Proof.
  intros P.
  destruct (@parse_Ok _ _ P) as (_ & _ & _ & Hir & _).
  destruct (@generateIR_Ok _ _ _ _ Hir) as ((D & _) & _ & F & _ & C).
  rewrite Forall_forall in F, C.
  split; [exact D |]. split.
  - intros f i Hf Hi Hop. destruct (F f Hf) as (_ & _ & _ & R). now apply R.
  - intros cmd Hc. exact (C cmd Hc).
Qed.

(** Extra X8.  The functions extracted from a source have pairwise different
    names, and the functions of the IR are these, by name and in the same
    order. *)
Theorem functions_are_one_per_name (ast : node) (pr : parseResult) :
  parse (Parsed ast) = Ok pr ->
  NoDup (map fst (pr_functions pr)) /\
  map f_name (ir_functions (pr_ir pr)) = map fst (pr_functions pr).
Proof.
  intros P.
  destruct (@parse_Ok _ _ P) as (Hf & _ & _ & Hir & _).
  destruct (@generateIR_Ok _ _ _ _ Hir) as (_ & Names & _).
  split; [exact (@extractFunctions_NoDup _ _ Hf) | exact Names].
Qed.

(** ** The other fields of the header *)

Lemma untouched_read16 (a b : nat) (buf buf' : list Z) (off : nat) :
  untouched a b buf buf' -> (off + 2 <= a \/ b <= off)%nat ->
  readUInt16LE buf' off = readUInt16LE buf off.
Proof.
  intros [_ H] Hoff. unfold readUInt16LE.
  rewrite !H by lia. reflexivity.
Qed.

Lemma untouched_read8 (a b : nat) (buf buf' : list Z) (off : nat) :
  untouched a b buf buf' -> (off + 1 <= a \/ b <= off)%nat ->
  readUInt8 buf' off = readUInt8 buf off.
Proof.
  intros [_ H] Hoff. unfold readUInt8.
  rewrite !H by lia. reflexivity.
Qed.

Lemma writeUInt16LE_read (v : Z) (off : nat) (buf buf' : list Z) :
  writeUInt16LE (Int v) off buf = Ok buf' -> (off + 2 <= List.length buf)%nat ->
  readUInt16LE buf' off = v.
Proof.
  intros H Hlen. apply writeUInt_Ok in H.
  destruct H as (v' & -> & Hv & _ & [Hn | Hn]); [discriminate |].
  injection Hn as <-. change (2 ^ (8 * Z.of_nat 2)) with 65536 in Hv.
  unfold readUInt16LE.
  rewrite !write_at_inside by (rewrite ?le_bytes_length; lia).
  replace (off - off)%nat with 0%nat by lia.
  replace (off + 1 - off)%nat with 1%nat by lia.
  change (le_bytes 2 v) with [Z.land (Z.shiftr v 0) 255; Z.land (Z.shiftr v 8) 255].
  cbn [nth]. change 255 with (Z.ones 8).
  rewrite !Z.land_ones by lia. rewrite !Z.shiftr_div_pow2 by lia.
  change (2 ^ 0) with 1. change (2 ^ 8) with 256.
  Z.to_euclidean_division_equations. lia.
Qed.

Lemma writeUInt8_read (v : Z) (off : nat) (buf buf' : list Z) :
  writeUInt8 (Int v) off buf = Ok buf' -> (off + 1 <= List.length buf)%nat ->
  readUInt8 buf' off = v.
Proof.
  intros H Hlen. apply writeUInt_Ok in H.
  destruct H as (v' & -> & Hv & _ & [Hn | Hn]); [discriminate |].
  injection Hn as <-. change (2 ^ (8 * Z.of_nat 1)) with 256 in Hv.
  unfold readUInt8.
  rewrite !write_at_inside by (rewrite ?le_bytes_length; lia).
  replace (off - off)%nat with 0%nat by lia.
  change (le_bytes 1 v) with [Z.land (Z.shiftr v 0) 255].
  cbn [nth]. change 255 with (Z.ones 8).
  rewrite !Z.land_ones by lia. rewrite !Z.shiftr_div_pow2 by lia.
  change (2 ^ 0) with 1. change (2 ^ 8) with 256.
  Z.to_euclidean_division_equations. lia.
Qed.

Lemma read16_app (hdr rest : list Z) (off : nat) :
  (off + 2 <= List.length hdr)%nat ->
  readUInt16LE (hdr ++ rest) off = readUInt16LE hdr off.
Proof.
  intros H. unfold readUInt16LE, byte_at.
  rewrite !app_nth1 by lia. reflexivity.
Qed.

Lemma read8_app (hdr rest : list Z) (off : nat) :
  (off + 1 <= List.length hdr)%nat ->
  readUInt8 (hdr ++ rest) off = readUInt8 hdr off.
Proof.
  intros H. unfold readUInt8, byte_at.
  rewrite !app_nth1 by lia. reflexivity.
Qed.

(** Each write of [write] leaves the header outside its field as it was. *)
Ltac untouched_by H :=
  first [ apply writeUInt_untouched in H
        | apply writeFixedString_untouched in H
        | apply writeDependency_untouched in H ].

Ltac frame_reads :=
  repeat match goal with
    | U : untouched _ _ ?b ?b' |- context [readUInt32LE ?b' ?off] =>
        rewrite (@untouched_read32 _ _ b b' off U) by (clear; lia)
    | U : untouched _ _ ?b ?b' |- context [readUInt16LE ?b' ?off] =>
        rewrite (@untouched_read16 _ _ b b' off U) by (clear; lia)
    | U : untouched _ _ ?b ?b' |- context [readUInt8 ?b' ?off] =>
        rewrite (@untouched_read8 _ _ b b' off U) by (clear; lia)
    end.

Ltac header_lengths :=
  repeat match goal with
    | U : untouched _ _ ?b ?b', L : List.length ?b = 512%nat |- _ =>
        lazymatch goal with
        | _ : List.length b' = 512%nat |- _ => fail
        | _ => assert (List.length b' = 512%nat)
                 by (rewrite (untouched_length U); exact L)
        end
    end.

Lemma write_fields (o : options) (cg : codegenResult) (mi : moduleInfo) (art : list Z) :
  write o cg mi = Ok art ->
  readUInt16LE art 4 = 2 /\
  readUInt16LE art 6 = (if opt_debug o then 1 else 0) /\
  readUInt16LE art 96 = js_and (mi_apiVersion mi) 65535 /\
  readUInt32LE art 100 = mi_kernelMinVersion mi /\
  readUInt32LE art 104 = mi_kernelMaxVersion mi /\
  readUInt32LE art 132 = 0 /\ readUInt32LE art 136 = 0 /\ readUInt32LE art 140 = 0 /\
  readUInt32LE art 164 = cg_initOffset cg /\
  readUInt32LE art 168 = cg_exitOffset cg /\
  readUInt8 art 345 = 0.
Proof.
  intros H. unfold write in H. cbv beta zeta in H.
  repeat inv_bind H.
  cbn [Nat.add] in *.
  injection H as <-.
  pose proof (@writeUInt16LE_read _ _ _ _ Hx2) as R4.
  pose proof (@writeUInt16LE_read _ _ _ _ Hx3) as R6.
  pose proof (@writeUInt16LE_read _ _ _ _ Hx9) as R96.
  pose proof (@writeUInt32LE_read _ _ _ _ Hx10) as R100.
  pose proof (@writeUInt32LE_read _ _ _ _ Hx11) as R104.
  pose proof (@writeUInt32LE_read _ _ _ _ Hx18) as R132.
  pose proof (@writeUInt32LE_read _ _ _ _ Hx19) as R136.
  pose proof (@writeUInt32LE_read _ _ _ _ Hx20) as R140.
  pose proof (@writeUInt32LE_read _ _ _ _ Hx21) as R164.
  pose proof (@writeUInt32LE_read _ _ _ _ Hx22) as R168.
  pose proof (@writeUInt8_read _ _ _ _ Hx35) as R345.
  repeat match goal with
         | H : _ = Ok _ |- _ => untouched_by H
         end.
  assert (L0 : List.length (repeat 0 512) = 512%nat) by apply repeat_length.
  header_lengths.
  rewrite !read16_app, !read32_app, !read8_app by (match goal with
                                                     | L : List.length ?b = 512%nat
                                                       |- context [List.length ?b] =>
                                                         rewrite L; clear; lia
                                                     end).
  frame_reads.
  repeat match goal with
         | R : (_ <= List.length ?b)%nat -> _, L : List.length ?b = 512%nat |- _ =>
             specialize (R ltac:(rewrite L; clear; lia))
         end.
  destruct R100 as [R100 _], R104 as [R104 _], R132 as [R132 _], R136 as [R136 _],
    R140 as [R140 _], R164 as [R164 _], R168 as [R168 _].
  repeat split; assumption.
Qed.

(** ** The compiler, end to end *)

Lemma compile_fields (o : options) (pr : parseResult) (c : compiled) :
  compile o pr = Ok c ->
  exists cg0 cg,
    validateModule pr = Ok tt /\
    extractModuleInfo o pr = Ok (info c) /\
    generate pr = Ok cg0 /\
    (if opt_optimize o then optimize cg0 = Ok cg else cg = cg0) /\
    write o cg (info c) = Ok (binary c) /\
    codeSize c = cg_codeSize cg /\ dataSize c = cg_dataSize cg.
Proof.
  unfold compile. intros H.
  bind_inv H as u Hu. bind_inv H as mi Hmi. bind_inv H as cg0 Hg.
  bind_inv H as cg Ho. bind_inv H as art Hw.
  injection H as <-. cbn [binary info codeSize dataSize].
  destruct u. exists cg0, cg. repeat split; auto.
  destruct (opt_optimize o); auto. now injection Ho.
Qed.

Lemma optimize_fields (cg0 cg : codegenResult) :
  optimize cg0 = Ok cg ->
  cg_functions cg0 = [] /\
  cg_code cg = cg_code cg0 /\ cg_data cg = cg_data cg0 /\
  cg_functions cg = cg_functions cg0 /\
  cg_initOffset cg = cg_initOffset cg0 /\ cg_exitOffset cg = cg_exitOffset cg0 /\
  cg_codeSize cg = cg_codeSize cg0 /\ cg_dataSize cg = cg_dataSize cg0.
Proof.
  unfold optimize, deadCodeElimination, constantFolding, peepholeOptimization,
    instructionPass.
  destruct (cg_functions cg0) eqn:E; simpl; [| discriminate].
  rewrite E. simpl. rewrite E. simpl. intros H. injection H as <-.
  simpl. auto 10.
Qed.

Lemma generate_sizes (pr : parseResult) (cg : codegenResult) :
  generate pr = Ok cg ->
  cg_codeSize cg = Z.of_nat (List.length (cg_code cg)) /\
  cg_dataSize cg = Z.of_nat (List.length (cg_data cg)) /\
  cg_initOffset cg = get_or_0 String.eqb "init"%string (cg_functions cg) /\
  cg_exitOffset cg = get_or_0 String.eqb "exit"%string (cg_functions cg).
Proof.
  unfold generate. intros H. bind_inv H as table Ht.
  destruct (generateFunctions (ir_functions (pr_ir pr)) table) as [g fo].
  bind_inv H as data Hd. injection H as <-. simpl. auto.
Qed.

Lemma functionOffsetsFrom_keys (functions : list irFunc) (offset : Z) :
  map fst (functionOffsetsFrom offset functions) = map f_name functions.
Proof.
  revert offset. induction functions as [| f l IH]; intros offset; simpl; [| rewrite IH];
    reflexivity.
Qed.

Lemma assoc_Some_In {A : Type} (key : string) (table : list (string * A)) (v : A) :
  assoc key table = Some v -> In key (map fst table).
Proof.
  induction table as [| [k x] t IH]; simpl; [discriminate |].
  destruct (String.eqb k key) eqn:E; [| auto].
  apply String.eqb_eq in E. auto.
Qed.

Lemma map_get_In {V : Type} (k : string) (m : list (string * V)) :
  In k (map fst m) -> exists v, map_get String.eqb k m = Some v /\ In (k, v) m.
Proof.
  induction m as [| [k0 x] m IH]; simpl; [intros [] |].
  destruct (String.eqb k0 k) eqn:E.
  - apply String.eqb_eq in E. subst. intros _. exists x. auto.
  - intros [H | H]; [subst; now rewrite String.eqb_refl in E |].
    destruct (IH H) as (v & G & I). exists v. auto.
Qed.

(** The functions of a module that passed [validateModule] have offsets, so
    the table of the code generator is not empty. *)
Lemma validated_offsets (ast : node) (pr : parseResult) (cg : codegenResult) (name : string) :
  parse (Parsed ast) = Ok pr -> generate pr = Ok cg ->
  In name (map fst (pr_functions pr)) ->
  exists v, map_get String.eqb name (cg_functions cg) = Some v /\
            In (name, v) (cg_functions cg).
Proof.
  intros P G Hin.
  destruct (@parse_Ok _ _ P) as (Hf & _ & _ & Hir & _).
  destruct (@generateIR_Ok _ _ _ _ Hir) as (_ & Names & _).
  pose proof (@extractFunctions_NoDup _ _ Hf) as ND. rewrite <- Names in ND.
  destruct (@generate_Ok _ _ G) as (table & g & _ & _ & _ & _ & Gf & _).
  destruct (generateFunctions_sizes (ir_functions (pr_ir pr)) table) as [_ Offs].
  rewrite Gf in Offs. cbn [snd] in Offs. specialize (Offs ND).
  apply map_get_In. rewrite Offs, functionOffsetsFrom_keys, Names. exact Hin.
Qed.

Lemma validateModule_Ok (pr : parseResult) :
  validateModule pr = Ok tt ->
  In "init"%string (map fst (pr_functions pr)) /\
  In "exit"%string (map fst (pr_functions pr)).
Proof.
  unfold validateModule. destruct (pr_moduleConfig pr); [| discriminate].
  destruct (negb (truthy (obj_get "name" l))); [discriminate |].
  destruct (assoc "init" (pr_functions pr)) eqn:I; [| discriminate].
  destruct (assoc "exit" (pr_functions pr)) eqn:E; [| discriminate].
  intros _. split; eapply assoc_Some_In; eauto.
Qed.

Lemma generate_prologues (pr : parseResult) (cg : codegenResult)
  (name : string) (offset : Z) :
  generate pr = Ok cg -> In (name, offset) (cg_functions cg) ->
  0 <= offset < Z.of_nat (List.length (cg_code cg)) /\
  byte_at (cg_code cg) (Z.to_nat offset) = OPCODES.NOP.
Proof.
  intros G Hin.
  destruct (@generate_Ok _ _ G) as (table & g & _ & _ & _ & _ & Gf & Cc & _).
  pose proof (generateFunctions_between (ir_functions (pr_ir pr)) table) as B.
  rewrite Gf in B. destruct B as (_ & _ & S & O). cbn [fst snd] in *.
  destruct (O _ _ Hin) as (R & N & X).
  destruct (@resolveFixups_frame _ g 0 (Z.le_refl 0) S) as (_ & Len & Fr).
  rewrite Cc. unfold resolveFixups. rewrite Len. split; [exact R |].
  unfold byte_at in *. rewrite Fr; [exact N |].
  intros o l Hol. rewrite Z2Nat.id by lia. eauto.
Qed.

(** Extra X10.  Every function offset the code generator returns lies inside
    the code, and the byte at that offset is the NOP of the function's
    prologue, also after the fixups were resolved. *)
Theorem function_offsets_are_prologues (pr : parseResult) (cg : codegenResult)
  (name : string) (offset : Z) :
  generate pr = Ok cg -> In (name, offset) (cg_functions cg) ->
  0 <= offset < Z.of_nat (List.length (cg_code cg)) /\
  byte_at (cg_code cg) (Z.to_nat offset) = OPCODES.NOP.
Proof.
  intros G Hin. exact (@generate_prologues _ _ _ _ G Hin).
Qed.

(** Extra X17.  No run of the compiler with the optimize option produces an
    artifact: whenever a source compiles, the option was off, and the same run
    with the option on ends with the TypeError of the optimizer iterating over
    the map of function offsets. *)
Theorem optimize_flag_is_fatal (o : options) (ast : node) (c : compiled) :
  akmcc o (Parsed ast) = Ok c ->
  opt_optimize o = false /\
  akmcc {| opt_debug := opt_debug o; opt_optimize := true;
           opt_verbose := opt_verbose o; opt_capabilities := opt_capabilities o |}
    (Parsed ast) = Throws (TypeError "func.instructions is not iterable").
Proof.
  unfold akmcc. intros H. bind_inv H as pr P.
  destruct (@parse_Ok _ _ P) as (_ & _ & _ & _ & E & _).
  rewrite E in H. rewrite P. cbn [bind]. rewrite E.
  destruct (@compile_fields _ _ _ H) as (cg0 & cg & V & Mi & G & O & _).
  destruct (@validateModule_Ok _ V) as [I _].
  destruct (@validated_offsets _ _ _ _ P G I) as (v & _ & Hin).
  assert (T : optimize cg0 = Throws (TypeError "func.instructions is not iterable")).
  { unfold optimize, deadCodeElimination, instructionPass.
    destruct (cg_functions cg0); [destruct Hin | reflexivity]. }
  split.
  - destruct (opt_optimize o); [| reflexivity]. rewrite T in O. discriminate.
  - unfold compile. rewrite V. cbn [bind].
    unfold extractModuleInfo in *. destruct (pr_moduleConfig pr); [| discriminate].
    cbn [bind opt_optimize]. rewrite G. cbn [bind]. rewrite T. reflexivity.
Qed.

(** Extra X18.  The inspector accepts every artifact the compiler returns and
    reads back what was written: format version 2, flags 1 exactly when debug
    is on, header size 512, total size equal to the file length, API version
    0x0200, kernel minimum 0x00080000 and maximum 0, code offset 512, the code
    and data sizes the compiler reports, zero rodata and bss fields and
    signature type 0. *)
Theorem inspector_reads_back_the_header (o : options) (pr : parseResult) (c : compiled)
  (filepath : string) :
  compile o pr = Ok c ->
  exists r,
    showModuleInfo filepath (Some (binary c)) = Prints r /\
    r_formatVersion r = 2 /\
    r_flags r = (if opt_debug o then 1 else 0) /\
    r_headerSize r = 512 /\
    r_totalSize r = Z.of_nat (List.length (binary c)) /\
    r_apiVersion r = 512 /\
    r_kernelMin r = 524288 /\ r_kernelMax r = 0 /\
    r_codeOffset r = 512 /\ r_codeSize r = codeSize c /\
    r_dataOffset r = 512 + codeSize c /\ r_dataSize r = dataSize c /\
    r_rodataOffset r = 0 /\ r_rodataSize r = 0 /\ r_bssSize r = 0 /\
    r_signatureType r = 0.
Proof.
  intros H.
  destruct (@compile_fields _ _ _ H) as (cg0 & cg & _ & Mi & G & O & W & Cs & Ds).
  destruct (@generate_sizes _ _ G) as (Gc & Gd & _).
  assert (Sizes : cg_codeSize cg = Z.of_nat (List.length (cg_code cg)) /\
                  cg_dataSize cg = Z.of_nat (List.length (cg_data cg))).
  { destruct (opt_optimize o).
    - destruct (@optimize_fields _ _ O) as (_ & -> & -> & _ & _ & _ & -> & ->). auto.
    - subst cg. auto. }
  destruct Sizes as [Sc Sd].
  destruct (@write_fields _ _ _ _ W)
    as (F4 & F6 & F96 & F100 & F104 & F132 & F136 & F140 & _ & _ & F345).
  destruct (@write_layout _ _ _ _ W) as (hdr & symtab & strtab & L).
  destruct (layout_sections L) as (Tot & Co & Cz & Dz & _).
  assert (Long : (Z.of_nat (List.length (binary c)) <? 512) = false).
  { apply Z.ltb_ge. rewrite (lay_art L), length_app, (lay_hdr L). lia. }
  assert (Magic : readUInt32LE (binary c) 0 = 0x324D4B41).
  { rewrite (lay_art L), read32_app by (rewrite (lay_hdr L); lia). apply (lay_magic L). }
  unfold showModuleInfo. rewrite Long, Magic. cbn [Z.eqb Pos.eqb negb].
  eexists. split; [reflexivity |].
  cbn [r_formatVersion r_flags r_headerSize r_totalSize r_apiVersion r_kernelMin
       r_kernelMax r_codeOffset r_codeSize r_dataOffset r_dataSize r_rodataOffset
       r_rodataSize r_bssSize r_signatureType].
  unfold extractModuleInfo in Mi. destruct (pr_moduleConfig pr); [| discriminate].
  injection Mi as Mi. rewrite <- Mi in F96, F100, F104.
  cbn [moduleInfoOf mi_apiVersion mi_kernelMinVersion mi_kernelMaxVersion] in F96, F100, F104.
  unfold total_size, code_offset, code_size, data_size in *.
  assert (Do : readUInt32LE (binary c) 124 = 512 + Z.of_nat (List.length (cg_code cg))).
  { rewrite (lay_art L), read32_app by (rewrite (lay_hdr L); lia).
    apply (lay_data_offset L). }
  assert (Hs : readUInt32LE (binary c) 8 = 512).
  { rewrite (lay_art L), read32_app by (rewrite (lay_hdr L); lia).
    apply (lay_header_size L). }
  rewrite Cs, Ds, Sc, Sd.
  repeat split; auto.
Qed.


(** A number other than zero as [options.capabilities] is what the header
    gets, so it is a positive value of 32 bits. *)
Lemma override_written (o : options) (pr : parseResult) (c : compiled)
  (caps : Z) :
  compile o pr = Ok c -> opt_capabilities o = JNum (Int caps) -> caps <> 0 ->
  0 < caps < two32 /\ capabilities_of (binary c) = caps.
Proof.
  intros H Ho Hz.
  destruct (@compile_fields _ _ _ H) as (cg0 & cg & _ & Mi & _ & _ & W & _).
  destruct (@write_layout _ _ _ _ W) as (hdr & symtab & strtab & L).
  destruct (lay_caps L) as (n & Hn & Hread & Hr).
  unfold extractModuleInfo in Mi. destruct (pr_moduleConfig pr); [| discriminate].
  injection Mi as Mi. rewrite <- Mi in Hn.
  cbn [moduleInfoOf mi_capabilities] in Hn. rewrite Ho in Hn.
  assert (T : truthy (JNum (Int caps)) = true).
  { cbn [truthy]. destruct (caps =? 0) eqn:E; [apply Z.eqb_eq in E; contradiction | auto]. }
  unfold js_lor in Hn. rewrite T in Hn. rewrite T in Hn.
  simpl in Hn. injection Hn as <-.
  destruct Hread as [Hread | Hread]; [discriminate |]. injection Hread as Hread.
  assert (E : capabilities_of (binary c) = readUInt32LE hdr 108).
  { unfold capabilities_of. rewrite (lay_art L).
    apply read32_app. rewrite (lay_hdr L). clear. lia. }
  rewrite E, <- Hread. split; [lia | reflexivity].
Qed.

(** Extra X20.  When the compiler's capabilities option is a number other than
    0 and compilation succeeds, the capability mask of the header is exactly
    that number (the mask inferred from the source is not merged in), and the
    number lies strictly between 0 and 2^32. *)
Theorem capabilities_override_replaces (o : options) (pr : parseResult) (c : compiled)
  (caps : Z) :
  compile o pr = Ok c -> opt_capabilities o = JNum (Int caps) -> caps <> 0 ->
  0 < caps < two32 /\ capabilities_of (binary c) = caps.
Proof.
  intros H Ho Hz. exact (@override_written o pr c caps H Ho Hz).
Qed.

(** ** The capabilities argument *)

Lemma name_char_facts (c : ascii) :
  name_char c = true ->
  is_space c = false /\ Ascii.eqb c "," = false /\ upper c = c /\
  (code_unit c <? 128) = true /\ Ascii.eqb c "0" = false.
Proof.
  destruct c as [[] [] [] [] [] [] [] []]; vm_compute; intros H;
    try discriminate; auto.
Qed.

Lemma split_plain (s : string) :
  forallb name_char (list_ascii_of_string s) = true -> js_split "," s = [s].
Proof.
  induction s as [| c s IH]; cbn [list_ascii_of_string forallb js_split]; auto.
  intros H. apply andb_prop in H. destruct H as [Hc Hs].
  destruct (name_char_facts _ Hc) as (_ & -> & _).
  now rewrite IH.
Qed.

Lemma split_app_comma (s rest : string) :
  forallb name_char (list_ascii_of_string s) = true ->
  js_split "," (s ++ String "," rest) = s :: js_split "," rest.
Proof.
  induction s as [| c s IH]; cbn [list_ascii_of_string forallb js_split String.append].
  - intros _. reflexivity.
  - intros H. apply andb_prop in H. destruct H as [Hc Hs].
    destruct (name_char_facts _ Hc) as (_ & -> & _).
    now rewrite IH.
Qed.

(** The names of a list joined by [", "] come back from [split] with a
    space before each but the first. *)
Lemma split_concat (name : string) (names : list string) :
  forallb plain_name (name :: names) = true ->
  js_split "," (String.concat ", " (name :: names)) = name :: map (String " ") names.
Proof.
  revert name. induction names as [| m names IH]; intros name H.
  - cbn [forallb] in H. rewrite andb_true_r in H. apply andb_prop in H.
    cbn [String.concat map]. apply split_plain, H.
  - cbn [forallb] in H. apply andb_prop in H. destruct H as [Hn Hr].
    apply andb_prop in Hn. destruct Hn as [_ Hn].
    change (String.concat ", " (name :: m :: names))
      with (name ++ String "," (String " " (String.concat ", " (m :: names))))%string.
    rewrite split_app_comma by exact Hn.
    cbn [js_split]. change (Ascii.eqb " " ",") with false. cbv iota.
    rewrite (IH m Hr). reflexivity.
Qed.

Lemma trimEnd_plain (s : string) :
  forallb name_char (list_ascii_of_string s) = true -> trimEnd s = s.
Proof.
  induction s as [| c s IH]; cbn [list_ascii_of_string forallb trimEnd]; auto.
  intros H. apply andb_prop in H. destruct H as [Hc Hs].
  destruct (name_char_facts _ Hc) as (Sp & _).
  rewrite (IH Hs), Sp. now destruct s.
Qed.

Lemma trim_plain (s : string) :
  plain_name s = true -> trim s = s /\ trim (String " " s) = s.
Proof.
  unfold plain_name. intros H. apply andb_prop in H. destruct H as [Hne H].
  assert (T : trimStart s = s).
  { destruct s as [| c s]; [reflexivity |].
    cbn [list_ascii_of_string forallb] in H. apply andb_prop in H.
    destruct (name_char_facts c (proj1 H)) as (Sp & _).
    cbn [trimStart]. now rewrite Sp. }
  unfold trim. cbn [trimStart]. change (is_space " ") with true. cbv iota.
  rewrite T. split; now apply trimEnd_plain.
Qed.

Lemma toUpperCase_plain (s : string) :
  forallb name_char (list_ascii_of_string s) = true -> toUpperCase s = Ok s.
Proof.
  intros H. unfold toUpperCase.
  assert (A : forallb (fun c => code_unit c <? 128) (list_ascii_of_string s) = true /\
              string_of_list_ascii (map upper (list_ascii_of_string s)) = s).
  { induction s as [| c s IH]; cbn [list_ascii_of_string forallb map string_of_list_ascii];
      [auto |].
    cbn [list_ascii_of_string forallb] in H. apply andb_prop in H. destruct H as [Hc Hs].
    destruct (name_char_facts _ Hc) as (_ & _ & U & A & _).
    destruct (IH Hs) as [I1 I2]. rewrite U, A, I1, I2. auto. }
  destruct A as [-> ->]. reflexivity.
Qed.

Lemma names_of_concat (name : string) (names : list string) :
  forallb plain_name (name :: names) = true ->
  mapM (fun s => toUpperCase (trim s)) (js_split "," (String.concat ", " (name :: names)))
    = Ok (name :: names).
Proof.
  intros H. rewrite split_concat by exact H.
  cbn [forallb] in H. apply andb_prop in H. destruct H as [Hn Hr].
  cbn [mapM]. rewrite (proj1 (trim_plain _ Hn)).
  unfold plain_name in Hn. apply andb_prop in Hn.
  rewrite toUpperCase_plain by apply Hn. cbn [bind].
  assert (R : mapM (fun s => toUpperCase (trim s)) (map (String " ") names) = Ok names).
  { induction names as [| m names IH]; [reflexivity |].
    cbn [forallb] in Hr. apply andb_prop in Hr. destruct Hr as [Hm Hr].
    cbn [map mapM]. rewrite (proj2 (trim_plain _ Hm)).
    unfold plain_name in Hm. apply andb_prop in Hm.
    rewrite toUpperCase_plain by apply Hm. cbn [bind]. now rewrite IH. }
  now rewrite R.
Qed.

Lemma concat_plain (name : string) (names : list string) :
  plain_name name = true ->
  truthy (JStr (String.concat ", " (name :: names))) = true /\
  String.prefix "0x" (String.concat ", " (name :: names)) = false.
Proof.
  unfold plain_name. intros H. apply andb_prop in H. destruct H as [Hne H].
  destruct name as [| c name]; [discriminate |].
  cbn [list_ascii_of_string forallb] in H. apply andb_prop in H. destruct H as [Hc _].
  destruct (name_char_facts _ Hc) as (_ & _ & _ & _ & Z0).
  assert (E : exists rest, String.concat ", " (String c name :: names) = String c rest).
  { destruct names; cbn [String.concat String.append]; eauto. }
  destruct E as (rest & ->). split; [reflexivity |].
  cbn [String.prefix]. destruct (ascii_dec "0" c) as [<- | _]; [discriminate | reflexivity].
Qed.

Lemma lor_range (a b : Z) :
  0 <= a < 2147483648 -> 0 <= b < 2147483648 -> 0 <= Z.lor a b < 2147483648.
Proof.
  intros Ha Hb. split; [apply Z.lor_nonneg; lia |].
  destruct (Z.eq_dec (Z.lor a b) 0) as [-> | Hz]; [lia |].
  change 2147483648 with (2 ^ 31). apply Z.log2_lt_pow2.
  - assert (0 <= Z.lor a b) by (apply Z.lor_nonneg; lia). lia.
  - rewrite Z.log2_lor by lia.
    assert (La : Z.log2 a < 31).
    { destruct (Z.eq_dec a 0) as [-> | ?]; [simpl; lia |].
      apply Z.log2_lt_pow2; [lia | exact (proj2 Ha)]. }
    assert (Lb : Z.log2 b < 31).
    { destruct (Z.eq_dec b 0) as [-> | ?]; [simpl; lia |].
      apply Z.log2_lt_pow2; [lia | exact (proj2 Hb)]. }
    lia.
Qed.

Lemma land_pow2 (a k : Z) :
  0 <= k -> Z.land a (2 ^ k) = if Z.testbit a k then 2 ^ k else 0.
Proof.
  intros Hk. apply Z.bits_inj'. intros n Hn.
  rewrite Z.land_spec, Z.pow2_bits_eqb by lia.
  destruct (Z.eqb_spec k n) as [<- | Hne].
  - rewrite andb_true_r. destruct (Z.testbit a k) eqn:E.
    + rewrite Z.pow2_bits_eqb by lia. now rewrite Z.eqb_refl.
    + now rewrite Z.bits_0.
  - rewrite andb_false_r. destruct (Z.testbit a k).
    + rewrite Z.pow2_bits_eqb by lia. symmetry. now apply Z.eqb_neq.
    + now rewrite Z.bits_0.
Qed.

Lemma pow2_range (k : Z) : 0 <= k < 31 -> 0 < 2 ^ k < 2147483648.
Proof.
  intros Hk. split; [apply Z.pow_pos_nonneg; lia |].
  change 2147483648 with (2 ^ 31). apply Z.pow_lt_mono_r; lia.
Qed.

(** The names of the bits of [caps] among those of [defs] add up to these
    bits. *)
Lemma fold_names (caps : Z) (defs : list (Z * string)) (acc : Z) :
  Forall named_bit defs -> 0 <= acc < 2147483648 ->
  fold_left
    (fun result name =>
       match assoc name CAPABILITIES_entries with
       | Some capability => js_or result capability
       | None => result
       end)
    (map snd (filter (fun entry => negb (js_and caps (fst entry) =? 0)) defs)) acc
  = Z.lor acc (Z.land caps (fold_right Z.lor 0 (map fst defs))).
Proof.
  intros F. revert acc. induction F as [| [bit name] defs (A & k & Hk & B) F IH];
    intros acc Ha.
  - cbn [filter map fold_left fold_right]. now rewrite Z.land_0_r, Z.lor_0_r.
  - cbn [fst snd] in A, B. cbn [filter map fold_right fst].
    pose proof (pow2_range Hk) as Hb. rewrite <- B in Hb.
    assert (J : js_and caps bit = Z.land caps bit).
    { unfold js_and. rewrite (@to_int32_small bit) by lia.
      apply land_to_int32. unfold two32. lia. }
    rewrite J, Z.land_lor_distr_r.
    assert (P : Z.land caps bit = if Z.testbit caps k then bit else 0)
      by (rewrite B; apply land_pow2; lia).
    rewrite P. destruct (Z.testbit caps k).
    + assert (Nz : (bit =? 0) = false) by (apply Z.eqb_neq; lia).
      rewrite Nz. cbn [negb map fold_left snd]. rewrite A.
      assert (O : js_or acc bit = Z.lor acc bit).
      { unfold js_or. now rewrite !to_int32_small by lia. }
      rewrite O, IH by (apply lor_range; lia).
      now rewrite Z.lor_assoc.
    + cbn [Z.eqb negb]. rewrite IH by exact Ha. now rewrite Z.lor_0_l.
Qed.

Lemma capDefs_named : Forall named_bit capDefs.
Proof.
  unfold capDefs.
  repeat (constructor;
          [split; [reflexivity | cbn [fst];
                   first [ exists 0; split; [lia | reflexivity]
                         | exists 1; split; [lia | reflexivity]
                         | exists 2; split; [lia | reflexivity]
                         | exists 3; split; [lia | reflexivity]
                         | exists 4; split; [lia | reflexivity]
                         | exists 5; split; [lia | reflexivity]
                         | exists 6; split; [lia | reflexivity]
                         | exists 7; split; [lia | reflexivity]
                         | exists 8; split; [lia | reflexivity]
                         | exists 9; split; [lia | reflexivity]
                         | exists 10; split; [lia | reflexivity]
                         | exists 11; split; [lia | reflexivity]
                         | exists 12; split; [lia | reflexivity]
                         | exists 13; split; [lia | reflexivity]
                         | exists 14; split; [lia | reflexivity]
                         | exists 15; split; [lia | reflexivity]
                         | exists 16; split; [lia | reflexivity]
                         | exists 17; split; [lia | reflexivity]
                         | exists 18; split; [lia | reflexivity]
                         | exists 19; split; [lia | reflexivity] ]] |]).
  constructor.
Qed.

Lemma capNames_plain (caps : Z) : forallb plain_name (capNames caps) = true.
Proof.
  unfold capNames. apply forallb_forall. intros name H.
  apply in_map_iff in H. destruct H as (entry & <- & H).
  apply filter_In in H. destruct H as [H _].
  assert (A : forallb (fun e : Z * string => plain_name (snd e)) capDefs = true)
    by reflexivity.
  rewrite forallb_forall in A. now apply A.
Qed.

(** Extra X24.  The capability names the inspector lists for a mask, joined
    with ', ' as it prints them, are parsed by parseCapabilities to the mask
    restricted to the twenty defined bits, whenever at least one name is
    listed. *)
Theorem listed_names_parse_back (caps : Z) :
  capNames caps <> [] ->
  parseCapabilities (JStr (capNamesText caps)) = Ok (JNum (Int (Z.land caps 1048575))).
Proof.
  intros Hne. unfold capNamesText.
  pose proof (capNames_plain caps) as P.
  pose proof (@fold_names caps capDefs 0 capDefs_named ltac:(lia)) as F.
  fold (capNames caps) in F.
  destruct (capNames caps) as [| name names]; [contradiction |].
  assert (Pn : plain_name name = true) by (cbn [forallb] in P; now apply andb_prop in P).
  destruct (@concat_plain name names Pn) as [T X].
  unfold parseCapabilities. rewrite T, X. cbn [negb].
  rewrite names_of_concat by exact P. cbn [bind].
  rewrite F. reflexivity.
Qed.

Lemma mapM_In {A B : Type} (f : A -> outcome B) (l : list A) (ys : list B) (x : A) (y : B) :
  mapM f l = Ok ys -> In x l -> f x = Ok y -> In y ys.
Proof.
  revert ys. induction l as [| a l IH]; intros ys H Hin Hx; [destruct Hin |].
  cbn [mapM] in H. bind_inv H as b Hb. bind_inv H as bs Hbs. injection H as <-.
  destruct Hin as [-> | Hin].
  - rewrite Hx in Hb. injection Hb as <-. now left.
  - right. eauto.
Qed.

Lemma mapM_In_inv {A B : Type} (f : A -> outcome B) (l : list A) (ys : list B) (y : B) :
  mapM f l = Ok ys -> In y ys -> exists x, In x l /\ f x = Ok y.
Proof.
  revert ys. induction l as [| a l IH]; intros ys H Hin.
  - injection H as <-. destruct Hin.
  - cbn [mapM] in H. bind_inv H as b Hb. bind_inv H as bs Hbs. injection H as <-.
    destruct Hin as [<- | Hin].
    + exists a. split; [now left | exact Hb].
    + destruct (IH _ Hbs Hin) as (x & I & E). exists x. split; [now right | exact E].
Qed.

Lemma fold_names_all (names : list string) (acc : Z) :
  In "ALL"%string names ->
  fold_left
    (fun result name =>
       match assoc name CAPABILITIES_entries with
       | Some capability => js_or result capability
       | None => result
       end) names acc = -1.
Proof.
  assert (M : forall l, fold_left
                          (fun result name =>
                             match assoc name CAPABILITIES_entries with
                             | Some capability => js_or result capability
                             | None => result
                             end) l (-1) = -1).
  { induction l as [| n l IH]; [reflexivity |]. cbn [fold_left].
    destruct (assoc n CAPABILITIES_entries) as [c |]; [| exact IH].
    unfold js_or. change (to_int32 (-1)) with (-1). rewrite Z.lor_m1_l. exact IH. }
  revert acc. induction names as [| n names IH]; intros acc Hin; [destruct Hin |].
  cbn [fold_left]. destruct Hin as [-> | Hin]; [| now apply IH].
  change (assoc "ALL" CAPABILITIES_entries) with (Some CAPABILITIES.ALL).
  unfold js_or. change (to_int32 CAPABILITIES.ALL) with (-1). rewrite Z.lor_m1_r. apply M.
Qed.

Lemma fold_names_unknown (names : list string) (acc : Z) :
  (forall name, In name names -> assoc name CAPABILITIES_entries = None) ->
  fold_left
    (fun result name =>
       match assoc name CAPABILITIES_entries with
       | Some capability => js_or result capability
       | None => result
       end) names acc = acc.
Proof.
  revert acc. induction names as [| n names IH]; intros acc H; [reflexivity |].
  cbn [fold_left]. rewrite (H n) by now left. apply IH. intros. apply H. now right.
Qed.

(** The names of a capabilities argument that is not empty and has no
    prefix [0x]. *)
Lemma parseCapabilities_names (s : string) (v : jsval) :
  String.prefix "0x" s = false -> parseCapabilities (JStr s) = Ok v ->
  s = ""%string /\ v = JNull \/
  exists names,
    mapM (fun s => toUpperCase (trim s)) (js_split "," s) = Ok names /\
    v = JNum (Int (fold_left
                     (fun result name =>
                        match assoc name CAPABILITIES_entries with
                        | Some capability => js_or result capability
                        | None => result
                        end) names 0)).
Proof.
  intros X H. unfold parseCapabilities in H. cbn [truthy] in H.
  destruct (String.eqb s "") eqn:E.
  - apply String.eqb_eq in E. left. cbn [negb] in H. now injection H as <-.
  - cbn [negb] in H. rewrite X in H. bind_inv H as names Hn. injection H as <-.
    right. now exists names.
Qed.

(** Extra X25.  If one of the comma-separated names of a capabilities argument
    that does not start with 0x is ALL (in any case, with surrounding spaces),
    parseCapabilities returns -1, and no compilation with this value as
    capabilities option succeeds. *)
Theorem all_capabilities_never_compile (s : string) (v : jsval) (o : options)
  (pr : parseResult) (c : compiled) :
  String.prefix "0x" s = false ->
  (exists name, In name (js_split "," s) /\ toUpperCase (trim name) = Ok "ALL"%string) ->
  parseCapabilities (JStr s) = Ok v ->
  v = JNum (Int (-1)) /\ (opt_capabilities o = v -> compile o pr <> Ok c).
Proof.
  intros X (name & Hin & Hu) H.
  destruct (@parseCapabilities_names s v X H) as [[-> _] | (names & Hn & ->)].
  - cbn [js_split In] in Hin. destruct Hin as [<- | []]. discriminate Hu.
  - rewrite fold_names_all by (eapply mapM_In; eauto).
    split; [reflexivity |]. intros Ho Hc.
    destruct (@override_written o pr c (-1) Hc Ho) as [R _]; lia.
Qed.

(** Extra X26.  For a capabilities argument that does not start with 0x and
    none of whose names is a key of CAPABILITIES, compiling with the value
    parseCapabilities returns for it gives the same result as compiling
    without a capabilities option. *)
Theorem unknown_names_are_ignored (s : string) (v : jsval) (o : options)
  (pr : parseResult) :
  String.prefix "0x" s = false ->
  (forall name u, In name (js_split "," s) -> toUpperCase (trim name) = Ok u ->
                  assoc u CAPABILITIES_entries = None) ->
  parseCapabilities (JStr s) = Ok v -> opt_capabilities o = v ->
  compile o pr =
    compile {| opt_debug := opt_debug o; opt_optimize := opt_optimize o;
               opt_verbose := opt_verbose o; opt_capabilities := JNull |} pr.
Proof.
  intros X U H Ho.
  assert (V : v = JNull \/ v = JNum (Int 0)).
  { destruct (@parseCapabilities_names s v X H) as [[_ ->] | (names & Hn & ->)]; [now left |].
    right. rewrite fold_names_unknown; [reflexivity |].
    intros name Hin. destruct (@mapM_In_inv _ _ _ _ _ _ Hn Hin) as (x & Ix & Ex). eauto. }
  destruct o as [d op vb caps]. cbn [opt_capabilities opt_debug opt_optimize opt_verbose] in *.
  subst caps. destruct V as [-> | ->]; [reflexivity |].
  unfold compile, extractModuleInfo. destruct (pr_moduleConfig pr); reflexivity.
Qed.

(** ** The capabilities the parser infers *)

Lemma js_or_small (a b : Z) :
  0 <= a < 2147483648 -> 0 <= b < 2147483648 ->
  js_or a b = Z.lor a b /\ 0 <= js_or a b < 2147483648.
Proof.
  intros Ha Hb. unfold js_or. rewrite !to_int32_small by lia.
  split; [reflexivity | now apply lor_range].
Qed.

Lemma API_capability_small (method : string) (apiInfo : api_info) :
  assoc method API_FUNCTIONS = Some apiInfo -> 0 <= capability apiInfo < 2147483648.
Proof.
  intros H. apply assoc_In in H.
  assert (F : forallb (fun e => (0 <=? capability (snd e))
                                && (capability (snd e) <? 2147483648))
                API_FUNCTIONS = true) by (vm_compute; reflexivity).
  rewrite forallb_forall in F. specialize (F _ H). cbn [snd] in F.
  apply andb_true_iff in F. destruct F as [F1 F2].
  apply Z.leb_le in F1. apply Z.ltb_lt in F2. lia.
Qed.

Lemma fold_call_capability_bits (calls : list apiCall) (caps n : Z) :
  0 <= caps < 2147483648 ->
  0 <= fold_left call_capability calls caps < 2147483648 /\
  (Z.testbit (fold_left call_capability calls caps) n = true ->
   Z.testbit caps n = true \/
   exists call method apiInfo,
     In call calls /\ call_method call = Some method /\
     assoc method API_FUNCTIONS = Some apiInfo /\
     Z.testbit (capability apiInfo) n = true).
Proof.
  revert caps. induction calls as [| call calls IH]; intros caps Hc; cbn [fold_left].
  - split; [exact Hc | now left].
  - assert (S : 0 <= call_capability caps call < 2147483648 /\
                (Z.testbit (call_capability caps call) n = true ->
                 Z.testbit caps n = true \/
                 exists method apiInfo,
                   call_method call = Some method /\
                   assoc method API_FUNCTIONS = Some apiInfo /\
                   Z.testbit (capability apiInfo) n = true)).
    { unfold call_capability. destruct (call_method call) as [m |]; [| now auto].
      destruct (assoc m API_FUNCTIONS) as [apiInfo |] eqn:A; [| now auto].
      destruct (@js_or_small caps (capability apiInfo) Hc (API_capability_small _ A))
        as [-> R].
      split; [exact R |]. rewrite Z.lor_spec. intros H. apply orb_true_iff in H.
      destruct H as [H | H]; [now left | right]. now exists m, apiInfo. }
    destruct S as [R1 B1]. destruct (IH _ R1) as [R B]. split; [exact R |].
    intros H. destruct (B H) as [H1 | (c & m & a & I & M & A & T)].
    + destruct (B1 H1) as [H0 | (m & a & M & A & T)]; [now left | right].
      exists call, m, a. auto using in_eq.
    + right. exists c, m, a. auto using in_cons.
Qed.

(** Extra X27.  Every bit of the mask computeRequiredCapabilities returns is a
    bit of LOG, or a bit of COMMAND when at least one command was extracted,
    or a bit of the capability of an API method that one of the extracted
    calls names. *)
Theorem inferred_capabilities_are_needed (apiCalls : list apiCall) (commands : list command)
  (n : Z) :
  Z.testbit (computeRequiredCapabilities apiCalls commands) n = true ->
  Z.testbit CAPABILITIES.LOG n = true \/
  commands <> [] /\ Z.testbit CAPABILITIES.COMMAND n = true \/
  exists call method apiInfo,
    In call apiCalls /\ call_method call = Some method /\
    assoc method API_FUNCTIONS = Some apiInfo /\
    Z.testbit (capability apiInfo) n = true.
Proof.
  unfold computeRequiredCapabilities. cbv zeta. intros H.
  set (start := if 0 <? Z.of_nat (List.length commands)
                then js_or 0 CAPABILITIES.COMMAND else 0) in *.
  assert (Hs : 0 <= start < 2147483648 /\
               (Z.testbit start n = true ->
                commands <> [] /\ Z.testbit CAPABILITIES.COMMAND n = true)).
  { unfold start. destruct commands as [| cmd commands].
    - cbn [List.length]. change (0 <? Z.of_nat 0) with false. cbv iota.
      split; [lia |]. rewrite Z.bits_0. discriminate.
    - replace (0 <? Z.of_nat (List.length (cmd :: commands))) with true
        by (symmetry; apply Z.ltb_lt; cbn [List.length]; lia).
      change (js_or 0 CAPABILITIES.COMMAND) with CAPABILITIES.COMMAND.
      split; [unfold CAPABILITIES.COMMAND; lia |]. intros T. split; [discriminate | exact T]. }
  destruct Hs as [Rs Bs].
  destruct (@fold_call_capability_bits apiCalls start n Rs) as [R B].
  assert (L : 0 <= CAPABILITIES.LOG < 2147483648) by (unfold CAPABILITIES.LOG; lia).
  destruct (@js_or_small _ _ R L) as [E _]. rewrite E, Z.lor_spec in H.
  apply orb_true_iff in H. destruct H as [H | H]; [| now left].
  destruct (B H) as [H0 | H1]; [right; left; now apply Bs | right; right; exact H1].
Qed.

(** ** The symbol table *)

Lemma symbolEntry_fields (nameOffset offset : Z) (entry : list Z) :
  symbolEntry nameOffset offset = Ok entry ->
  List.length entry = 12%nat /\
  readUInt32LE entry 0 = nameOffset /\ readUInt32LE entry 4 = offset /\
  readUInt16LE entry 8 = 0 /\
  readUInt8 entry 10 = AKM_FORMAT.SYM_FUNC /\ readUInt8 entry 11 = AKM_FORMAT.BIND_GLOBAL.
Proof.
  unfold symbolEntry. intros H. cbv beta zeta in H.
  bind_inv H as e0 H0. bind_inv H as e1 H1. bind_inv H as e2 H2. bind_inv H as e3 H3.
  pose proof (@writeUInt32LE_read _ _ _ _ H0) as R0.
  pose proof (@writeUInt32LE_read _ _ _ _ H1) as R4.
  pose proof (@writeUInt16LE_read _ _ _ _ H2) as R8.
  pose proof (@writeUInt8_read _ _ _ _ H3) as R10.
  pose proof (@writeUInt8_read _ _ _ _ H) as R11.
  apply writeUInt_untouched in H0, H1, H2, H3, H.
  assert (L : List.length (repeat 0 12) = 12%nat) by apply repeat_length.
  assert (L0 : List.length e0 = 12%nat) by (rewrite (untouched_length H0); exact L).
  assert (L1 : List.length e1 = 12%nat) by (rewrite (untouched_length H1); exact L0).
  assert (L2 : List.length e2 = 12%nat) by (rewrite (untouched_length H2); exact L1).
  assert (L3 : List.length e3 = 12%nat) by (rewrite (untouched_length H3); exact L2).
  assert (L4 : List.length entry = 12%nat) by (rewrite (untouched_length H); exact L3).
  split; [exact L4 |].
  frame_reads.
  destruct R0 as [R0 _]; [rewrite L; lia |]. destruct R4 as [R4 _]; [rewrite L0; lia |].
  rewrite R0, R4, R8, R10, R11 by lia. auto 10.
Qed.

Lemma symbolEntries_lengths (functions : list (string * Z)) (start : Z)
  (entries : list (list Z)) :
  symbolEntries functions start = Ok entries ->
  List.length entries = List.length functions /\
  Forall (fun e => List.length e = 12%nat) entries.
Proof.
  revert start entries.
  induction functions as [| [n o] functions IH]; intros start entries H.
  - injection H as <-. auto.
  - cbn [symbolEntries] in H. bind_inv H as e He. bind_inv H as es Hes.
    injection H as <-.
    destruct (IH _ _ Hes) as [L F].
    split; [simpl; now rewrite L |].
    constructor; [apply (@symbolEntry_fields _ _ _ He) | exact F].
Qed.

Lemma symbolEntries_fields (functions : list (string * Z)) (nameOffset : Z)
  (entries : list (list Z)) (i : nat) (name : string) (offset : Z) :
  symbolEntries functions nameOffset = Ok entries ->
  nth_error functions i = Some (name, offset) ->
  List.length entries = List.length functions /\
  Forall (fun e => List.length e = 12%nat) entries /\
  symbolEntry
    (fold_left (fun nameOffset f => nameOffset + Z.of_nat (String.length (fst f)) + 1)
       (firstn i functions) nameOffset) offset = Ok (nth i entries []).
Proof.
  revert nameOffset entries i.
  induction functions as [| [n o] functions IH]; intros nameOffset entries i H Hi.
  - destruct i; discriminate.
  - cbn [symbolEntries] in H. bind_inv H as e He. bind_inv H as es Hes. injection H as <-.
    pose proof (@symbolEntries_lengths _ _ _ Hes) as Len.
    destruct Len as [Len F12].
    destruct i as [| i].
    + injection Hi as -> ->. cbn [firstn fold_left nth List.length].
      split; [now rewrite Len |].
      split; [constructor; [apply (@symbolEntry_fields _ _ _ He) | exact F12] | exact He].
    + cbn [nth_error] in Hi. destruct (IH _ _ _ Hes Hi) as (_ & _ & E).
      cbn [firstn fold_left nth List.length fst].
      split; [now rewrite Len |].
      split; [constructor; [apply (@symbolEntry_fields _ _ _ He) | exact F12] | exact E].
Qed.

Lemma byte_at_concat12 (entries : list (list Z)) (i k : nat) :
  Forall (fun e => List.length e = 12%nat) entries ->
  (i < List.length entries)%nat -> (k < 12)%nat ->
  byte_at (List.concat entries) (12 * i + k) = byte_at (nth i entries []) k.
Proof.
  intros HF. revert i.
  induction HF as [| e entries He _ IH]; intros i Hi Hk; simpl in Hi; [lia |].
  cbn [List.concat nth].
  destruct i as [| i].
  - unfold byte_at. rewrite app_nth1 by lia. f_equal.
  - rewrite <- (IH i) by lia.
    replace (12 * S i + k)%nat with (List.length e + (12 * i + k))%nat by lia.
    apply byte_at_app2.
Qed.

(** The fields at offset [k] of the [i]-th record. *)
Lemma read32_concat12_at (entries : list (list Z)) (i k : nat) :
  Forall (fun e => List.length e = 12%nat) entries ->
  (i < List.length entries)%nat -> (k + 4 <= 12)%nat ->
  readUInt32LE (List.concat entries) (12 * i + k) = readUInt32LE (nth i entries []) k.
Proof.
  intros F Hi Hk. unfold readUInt32LE. rewrite <- !Nat.add_assoc.
  now rewrite !(@byte_at_concat12 entries i) by (auto; lia).
Qed.

Lemma read16_concat12_at (entries : list (list Z)) (i k : nat) :
  Forall (fun e => List.length e = 12%nat) entries ->
  (i < List.length entries)%nat -> (k + 2 <= 12)%nat ->
  readUInt16LE (List.concat entries) (12 * i + k) = readUInt16LE (nth i entries []) k.
Proof.
  intros F Hi Hk. unfold readUInt16LE. rewrite <- !Nat.add_assoc.
  now rewrite !(@byte_at_concat12 entries i) by (auto; lia).
Qed.

Lemma read8_concat12_at (entries : list (list Z)) (i k : nat) :
  Forall (fun e => List.length e = 12%nat) entries ->
  (i < List.length entries)%nat -> (k + 1 <= 12)%nat ->
  readUInt8 (List.concat entries) (12 * i + k) = readUInt8 (nth i entries []) k.
Proof.
  intros F Hi Hk. unfold readUInt8.
  now rewrite !(@byte_at_concat12 entries i) by (auto; lia).
Qed.

(** Extra X22.  The symbol table of a compiled artifact has one 12-byte record
    per function in the order of the function offsets: the word at 0 is the
    sum of (name length + 1) over the earlier functions, the word at 4 is the
    function's code offset, the 16-bit size is 0, and the type and binding
    bytes are SYM_FUNC and BIND_GLOBAL. *)
Theorem symbol_records (o : options) (pr : parseResult) (cg : codegenResult) (c : compiled)
  (i : nat) (name : string) (offset : Z) :
  generate pr = Ok cg -> compile o pr = Ok c ->
  nth_error (cg_functions cg) i = Some (name, offset) ->
  let symtab := symtab_section (binary c) in
  symtab_size (binary c) = 12 * Z.of_nat (List.length (cg_functions cg)) /\
  readUInt32LE symtab (12 * i) = nameOffsetAfter (firstn i (cg_functions cg)) /\
  readUInt32LE symtab (12 * i + 4) = offset /\
  readUInt16LE symtab (12 * i + 8) = 0 /\
  readUInt8 symtab (12 * i + 10) = AKM_FORMAT.SYM_FUNC /\
  readUInt8 symtab (12 * i + 11) = AKM_FORMAT.BIND_GLOBAL.
Proof.
  intros G H Hi symtab.
  destruct (@compile_fields _ _ _ H) as (cg0 & cg' & _ & _ & G' & O & W & _).
  rewrite G in G'. injection G' as <-.
  assert (Fs : cg_functions cg' = cg_functions cg).
  { destruct (opt_optimize o); [| now subst].
    now destruct (@optimize_fields _ _ O) as (_ & _ & _ & -> & _). }
  destruct (@write_layout _ _ _ _ W) as (hdr & st & strtab & L).
  destruct (layout_sections L) as (_ & _ & _ & _ & Sz & _ & _ & _ & Sec & _).
  pose proof (lay_symtab L) as B. unfold buildSymbolTable in B.
  bind_inv B as entries He. injection B as <-. rewrite Fs in He.
  destruct (@symbolEntries_fields _ _ _ _ _ _ He Hi) as (Len & F12 & E).
  destruct (@symbolEntry_fields _ _ _ E) as (_ & R0 & R4 & R8 & R10 & R11).
  assert (Hlt : (i < List.length entries)%nat).
  { rewrite Len. apply nth_error_Some. now rewrite Hi. }
  unfold symtab. rewrite Sec, Sz, (concat12_length F12), Len.
  split; [lia |].
  rewrite (@read32_concat12_at entries i 4), (@read16_concat12_at entries i 8),
    (@read8_concat12_at entries i 10), (@read8_concat12_at entries i 11) by (auto; lia).
  rewrite <- (Nat.add_0_r (12 * i)), (@read32_concat12_at entries i 0) by (auto; lia).
  unfold nameOffsetAfter. auto 10.
Qed.

(** Extra X23.  Without the optimize option, the data section of a compiled
    artifact is the bytes of its string table section followed by 20 bytes for
    each command. *)
Theorem string_table_is_stored_twice (o : options) (pr : parseResult) (c : compiled) :
  opt_optimize o = false -> compile o pr = Ok c ->
  exists stubs,
    data_section (binary c) = strtab_section (binary c) ++ stubs /\
    List.length stubs = (20 * List.length (pr_commands pr))%nat.
Proof.
  intros Hopt H.
  destruct (@compile_fields _ _ _ H) as (cg0 & cg & _ & _ & G & O & W & _).
  rewrite Hopt in O. subst cg0.
  destruct (@write_layout _ _ _ _ W) as (hdr & st & strtab & L).
  destruct (layout_sections L) as (_ & _ & _ & _ & _ & _ & _ & Ds & _ & Ss).
  destruct (@generate_Ok _ _ G) as (table & g & strtab' & stubs & _ & B & _ & _ & M & D & S).
  pose proof (lay_strtab L) as B'. rewrite S, B in B'. injection B' as <-.
  exists (List.concat stubs). rewrite Ds, Ss. split; [exact D |].
  assert (F : Forall (fun s => List.length s = 20%nat) stubs).
  { eapply mapM_Forall; [| exact M]. intros stub bytes Hs.
    apply (@stubBytes_fields _ _ Hs). }
  assert (N : List.length stubs = List.length (pr_commands pr)).
  { rewrite (@mapM_length _ _ _ _ _ M). unfold generateCommandStubs. apply length_map. }
  rewrite <- N. clear - F. induction F as [| s l Hs _ IH]; [reflexivity |].
  cbn [List.concat List.length]. rewrite length_app, Hs, IH. lia.
Qed.

(** ** The bytes of the instructions *)

Lemma generate_placed (pr : parseResult) (cg : codegenResult) (table : stringTable)
  (before after : list irFunc) (func : irFunc) (preceding following : list instr)
  (i : instr) :
  generate pr = Ok cg -> buildStringTable (ir_strings (pr_ir pr)) = Ok table ->
  ir_functions (pr_ir pr) = before ++ func :: after ->
  f_instructions func = preceding ++ i :: following -> fixes i = false ->
  (instructionOffset before func preceding + instructionSize i
   <= List.length (cg_code cg))%nat /\
  forall k, (k < instructionSize i)%nat ->
            byte_at (cg_code cg) (instructionOffset before func preceding + k)
              = nth k (emitted i table func) 0.
Proof.
  intros G T Hf Hi Hx.
  destruct (@generate_Ok _ _ G) as (table' & g & _ & _ & T' & _ & Gf & Cc & _).
  rewrite T in T'. injection T' as <-.
  pose proof (@generateFunctions_placed table func i before after _ _ Hi Hx) as P.
  rewrite <- Hf, Gf in P. cbn [fst] in P.
  pose proof (generateFunctions_between (ir_functions (pr_ir pr)) table) as B.
  rewrite Gf in B. destruct B as (_ & _ & S & _). cbn [fst] in S.
  destruct (@resolveFixups_frame _ g 0 (Z.le_refl 0) S) as (_ & Len & _).
  rewrite Cc. split.
  - unfold resolveFixups. rewrite Len.
    destruct P as (b & a & _ & _ & C & L & _). rewrite C, !length_app, emitted_length. lia.
  - intros k Hk. apply placed_resolved; [exact P |]. now rewrite emitted_length.
Qed.

Lemma section_bytes (l bytes : list Z) (p : nat) :
  (p + List.length bytes <= List.length l)%nat ->
  (forall k, (k < List.length bytes)%nat -> byte_at l (p + k) = nth k bytes 0) ->
  section l (Z.of_nat p) (Z.of_nat (List.length bytes)) = bytes.
Proof.
  intros Hlen H. unfold section. rewrite !Nat2Z.id.
  apply nth_ext with (d := 0) (d' := 0).
  - rewrite length_firstn, length_skipn. lia.
  - intros k Hk. rewrite length_firstn, length_skipn in Hk.
    rewrite nth_firstn. replace (k <? List.length bytes)%nat with true
      by (symmetry; apply Nat.ltb_lt; lia).
    rewrite nth_skipn. apply H. lia.
Qed.

(** Extra X11.  An instruction for which no fixup is recorded (anything but a
    CALL or a labelled jump) stands in the final code at the offset given by
    the sizes of what precedes it, with exactly the bytes generateInstruction
    emits for it: resolving the fixups does not touch them. *)
Theorem instructions_are_emitted_in_place (pr : parseResult) (cg : codegenResult)
  (table : stringTable) (before after : list irFunc) (func : irFunc)
  (preceding following : list instr) (i : instr) :
  generate pr = Ok cg -> buildStringTable (ir_strings (pr_ir pr)) = Ok table ->
  ir_functions (pr_ir pr) = before ++ func :: after ->
  f_instructions func = preceding ++ i :: following -> fixes i = false ->
  section (cg_code cg) (Z.of_nat (instructionOffset before func preceding))
    (Z.of_nat (instructionSize i)) = emitted i table func.
Proof.
  intros G T Hf Hi Hx.
  destruct (@generate_placed _ _ _ _ _ _ _ _ _ G T Hf Hi Hx) as [Len B].
  rewrite <- (emitted_length i table func) in *.
  now apply section_bytes.
Qed.


(** Extra X14.  A CALL_API instruction is emitted at its offset as the opcode,
    one index byte and the low byte of the argument count; for a method of the
    API table the index byte is the position of the method among the keys of
    the table, for any other name it is 0xFF. *)
Theorem api_calls_name_their_method (pr : parseResult) (cg : codegenResult)
  (before after : list irFunc) (func : irFunc)
  (preceding following : list instr) (i : instr) (method : string) :
  generate pr = Ok cg ->
  ir_functions (pr_ir pr) = before ++ func :: after ->
  f_instructions func = preceding ++ i :: following ->
  i_op i = OPCODES.CALL_API -> i_method i = Some method ->
  let p := instructionOffset before func preceding in
  byte_at (cg_code cg) p = OPCODES.CALL_API /\
  byte_at (cg_code cg) (p + 2) = js_and (i_argc i) 255 /\
  match find_index (fun e => String.eqb (fst e) method) API_FUNCTIONS with
  | Some index =>
      byte_at (cg_code cg) (p + 1) = Z.of_nat index /\
      nth_error (map fst API_FUNCTIONS) index = Some method
  | None =>
      byte_at (cg_code cg) (p + 1) = 255 /\ ~ In method (map fst API_FUNCTIONS)
  end.
Proof.
  intros G Hf Hi Hop Hm p.
  destruct (@generate_data _ _ G) as (table & T & _).
  assert (Hx : fixes i = false) by (unfold fixes; rewrite Hop; reflexivity).
  destruct (@generate_placed _ _ _ _ _ _ _ _ _ G T Hf Hi Hx) as [_ B].
  assert (Sz : instructionSize i = 3%nat) by (unfold instructionSize; now rewrite Hop).
  assert (E : emitted i table func =
              [ OPCODES.CALL_API; js_and (getAPIIndex (Some method)) 255;
                js_and (i_argc i) 255 ]).
  { unfold emitted, generateInstruction. rewrite Hop, Hm. reflexivity. }
  rewrite Sz, E in B. fold p in B.
  split; [rewrite <- (Nat.add_0_r p); now rewrite (B 0%nat) by lia |].
  split; [now rewrite (B 2%nat) by lia |].
  rewrite (B 1%nat) by lia. cbn [nth]. unfold getAPIIndex.
  destruct (find_index (fun e => String.eqb (fst e) method) API_FUNCTIONS) as [index |] eqn:Fi.
  - pose proof (find_index_lt _ _ Fi) as Lt. change (List.length API_FUNCTIONS) with 66%nat in Lt.
    destruct (find_index_nth _ _ Fi) as (e & Hn & He). apply String.eqb_eq in He.
    split.
    + rewrite js_and_255, to_int32_small by lia. apply Z.mod_small. lia.
    + rewrite nth_error_map, Hn. cbn [option_map]. now rewrite He.
  - split; [reflexivity |]. intros Hin. apply in_map_iff in Hin.
    destruct Hin as (e & He & Hin).
    pose proof (find_index_None _ _ Fi e Hin) as Hf'. cbn beta in Hf'.
    rewrite He, String.eqb_refl in Hf'. discriminate.
Qed.

(** ** The name of the module in the header *)

Lemma byte_at_app1 (a b : list Z) (i : nat) :
  (i < List.length a)%nat -> byte_at (a ++ b) i = byte_at a i.
Proof. intros H. unfold byte_at. now apply app_nth1. Qed.

Lemma write_name (o : options) (cg : codegenResult) (mi : moduleInfo) (art : list Z) :
  write o cg mi = Ok art ->
  exists s,
    js_lor (mi_name mi) (JStr "") = JStr s /\
    (512 <= List.length art)%nat /\
    forall k, (k < 32)%nat ->
              byte_at art (16 + k) = nth k (utf8 (slice0 31 s) ++ repeat 0 32) 0.
Proof.
  intros H. unfold write in H. cbv beta zeta in H.
  repeat inv_bind H.
  cbn [Nat.add] in *.
  injection H as <-.
  assert (N : exists s, js_lor (mi_name mi) (JStr "") = JStr s /\
                        x6 = write_at 16 (utf8 (slice0 31 s)) x5).
  { unfold writeFixedString in Hx6.
    destruct (js_lor (mi_name mi) (JStr "")); try discriminate.
    injection Hx6 as <-. now exists s. }
  destruct N as (s & Hs & E6).
  assert (Z5 : forall i, (16 <= i)%nat -> byte_at x5 i = 0).
  { apply writeUInt_untouched in Hx1, Hx2, Hx3, Hx4, Hx5.
    assert (B : forall (a b : nat) (buf buf' : list Z),
               untouched a b buf buf' -> (b <= 16)%nat ->
               (forall i, (16 <= i)%nat -> byte_at buf i = 0) ->
               forall i, (16 <= i)%nat -> byte_at buf' i = 0).
    { intros a b buf buf' [_ U] Hb Hz i Hi. rewrite U by lia. now apply Hz. }
    assert (Z0 : forall i, (16 <= i)%nat -> byte_at (repeat 0 512) i = 0).
    { intros i _. unfold byte_at.
      destruct (Nat.lt_ge_cases i 512) as [Hlt | Hge].
      - apply nth_repeat_lt. lia.
      - apply nth_overflow. rewrite repeat_length. lia. }
    pose proof (B _ _ _ _ Hx1 ltac:(lia) Z0) as Z1.
    pose proof (B _ _ _ _ Hx2 ltac:(lia) Z1) as Z2.
    pose proof (B _ _ _ _ Hx3 ltac:(lia) Z2) as Z3.
    pose proof (B _ _ _ _ Hx4 ltac:(lia) Z3) as Z4.
    exact (B _ _ _ _ Hx5 ltac:(lia) Z4). }
  assert (L5 : List.length x5 = 512%nat).
  { apply writeUInt_untouched in Hx1, Hx2, Hx3, Hx4, Hx5.
    assert (L0 : List.length (repeat 0 512) = 512%nat) by apply repeat_length.
    header_lengths. assumption. }
  assert (L6 : List.length x6 = 512%nat) by (rewrite E6, write_at_length; exact L5).
  clear Hx1 Hx2 Hx3 Hx4 Hx5 Hx6.
  repeat match goal with
         | H : _ = Ok _ |- _ => untouched_by H
         end.
  header_lengths.
  exists s. split; [exact Hs |]. split.
  - rewrite length_app. match goal with L : List.length x37 = _ |- _ => rewrite L end. lia.
  - intros k Hk. rewrite byte_at_app1
      by (match goal with L : List.length x37 = _ |- _ => rewrite L end; lia).
    repeat match goal with
           | U : untouched _ _ ?buf ?buf' |- context [byte_at ?buf' ?i] =>
               rewrite (proj2 U i) by lia
           end.
    rewrite E6.
    destruct (Nat.lt_ge_cases k (List.length (utf8 (slice0 31 s)))) as [Hlt | Hge].
    + rewrite write_at_inside by lia. rewrite app_nth1 by lia. f_equal. lia.
    + rewrite write_at_outside by lia. rewrite Z5 by lia.
      rewrite app_nth2 by lia. symmetry. apply nth_repeat_lt.
      pose proof (utf8_length (slice0 31 s)). lia.
Qed.

(** Extra X21.  In every compiled artifact the module name is a non-empty
    string, and the 32 bytes of the header from offset 16 are the first 32
    bytes of the UTF-8 encoding of the first 31 characters of the name
    followed by zero bytes. *)
Theorem name_field_is_truncated_and_padded (o : options) (pr : parseResult) (c : compiled) :
  compile o pr = Ok c ->
  exists name,
    mi_name (info c) = JStr name /\ name <> ""%string /\
    section (binary c) 16 32 = firstn 32 (utf8 (slice0 31 name) ++ repeat 0 32).
Proof.
  intros H.
  destruct (@compile_fields _ _ _ H) as (cg0 & cg & _ & Mi & _ & _ & W & _).
  destruct (@write_name _ _ _ _ W) as (s & Hs & Len & B).
  unfold extractModuleInfo in Mi. destruct (pr_moduleConfig pr); [| discriminate].
  injection Mi as Mi.
  assert (T : truthy (mi_name (info c)) = true).
  { rewrite <- Mi. cbn [moduleInfoOf mi_name]. unfold js_lor.
    destruct (truthy (obj_get "name" l)) eqn:E; [exact E | reflexivity]. }
  unfold js_lor in Hs. rewrite T in Hs.
  exists s. split; [exact Hs |]. split.
  - intros ->. rewrite Hs in T. discriminate.
  - assert (L32 : List.length (firstn 32 (utf8 (slice0 31 s) ++ repeat 0 32)) = 32%nat).
    { rewrite length_firstn, length_app, repeat_length. lia. }
    change 16 with (Z.of_nat 16). change 32 with (Z.of_nat 32) at 1.
    rewrite <- L32 at 1. apply section_bytes.
    + rewrite L32. lia.
    + intros k Hk. rewrite L32 in Hk. rewrite B by lia.
      rewrite nth_firstn. replace (k <? 32)%nat with true
        by (symmetry; apply Nat.ltb_lt; lia). reflexivity.
Qed.

(** ** The dependencies *)

Lemma write_dep_count (o : options) (cg : codegenResult) (mi : moduleInfo) (art : list Z)
  (deps : list jsval) :
  write o cg mi = Ok art -> mi_dependencies mi = JArr deps ->
  readUInt8 art 212 = Z.min (Z.of_nat (List.length deps)) 4.
Proof.
  intros H Hd. unfold write in H. cbv beta zeta in H.
  repeat inv_bind H.
  cbn [Nat.add] in *.
  injection H as <-.
  rewrite Hd in Hx27. cbn [js_length to_number] in Hx27. injection Hx27 as <-.
  cbn [min4] in Hx28.
  pose proof (@writeUInt8_read _ _ _ _ Hx28) as R.
  repeat match goal with
         | H : _ = Ok _ |- _ => untouched_by H
         end.
  assert (L0 : List.length (repeat 0 512) = 512%nat) by apply repeat_length.
  header_lengths.
  rewrite read8_app by (match goal with
                        | L : List.length ?b = 512%nat |- context [List.length ?b] =>
                            rewrite L; clear; lia
                        end).
  frame_reads.
  apply R. match goal with L : List.length x26 = _ |- _ => rewrite L end. lia.
Qed.

(** Extra X28.  For a compiled artifact whose module dependencies are an
    array, the dependency count the inspector reads from the header is the
    number of dependencies, but at most 4. *)
Theorem dependency_count_is_capped (o : options) (pr : parseResult) (c : compiled)
  (deps : list jsval) (filepath : string) :
  compile o pr = Ok c -> mi_dependencies (info c) = JArr deps ->
  exists r,
    showModuleInfo filepath (Some (binary c)) = Prints r /\
    r_depCount r = Z.min (Z.of_nat (List.length deps)) 4.
Proof.
  intros H Hd.
  destruct (@compile_fields _ _ _ H) as (cg0 & cg & _ & _ & _ & _ & W & _).
  pose proof (@write_dep_count _ _ _ _ _ W Hd) as D.
  destruct (@write_layout _ _ _ _ W) as (hdr & symtab & strtab & L).
  assert (Long : (Z.of_nat (List.length (binary c)) <? 512) = false).
  { apply Z.ltb_ge. rewrite (lay_art L), length_app, (lay_hdr L). lia. }
  assert (Magic : readUInt32LE (binary c) 0 = 0x324D4B41).
  { rewrite (lay_art L), read32_app by (rewrite (lay_hdr L); lia). apply (lay_magic L). }
  unfold showModuleInfo. rewrite Long, Magic. cbn [Z.eqb Pos.eqb negb].
  eexists. split; [reflexivity |]. exact D.
Qed.

(** ** The capabilities as the compiler prints them *)

Lemma hex_digit_value_upper (c : ascii) (d : Z) :
  hex_value_of c = Some d -> hex_digit_value c = Some d.
Proof.
  unfold hex_value_of, hex_digit_value. cbv zeta.
  destruct ((48 <=? code_unit c) && (code_unit c <=? 57)); [auto |].
  destruct ((65 <=? code_unit c) && (code_unit c <=? 70)); [auto | discriminate].
Qed.

(** On upper-case digits [parseInt] reads what [parse_hex] reads. *)
Lemma hex_prefix_parse_hex (s : string) (acc : option Z) (v : Z) :
  s <> ""%string ->
  parse_hex s (match acc with Some a => a | None => 0 end) = Some v ->
  hex_prefix s acc = Some v.
Proof.
  revert acc. induction s as [| c s IH]; intros acc Hne H; [contradiction |].
  cbn [parse_hex hex_prefix] in *.
  destruct (hex_value_of c) as [d |] eqn:E; [| discriminate].
  rewrite (hex_digit_value_upper _ E).
  destruct s as [| c' s'].
  - cbn [parse_hex hex_prefix] in *. exact H.
  - apply IH; [discriminate | exact H].
Qed.

Lemma hex_prefix_zeros (k : nat) (s : string) :
  s <> ""%string ->
  hex_prefix (string_of_list_ascii (repeat "0"%char k) ++ s) None
  = hex_prefix s (match k with O => None | S _ => Some 0 end).
Proof.
  intros Hne. destruct k as [| k]; [reflexivity |].
  cbn [repeat string_of_list_ascii String.append hex_prefix].
  change (hex_digit_value "0") with (Some 0). cbv iota beta.
  change (16 * 0 + 0) with 0.
  induction k as [| k IH]; [reflexivity |].
  cbn [repeat string_of_list_ascii String.append hex_prefix].
  change (hex_digit_value "0") with (Some 0). cbv iota beta.
  change (16 * 0 + 0) with 0. exact IH.
Qed.

Lemma hex_digits_not_empty (fuel : nat) (n : Z) (acc : string) :
  (0 < fuel)%nat \/ acc <> ""%string -> hex_digits fuel n acc <> ""%string.
Proof.
  revert n acc. induction fuel as [| fuel IH]; intros n acc H; cbn [hex_digits].
  - destruct H as [H | H]; [lia | exact H].
  - destruct (n / 16 =? 0); [discriminate |]. apply IH. right. discriminate.
Qed.

Lemma toString16Upper_not_empty (n : Z) : toString16Upper n <> ""%string.
Proof. unfold toString16Upper. apply hex_digits_not_empty. left. lia. Qed.

(** Extra X29.  For a mask of 32 bits, the capabilities text of the compiler's
    verbose output (0x followed by the upper-case hexadecimal digits of the
    mask, padded with zeros to eight) is parsed by parseCapabilities to the
    same mask. *)
Theorem printed_capabilities_parse_back (capabilities : Z) :
  0 <= capabilities < two32 ->
  parseCapabilities (JStr (capabilitiesText capabilities)) = Ok (JNum (Int capabilities)).
Proof.
  intros H. unfold capabilitiesText, padStart0, parseCapabilities.
  cbn [String.append truthy String.eqb negb].
  assert (P : forall s, String.prefix "0x" (String "0" (String "x" s)) = true).
  { intros s. cbn [String.prefix].
    destruct (ascii_dec "0" "0") as [_ | N]; [| now contradiction N].
    destruct (ascii_dec "x" "x") as [_ | N]; [| now contradiction N].
    now destruct s. }
  rewrite P. cbn [parseInt16].
  rewrite hex_prefix_zeros by apply toString16Upper_not_empty.
  rewrite (@hex_prefix_parse_hex _ _ capabilities).
  - replace (capabilities <=? 9007199254740992) with true
      by (symmetry; apply Z.leb_le; unfold two32 in H; lia).
    reflexivity.
  - apply toString16Upper_not_empty.
  - rewrite <- (toString16Upper_hex H).
    now destruct (8 - String.length (toString16Upper capabilities))%nat.
Qed.

(** ** The further theorems at the examples *)

Ltac by_cases H := vm_compute in H; repeat (destruct H as [H | H]; [subst; vm_compute; auto |]);
                   try contradiction.

Lemma dead_code_is_what_follows_the_first_exit_witness :
  (forall instr, In instr code_after_ret ->
                 i_target instr = None \/ i_target instr = Some 0) /\
  AKMOptimizer.reachableInstructions code_after_ret =
    match find_index AKMOptimizer.ends_flow code_after_ret with
    | Some k => firstn (S k) code_after_ret
    | None => code_after_ret
    end.
Proof.
  assert (H : forall instr, In instr code_after_ret ->
                            i_target instr = None \/ i_target instr = Some 0).
  { intros instr Hin. by_cases Hin. }
  split; [exact H |].
  exact (@dead_code_is_what_follows_the_first_exit code_after_ret H).
Defined.

Lemma jump_targets_are_kept_witness :
  In (jump_to 3) code_with_jump /\
  i_target (jump_to 3) = Some (Z.of_nat 3) /\
  3%nat <> 0%nat /\
  nth_error code_with_jump 3 = Some (op_value OPCODES.PUSH (JNum (Int 7))) /\
  In (op_value OPCODES.PUSH (JNum (Int 7)))
    (AKMOptimizer.reachableInstructions code_with_jump).
Proof.
  assert (H1 : In (jump_to 3) code_with_jump) by (left; reflexivity).
  assert (H2 : i_target (jump_to 3) = Some (Z.of_nat 3)) by reflexivity.
  assert (H3 : 3%nat <> 0%nat) by discriminate.
  assert (H4 : nth_error code_with_jump 3 = Some (op_value OPCODES.PUSH (JNum (Int 7))))
    by reflexivity.
  split; [exact H1 |]. split; [exact H2 |]. split; [exact H3 |]. split; [exact H4 |].
  exact (@jump_targets_are_kept code_with_jump (jump_to 3)
           (op_value OPCODES.PUSH (JNum (Int 7))) 3 H1 H2 H3 H4).
Defined.

Lemma optimizer_cuts_after_first_ret_witness :
  parse (Parsed calls_module) = Ok (parsed calls_module) /\
  AKMOptimizer.optimize (pr_ir (parsed calls_module)) =
    Ok (AKMOptimizer.with_functions (pr_ir (parsed calls_module))
          (map until_first_ret (ir_functions (pr_ir (parsed calls_module))))).
Proof.
  assert (H : parse (Parsed calls_module) = Ok (parsed calls_module))
    by (vm_compute; reflexivity).
  split; [exact H |].
  exact (@optimizer_cuts_after_first_ret calls_module (parsed calls_module) H).
Defined.

Lemma peephole_only_removes_witness :
  In (op_only OPCODES.RET) (AKMOptimizer.peephole code_with_pairs) /\
  In (op_only OPCODES.RET) code_with_pairs /\
  (i_op (op_only OPCODES.RET) = OPCODES.NOP -> i_isEntry (op_only OPCODES.RET) = true).
Proof.
  assert (H : In (op_only OPCODES.RET) (AKMOptimizer.peephole code_with_pairs))
    by (left; reflexivity).
  split; [exact H |].
  exact (@peephole_only_removes code_with_pairs (op_only OPCODES.RET) H).
Defined.

Lemma optimize_never_lengthens_witness :
  AKMOptimizer.optimize (pr_ir (parsed calls_module)) = Ok (optimized_of calls_module) /\
  Forall2 (fun f f' => f_name f' = f_name f /\
                       (List.length (f_instructions f') <= List.length (f_instructions f))%nat)
    (ir_functions (pr_ir (parsed calls_module)))
    (ir_functions (optimized_of calls_module)).
Proof.
  assert (H : AKMOptimizer.optimize (pr_ir (parsed calls_module))
              = Ok (optimized_of calls_module)) by (vm_compute; reflexivity).
  split; [exact H |].
  exact (@optimize_never_lengthens (pr_ir (parsed calls_module))
           (optimized_of calls_module) H).
Defined.

Lemma command_stubs_locate_the_command_witness :
  parse (Parsed shell_module) = Ok (parsed shell_module) /\
  generate (parsed shell_module) = Ok (generated_of shell_module) /\
  nth_error (pr_commands (parsed shell_module)) 1 = Some shell_command_two /\
  exists strtab stub,
    buildStrtab (ir_strings (pr_ir (parsed shell_module))) = Ok strtab /\
    section (cg_data (generated_of shell_module))
      (Z.of_nat (List.length strtab + 20 * 1)) 20 = stub /\
    List.length stub = 20%nat /\
    (forall s offset,
        (cmd_name shell_command_two = JStr s /\ offset = 0%nat) \/
        (cmd_syntax shell_command_two = JStr s /\ offset = 4%nat) \/
        (cmd_description shell_command_two = JStr s /\ offset = 8%nat) \/
        (cmd_category shell_command_two = JStr s /\ offset = 12%nat) ->
        section (cg_data (generated_of shell_module)) (readUInt32LE stub offset)
          (Z.of_nat (List.length (utf8 (s ++ nul)))) = utf8 (s ++ nul)) /\
    readUInt32LE stub 16
      = handler_offset (cmd_handler shell_command_two)
          (cg_functions (generated_of shell_module)).
Proof.
  assert (H1 : parse (Parsed shell_module) = Ok (parsed shell_module))
    by (vm_compute; reflexivity).
  assert (H2 : generate (parsed shell_module) = Ok (generated_of shell_module))
    by (vm_compute; reflexivity).
  assert (H3 : nth_error (pr_commands (parsed shell_module)) 1 = Some shell_command_two)
    by (vm_compute; reflexivity).
  split; [exact H1 |]. split; [exact H2 |]. split; [exact H3 |].
  exact (@command_stubs_locate_the_command shell_module (parsed shell_module)
           (generated_of shell_module) 1 shell_command_two H1 H2 H3).
Defined.

Lemma calls_are_linked_witness :
  generate (parsed calls_module) = Ok (generated_of calls_module) /\
  ir_functions (pr_ir (parsed calls_module))
    = [] ++ function_at calls_module 0
         :: skipn 1 (ir_functions (pr_ir (parsed calls_module))) /\
  f_instructions (function_at calls_module 0)
    = [] ++ instruction_at (function_at calls_module 0) 0
         :: skipn 1 (f_instructions (function_at calls_module 0)) /\
  i_op (instruction_at (function_at calls_module 0) 0) = OPCODES.CALL /\
  i_func (instruction_at (function_at calls_module 0) 0) = Some "helper"%string /\
  let p := instructionOffset [] (function_at calls_module 0) [] in
  byte_at (cg_code (generated_of calls_module)) p = OPCODES.CALL /\
  readUInt32LE (cg_code (generated_of calls_module)) (p + 1)
    = to_uint32 (get_or_0 String.eqb "helper"%string
                   (cg_functions (generated_of calls_module))) /\
  byte_at (cg_code (generated_of calls_module)) (p + 5)
    = js_and (i_argc (instruction_at (function_at calls_module 0) 0)) 255.
Proof.
  assert (H1 : generate (parsed calls_module) = Ok (generated_of calls_module))
    by (vm_compute; reflexivity).
  assert (H2 : ir_functions (pr_ir (parsed calls_module))
               = [] ++ function_at calls_module 0
                    :: skipn 1 (ir_functions (pr_ir (parsed calls_module))))
    by (vm_compute; reflexivity).
  assert (H3 : f_instructions (function_at calls_module 0)
               = [] ++ instruction_at (function_at calls_module 0) 0
                    :: skipn 1 (f_instructions (function_at calls_module 0)))
    by (vm_compute; reflexivity).
  assert (H4 : i_op (instruction_at (function_at calls_module 0) 0) = OPCODES.CALL)
    by (vm_compute; reflexivity).
  assert (H5 : i_func (instruction_at (function_at calls_module 0) 0)
               = Some "helper"%string) by (vm_compute; reflexivity).
  split; [exact H1 |]. split; [exact H2 |]. split; [exact H3 |]. split; [exact H4 |].
  split; [exact H5 |].
  exact (@calls_are_linked (parsed calls_module) (generated_of calls_module)
           [] (skipn 1 (ir_functions (pr_ir (parsed calls_module))))
           (function_at calls_module 0)
           [] (skipn 1 (f_instructions (function_at calls_module 0)))
           (instruction_at (function_at calls_module 0) 0) "helper"%string
           H1 H2 H3 H4 H5).
Defined.

Lemma code_is_the_functions_in_order_witness :
  parse (Parsed calls_module) = Ok (parsed calls_module) /\
  generate (parsed calls_module) = Ok (generated_of calls_module) /\
  List.length (cg_code (generated_of calls_module))
    = list_sum (map functionSize (ir_functions (pr_ir (parsed calls_module)))) /\
  cg_functions (generated_of calls_module)
    = functionOffsetsFrom 0 (ir_functions (pr_ir (parsed calls_module))).
Proof.
  assert (H1 : parse (Parsed calls_module) = Ok (parsed calls_module))
    by (vm_compute; reflexivity).
  assert (H2 : generate (parsed calls_module) = Ok (generated_of calls_module))
    by (vm_compute; reflexivity).
  split; [exact H1 |]. split; [exact H2 |].
  exact (@code_is_the_functions_in_order calls_module (parsed calls_module)
           (generated_of calls_module) H1 H2).
Defined.

Lemma unknown_callee_calls_offset_zero_witness :
  generate (parsed calls_module) = Ok (generated_of calls_module) /\
  ir_functions (pr_ir (parsed calls_module))
    = [] ++ function_at calls_module 0
         :: skipn 1 (ir_functions (pr_ir (parsed calls_module))) /\
  f_instructions (function_at calls_module 0)
    = firstn 1 (f_instructions (function_at calls_module 0))
      ++ instruction_at (function_at calls_module 0) 1
         :: skipn 2 (f_instructions (function_at calls_module 0)) /\
  i_op (instruction_at (function_at calls_module 0) 1) = OPCODES.CALL /\
  i_func (instruction_at (function_at calls_module 0) 1) = Some "missing"%string /\
  ~ In "missing"%string (map f_name (ir_functions (pr_ir (parsed calls_module)))) /\
  readUInt32LE (cg_code (generated_of calls_module))
    (instructionOffset [] (function_at calls_module 0)
       (firstn 1 (f_instructions (function_at calls_module 0))) + 1) = 0.
Proof.
  assert (H1 : generate (parsed calls_module) = Ok (generated_of calls_module))
    by (vm_compute; reflexivity).
  assert (H2 : ir_functions (pr_ir (parsed calls_module))
               = [] ++ function_at calls_module 0
                    :: skipn 1 (ir_functions (pr_ir (parsed calls_module))))
    by (vm_compute; reflexivity).
  assert (H3 : f_instructions (function_at calls_module 0)
               = firstn 1 (f_instructions (function_at calls_module 0))
                 ++ instruction_at (function_at calls_module 0) 1
                    :: skipn 2 (f_instructions (function_at calls_module 0)))
    by (vm_compute; reflexivity).
  assert (H4 : i_op (instruction_at (function_at calls_module 0) 1) = OPCODES.CALL)
    by (vm_compute; reflexivity).
  assert (H5 : i_func (instruction_at (function_at calls_module 0) 1)
               = Some "missing"%string) by (vm_compute; reflexivity).
  assert (H6 : ~ In "missing"%string
                 (map f_name (ir_functions (pr_ir (parsed calls_module))))).
  { intros H. vm_compute in H.
    repeat (destruct H as [H | H]; [discriminate H |]). exact H. }
  split; [exact H1 |]. split; [exact H2 |]. split; [exact H3 |]. split; [exact H4 |].
  split; [exact H5 |]. split; [exact H6 |].
  exact (@unknown_callee_calls_offset_zero (parsed calls_module)
           (generated_of calls_module)
           [] (skipn 1 (ir_functions (pr_ir (parsed calls_module))))
           (function_at calls_module 0)
           (firstn 1 (f_instructions (function_at calls_module 0)))
           (skipn 2 (f_instructions (function_at calls_module 0)))
           (instruction_at (function_at calls_module 0) 1) "missing"%string
           H1 H2 H3 H4 H5 H6).
Defined.

Lemma lowered_functions_are_straight_line_witness :
  parse (Parsed calls_module) = Ok (parsed calls_module) /\
  In (function_at calls_module 0) (ir_functions (pr_ir (parsed calls_module))) /\
  forallb generated (f_instructions (function_at calls_module 0)) = true /\
  exists body r,
    f_instructions (function_at calls_module 0) = body ++ [r] /\ i_op r = OPCODES.RET.
Proof.
  assert (H1 : parse (Parsed calls_module) = Ok (parsed calls_module))
    by (vm_compute; reflexivity).
  assert (H2 : In (function_at calls_module 0) (ir_functions (pr_ir (parsed calls_module))))
    by (vm_compute; left; reflexivity).
  split; [exact H1 |]. split; [exact H2 |].
  exact (@lowered_functions_are_straight_line calls_module (parsed calls_module)
           (function_at calls_module 0) H1 H2).
Defined.

Lemma string_table_is_duplicate_free_witness :
  parse (Parsed shell_module) = Ok (parsed shell_module) /\
  distinct (ir_strings (pr_ir (parsed shell_module))) = true /\
  (forall f i, In f (ir_functions (pr_ir (parsed shell_module))) ->
               In i (f_instructions f) -> i_op i = OPCODES.PUSH_STR ->
               In (i_value i) (ir_strings (pr_ir (parsed shell_module)))) /\
  (forall cmd, In cmd (pr_commands (parsed shell_module)) ->
               In (cmd_name cmd) (ir_strings (pr_ir (parsed shell_module))) /\
               In (cmd_syntax cmd) (ir_strings (pr_ir (parsed shell_module))) /\
               In (cmd_description cmd) (ir_strings (pr_ir (parsed shell_module))) /\
               In (cmd_category cmd) (ir_strings (pr_ir (parsed shell_module)))).
Proof.
  assert (H : parse (Parsed shell_module) = Ok (parsed shell_module))
    by (vm_compute; reflexivity).
  split; [exact H |].
  exact (@string_table_is_duplicate_free shell_module (parsed shell_module) H).
Defined.

Lemma functions_are_one_per_name_witness :
  parse (Parsed shell_module) = Ok (parsed shell_module) /\
  NoDup (map fst (pr_functions (parsed shell_module))) /\
  map f_name (ir_functions (pr_ir (parsed shell_module)))
    = map fst (pr_functions (parsed shell_module)).
Proof.
  assert (H : parse (Parsed shell_module) = Ok (parsed shell_module))
    by (vm_compute; reflexivity).
  split; [exact H |].
  exact (@functions_are_one_per_name shell_module (parsed shell_module) H).
Defined.

Lemma function_offsets_are_prologues_witness :
  generate (parsed calls_module) = Ok (generated_of calls_module) /\
  In ("helper"%string, 36) (cg_functions (generated_of calls_module)) /\
  0 <= 36 < Z.of_nat (List.length (cg_code (generated_of calls_module))) /\
  byte_at (cg_code (generated_of calls_module)) (Z.to_nat 36) = OPCODES.NOP.
Proof.
  assert (H1 : generate (parsed calls_module) = Ok (generated_of calls_module))
    by (vm_compute; reflexivity).
  assert (H2 : In ("helper"%string, 36) (cg_functions (generated_of calls_module)))
    by (vm_compute; right; left; reflexivity).
  split; [exact H1 |]. split; [exact H2 |].
  exact (@function_offsets_are_prologues (parsed calls_module)
           (generated_of calls_module) "helper"%string 36 H1 H2).
Defined.

Lemma optimize_flag_is_fatal_witness :
  akmcc default_options (Parsed minimal_module) = Ok (compiled_of minimal_module) /\
  opt_optimize default_options = false /\
  akmcc {| opt_debug := opt_debug default_options; opt_optimize := true;
           opt_verbose := opt_verbose default_options;
           opt_capabilities := opt_capabilities default_options |}
    (Parsed minimal_module) = Throws (TypeError "func.instructions is not iterable").
Proof.
  assert (H : akmcc default_options (Parsed minimal_module)
              = Ok (compiled_of minimal_module)) by (vm_compute; reflexivity).
  split; [exact H |].
  exact (@optimize_flag_is_fatal default_options minimal_module
           (compiled_of minimal_module) H).
Defined.

Lemma inspector_reads_back_the_header_witness :
  compile default_options (parsed hello_module) = Ok (compiled_of hello_module) /\
  exists r,
    showModuleInfo "hello.akm" (Some (binary (compiled_of hello_module))) = Prints r /\
    r_formatVersion r = 2 /\
    r_flags r = (if opt_debug default_options then 1 else 0) /\
    r_headerSize r = 512 /\
    r_totalSize r = Z.of_nat (List.length (binary (compiled_of hello_module))) /\
    r_apiVersion r = 512 /\
    r_kernelMin r = 524288 /\ r_kernelMax r = 0 /\
    r_codeOffset r = 512 /\ r_codeSize r = codeSize (compiled_of hello_module) /\
    r_dataOffset r = 512 + codeSize (compiled_of hello_module) /\
    r_dataSize r = dataSize (compiled_of hello_module) /\
    r_rodataOffset r = 0 /\ r_rodataSize r = 0 /\ r_bssSize r = 0 /\
    r_signatureType r = 0.
Proof.
  assert (H : compile default_options (parsed hello_module)
              = Ok (compiled_of hello_module)) by (vm_compute; reflexivity).
  split; [exact H |].
  exact (@inspector_reads_back_the_header default_options (parsed hello_module)
           (compiled_of hello_module) "hello.akm" H).
Defined.


Lemma capabilities_override_replaces_witness :
  compile (override_options 64) (parsed shell_module)
    = Ok (compiled_with (override_options 64) shell_module) /\
  opt_capabilities (override_options 64) = JNum (Int 64) /\
  64 <> 0 /\
  0 < 64 < two32 /\
  capabilities_of (binary (compiled_with (override_options 64) shell_module)) = 64.
Proof.
  assert (H1 : compile (override_options 64) (parsed shell_module)
               = Ok (compiled_with (override_options 64) shell_module))
    by (vm_compute; reflexivity).
  assert (H2 : opt_capabilities (override_options 64) = JNum (Int 64)) by reflexivity.
  assert (H3 : 64 <> 0) by discriminate.
  split; [exact H1 |]. split; [exact H2 |]. split; [exact H3 |].
  exact (@capabilities_override_replaces (override_options 64) (parsed shell_module)
           (compiled_with (override_options 64) shell_module) 64 H1 H2 H3).
Defined.

Lemma listed_names_parse_back_witness :
  capNames 2113 <> [] /\
  parseCapabilities (JStr (capNamesText 2113)) = Ok (JNum (Int (Z.land 2113 1048575))).
Proof.
  assert (H : capNames 2113 <> []) by (vm_compute; discriminate).
  split; [exact H |].
  exact (@listed_names_parse_back 2113 H).
Defined.

Lemma all_capabilities_never_compile_witness :
  String.prefix "0x" "log, all" = false /\
  (exists name, In name (js_split "," "log, all") /\
                toUpperCase (trim name) = Ok "ALL"%string) /\
  parseCapabilities (JStr "log, all") = Ok (JNum (Int (-1))) /\
  JNum (Int (-1)) = JNum (Int (-1)) /\
  (opt_capabilities (override_options (-1)) = JNum (Int (-1)) ->
   compile (override_options (-1)) (parsed minimal_module)
     <> Ok (compiled_of minimal_module)).
Proof.
  assert (H1 : String.prefix "0x" "log, all" = false) by reflexivity.
  assert (H2 : exists name, In name (js_split "," "log, all") /\
                            toUpperCase (trim name) = Ok "ALL"%string).
  { exists " all"%string. split; [right; left; reflexivity | reflexivity]. }
  assert (H3 : parseCapabilities (JStr "log, all") = Ok (JNum (Int (-1))))
    by (vm_compute; reflexivity).
  split; [exact H1 |]. split; [exact H2 |]. split; [exact H3 |].
  exact (@all_capabilities_never_compile "log, all" (JNum (Int (-1)))
           (override_options (-1)) (parsed minimal_module)
           (compiled_of minimal_module) H1 H2 H3).
Defined.

Lemma unknown_names_are_ignored_witness :
  String.prefix "0x" "bogus" = false /\
  (forall name u, In name (js_split "," "bogus") -> toUpperCase (trim name) = Ok u ->
                  assoc u CAPABILITIES_entries = None) /\
  parseCapabilities (JStr "bogus") = Ok (JNum (Int 0)) /\
  opt_capabilities (override_options 0) = JNum (Int 0) /\
  compile (override_options 0) (parsed minimal_module) =
    compile {| opt_debug := opt_debug (override_options 0);
               opt_optimize := opt_optimize (override_options 0);
               opt_verbose := opt_verbose (override_options 0);
               opt_capabilities := JNull |} (parsed minimal_module).
Proof.
  assert (H1 : String.prefix "0x" "bogus" = false) by reflexivity.
  assert (H2 : forall name u, In name (js_split "," "bogus") ->
                              toUpperCase (trim name) = Ok u ->
                              assoc u CAPABILITIES_entries = None).
  { intros name u Hin Hu. vm_compute in Hin. destruct Hin as [<- | []].
    vm_compute in Hu. injection Hu as <-. reflexivity. }
  assert (H3 : parseCapabilities (JStr "bogus") = Ok (JNum (Int 0)))
    by (vm_compute; reflexivity).
  assert (H4 : opt_capabilities (override_options 0) = JNum (Int 0)) by reflexivity.
  split; [exact H1 |]. split; [exact H2 |]. split; [exact H3 |]. split; [exact H4 |].
  exact (@unknown_names_are_ignored "bogus" (JNum (Int 0)) (override_options 0)
           (parsed minimal_module) H1 H2 H3 H4).
Defined.

Lemma inferred_capabilities_are_needed_witness :
  Z.testbit (computeRequiredCapabilities (pr_apiCalls (parsed shell_module))
               (pr_commands (parsed shell_module))) 6 = true /\
  (Z.testbit CAPABILITIES.LOG 6 = true \/
   pr_commands (parsed shell_module) <> [] /\ Z.testbit CAPABILITIES.COMMAND 6 = true \/
   exists call method apiInfo,
     In call (pr_apiCalls (parsed shell_module)) /\ call_method call = Some method /\
     assoc method API_FUNCTIONS = Some apiInfo /\
     Z.testbit (capability apiInfo) 6 = true).
Proof.
  assert (H : Z.testbit (computeRequiredCapabilities (pr_apiCalls (parsed shell_module))
                           (pr_commands (parsed shell_module))) 6 = true)
    by (vm_compute; reflexivity).
  split; [exact H |].
  exact (@inferred_capabilities_are_needed (pr_apiCalls (parsed shell_module))
           (pr_commands (parsed shell_module)) 6 H).
Defined.

Lemma symbol_records_witness :
  generate (parsed calls_module) = Ok (generated_of calls_module) /\
  compile default_options (parsed calls_module) = Ok (compiled_of calls_module) /\
  nth_error (cg_functions (generated_of calls_module)) 1 = Some ("helper"%string, 36) /\
  let symtab := symtab_section (binary (compiled_of calls_module)) in
  symtab_size (binary (compiled_of calls_module))
    = 12 * Z.of_nat (List.length (cg_functions (generated_of calls_module))) /\
  readUInt32LE symtab (12 * 1)
    = nameOffsetAfter (firstn 1 (cg_functions (generated_of calls_module))) /\
  readUInt32LE symtab (12 * 1 + 4) = 36 /\
  readUInt16LE symtab (12 * 1 + 8) = 0 /\
  readUInt8 symtab (12 * 1 + 10) = AKM_FORMAT.SYM_FUNC /\
  readUInt8 symtab (12 * 1 + 11) = AKM_FORMAT.BIND_GLOBAL.
Proof.
  assert (H1 : generate (parsed calls_module) = Ok (generated_of calls_module))
    by (vm_compute; reflexivity).
  assert (H2 : compile default_options (parsed calls_module)
               = Ok (compiled_of calls_module)) by (vm_compute; reflexivity).
  assert (H3 : nth_error (cg_functions (generated_of calls_module)) 1
               = Some ("helper"%string, 36)) by (vm_compute; reflexivity).
  split; [exact H1 |]. split; [exact H2 |]. split; [exact H3 |].
  exact (@symbol_records default_options (parsed calls_module)
           (generated_of calls_module) (compiled_of calls_module) 1 "helper"%string 36
           H1 H2 H3).
Defined.

Lemma string_table_is_stored_twice_witness :
  opt_optimize default_options = false /\
  compile default_options (parsed shell_module) = Ok (compiled_of shell_module) /\
  exists stubs,
    data_section (binary (compiled_of shell_module))
      = strtab_section (binary (compiled_of shell_module)) ++ stubs /\
    List.length stubs = (20 * List.length (pr_commands (parsed shell_module)))%nat.
Proof.
  assert (H1 : opt_optimize default_options = false) by reflexivity.
  assert (H2 : compile default_options (parsed shell_module)
               = Ok (compiled_of shell_module)) by (vm_compute; reflexivity).
  split; [exact H1 |]. split; [exact H2 |].
  exact (@string_table_is_stored_twice default_options (parsed shell_module)
           (compiled_of shell_module) H1 H2).
Defined.

Lemma instructions_are_emitted_in_place_witness :
  generate (parsed calls_module) = Ok (generated_of calls_module) /\
  buildStringTable (ir_strings (pr_ir (parsed calls_module)))
    = Ok (string_table_of calls_module) /\
  ir_functions (pr_ir (parsed calls_module))
    = [] ++ function_at calls_module 0
         :: skipn 1 (ir_functions (pr_ir (parsed calls_module))) /\
  f_instructions (function_at calls_module 0)
    = firstn 4 (f_instructions (function_at calls_module 0))
      ++ instruction_at (function_at calls_module 0) 4
         :: skipn 5 (f_instructions (function_at calls_module 0)) /\
  fixes (instruction_at (function_at calls_module 0) 4) = false /\
  section (cg_code (generated_of calls_module))
    (Z.of_nat (instructionOffset [] (function_at calls_module 0)
                 (firstn 4 (f_instructions (function_at calls_module 0)))))
    (Z.of_nat (instructionSize (instruction_at (function_at calls_module 0) 4)))
  = emitted (instruction_at (function_at calls_module 0) 4)
      (string_table_of calls_module) (function_at calls_module 0).
Proof.
  assert (H1 : generate (parsed calls_module) = Ok (generated_of calls_module))
    by (vm_compute; reflexivity).
  assert (H2 : buildStringTable (ir_strings (pr_ir (parsed calls_module)))
               = Ok (string_table_of calls_module)) by (vm_compute; reflexivity).
  assert (H3 : ir_functions (pr_ir (parsed calls_module))
               = [] ++ function_at calls_module 0
                    :: skipn 1 (ir_functions (pr_ir (parsed calls_module))))
    by (vm_compute; reflexivity).
  assert (H4 : f_instructions (function_at calls_module 0)
               = firstn 4 (f_instructions (function_at calls_module 0))
                 ++ instruction_at (function_at calls_module 0) 4
                    :: skipn 5 (f_instructions (function_at calls_module 0)))
    by (vm_compute; reflexivity).
  assert (H5 : fixes (instruction_at (function_at calls_module 0) 4) = false)
    by (vm_compute; reflexivity).
  split; [exact H1 |]. split; [exact H2 |]. split; [exact H3 |]. split; [exact H4 |].
  split; [exact H5 |].
  exact (@instructions_are_emitted_in_place (parsed calls_module)
           (generated_of calls_module) (string_table_of calls_module)
           [] (skipn 1 (ir_functions (pr_ir (parsed calls_module))))
           (function_at calls_module 0)
           (firstn 4 (f_instructions (function_at calls_module 0)))
           (skipn 5 (f_instructions (function_at calls_module 0)))
           (instruction_at (function_at calls_module 0) 4)
           H1 H2 H3 H4 H5).
Defined.


Lemma api_calls_name_their_method_witness :
  generate (parsed calls_module) = Ok (generated_of calls_module) /\
  ir_functions (pr_ir (parsed calls_module))
    = [] ++ function_at calls_module 0
         :: skipn 1 (ir_functions (pr_ir (parsed calls_module))) /\
  f_instructions (function_at calls_module 0)
    = firstn 3 (f_instructions (function_at calls_module 0))
      ++ instruction_at (function_at calls_module 0) 3
         :: skipn 4 (f_instructions (function_at calls_module 0)) /\
  i_op (instruction_at (function_at calls_module 0) 3) = OPCODES.CALL_API /\
  i_method (instruction_at (function_at calls_module 0) 3) = Some "info"%string /\
  let p := instructionOffset [] (function_at calls_module 0)
             (firstn 3 (f_instructions (function_at calls_module 0))) in
  byte_at (cg_code (generated_of calls_module)) p = OPCODES.CALL_API /\
  byte_at (cg_code (generated_of calls_module)) (p + 2)
    = js_and (i_argc (instruction_at (function_at calls_module 0) 3)) 255 /\
  match find_index (fun e => String.eqb (fst e) "info") API_FUNCTIONS with
  | Some index =>
      byte_at (cg_code (generated_of calls_module)) (p + 1) = Z.of_nat index /\
      nth_error (map fst API_FUNCTIONS) index = Some "info"%string
  | None =>
      byte_at (cg_code (generated_of calls_module)) (p + 1) = 255 /\
      ~ In "info"%string (map fst API_FUNCTIONS)
  end.
Proof.
  assert (H1 : generate (parsed calls_module) = Ok (generated_of calls_module))
    by (vm_compute; reflexivity).
  assert (H2 : ir_functions (pr_ir (parsed calls_module))
               = [] ++ function_at calls_module 0
                    :: skipn 1 (ir_functions (pr_ir (parsed calls_module))))
    by (vm_compute; reflexivity).
  assert (H3 : f_instructions (function_at calls_module 0)
               = firstn 3 (f_instructions (function_at calls_module 0))
                 ++ instruction_at (function_at calls_module 0) 3
                    :: skipn 4 (f_instructions (function_at calls_module 0)))
    by (vm_compute; reflexivity).
  assert (H4 : i_op (instruction_at (function_at calls_module 0) 3) = OPCODES.CALL_API)
    by (vm_compute; reflexivity).
  assert (H5 : i_method (instruction_at (function_at calls_module 0) 3)
               = Some "info"%string) by (vm_compute; reflexivity).
  split; [exact H1 |]. split; [exact H2 |]. split; [exact H3 |]. split; [exact H4 |].
  split; [exact H5 |].
  exact (@api_calls_name_their_method (parsed calls_module) (generated_of calls_module)
           [] (skipn 1 (ir_functions (pr_ir (parsed calls_module))))
           (function_at calls_module 0)
           (firstn 3 (f_instructions (function_at calls_module 0)))
           (skipn 4 (f_instructions (function_at calls_module 0)))
           (instruction_at (function_at calls_module 0) 3) "info"%string
           H1 H2 H3 H4 H5).
Defined.

Lemma name_field_is_truncated_and_padded_witness :
  compile default_options (parsed hello_module) = Ok (compiled_of hello_module) /\
  exists name,
    mi_name (info (compiled_of hello_module)) = JStr name /\ name <> ""%string /\
    section (binary (compiled_of hello_module)) 16 32
      = firstn 32 (utf8 (slice0 31 name) ++ repeat 0 32).
Proof.
  assert (H : compile default_options (parsed hello_module)
              = Ok (compiled_of hello_module)) by (vm_compute; reflexivity).
  split; [exact H |].
  exact (@name_field_is_truncated_and_padded default_options (parsed hello_module)
           (compiled_of hello_module) H).
Defined.

Lemma dependency_count_is_capped_witness :
  compile default_options (parsed deps_module) = Ok (compiled_of deps_module) /\
  mi_dependencies (info (compiled_of deps_module)) = JArr five_dependencies /\
  exists r,
    showModuleInfo "deps.akm" (Some (binary (compiled_of deps_module))) = Prints r /\
    r_depCount r = Z.min (Z.of_nat (List.length five_dependencies)) 4.
Proof.
  assert (H1 : compile default_options (parsed deps_module) = Ok (compiled_of deps_module))
    by (vm_compute; reflexivity).
  assert (H2 : mi_dependencies (info (compiled_of deps_module)) = JArr five_dependencies)
    by (vm_compute; reflexivity).
  split; [exact H1 |]. split; [exact H2 |].
  exact (@dependency_count_is_capped default_options (parsed deps_module)
           (compiled_of deps_module) five_dependencies "deps.akm" H1 H2).
Defined.

Lemma printed_capabilities_parse_back_witness :
  0 <= 2113 < two32 /\
  parseCapabilities (JStr (capabilitiesText 2113)) = Ok (JNum (Int 2113)).
Proof.
  assert (H : 0 <= 2113 < two32) by (unfold two32; lia).
  split; [exact H |].
  exact (@printed_capabilities_parse_back 2113 H).
Defined.
